(** * vk_ddisplay: the per-frame resource and submission engine

    A shallow embedding of the region allocator (vulkan_memory_pool.cpp),
    the deferred deallocation queue (logical_device.cpp), the command
    execution unit (command_execution_unit.cpp), the upload coordinator
    (vulkan_memory_object_uploader.cpp) and the worker render thread
    (render_thread.cpp), with the properties of spec.md stated and settled
    against them; then the code around them: the lifetime of pages and
    pool allocations, device setup and frames (logical_device.cpp), the
    logical display (logical_display.cpp), the render thread of a canvas
    region (canvas_region_render_thread.cpp), meshes and instance sets
    (triangle_mesh.cpp, triangle_mesh_instance_set.cpp), the scene
    (scene.cpp) and the application (vk_ddisplay_app.cpp), with
    properties read off that code. *)

From stdpp Require Import gmap list strings sorting.

#[global] Set Warnings "-clear-no-such-hyp".

(** ** Machine integers and undefined behaviour *)

Module Machine.
Local Open Scope Z_scope.

(** [size_t], [uint64_t] and [FrameIndex] are 64 bits wide, [uint32_t] is
    32 bits wide; unsigned arithmetic wraps around. *)
Definition wrap64 (z : Z) : Z := z mod 2 ^ 64.
Definition wrap32 (z : Z) : Z := z mod 2 ^ 32.

(** What the C++ standard leaves undefined, or what ends the call by an
    exception, is made explicit: a computation either finishes with a
    value or stops at the first such event. *)
Inductive fault : Set :=
| DivisionByZero      (* [x % 0] *)
| OutOfBounds         (* dereferencing an iterator that is not dereferenceable *)
| BadOptionalAccess   (* [std::optional::value()] on an empty optional *)
| DriverError.        (* the Vulkan driver call threw *)

Inductive exec (A : Type) : Type :=
| Done (a : A)
| Fault (f : fault).
Global Arguments Done {A} a.
Global Arguments Fault {A} f.

Global Instance exec_ret : MRet exec := λ A a, Done a.
Global Instance exec_bind : MBind exec := λ A B k m,
  match m with
  | Done a => k a
  | Fault f => Fault f
  end.

(** [*it] for an iterator at position [i] of a vector: defined only for
    [i < size()]. *)
Definition deref {A} (v : list A) (i : nat) : exec A :=
  match v !! i with
  | Some x => Done x
  | None => Fault OutOfBounds
  end.

(** [v.insert(v.begin() + i, x)] and [v.erase(v.begin() + i)] *)
Definition vec_insert {A} (i : nat) (x : A) (v : list A) : list A :=
  take i v ++ x :: drop i v.
Definition vec_erase {A} (i : nat) (v : list A) : list A :=
  take i v ++ drop (S i) v.

(** [std::lower_bound(first, last, val)] with [operator<], in the form the
    standard library implements it: a bisection over [len] remaining
    elements starting at [first]. The loop halves [len], so [len] itself
    is enough fuel. *)
Fixpoint lower_bound_loop {A} (lt : A → A → bool) (v : list A) (val : A)
    (fuel first len : nat) : nat :=
  match fuel with
  | O => first
  | S fuel' =>
    match len with
    | O => first
    | S _ =>
      let half := Nat.div2 len in
      let middle := (first + half)%nat in
      match v !! middle with
      | Some x =>
        if lt x val
        then lower_bound_loop lt v val fuel' (S middle) (len - half - 1)%nat
        else lower_bound_loop lt v val fuel' first half
      | None => first
      end
    end
  end.

Definition lower_bound {A} (lt : A → A → bool) (v : list A) (val : A) : nat :=
  lower_bound_loop lt v val (length v) 0%nat (length v).

(** The partition point: the number of leading elements that compare
    less than [val]. *)
Fixpoint partition_point {A} (lt : A → A → bool) (v : list A) (val : A) : nat :=
  match v with
  | [] => O
  | x :: v' => if lt x val then S (partition_point lt v' val) else O
  end.

(** [v] is partitioned with respect to [val]: no element less than [val]
    follows one that is not. *)
Fixpoint partitioned {A} (lt : A → A → bool) (v : list A) (val : A) : Prop :=
  match v with
  | [] => True
  | x :: v' =>
    (if lt x val then partitioned lt v' val
     else Forall (λ y, lt y val = false) v')
  end.
End Machine.

Import Machine.

(** ** Region allocator (vulkan_memory_pool.cpp) *)

Module MemoryPool.
Local Open Scope Z_scope.

Record Interval : Set := mkInterval { m_begin : Z; m_end : Z }.

Global Instance Interval_eq_dec : EqDecision Interval.
Proof. solve_decision. Defined.

(** [Interval::operator<] *)
Definition Interval_lt (left right : Interval) : bool :=
  if negb (m_begin left =? m_begin right)
  then m_begin left <? m_begin right
  else m_end left <? m_end right.

(** [Interval::intersects] *)
Definition intersects (self other : Interval) : bool :=
  (m_begin self <? m_end other) && (m_begin other <? m_end self).

(** A [vk::DeviceMemory] handle. *)
Definition DeviceMemory := nat.

(** [struct PageAllocation]; the device and the mapped pointer play no
    part in the bookkeeping and are left out. *)
Record PageAllocation : Set := mkPage {
  m_devMem : DeviceMemory;
  m_size : Z;
  m_freeIntervals : list Interval
}.

(** [PageAllocation::PageAllocation(device, devMem, size)] *)
Definition newPage (devMem : DeviceMemory) (size : Z) : PageAllocation :=
  mkPage devMem size [mkInterval 0 size].

Definition set_freeIntervals (pa : PageAllocation) (free : list Interval) : PageAllocation :=
  mkPage (m_devMem pa) (m_size pa) free.

(** The aligned start the request loop computes for a free interval that
    begins at [b]. *)
Definition alignedBeginOf (b alignment : Z) : Z :=
  wrap64 (b + wrap64 (alignment - b mod alignment) mod alignment).

(** [PageAllocation::requestInterval]: the loop over the free intervals,
    returning the carved interval (if any) and the updated vector. *)
Fixpoint requestInterval (size alignment : Z) (free : list Interval)
    : exec (option Interval * list Interval) :=
  match free with
  | [] => Done (None, [])
  | interval :: rest =>
    if alignment =? 0 then Fault DivisionByZero else
    let alignedBegin := alignedBeginOf (m_begin interval) alignment in
    let alignedEnd := wrap64 (alignedBegin + size) in
    if alignedEnd <=? m_end interval then
      if (alignedBegin =? m_begin interval) && (alignedEnd =? m_end interval) then
        Done (Some (mkInterval alignedBegin alignedEnd), rest)
      else if alignedEnd =? m_end interval then
        Done (Some (mkInterval alignedBegin alignedEnd),
              mkInterval (m_begin interval) alignedBegin :: rest)
      else
        let prevIntervalBegin := m_begin interval in
        let interval' := mkInterval alignedEnd (m_end interval) in
        if negb (prevIntervalBegin =? alignedBegin) then
          Done (Some (mkInterval alignedBegin alignedEnd),
                mkInterval prevIntervalBegin alignedBegin :: interval' :: rest)
        else
          Done (Some (mkInterval alignedBegin alignedEnd), interval' :: rest)
    else
      r ← requestInterval size alignment rest;
      Done (r.1, interval :: r.2)
  end.

(** Vector primitives used by [returnInterval]. *)
Definition back {A} (v : list A) : exec A :=
  match last v with
  | Some x => Done x
  | None => Fault OutOfBounds
  end.

Definition set_end (i : Interval) (e : Z) : Interval := mkInterval (m_begin i) e.
Definition set_begin (i : Interval) (b : Z) : Interval := mkInterval b (m_end i).

(** [PageAllocation::returnInterval]. The two [assert]s of the non-end
    branch are not part of the function's behaviour in a release build;
    they say that the returned interval meets neither neighbour. *)
Definition returnInterval (interval : Interval) (free : list Interval)
    : exec (list Interval) :=
  if m_begin interval =? m_end interval then Done free else
  let lbIt := lower_bound Interval_lt free interval in
  if bool_decide (lbIt = length free) then
    (* [!m_freeIntervals.empty() && m_freeIntervals.back().m_end == lbIt->m_begin] *)
    cond ← (if bool_decide (free = []) then Done false
            else b ← back free;
                 at_lb ← deref free lbIt;
                 Done (m_end b =? m_begin at_lb));
    if (cond : bool) then
      at_lb ← deref free lbIt;
      b ← back free;
      Done (<[pred (length free) := set_end b (m_end at_lb)]> free)
    else
      Done (free ++ [interval])
  else
    at_lb ← deref free lbIt;
    mergeWithPrev ← (if bool_decide (lbIt = O) then Done false
                     else prev ← deref free (pred lbIt);
                          Done (m_end prev =? m_begin interval));
    let mergeWithNext := m_end interval =? m_begin at_lb in
    if (mergeWithPrev : bool) && mergeWithNext then
      prev ← deref free (pred lbIt);
      Done (vec_erase lbIt (<[pred lbIt := set_end prev (m_end at_lb)]> free))
    else if mergeWithPrev then
      prev ← deref free (pred lbIt);
      Done (<[pred lbIt := set_end prev (m_end interval)]> free)
    else if mergeWithNext then
      Done (<[lbIt := set_begin at_lb (m_begin interval)]> free)
    else
      Done (vec_insert lbIt interval free).

(** [VulkanMemoryPool::Allocation]: the page's memory handle ([m_devMem]),
    the offset inside the page and the byte length ([m_size]); the two
    members that share a name with [PageAllocation]'s are prefixed [a_]. *)
Record Allocation : Set := mkAllocation {
  a_devMem : DeviceMemory;
  m_devMemOffset : Z;
  a_size : Z
}.

(** [class VulkanMemoryPool], without the device, the device mask, the
    memory type and the mapping flag, which only parameterize the driver
    calls. *)
Record VulkanMemoryPool : Set := mkPool {
  m_minPageAllocationSize : Z;
  m_pageAllocations : list PageAllocation
}.

Definition allocationOf (pa : PageAllocation) (interval : Interval) : Allocation :=
  mkAllocation (m_devMem pa) (m_begin interval)
               (wrap64 (m_end interval - m_begin interval)).

(** The [for] loop of [VulkanMemoryPool::alloc] over the existing pages. *)
Fixpoint alloc_scan (size alignment : Z) (pages : list PageAllocation)
    : exec (option Allocation * list PageAllocation) :=
  match pages with
  | [] => Done (None, [])
  | pageAllocation :: rest =>
    r ← requestInterval size alignment (m_freeIntervals pageAllocation);
    let pageAllocation' := set_freeIntervals pageAllocation r.2 in
    match r.1 with
    | Some interval =>
      Done (Some (allocationOf pageAllocation' interval), pageAllocation' :: rest)
    | None =>
      r' ← alloc_scan size alignment rest;
      Done (r'.1, pageAllocation' :: r'.2)
    end
  end.

(** [VulkanMemoryPool::alloc]. [driver] is what
    [allocateMemoryUnique] answers if it is called: a fresh memory
    handle, or nothing when it throws. *)
Definition alloc (size alignment : Z) (driver : option DeviceMemory)
    (pool : VulkanMemoryPool) : exec (Allocation * VulkanMemoryPool) :=
  r ← alloc_scan size alignment (m_pageAllocations pool);
  match r.1 with
  | Some a => Done (a, mkPool (m_minPageAllocationSize pool) r.2)
  | None =>
    let pageSize := Z.max size (m_minPageAllocationSize pool) in
    match driver with
    | None => Fault DriverError
    | Some devMem =>
      let page := newPage devMem pageSize in
      r' ← requestInterval size alignment (m_freeIntervals page);
      match r'.1 with
      | None => Fault BadOptionalAccess
      | Some interval =>
        let page' := set_freeIntervals page r'.2 in
        Done (allocationOf page' interval,
              mkPool (m_minPageAllocationSize pool) (r.2 ++ [page']))
      end
    end
  end.

(** [std::find_if] over the pages by memory handle. *)
Fixpoint find_page (devMem : DeviceMemory) (pages : list PageAllocation) : option nat :=
  match pages with
  | [] => None
  | pa :: rest =>
    if bool_decide (m_devMem pa = devMem) then Some O
    else S <$> find_page devMem rest
  end.

(** [VulkanMemoryPool::free] *)
Definition free (allocation : Allocation) (pool : VulkanMemoryPool)
    : exec VulkanMemoryPool :=
  match find_page (a_devMem allocation) (m_pageAllocations pool) with
  | None => Fault OutOfBounds
  | Some i =>
    pa ← deref (m_pageAllocations pool) i;
    free' ← returnInterval
              (mkInterval (m_devMemOffset allocation)
                          (wrap64 (m_devMemOffset allocation + a_size allocation)))
              (m_freeIntervals pa);
    Done (mkPool (m_minPageAllocationSize pool)
                 (<[i := set_freeIntervals pa free']> (m_pageAllocations pool)))
  end.

(** One page together with the regions handed out and not yet returned,
    and the calls made on it. *)
Record PageState : Set := mkPageState {
  page : PageAllocation;
  live : list Interval
}.

Inductive page_op : Set :=
| Request (size alignment : Z)
| Release (region : Interval).

Fixpoint remove_first (region : Interval) (l : list Interval) : list Interval :=
  match l with
  | [] => []
  | x :: l' => if bool_decide (x = region) then l' else x :: remove_first region l'
  end.

Definition page_step (o : page_op) (st : PageState) : exec PageState :=
  match o with
  | Request size alignment =>
    r ← requestInterval size alignment (m_freeIntervals (page st));
    Done (mkPageState (set_freeIntervals (page st) r.2)
                      (match r.1 with Some i => i :: live st | None => live st end))
  | Release region =>
    free' ← returnInterval region (m_freeIntervals (page st));
    Done (mkPageState (set_freeIntervals (page st) free') (remove_first region (live st)))
  end.

Fixpoint page_run (ops : list page_op) (st : PageState) : exec PageState :=
  match ops with
  | [] => Done st
  | o :: ops' => st' ← page_step o st; page_run ops' st'
  end.
End MemoryPool.

(** The allocator as spec.md words it, to compare the code with. *)
Module MemoryPoolSpec.
Import MemoryPool.
Local Open Scope Z_scope.

(** The least multiple of [alignment] that is not below [b]. *)
Definition align_up (b alignment : Z) : Z :=
  b + (alignment - b mod alignment) mod alignment.

(** "a free interval big enough once aligned" *)
Definition fits (size alignment : Z) (i : Interval) : Prop :=
  align_up (m_begin i) alignment + size <= m_end i.

Global Instance fits_dec size alignment i : Decision (fits size alignment i).
Proof. unfold fits. apply _. Defined.

Definition page_fits (size alignment : Z) (pa : PageAllocation) : Prop :=
  Exists (fits size alignment) (m_freeIntervals pa).

Global Instance page_fits_dec size alignment pa : Decision (page_fits size alignment pa).
Proof. unfold page_fits. apply _. Defined.

(** "scan existing pages for a free interval big enough once aligned":
    the first page, in creation order, that has such an interval, and the
    first such interval in it. *)
Definition first_fit (size alignment : Z) (pages : list PageAllocation)
    : option (nat * PageAllocation * Interval) :=
  p ← list_find (page_fits size alignment) pages;
  i ← list_find (fits size alignment) (m_freeIntervals p.2);
  Some (p.1, p.2, i.2).

(** The region carved from a fitting interval. *)
Definition carve (size alignment : Z) (pa : PageAllocation) (i : Interval) : Allocation :=
  mkAllocation (m_devMem pa) (align_up (m_begin i) alignment) size.

(** What is left of a fitting interval once the region is carved out of
    it: the bytes in front of the aligned start and the bytes behind the
    region, each only if there are any. *)
Definition remainders (size alignment : Z) (i : Interval) : list Interval :=
  let alignedBegin := align_up (m_begin i) alignment in
  (if bool_decide (m_begin i = alignedBegin) then []
   else [mkInterval (m_begin i) alignedBegin])
  ++ (if bool_decide (alignedBegin + size = m_end i) then []
      else [mkInterval (alignedBegin + size) (m_end i)]).

(** The free list with the region carved out of its [k]-th interval [i]. *)
Definition carved_out (size alignment : Z) (k : nat) (i : Interval)
    (free : list Interval) : list Interval :=
  take k free ++ remainders size alignment i ++ drop (S k) free.

(** Sizes for which no sum of the request loop leaves 64 bits. *)
Definition free_in_range (size alignment : Z) (free : list Interval) : Prop :=
  Forall (λ i, 0 <= m_begin i ∧ m_begin i + alignment + size < 2 ^ 64) free.

Definition pool_in_range (size alignment : Z) (pool : VulkanMemoryPool) : Prop :=
  0 < alignment ∧ 0 <= size ∧ alignment + size < 2 ^ 64 ∧
  0 <= m_minPageAllocationSize pool < 2 ^ 64 ∧
  Forall (λ pa, free_in_range size alignment (m_freeIntervals pa)) (m_pageAllocations pool).
End MemoryPoolSpec.

(** ** Deferred deallocation queue (logical_device.cpp) *)

Module LogicalDevice.
Local Open Scope Z_scope.

Definition NUM_QUEUED_FRAMES : Z := 4.

(** The allocation a container owns; it is released when the container is
    destroyed. *)
Definition Resource := nat.

Record DeallocationContainer : Set := mkDeallocation {
  m_frameIndex : Z;
  m_resource : Resource
}.

Global Instance DeallocationContainer_eq_dec : EqDecision DeallocationContainer.
Proof. solve_decision. Defined.

(** [DeallocationContainer::operator<] *)
Definition DeallocationContainer_lt (self other : DeallocationContainer) : bool :=
  m_frameIndex self <? m_frameIndex other.

(** The part of [LogicalDevice] the queue depends on. *)
Record State : Set := mkState {
  s_frameIndex : Z;
  m_deallocationQueue : list DeallocationContainer
}.

(** [LogicalDevice::scheduleForDeallocation(DeallocationContainer)] *)
Definition scheduleContainer (deallocation : DeallocationContainer) (st : State) : State :=
  let lbIt := lower_bound DeallocationContainer_lt (m_deallocationQueue st) deallocation in
  mkState (s_frameIndex st) (vec_insert lbIt deallocation (m_deallocationQueue st)).

(** [LogicalDevice::scheduleForDeallocation(allocation, numFramesToKeepAlive)]:
    [m_frameIndex + numFramesToKeepAlive] is a 64-bit sum. *)
Definition scheduleForDeallocation (allocation : Resource) (numFramesToKeepAlive : Z)
    (st : State) : State :=
  scheduleContainer
    (mkDeallocation (wrap64 (s_frameIndex st + numFramesToKeepAlive)) allocation) st.

(** The [while] loop at the end of [LogicalDevice::render]: the position
    the iterator [it] stops at. *)
Fixpoint reclaim_scan (frameIndex : Z) (queue : list DeallocationContainer) : nat :=
  match queue with
  | [] => O
  | d :: queue' =>
    if m_frameIndex d <? frameIndex then S (reclaim_scan frameIndex queue') else O
  end.

(** The end of [LogicalDevice::render]: [erase(begin, it)] destroys, and so
    releases, the containers before [it]; then the frame index is
    incremented. The erased containers are returned in queue order. *)
Definition render_reclaim (st : State) : list DeallocationContainer * State :=
  let it := reclaim_scan (s_frameIndex st) (m_deallocationQueue st) in
  (take it (m_deallocationQueue st),
   mkState (wrap64 (s_frameIndex st + 1)) (drop it (m_deallocationQueue st))).

(** [LogicalDevice::interrupt], on the queue: cleared at once. *)
Definition interrupt_clear (st : State) : list DeallocationContainer * State :=
  (m_deallocationQueue st, mkState (s_frameIndex st) []).

(** Operations of a run, and what each frame boundary released. *)
Inductive op : Set :=
| Schedule (allocation : Resource) (numFramesToKeepAlive : Z)
| Render.

(** One entry per [Render]: the frame index the queue was advanced to, and
    the containers released by it. *)
Definition release_log := list (Z * list DeallocationContainer).

Definition run_op (o : op) (st : State) : release_log * State :=
  match o with
  | Schedule a k => ([], scheduleForDeallocation a k st)
  | Render => let r := render_reclaim st in ([(s_frameIndex st, r.1)], r.2)
  end.

Fixpoint run (ops : list op) (st : State) : release_log * State :=
  match ops with
  | [] => ([], st)
  | o :: ops' =>
    let r := run_op o st in
    let r' := run ops' r.2 in
    (r.1 ++ r'.1, r'.2)
  end.
End LogicalDevice.

(** ** Command execution unit (command_execution_unit.cpp) *)

Module CommandExecutionUnit.
Local Open Scope Z_scope.

(** Vulkan handles are opaque numbers; [0] is the null handle. *)
Definition CommandBuffer := nat.
Definition CommandPool := nat.
Definition Fence := nat.
Definition Semaphore := nat.
Definition ThreadId := nat.
Definition DeviceMask := Z.

Record SemaphoreSubmitInfo : Set := mkSemaphoreSubmitInfo {
  semaphore : Semaphore;
  value : Z;
  stageMask : Z;
  deviceIndex : Z
}.

Record CommandBufferPool : Set := mkCommandBufferPool {
  m_commandPool : CommandPool;
  m_commandBuffers : list CommandBuffer;
  m_nextCommandBufferIndex : Z
}.

Record QueueFamilyIndexData : Type := mkQueueFamilyIndexData {
  m_syncFence : Fence;
  m_perThreadCommandBufferPools : gmap ThreadId CommandBufferPool
}.

Record CommandBufferInfo : Set := mkCommandBufferInfo {
  m_commandBufferInfo : CommandBuffer * DeviceMask;
  m_waitSemaphoreInfos : list SemaphoreSubmitInfo;
  m_signalSemaphoreInfos : list SemaphoreSubmitInfo
}.

(** [vk::SubmitInfo2({}, waits, commandBufferInfo, signals)] *)
Record SubmitInfo2 : Set := mkSubmitInfo2 {
  waitSemaphoreInfos : list SemaphoreSubmitInfo;
  commandBufferInfo : CommandBuffer * DeviceMask;
  signalSemaphoreInfos : list SemaphoreSubmitInfo
}.

(** The calls the unit makes on the device, in the order it makes them. *)
Inductive DriverCall : Set :=
| CreateFence (fence : Fence)
| CreateCommandPool (queueFamilyIndex : Z) (pool : CommandPool)
| AllocateCommandBuffer (pool : CommandPool) (cmdBuffer : CommandBuffer)
| WaitForFences (fences : list Fence)
| ResetFences (fences : list Fence)
| ResetCommandPool (pool : CommandPool)
| QueueSubmit2 (queueFamilyIndex : Z) (submits : list SubmitInfo2) (fence : Fence).

(** The unit's members, the device's supply of fresh handles
    ([d_nextHandle]), the calls made on the device and the error log. *)
Record State : Type := mkState {
  m_library : gmap Z QueueFamilyIndexData;
  m_commandBufferInfos : gmap CommandBuffer CommandBufferInfo;
  m_submitOrder : gmap Z (list CommandBuffer);
  d_nextHandle : nat;
  d_calls : list DriverCall;
  log : list string
}.

(** [CommandExecutionUnit::CommandExecutionUnit] *)
Definition init : State := mkState ∅ ∅ ∅ 1 [] [].

(** A default-constructed [QueueFamilyIndexData], as [m_library[q]]
    creates it for a missing key. *)
Definition emptyData : QueueFamilyIndexData := mkQueueFamilyIndexData O ∅.

(** A default-constructed [CommandBufferInfo]. *)
Definition emptyInfo : CommandBufferInfo := mkCommandBufferInfo (O, 0) [] [].

(** The lookup at the head of [requestCommandBufferUnguarded]. *)
Definition find_pool (queueFamilyIndex : Z) (tid : ThreadId) (st : State)
    : option CommandBufferPool :=
  data ← m_library st !! queueFamilyIndex;
  m_perThreadCommandBufferPools data !! tid.

(** Writing through the pointer [cbp] into the library. *)
Definition store_pool (queueFamilyIndex : Z) (tid : ThreadId) (fence : Fence)
    (cbp : CommandBufferPool) (lib : gmap Z QueueFamilyIndexData)
    : gmap Z QueueFamilyIndexData :=
  let data := default emptyData (lib !! queueFamilyIndex) in
  <[queueFamilyIndex :=
      mkQueueFamilyIndexData fence (<[tid := cbp]> (m_perThreadCommandBufferPools data))]> lib.

Definition fence_of (lib : gmap Z QueueFamilyIndexData) (queueFamilyIndex : Z) : Fence :=
  m_syncFence (default emptyData (lib !! queueFamilyIndex)).

(** [CommandExecutionUnit::requestCommandBufferUnguarded], called on
    thread [tid]. *)
Definition requestCommandBufferUnguarded (queueFamilyIndex : Z)
    (deviceMask : option DeviceMask) (tid : ThreadId) (st : State)
    : exec (CommandBuffer * State) :=
  (* find the pool or create fence and pool *)
  let '(cbp, fence, next, calls) :=
    match find_pool queueFamilyIndex tid st with
    | Some cbp => (cbp, fence_of (m_library st) queueFamilyIndex, d_nextHandle st, d_calls st)
    | None =>
      let fence := d_nextHandle st in
      let pool := S (d_nextHandle st) in
      (mkCommandBufferPool pool [] 0, fence, S (S (d_nextHandle st)),
       d_calls st ++ [CreateFence fence; CreateCommandPool queueFamilyIndex pool])
    end in
  (* grow the array by one buffer when the index has reached its size *)
  let '(buffers, next, calls) :=
    if Z.of_nat (length (m_commandBuffers cbp)) <=? m_nextCommandBufferIndex cbp
    then (m_commandBuffers cbp ++ [next], S next,
          calls ++ [AllocateCommandBuffer (m_commandPool cbp) next])
    else (m_commandBuffers cbp, next, calls) in
  cmdBuffer ← deref buffers (Z.to_nat (m_nextCommandBufferIndex cbp));
  let cbp' := mkCommandBufferPool (m_commandPool cbp) buffers
                (wrap32 (m_nextCommandBufferIndex cbp + 1)) in
  Done (cmdBuffer,
        mkState (store_pool queueFamilyIndex tid fence cbp' (m_library st))
                (<[cmdBuffer := mkCommandBufferInfo (cmdBuffer, default 0 deviceMask) [] []]>
                   (m_commandBufferInfos st))
                (<[queueFamilyIndex :=
                     default [] (m_submitOrder st !! queueFamilyIndex) ++ [cmdBuffer]]>
                   (m_submitOrder st))
                next calls (log st)).

(** [CommandExecutionUnit::requestCommandBuffer]: the same under the
    unit's mutex. *)
Definition requestCommandBuffer := requestCommandBufferUnguarded.

(** [CommandExecutionUnit::requestCommandBuffers] *)
Fixpoint requestCommandBuffers (queueFamilyIndices : list Z)
    (deviceMask : option DeviceMask) (tid : ThreadId) (st : State)
    : exec (list CommandBuffer * State) :=
  match queueFamilyIndices with
  | [] => Done ([], st)
  | q :: qs =>
    r ← requestCommandBufferUnguarded q deviceMask tid st;
    r' ← requestCommandBuffers qs deviceMask tid r.2;
    Done (r.1 :: r'.1, r'.2)
  end.

Definition unknown_command_buffer : string := "Unknown command buffer given.".

(** [CommandExecutionUnit::pushWaits] *)
Definition pushWaits (cmdBuffer : CommandBuffer)
    (waitSemaphoreInfos : list SemaphoreSubmitInfo) (st : State) : State :=
  if bool_decide (waitSemaphoreInfos = []) then st else
  match m_commandBufferInfos st !! cmdBuffer with
  | None =>
    mkState (m_library st) (m_commandBufferInfos st) (m_submitOrder st)
            (d_nextHandle st) (d_calls st) (log st ++ [unknown_command_buffer])
  | Some info =>
    let info' := mkCommandBufferInfo (m_commandBufferInfo info)
                   (m_waitSemaphoreInfos info ++ waitSemaphoreInfos)
                   (m_signalSemaphoreInfos info) in
    mkState (m_library st) (<[cmdBuffer := info']> (m_commandBufferInfos st))
            (m_submitOrder st) (d_nextHandle st) (d_calls st) (log st)
  end.

(** [CommandExecutionUnit::pushWait] *)
Definition pushWait (cmdBuffer : CommandBuffer) (waitSemaphoreInfo : SemaphoreSubmitInfo)
    (st : State) : State :=
  pushWaits cmdBuffer [waitSemaphoreInfo] st.

(** [CommandExecutionUnit::pushSignals] *)
Definition pushSignals (cmdBuffer : CommandBuffer)
    (signalSemaphoreInfos : list SemaphoreSubmitInfo) (st : State) : State :=
  if bool_decide (signalSemaphoreInfos = []) then st else
  match m_commandBufferInfos st !! cmdBuffer with
  | None =>
    mkState (m_library st) (m_commandBufferInfos st) (m_submitOrder st)
            (d_nextHandle st) (d_calls st) (log st ++ [unknown_command_buffer])
  | Some info =>
    let info' := mkCommandBufferInfo (m_commandBufferInfo info)
                   (m_waitSemaphoreInfos info)
                   (m_signalSemaphoreInfos info ++ signalSemaphoreInfos) in
    mkState (m_library st) (<[cmdBuffer := info']> (m_commandBufferInfos st))
            (m_submitOrder st) (d_nextHandle st) (d_calls st) (log st)
  end.

(** [CommandExecutionUnit::pushSignal] *)
Definition pushSignal (cmdBuffer : CommandBuffer) (signalSemaphoreInfo : SemaphoreSubmitInfo)
    (st : State) : State :=
  pushSignals cmdBuffer [signalSemaphoreInfo] st.

(** The [vk::SubmitInfo2] that [submit] builds for one command buffer;
    [m_commandBufferInfos[cmdBuffer]] yields a default record for a
    missing key. *)
Definition submitInfoOf (infos : gmap CommandBuffer CommandBufferInfo)
    (cmdBuffer : CommandBuffer) : SubmitInfo2 :=
  let info := default emptyInfo (infos !! cmdBuffer) in
  mkSubmitInfo2 (m_waitSemaphoreInfos info) (m_commandBufferInfo info)
                (m_signalSemaphoreInfos info).


(** The batch [submit] hands to the queue of each family, with the
    family's fence. *)
Definition submit_batches (st : State) : gmap Z (list SubmitInfo2 * Fence) :=
  map_imap (λ (q : Z) (order : list CommandBuffer),
              Some (submitInfoOf (m_commandBufferInfos st) <$> order,
                             fence_of (m_library st) q))
           (m_submitOrder st).

(** [m_library[q]] inside the loop of [submit] creates a missing entry. *)
Definition touch_library (qs : list Z) (lib : gmap Z QueueFamilyIndexData)
    : gmap Z QueueFamilyIndexData :=
  foldl (λ lib q, match lib !! q with
                  | Some _ => lib
                  | None => <[q := emptyData]> lib
                  end) lib qs.

(** [CommandExecutionUnit::submit]: one [submit2] per family, in the
    map's iteration order; then both per-frame maps are cleared. *)
Definition submit (st : State) : State :=
  let batches := map_to_list (submit_batches st) in
  mkState (touch_library (batches.*1) (m_library st)) ∅ ∅ (d_nextHandle st)
          (d_calls st ++ ((λ b, QueueSubmit2 b.1 b.2.1 b.2.2) <$> batches))
          (log st).

(** The fences and the pools of the library, in iteration order. *)
Definition library_fences (lib : gmap Z QueueFamilyIndexData) : list Fence :=
  (λ e, m_syncFence e.2) <$> map_to_list lib.

Definition library_pools (lib : gmap Z QueueFamilyIndexData) : list CommandPool :=
  e ← map_to_list lib;
  (λ t, m_commandPool t.2) <$> map_to_list (m_perThreadCommandBufferPools e.2).

Definition add_calls (calls : list DriverCall) (st : State) : State :=
  mkState (m_library st) (m_commandBufferInfos st) (m_submitOrder st)
          (d_nextHandle st) (d_calls st ++ calls) (log st).

(** [CommandExecutionUnit::waitForIdle] *)
Definition waitForIdle (st : State) : State :=
  let fences := library_fences (m_library st) in
  if bool_decide (fences = []) then st
  else add_calls [WaitForFences fences; ResetFences fences] st.

(** [CommandExecutionUnit::waitForIdleAndReset] *)
Definition waitForIdleAndReset (st : State) : State :=
  let st' := waitForIdle st in
  add_calls (ResetCommandPool <$> library_pools (m_library st')) st'.

(** The calls made on the unit while a frame is recorded. The mutex
    serializes them, so a frame is a sequence of calls, each with the
    thread it is made on. *)
Inductive frame_op : Set :=
| Request (queueFamilyIndex : Z) (deviceMask : option DeviceMask) (tid : ThreadId)
| PushWaits (cmdBuffer : CommandBuffer) (infos : list SemaphoreSubmitInfo)
| PushSignals (cmdBuffer : CommandBuffer) (infos : list SemaphoreSubmitInfo).

(** Running the calls; the result lists the command buffers issued, each
    with the queue family it was requested on, in request order. *)
Fixpoint record_frame (ops : list frame_op) (st : State)
    : exec (list (Z * CommandBuffer) * State) :=
  match ops with
  | [] => Done ([], st)
  | Request q deviceMask tid :: ops' =>
    r ← requestCommandBuffer q deviceMask tid st;
    r' ← record_frame ops' r.2;
    Done ((q, r.1) :: r'.1, r'.2)
  | PushWaits cmdBuffer infos :: ops' => record_frame ops' (pushWaits cmdBuffer infos st)
  | PushSignals cmdBuffer infos :: ops' => record_frame ops' (pushSignals cmdBuffer infos st)
  end.

(** The command buffers issued on queue family [q], in request order. *)
Definition issued_on (q : Z) (issued : list (Z * CommandBuffer)) : list CommandBuffer :=
  (filter (λ p, p.1 = q) issued).*2.

(** A frame on one unit, as [LogicalDevice::render] drives it: wait and
    reset, the frame's calls, then submit. *)
Definition frame (ops : list frame_op) (st : State)
    : exec (list (Z * CommandBuffer) * State) :=
  r ← record_frame ops (waitForIdleAndReset st);
  Done (r.1, submit r.2).

(** The number of command buffers ever allocated for a pool. *)
Definition allocated (queueFamilyIndex : Z) (tid : ThreadId) (st : State) : nat :=
  match find_pool queueFamilyIndex tid st with
  | Some cbp => length (m_commandBuffers cbp)
  | None => O
  end.
End CommandExecutionUnit.

(** ** Upload coordinator (vulkan_memory_object_uploader.cpp) *)

Module Uploader.
Import CommandExecutionUnit.
Local Open Scope Z_scope.

Definition Buffer := nat.

(** Vulkan's flag values. *)
Definition PipelineStage2_None : Z := 0.
Definition PipelineStage2_AllCommands : Z := 0x10000.
Definition PipelineStage2_Copy : Z := 0x100000000.
Definition Access2_None : Z := 0.
Definition Access2_MemoryRead : Z := 0x8000.
Definition Access2_MemoryWrite : Z := 0x10000.

(** [vk::BufferCopy] *)
Record VkBufferCopy : Set := mkVkBufferCopy {
  srcOffset : Z;
  dstOffset : Z;
  size : Z
}.

(** [struct BufferCopy]; the staging allocation is named by its buffer. *)
Record BufferCopy : Set := mkBufferCopy {
  m_srcBufferAllocation : Buffer;
  m_dstBuffer : Buffer;
  m_region : VkBufferCopy;
  m_dstStageMask : Z
}.

(** [vk::BufferMemoryBarrier2] *)
Record BufferMemoryBarrier2 : Set := mkBufferMemoryBarrier2 {
  srcStageMask : Z;
  srcAccessMask : Z;
  dstStageMask : Z;
  dstAccessMask : Z;
  srcQueueFamilyIndex : Z;
  dstQueueFamilyIndex : Z;
  buffer : Buffer;
  offset : Z;
  b_size : Z
}.

Global Instance BufferMemoryBarrier2_eq_dec : EqDecision BufferMemoryBarrier2.
Proof. solve_decision. Defined.

(** What is recorded into a command buffer. *)
Inductive Command : Set :=
| Begin
| CopyBuffer (src dst : Buffer) (region : VkBufferCopy)
| PipelineBarrier2 (bufferMemoryBarriers : list BufferMemoryBarrier2)
| End_.

Record State : Type := mkState {
  m_bufferCopies : list BufferCopy;
  m_transferCmdBuffer : CommandBuffer;
  m_graphicsCmdBuffer : CommandBuffer;
  (** the commands recorded so far, by command buffer *)
  recorded : gmap CommandBuffer (list Command);
  (** the staging buffers handed to [scheduleForDeallocation], in order *)
  scheduled : list Buffer
}.

(** The device's queue family indices, as the uploader reads them. *)
Record Device : Set := mkDevice {
  transferQueueFamilyIndex : Z;
  graphicsQueueFamilyIndex : Z
}.

(** [VulkanMemoryObjectUploader::memcpyHost2Buffer]; [staging] is the
    staging buffer that was allocated for the bytes. *)
Definition memcpyHost2Buffer (dstBuffer : Buffer) (dstBufferOffset size : Z)
    (dstStage : Z) (staging : Buffer) (st : State) : State :=
  mkState (m_bufferCopies st ++
             [mkBufferCopy staging dstBuffer (mkVkBufferCopy 0 dstBufferOffset size) dstStage])
          (m_transferCmdBuffer st) (m_graphicsCmdBuffer st) (recorded st) (scheduled st).

(** [VulkanMemoryObjectUploader::prepare], on thread [tid] at frame
    [frameIndex] with the timeline semaphore [syncSem]. *)
Definition prepare (dev : Device) (syncSem : Semaphore) (frameIndex : Z) (tid : ThreadId)
    (st : State) (unit : CommandExecutionUnit.State)
    : exec (State * CommandExecutionUnit.State) :=
  t ← requestCommandBuffer (transferQueueFamilyIndex dev) None tid unit;
  g ← requestCommandBuffer (graphicsQueueFamilyIndex dev) None tid t.2;
  let unit1 := pushSignal t.1
                 (mkSemaphoreSubmitInfo syncSem (wrap64 (frameIndex + 1)) PipelineStage2_Copy 0)
                 g.2 in
  let unit2 := pushWait g.1
                 (mkSemaphoreSubmitInfo syncSem (wrap64 (frameIndex + 1))
                                        PipelineStage2_AllCommands 0)
                 unit1 in
  Done (mkState (m_bufferCopies st) t.1 g.1 (recorded st) (scheduled st), unit2).

(** The barriers [finish] builds for one pending copy. *)
Definition release_of (dev : Device) (bufferCopy : BufferCopy) : BufferMemoryBarrier2 :=
  mkBufferMemoryBarrier2 PipelineStage2_Copy Access2_MemoryWrite
    PipelineStage2_None Access2_None
    (transferQueueFamilyIndex dev) (graphicsQueueFamilyIndex dev)
    (m_dstBuffer bufferCopy) 0 (size (m_region bufferCopy)).

Definition acquisition_of (dev : Device) (bufferCopy : BufferCopy) : BufferMemoryBarrier2 :=
  mkBufferMemoryBarrier2 PipelineStage2_None Access2_None
    (m_dstStageMask bufferCopy) Access2_MemoryRead
    (graphicsQueueFamilyIndex dev) (transferQueueFamilyIndex dev)
    (m_dstBuffer bufferCopy) 0 (size (m_region bufferCopy)).

(** Recording one command into a command buffer. *)
Definition record (cmdBuffer : CommandBuffer) (c : Command)
    (rec : gmap CommandBuffer (list Command)) : gmap CommandBuffer (list Command) :=
  <[cmdBuffer := default [] (rec !! cmdBuffer) ++ [c]]> rec.

(** One iteration of the second loop of [finish]. *)
Definition finish_copy (transfer graphics : CommandBuffer)
    (releases acquisitions : list BufferMemoryBarrier2)
    (acc : gmap CommandBuffer (list Command) * list Buffer) (bufferCopy : BufferCopy)
    : gmap CommandBuffer (list Command) * list Buffer :=
  let rec1 := record transfer
                (CopyBuffer (m_srcBufferAllocation bufferCopy) (m_dstBuffer bufferCopy)
                            (m_region bufferCopy)) acc.1 in
  let sched := acc.2 ++ [m_srcBufferAllocation bufferCopy] in
  let rec2 := record transfer (PipelineBarrier2 releases) rec1 in
  let rec3 := record graphics (PipelineBarrier2 acquisitions) rec2 in
  (rec3, sched).

(** [VulkanMemoryObjectUploader::finish] *)
Definition finish (dev : Device) (st : State) : State :=
  let transfer := m_transferCmdBuffer st in
  let graphics := m_graphicsCmdBuffer st in
  let rec0 := record graphics Begin (record transfer Begin (recorded st)) in
  let releases := release_of dev <$> m_bufferCopies st in
  let acquisitions := acquisition_of dev <$> m_bufferCopies st in
  let r := foldl (finish_copy transfer graphics releases acquisitions)
                 (rec0, scheduled st) (m_bufferCopies st) in
  let rec1 := record transfer End_ (record graphics End_ r.1) in
  mkState [] transfer graphics rec1 r.2.

(** How often the barrier [b] is recorded in a command stream. *)
Fixpoint barrier_count (b : BufferMemoryBarrier2) (cmds : list Command) : nat :=
  match cmds with
  | [] => O
  | PipelineBarrier2 bs :: cmds' =>
    (length (filter (λ x, x = b) bs) + barrier_count b cmds')%nat
  | _ :: cmds' => barrier_count b cmds'
  end.

Definition commands_of (cmdBuffer : CommandBuffer) (st : State) : list Command :=
  default [] (recorded st !! cmdBuffer).
End Uploader.

(** ** Worker render thread (render_thread.cpp) *)

Module RenderThread.

(** [RenderThread::Status] *)
Inductive Status : Set := CREATED | RECORDING | WAITING | INTERRUPTED.

Global Instance Status_eq_dec : EqDecision Status.
Proof. solve_decision. Defined.

(** Where the worker thread stands. Every access to [m_status] is made
    under [m_mtx], and the worker holds [m_mtx] from the moment it
    leaves [m_cv.wait] (or first locks) until it waits again or exits, so
    the worker's code between two waits is split at the callback only. *)
Inductive WorkerPc : Set :=
| NotStarted   (* [start] has not been called *)
| Entry        (* the thread exists and is about to lock [m_mtx] *)
| InCallback   (* inside [recordCommands], holding [m_mtx] *)
| Blocked      (* inside [m_cv.wait], [m_mtx] released *)
| Exited.      (* the [while] loop has ended *)

Global Instance WorkerPc_eq_dec : EqDecision WorkerPc.
Proof. solve_decision. Defined.

(** Where the orchestrator stands: outside any call, or inside the wait of
    [finishCommandRecording]. *)
Inductive OrchestratorPc : Set := Running | InFinish.

Global Instance OrchestratorPc_eq_dec : EqDecision OrchestratorPc.
Proof. solve_decision. Defined.

Record State : Set := mkState {
  m_status : Status;
  worker : WorkerPc;
  orchestrator : OrchestratorPc;
  invoked : nat;     (* calls of [recordCommands] begun *)
  returned : nat     (* calls of [recordCommands] that have returned *)
}.

(** [RenderThread::RenderThread] *)
Definition init : State := mkState CREATED NotStarted Running O O.

Inductive label : Set :=
| Start                    (* orchestrator: [start()] *)
| RecordCommandsAsync      (* orchestrator: [recordCommandsAsync()] *)
| FinishCommandRecording   (* orchestrator: [finishCommandRecording()] is called *)
| FinishWake               (* orchestrator: the wait inside it is over *)
| Interrupt                (* orchestrator: [interrupt()] *)
| WorkerRun                (* worker: from the lock or the wait to the callback, the next wait or the exit *)
| WorkerReturn.            (* worker: [recordCommands] returns; on to the next wait *)

Global Instance label_eq_dec : EqDecision label.
Proof. solve_decision. Defined.

(** [m_mtx] is free unless the worker is inside the callback. *)
Definition mutex_free (s : State) : bool :=
  negb (bool_decide (worker s = InCallback)).

(** The worker's loop from the point where it holds the lock and tests
    [m_status != INTERRUPTED]. *)
Definition worker_loop (s : State) : State :=
  match m_status s with
  | INTERRUPTED => mkState INTERRUPTED Exited (orchestrator s) (invoked s) (returned s)
  | RECORDING => mkState RECORDING InCallback (orchestrator s) (S (invoked s)) (returned s)
  | _ => mkState WAITING Blocked (orchestrator s) (invoked s) (returned s)
  end.

(** One atomic step; [None] when the step is not enabled. *)
Definition step (l : label) (s : State) : option State :=
  match l with
  | Start =>
    if bool_decide (worker s = NotStarted) && bool_decide (orchestrator s = Running)
    then Some (mkState (m_status s) Entry (orchestrator s) (invoked s) (returned s))
    else None
  | RecordCommandsAsync =>
    if mutex_free s && bool_decide (orchestrator s = Running)
    then Some (mkState RECORDING (worker s) (orchestrator s) (invoked s) (returned s))
    else None
  | FinishCommandRecording =>
    if mutex_free s && bool_decide (orchestrator s = Running)
    then Some (mkState (m_status s) (worker s)
                       (if bool_decide (m_status s = RECORDING) then InFinish else Running)
                       (invoked s) (returned s))
    else None
  | FinishWake =>
    if mutex_free s && bool_decide (orchestrator s = InFinish)
       && bool_decide (m_status s = WAITING)
    then Some (mkState (m_status s) (worker s) Running (invoked s) (returned s))
    else None
  | Interrupt =>
    if mutex_free s && bool_decide (orchestrator s = Running)
    then Some (mkState INTERRUPTED (worker s) (orchestrator s) (invoked s) (returned s))
    else None
  | WorkerRun =>
    match worker s with
    | Entry => Some (worker_loop s)
    | Blocked => if bool_decide (m_status s = WAITING) then None else Some (worker_loop s)
    | _ => None
    end
  | WorkerReturn =>
    match worker s with
    | InCallback => Some (mkState WAITING Blocked (orchestrator s) (invoked s) (S (returned s)))
    | _ => None
    end
  end.

Fixpoint run (tr : list label) (s : State) : option State :=
  match tr with
  | [] => Some s
  | l :: tr' => s' ← step l s; run tr' s'
  end.

Definition is_worker (l : label) : bool :=
  match l with WorkerRun | WorkerReturn => true | _ => false end.

(** The calls made on one render thread, in the order its only caller
    makes them. [LogicalDisplay::start] calls [start()]
    (logical_display.cpp:294); each frame, [renderFrameAsync] calls
    [recordCommandsAsync] (line 324) and [finishFrameRendering] then calls
    [finishCommandRecording] (line 352), which it also does when the
    frame recorded nothing; [LogicalDisplay::interrupt] calls
    [interrupt()] (line 397) once the frame loop is over, and nothing but
    [join()] follows it. The phase says where in this order the caller
    is. *)
Inductive Phase : Set :=
| BeforeStart       (* [start()] has not been called *)
| BetweenCycles     (* started; no [recordCommandsAsync] awaits its [finishCommandRecording] *)
| InCycle           (* [recordCommandsAsync] was called, [finishCommandRecording] not yet *)
| AfterInterrupt.   (* [interrupt()] was called *)

Global Instance Phase_eq_dec : EqDecision Phase.
Proof. solve_decision. Defined.

(** The phase after one more label, or [None] when the caller's order
    does not allow the call there. The worker's steps and the return of
    [finishCommandRecording] are no calls and are allowed anywhere. *)
Definition protocol_step (ph : Phase) (l : label) : option Phase :=
  match l with
  | WorkerRun | WorkerReturn | FinishWake => Some ph
  | Start =>
    match ph with BeforeStart => Some BetweenCycles | _ => None end
  | RecordCommandsAsync =>
    match ph with BetweenCycles => Some InCycle | _ => None end
  | FinishCommandRecording =>
    match ph with InCycle | BetweenCycles => Some BetweenCycles | _ => None end
  | Interrupt =>
    match ph with BetweenCycles => Some AfterInterrupt | _ => None end
  end.

Fixpoint protocol (ph : Phase) (tr : list label) : option Phase :=
  match tr with
  | [] => Some ph
  | l :: tr' => ph' ← protocol_step ph l; protocol ph' tr'
  end.

(** The number of recording cycles begun in a trace: its
    [recordCommandsAsync] calls. *)
Definition cycles (tr : list label) : nat :=
  length (filter (λ l, l = RecordCommandsAsync) tr).
End RenderThread.

Module PageLifetime.
Import MemoryPool.
Local Open Scope Z_scope.

(** The condition [PageAllocation::~PageAllocation] asserts: the page was
    moved from, or its free list is the single interval [[0, m_size)]. *)
Definition destructor_assert (pa : PageAllocation) : bool :=
  (m_size pa =? 0)
  || match m_freeIntervals pa with
     | [front] => (m_begin front =? 0) && (m_end front =? m_size pa)
     | _ => false
     end.
End PageLifetime.

Module PoolRuns.
Import MemoryPool.
Local Open Scope Z_scope.

(** The interval [VulkanMemoryPool::free] returns to the page for an
    allocation. *)
Definition region_of (allocation : Allocation) : Interval :=
  mkInterval (m_devMemOffset allocation)
             (wrap64 (m_devMemOffset allocation + a_size allocation)).

(** A pool together with the allocations handed out and not yet freed,
    and the calls made on it. *)
Record PoolState : Set := mkPoolState {
  pool : VulkanMemoryPool;
  allocations : list Allocation
}.

Inductive pool_op : Set :=
| Alloc (size alignment : Z) (driver : option DeviceMemory)
| Free (allocation : Allocation).

Global Instance Allocation_eq_dec : EqDecision Allocation.
Proof. solve_decision. Defined.

Fixpoint remove_allocation (a : Allocation) (l : list Allocation) : list Allocation :=
  match l with
  | [] => []
  | x :: l' => if bool_decide (x = a) then l' else x :: remove_allocation a l'
  end.

Definition pool_step (o : pool_op) (st : PoolState) : exec PoolState :=
  match o with
  | Alloc size alignment driver =>
    r ← alloc size alignment driver (pool st);
    Done (mkPoolState r.2 (r.1 :: allocations st))
  | Free allocation =>
    pool' ← free allocation (pool st);
    Done (mkPoolState pool' (remove_allocation allocation (allocations st)))
  end.

Fixpoint pool_run (ops : list pool_op) (st : PoolState) : exec PoolState :=
  match ops with
  | [] => Done st
  | o :: ops' => st' ← pool_step o st; pool_run ops' st'
  end.
End PoolRuns.

(** ** Ownership of allocations (vulkan_memory_pool.cpp) *)

Module AllocationOwnership.
Import MemoryPool.
Local Open Scope Z_scope.

(** An object of class [VulkanMemoryPool::Allocation]: [m_memPool], a null
    pointer being [None], and the region; [m_mappedMem] is left out. *)
Record Object : Set := mkObject {
  m_memPool : option nat;
  m_region : Allocation
}.

(** [Allocation::Allocation()], and an object after [clear]. *)
Definition cleared : Object := mkObject None (mkAllocation O 0 0).

(** The objects by address, and the calls of [VulkanMemoryPool::free]:
    the pool and the allocation handed to it, in order. *)
Record State : Type := mkState {
  objects : gmap nat Object;
  freed : list (nat * Allocation)
}.

(** [Allocation::free] on the object at [this]. *)
Definition free (this : nat) (st : State) : option State :=
  o ← objects st !! this;
  match m_memPool o with
  | Some memPool =>
    Some (mkState (<[this := cleared]> (objects st)) (freed st ++ [(memPool, m_region o)]))
  | None => Some st
  end.

(** What a program does with allocation objects. A call on an address
    that holds no object, or a construction at an address that holds one,
    has no result. *)
Inductive op : Set :=
| Construct (this : nat)                              (* [Allocation()] *)
| Return (this memPool : nat) (region : Allocation)   (* the object [alloc] returns *)
| MoveConstruct (this other : nat)                    (* [Allocation(Allocation&&)] *)
| MoveAssign (this other : nat)                       (* [operator=(Allocation&&)] *)
| Free (this : nat)                                   (* [free()] *)
| Destroy (this : nat).                               (* [~Allocation()] *)

Definition step (o : op) (st : State) : option State :=
  match o with
  | Construct this =>
    match objects st !! this with
    | None => Some (mkState (<[this := cleared]> (objects st)) (freed st))
    | Some _ => None
    end
  | Return this memPool region =>
    match objects st !! this with
    | None => Some (mkState (<[this := mkObject (Some memPool) region]> (objects st))
                            (freed st))
    | Some _ => None
    end
  | MoveConstruct this other =>
    match objects st !! this with
    | None =>
      o ← objects st !! other;
      Some (mkState (<[other := cleared]> (<[this := o]> (objects st))) (freed st))
    | Some _ => None
    end
  | MoveAssign this other =>
    if bool_decide (this = other) then _ ← objects st !! this; Some st
    else
      st1 ← free this st;
      o ← objects st1 !! other;
      Some (mkState (<[other := cleared]> (<[this := o]> (objects st1))) (freed st1))
  | Free this => free this st
  | Destroy this =>
    st1 ← free this st;
    Some (mkState (delete this (objects st1)) (freed st1))
  end.

Fixpoint run (ops : list op) (st : State) : option State :=
  match ops with
  | [] => Some st
  | o :: ops' => st' ← step o st; run ops' st'
  end.

(** What an object owns. *)
Definition owned (o : Object) : option (nat * Allocation) :=
  memPool ← m_memPool o; Some (memPool, m_region o).

(** The allocations that [alloc] returned during [ops]. *)
Definition returned (ops : list op) : list (nat * Allocation) :=
  omap (λ o, match o with Return _ memPool region => Some (memPool, region) | _ => None end) ops.
End AllocationOwnership.

(** ** Device setup (logical_device.cpp) *)

Module DeviceSetup.
Local Open Scope Z_scope.

(** [vk::QueueFlagBits] *)
Definition QueueFlagBits_eGraphics : Z := 1.
Definition QueueFlagBits_eTransfer : Z := 4.

(** What [getQueueFamilyProperties] answers for a physical device: the
    queue flags of each family, by family index. *)
Definition QueueFamilyProperties := list Z.

(** [i < props.size() && (props[i].queueFlags & flags)] *)
Definition has_flags (props : QueueFamilyProperties) (i : nat) (flags : Z) : bool :=
  match props !! i with
  | Some queueFlags => negb (Z.land queueFlags flags =? 0)
  | None => false
  end.

(** The innermost loop of [getQueueFamilyIndex]: it runs once per device
    of the group, and each time it queries [physicalDevice], the device of
    the outer loop. *)
Definition desiredFlagsOnAllDevices (m_physicalDevices : list QueueFamilyProperties)
    (physicalDevice : QueueFamilyProperties) (i : nat) (flags : Z) : bool :=
  foldl (λ desired (otherPhysicalDevice : QueueFamilyProperties),
           desired && has_flags physicalDevice i flags)
        true m_physicalDevices.

(** The two outer loops: the set [candidates]. *)
Definition candidates_of (m_physicalDevices : list QueueFamilyProperties) (flags : Z)
    (excludeQueueFamilyIndices : gset nat) : gset nat :=
  foldl (λ candidates physicalDevice,
           foldl (λ candidates i,
                    if decide (i ∈ excludeQueueFamilyIndices) then candidates
                    else if desiredFlagsOnAllDevices m_physicalDevices physicalDevice i flags
                    then {[i]} ∪ candidates
                    else candidates)
                 candidates (seq 0 (length physicalDevice)))
        ∅ m_physicalDevices.

Section Begin.
(** [*candidates.begin()]: which element an unordered set lists first is
    up to the library. *)
Variable begin : gset nat → nat.

(** [LogicalDevice::getQueueFamilyIndex], with the lines it logs. *)
Definition getQueueFamilyIndex (m_physicalDevices : list QueueFamilyProperties)
    (flags : Z) (excludeQueueFamilyIndices : gset nat) : option nat * list string :=
  let candidates := candidates_of m_physicalDevices flags excludeQueueFamilyIndices in
  if decide (candidates = ∅)
  then (None, ["No common queue family index found."])
  else (Some (begin candidates), []).

(** The head of [LogicalDevice::start]: the graphics, the transfer and the
    framebuffer transfer queue family, or the failure of [start]. *)
Definition selectQueueFamilies (m_physicalDevices : list QueueFamilyProperties)
    : option (nat * nat * nat) * list string :=
  let g := getQueueFamilyIndex m_physicalDevices QueueFlagBits_eGraphics ∅ in
  match g.1 with
  | None => (None, g.2 ++ ["No graphics queue family index."])
  | Some graphics =>
    let t := getQueueFamilyIndex m_physicalDevices QueueFlagBits_eTransfer {[graphics]} in
    match t.1 with
    | None => (None, g.2 ++ t.2 ++ ["No dedicated transfer queue family index."])
    | Some transfer =>
      let f := getQueueFamilyIndex m_physicalDevices QueueFlagBits_eTransfer
                 {[graphics; transfer]} in
      match f.1 with
      | None => (None, g.2 ++ t.2 ++ f.2
                       ++ ["No two dedicated transfer queue family indices."])
      | Some framebufferTransfer =>
        (Some (graphics, transfer, framebufferTransfer), g.2 ++ t.2 ++ f.2)
      end
    end
  end.
End Begin.

(** What [getMemoryProperties] answers: the property flags of each memory
    type, [memoryTypeCount] of them (at most 32, the size of the array). *)
Definition MemoryTypes := list Z.

(** The condition of the loop of [getMemoryTypeIndex]; [1 << i] is bit [i]
    for [i < 32]. *)
Definition suitable (memoryTypeBits memPropFlags : Z) (i : nat) (propertyFlags : Z) : bool :=
  Z.testbit memoryTypeBits (Z.of_nat i) && (Z.land propertyFlags memPropFlags =? memPropFlags).

Fixpoint memoryTypeLoop (i : nat) (memoryTypes : MemoryTypes)
    (memoryTypeBits memPropFlags : Z) : option nat :=
  match memoryTypes with
  | [] => None
  | propertyFlags :: rest =>
    if suitable memoryTypeBits memPropFlags i propertyFlags then Some i
    else memoryTypeLoop (S i) rest memoryTypeBits memPropFlags
  end.

(** [LogicalDevice::getMemoryTypeIndex], with the line it logs. *)
Definition getMemoryTypeIndex (memoryTypes : MemoryTypes) (memoryTypeBits memPropFlags : Z)
    : Z * list string :=
  match memoryTypeLoop 0 memoryTypes memoryTypeBits memPropFlags with
  | Some i => (Z.of_nat i, [])
  | None => (wrap32 (-1), ["Failed to allocate device memory."])
  end.
End DeviceSetup.

(** ** Frames on a logical device (logical_device.cpp) *)

Module DeviceFrames.
Import LogicalDevice.
Local Open Scope Z_scope.

(** What a frame does with the command execution units and the
    deallocation queue. *)
Inductive Event : Set :=
| WaitUnit (unit : Z)                       (* [waitForIdle] / [waitForIdleAndReset] *)
| SubmitUnit (unit : Z)                     (* [submit] *)
| Released (d : DeallocationContainer).     (* the container is destroyed *)

(** The unit [render] works with. *)
Definition unitOf (frameIndex : Z) : Z := frameIndex mod NUM_QUEUED_FRAMES.

(** [LogicalDevice::render]: the frame's unit is waited for and reset;
    while the frame is recorded the allocations [scheduled] are scheduled
    for deallocation, each with its number of frames to keep it alive; the
    unit is submitted; the due containers are erased; the frame index is
    incremented. *)
Definition render (scheduled : list (Resource * Z)) (st : State) : list Event * State :=
  let unit := unitOf (s_frameIndex st) in
  let st1 := foldl (λ s a, scheduleForDeallocation a.1 a.2 s) st scheduled in
  let r := render_reclaim st1 in
  ([WaitUnit unit; SubmitUnit unit] ++ (Released <$> r.1), r.2).

(** [LogicalDevice::interrupt]: one unit is waited for, then the queue is
    cleared. *)
Definition interrupt (st : State) : list Event * State :=
  let unit := wrap64 (wrap64 (s_frameIndex st + NUM_QUEUED_FRAMES) - 1) mod NUM_QUEUED_FRAMES in
  ([WaitUnit unit] ++ (Released <$> m_deallocationQueue st),
   mkState (s_frameIndex st) []).

(** Frames one after the other. *)
Fixpoint frames (fs : list (list (Resource * Z))) (st : State) : list Event * State :=
  match fs with
  | [] => ([], st)
  | scheduled :: fs' =>
    let r := render scheduled st in
    let r' := frames fs' r.2 in
    (r.1 ++ r'.1, r'.2)
  end.
End DeviceFrames.

Module SubmitInfos.
Import CommandExecutionUnit.
Local Open Scope Z_scope.

(** The semaphore operations that a sequence of calls pushes for the
    command buffer [cb], in the order of the calls. *)
Fixpoint pushed_waits (cb : CommandBuffer) (ops : list frame_op) : list SemaphoreSubmitInfo :=
  match ops with
  | [] => []
  | PushWaits c infos :: ops' =>
    (if bool_decide (c = cb) then infos else []) ++ pushed_waits cb ops'
  | _ :: ops' => pushed_waits cb ops'
  end.

Fixpoint pushed_signals (cb : CommandBuffer) (ops : list frame_op)
    : list SemaphoreSubmitInfo :=
  match ops with
  | [] => []
  | PushSignals c infos :: ops' =>
    (if bool_decide (c = cb) then infos else []) ++ pushed_signals cb ops'
  | _ :: ops' => pushed_signals cb ops'
  end.
End SubmitInfos.

(** ** Fences of a command execution unit (command_execution_unit.cpp) *)

Module FenceTraces.
Import CommandExecutionUnit.
Local Open Scope Z_scope.

(** The fences handed to [submit2] by the calls [calls]. *)
Definition submitted_fences (calls : list DriverCall) : list Fence :=
  omap (λ c, match c with QueueSubmit2 _ _ fence => Some fence | _ => None end) calls.
End FenceTraces.

Module Uploads.
Import CommandExecutionUnit Uploader.
Local Open Scope Z_scope.

(** A call of [memcpyHost2Buffer], with the staging buffer allocated for
    it. *)
Record Upload : Set := mkUpload {
  u_dstBuffer : Buffer;
  u_dstBufferOffset : Z;
  u_size : Z;
  u_dstStageMask : Z;
  u_staging : Buffer
}.

Definition upload (u : Upload) (st : Uploader.State) : Uploader.State :=
  memcpyHost2Buffer (u_dstBuffer u) (u_dstBufferOffset u) (u_size u) (u_dstStageMask u)
                    (u_staging u) st.

(** The buffer copies recorded in a command stream, in order. *)
Definition copies_of (cmds : list Command) : list (Buffer * Buffer * VkBufferCopy) :=
  omap (λ c, match c with
             | CopyBuffer src dst region => Some (src, dst, region)
             | _ => None
             end) cmds.
End Uploads.

Module RenderThreadTraces.
Import RenderThread.

(** The number of [recordCommandsAsync] calls in a trace. *)
Definition requests (tr : list label) : nat :=
  length (filter (λ l, l = RecordCommandsAsync) tr).

(** A request the worker has not picked up yet. *)
Definition pending (s : State) : nat :=
  if bool_decide (m_status s = RECORDING ∧ worker s ≠ InCallback) then 1 else 0.
End RenderThreadTraces.

(** ** Logical display (logical_display.cpp) *)

Module LogicalDisplay.
Local Open Scope Z_scope.

(** [int32_t]: the conversion from a wider or unsigned value, and signed
    arithmetic, whose overflow is undefined. *)
Definition INT32_MAX : Z := 2 ^ 31 - 1.
Definition INT32_MIN : Z := - 2 ^ 31.
Definition to_int32 (z : Z) : Z := (z + 2 ^ 31) mod 2 ^ 32 - 2 ^ 31.
Definition int32_result (z : Z) : option Z :=
  if (INT32_MIN <=? z) && (z <=? INT32_MAX) then Some z else None.

(** [vk::DisplayModePropertiesKHR]: the mode, its visible region and its
    refresh rate. *)
Record DisplayModeProperties : Set := mkDisplayModeProperties {
  displayMode : nat;
  visibleRegion_width : Z;
  visibleRegion_height : Z;
  refreshRate : Z
}.

(** The comparison [LogicalDisplay::init] hands to [std::max_element]. *)
Definition mode_lt (a b : DisplayModeProperties) : bool :=
  if negb (visibleRegion_width a =? visibleRegion_width b)
  then visibleRegion_width a <? visibleRegion_width b
  else if negb (visibleRegion_height a =? visibleRegion_height b)
  then visibleRegion_height a <? visibleRegion_height b
  else refreshRate a <? refreshRate b.

(** [std::max_element]: the position of the first largest element; for an
    empty range the past-the-end position. [result] is the position and
    the value of the largest element so far, [first] the position of the
    head of [rest]. *)
Fixpoint max_element_loop {A} (lt : A → A → bool) (result : nat * A) (first : nat)
    (rest : list A) : nat :=
  match rest with
  | [] => result.1
  | x :: rest' =>
    max_element_loop lt (if lt result.2 x then (first, x) else result) (S first) rest'
  end.

Definition max_element {A} (lt : A → A → bool) (v : list A) : nat :=
  match v with
  | [] => O
  | x :: rest => max_element_loop lt (O, x) 1 rest
  end.

(** The display mode [init] selects: [*std::max_element(...)]. *)
Definition selectDisplayMode (allDisplayModeProps : list DisplayModeProperties)
    : exec DisplayModeProperties :=
  deref allDisplayModeProps (max_element mode_lt allDisplayModeProps).

(** [vk::Rect2D]: an [int32_t] offset and a [uint32_t] extent. *)
Record Rect2D : Set := mkRect2D {
  offset_x : Z;
  offset_y : Z;
  extent_width : Z;
  extent_height : Z
}.

(** [contains(rect, x, y)]; the sums are made in [uint32_t] and converted. *)
Definition contains (rect : Rect2D) (x y : Z) : bool :=
  (offset_x rect <=? x)
  && (x <? to_int32 (wrap32 (offset_x rect + extent_width rect)))
  && (offset_y rect <=? y)
  && (y <? to_int32 (wrap32 (offset_y rect + extent_height rect))).

(** [minX], [maxX], [minY], [maxY] of [pushRenderContext]. *)
Record Bounds : Set := mkBounds { minX : Z; maxX : Z; minY : Z; maxY : Z }.

(** One iteration of the loop over the present rectangles. *)
Definition bounds_step (b : Bounds) (presentRect : Rect2D) : option Bounds :=
  right ← int32_result (offset_x presentRect + to_int32 (extent_width presentRect));
  bottom ← int32_result (offset_y presentRect + to_int32 (extent_height presentRect));
  Some (mkBounds (Z.min (minX b) (offset_x presentRect)) (Z.max (maxX b) right)
                 (Z.min (minY b) (offset_y presentRect)) (Z.max (maxY b) bottom)).

Fixpoint bounds_loop (b : Bounds) (presentRects : list Rect2D) : option Bounds :=
  match presentRects with
  | [] => Some b
  | presentRect :: rest => b' ← bounds_step b presentRect; bounds_loop b' rest
  end.

Definition bounds_of (presentRects : list Rect2D) : option Bounds :=
  bounds_loop (mkBounds INT32_MAX INT32_MIN INT32_MAX INT32_MIN) presentRects.

(** [for(int32_t x = first; tightlyPacked && x < bound; ++x) body]: the
    loop runs at most [bound - first] times. *)
Fixpoint for_while (fuel : nat) (x bound : Z) (body : Z → bool → bool)
    (tightlyPacked : bool) : bool :=
  match fuel with
  | O => tightlyPacked
  | S fuel' =>
    if tightlyPacked && (x <? bound)
    then for_while fuel' (x + 1) bound body (body x tightlyPacked)
    else tightlyPacked
  end.

(** [std::find_if(...) != presentRects.end()] *)
Definition coveredBy (presentRects : list Rect2D) (x y : Z) : bool :=
  existsb (λ presentRect, contains presentRect x y) presentRects.

(** The check of [pushRenderContext] that follows the bounds: the outer
    loop runs over [minY <= y < maxY], the inner one over
    [minX <= x < minX]. *)
Definition tightlyPacked (b : Bounds) (presentRects : list Rect2D) : bool :=
  for_while (Z.to_nat (maxY b - minY b)) (minY b) (maxY b)
    (λ y tightlyPacked,
       for_while (Z.to_nat (minX b - minX b)) (minX b) (minX b)
         (λ x tightlyPacked, tightlyPacked && coveredBy presentRects x y)
         tightlyPacked)
    true.

(** The render area handed to the render thread. *)
Definition renderArea_of (b : Bounds) : option Rect2D :=
  width ← int32_result (maxX b - minX b);
  height ← int32_result (maxY b - minY b);
  Some (mkRect2D (minX b) (minY b) (wrap32 width) (wrap32 height)).

Definition renderArea (presentRects : list Rect2D) : option Rect2D :=
  b ← bounds_of presentRects; renderArea_of b.
End LogicalDisplay.

(** ** Render thread of a canvas region (canvas_region_render_thread.cpp) *)

Module CanvasRegionRenderThread.
Import CommandExecutionUnit.
Local Open Scope Z_scope.

(** [struct Colors] (vkdd.hpp), by name. *)
Inductive Color : Set :=
| RED | GREEN | BLUE | CYAN | MAGENTA | YELLOW | DARK_GRAY | GRAY | LIGHT_GRAY
| BLACK | WHITE | STRONG_RED | GREEN_NV | BONDI_BLUE.

(** The array [COLORS] of [recordCommands]. *)
Definition COLORS : list Color :=
  [STRONG_RED; GREEN_NV; BONDI_BLUE; RED; GREEN; BLUE; CYAN; MAGENTA;
   YELLOW; WHITE; LIGHT_GRAY; GRAY; DARK_GRAY; BLACK].

(** [sizeof(COLORS[0])]: a [Vec3f] is three [float]s of four bytes. *)
Definition sizeof_Vec3f : Z := 12.

(** [std::find(devices.begin(), devices.end(), dev) - devices.begin()],
    stored in a [uint32_t] by [RenderThread::RenderThread]. *)
Fixpoint find_position (dev : nat) (devices : list nat) : nat :=
  match devices with
  | [] => O
  | d :: rest => if bool_decide (d = dev) then O else S (find_position dev rest)
  end.

Definition systemPhysicalDeviceIndexOf (devices : list nat) (dev : nat) : Z :=
  wrap32 (Z.of_nat (find_position dev devices)).

(** [COLORS[getSystemPhysicalDeviceIndex() % sizeof(COLORS[0])]], the
    clear colour before highlighting. *)
Definition clearColorOf (systemPhysicalDeviceIndex : Z) : exec Color :=
  deref COLORS (Z.to_nat (systemPhysicalDeviceIndex mod sizeof_Vec3f)).

(** [vk::PipelineStageFlagBits2] *)
Definition PipelineStage2_EarlyFragmentTests : Z := 0x100.
Definition PipelineStage2_ColorAttachmentOutput : Z := 0x400.
Definition PipelineStage2_Transfer : Z := 0x1000.
Definition PipelineStage2_VertexAttributeInput : Z := 0x2000000000.

(** The members of [RenderThread] and [CanvasRegionRenderThread] that
    [recordCommands] uses for synchronization; a null
    [m_syncTimelineSemaphore] is [None]. *)
Record Thread : Set := mkThread {
  m_deviceIndex : Z;
  m_imageAcquiredSem : Semaphore;
  m_renderDoneSem : Semaphore;
  m_syncTimelineSemaphore : option Semaphore;
  m_syncTimelineSemaphoreValue : Z
}.

(** The getters of render_thread.hpp. *)
Definition getImageAcquiredSemaphore (rt : Thread) : Semaphore := m_renderDoneSem rt.
Definition getRenderDoneSemaphore (rt : Thread) : Semaphore := m_renderDoneSem rt.

(** [DeviceMask::ofSingleDevice] *)
Definition ofSingleDevice (deviceIndex : Z) : DeviceMask :=
  Z.lor 0 (wrap32 (Z.shiftl 1 deviceIndex)).

(** What [recordCommands] does with the command execution unit, on the
    worker thread [tid]. [numInstances] is what the instance set answers,
    [meshPending] whether the frame index is below the mesh's available
    frame index, [newSemaphore] the handle the driver gives if the timeline
    semaphore has to be created. The result has the graphics and, when
    requested, the transfer command buffer. *)
Definition recordCommands (graphicsQueueFamilyIndex transferQueueFamilyIndex : Z)
    (uploaderSyncSemaphore : Semaphore) (frameIndex : Z)
    (numInstances : Z) (meshPending : bool) (newSemaphore : Semaphore)
    (tid : ThreadId) (rt : Thread) (unit : State)
    : exec (Thread * CommandBuffer * option CommandBuffer * State) :=
  let queueFamilyIndices :=
    graphicsQueueFamilyIndex
      :: (if numInstances =? 0 then [] else [transferQueueFamilyIndex]) in
  r ← requestCommandBuffers queueFamilyIndices (Some (ofSingleDevice (m_deviceIndex rt)))
        tid unit;
  graphicsCmdBuffer ← deref r.1 O;
  let unit1 := pushWait graphicsCmdBuffer
                 (mkSemaphoreSubmitInfo (getImageAcquiredSemaphore rt) 0
                    PipelineStage2_ColorAttachmentOutput (m_deviceIndex rt)) r.2 in
  if numInstances =? 0 then
    Done (rt, graphicsCmdBuffer, None,
          pushSignal graphicsCmdBuffer
            (mkSemaphoreSubmitInfo (getRenderDoneSemaphore rt) 0
               PipelineStage2_ColorAttachmentOutput (m_deviceIndex rt)) unit1)
  else
    let sem := default newSemaphore (m_syncTimelineSemaphore rt) in
    let value := match m_syncTimelineSemaphore rt with
                 | Some _ => m_syncTimelineSemaphoreValue rt
                 | None => 0
                 end in
    transferCmdBuffer ← MemoryPool.back r.1;
    let unit2 := pushWait transferCmdBuffer
                   (mkSemaphoreSubmitInfo sem value PipelineStage2_Transfer
                      (m_deviceIndex rt)) unit1 in
    let value1 := wrap64 (value + 1) in
    let unit3 := pushSignal transferCmdBuffer
                   (mkSemaphoreSubmitInfo sem value1 PipelineStage2_Transfer
                      (m_deviceIndex rt)) unit2 in
    let unit4 := pushWait graphicsCmdBuffer
                   (mkSemaphoreSubmitInfo sem value1 PipelineStage2_VertexAttributeInput
                      (m_deviceIndex rt)) unit3 in
    let unit5 := if meshPending
                 then pushWait graphicsCmdBuffer
                        (mkSemaphoreSubmitInfo uploaderSyncSemaphore (wrap64 (frameIndex + 1))
                           PipelineStage2_VertexAttributeInput (m_deviceIndex rt)) unit4
                 else unit4 in
    let value2 := wrap64 (value1 + 1) in
    let unit6 := pushSignal graphicsCmdBuffer
                   (mkSemaphoreSubmitInfo sem value2 PipelineStage2_VertexAttributeInput
                      (m_deviceIndex rt)) unit5 in
    let unit7 := pushSignal graphicsCmdBuffer
                   (mkSemaphoreSubmitInfo (getRenderDoneSemaphore rt) 0
                      PipelineStage2_ColorAttachmentOutput (m_deviceIndex rt)) unit6 in
    Done (mkThread (m_deviceIndex rt) (m_imageAcquiredSem rt) (m_renderDoneSem rt)
                   (Some sem) value2,
          graphicsCmdBuffer, Some transferCmdBuffer, unit7).
End CanvasRegionRenderThread.

(** ** Triangle meshes and instance sets (triangle_mesh.cpp,
       triangle_mesh_instance_set.cpp) *)

Module TriangleMesh.
Local Open Scope Z_scope.

(** The index that restarts a triangle strip. *)
Definition RESTART : Z := 0xffffffff.

(** The body of the outer index loop of [buildParametric] for row [i]:
    two indices per column, then the restart index. *)
Definition strip_row (numTesselationsS i : Z) : list Z :=
  (j ← seqZ 0 numTesselationsS;
   [wrap32 (i * numTesselationsS + j); wrap32 ((i + 1) * numTesselationsS + j)])
  ++ [RESTART].

(** The index loops: [numTesselationsT - 1] is a [uint32_t] difference. *)
Definition index_rows (numTesselationsS numTesselationsT : Z) : list Z :=
  i ← seqZ 0 (wrap32 (numTesselationsT - 1)); strip_row numTesselationsS i.

(** [indices] as [buildParametric] hands it to [buildBuffers]:
    [pop_back] on an empty vector is undefined. *)
Definition indicesOf (numTesselationsS numTesselationsT : Z) : exec (list Z) :=
  match index_rows numTesselationsS numTesselationsT with
  | [] => Fault OutOfBounds
  | indices => Done (removelast indices)
  end.

Section Vertices.
(** [float], the conversion of a [uint32_t] to it and its division; the
    vertex type and the surface [getVertex]. *)
Context {float Vertex : Type}.
Variable float_of_uint32 : Z → float.
Variable fdiv : float → float → float.
Variable getVertex : float → float → Vertex.

(** The vertex loops of [buildParametric]. *)
Definition verticesOf (numTesselationsS numTesselationsT : Z) : list Vertex :=
  it ← seqZ 0 numTesselationsT;
  let t := fdiv (float_of_uint32 it) (float_of_uint32 (wrap32 (numTesselationsT - 1))) in
  is_ ← seqZ 0 numTesselationsS;
  let s := fdiv (float_of_uint32 is_) (float_of_uint32 (wrap32 (numTesselationsS - 1))) in
  [getVertex s t].
End Vertices.
End TriangleMesh.

Module TriangleMeshInstanceSet.
Local Open Scope Z_scope.

(** [sizeof(DefaultInstance)]: two matrices of 16 floats, a [uint32_t]
    and two floats. *)
Definition sizeof_DefaultInstance : Z := 140.

(** The instance set: the number of collected instances, the device
    buffer (none while the allocation is empty) with its size in bytes, and
    the capacity. *)
Record State : Set := mkState {
  m_instances_size : Z;
  m_bufferAllocation : option (nat * Z);
  m_bufferCapacity : Z
}.

(** [TriangleMeshInstanceSet::TriangleMeshInstanceSet] *)
Definition init : State := mkState 0 None 0.

(** [beginInstanceCollection] followed by [n] calls of [pushInstance]. *)
Definition collect (n : Z) (st : State) : State :=
  mkState n (m_bufferAllocation st) (m_bufferCapacity st).

(** [endInstanceCollection]: [newBuffer] is the buffer the device
    allocates if asked; the result lists what was handed to
    [scheduleForDeallocation]. *)
Definition endInstanceCollection (newBuffer : nat) (st : State)
    : list (option (nat * Z)) * State :=
  if m_bufferCapacity st <? m_instances_size st then
    let capacity := Z.max (wrap32 (m_instances_size st))
                          (Z.max 16 (wrap32 (2 * m_bufferCapacity st))) in
    ([m_bufferAllocation st],
     mkState (m_instances_size st)
             (Some (newBuffer, wrap64 (capacity * sizeof_DefaultInstance)))
             capacity)
  else ([], st).

(** The size of the copy that [updateDeviceMemory] records into the
    buffer. *)
Definition copySize (st : State) : Z := wrap64 (m_instances_size st * sizeof_DefaultInstance).
End TriangleMeshInstanceSet.

(** ** Scene (scene.cpp) *)

Module Scene.
Import LogicalDisplay.
Local Open Scope Z_scope.

Section Nodes.
(** [float] and what a node holds besides its id: type, scaling, rotation
    and translation. [torus z numDonutsX numDonutsY x y] is the node that
    [fillDonutPlane] builds at [(x, y)]; the camera it reads is set before
    and not changed by the functions below. *)
Context {float NodeData : Type}.
Variable plane0 plane1 : float.
Variable torus : float → Z → Z → Z → Z → NodeData.

Record Node : Type := mkNode {
  m_id : Z;
  m_data : NodeData
}.

(** The members of [Scene] that the grid functions use, and [nextId],
    the static counter of [Node::Node]. *)
Record State : Type := mkState {
  m_desiredNumDonutsX : Z;
  m_desiredNumDonutsY : Z;
  m_numDonutsX : Z;
  m_numDonutsY : Z;
  m_geometryNodes : list Node;
  nextId : Z
}.

(** [m_geometryNodes.emplace_back(...)] with [Node::Node]. *)
Definition emplace_back (data : NodeData) (st : State) : State :=
  mkState (m_desiredNumDonutsX st) (m_desiredNumDonutsY st) (m_numDonutsX st)
          (m_numDonutsY st) (m_geometryNodes st ++ [mkNode (nextId st) data])
          (wrap32 (nextId st + 1)).

(** [Scene::fillDonutPlane]; the counts are [uint32_t] parameters, the
    loops compare [int32_t] values. *)
Definition fillDonutPlane (z : float) (numDonutsX numDonutsY : Z) (st : State) : State :=
  foldl (λ st y,
           foldl (λ st x, emplace_back (torus z numDonutsX numDonutsY x y) st)
                 st (seqZ 0 (to_int32 numDonutsX)))
        st (seqZ 0 (to_int32 numDonutsY)).

(** [Scene::rebuild] *)
Definition rebuild (st : State) : State :=
  let desiredX := Z.max 1 (m_desiredNumDonutsX st) in
  let desiredY := Z.max 1 (m_desiredNumDonutsY st) in
  if negb (desiredX =? m_numDonutsX st) || negb (desiredY =? m_numDonutsY st) then
    let st1 := mkState desiredX desiredY desiredX desiredY [] (nextId st) in
    let st2 := fillDonutPlane plane0 (wrap32 desiredX) (wrap32 desiredY) st1 in
    fillDonutPlane plane1 (wrap32 (2 * Z.max (desiredX ÷ 4) 1 - 1))
                   (wrap32 (2 * Z.max (desiredY ÷ 4) 1 - 1)) st2
  else
    mkState desiredX desiredY (m_numDonutsX st) (m_numDonutsY st) (m_geometryNodes st)
            (nextId st).

Definition set_numDonutsX (x : Z) (st : State) : State :=
  mkState (m_desiredNumDonutsX st) (m_desiredNumDonutsY st) x (m_numDonutsY st)
          (m_geometryNodes st) (nextId st).

Definition set_numDonutsY (y : Z) (st : State) : State :=
  mkState (m_desiredNumDonutsX st) (m_desiredNumDonutsY st) (m_numDonutsX st) y
          (m_geometryNodes st) (nextId st).

(** The four key handlers; an [int32_t] overflow has no result. *)
Definition increaseNumDonutsX (st : State) : option State :=
  x ← int32_result (m_numDonutsX st + 1); Some (rebuild (set_numDonutsX x st)).

Definition decreaseNumDonutsX (st : State) : option State :=
  x ← int32_result (m_numDonutsX st - 1); Some (rebuild (set_numDonutsX (Z.max 1 x) st)).

Definition increaseNumDonutsY (st : State) : option State :=
  y ← int32_result (m_numDonutsY st + 1); Some (rebuild (set_numDonutsY y st)).

Definition decreaseNumDonutsY (st : State) : option State :=
  y ← int32_result (m_numDonutsY st - 1); Some (rebuild (set_numDonutsY (Z.max 1 y) st)).

(** [Scene::Scene]: the members, then [setPerspectiveCamera], which ends
    in [rebuild]. [firstId] is the value of the node counter. *)
Definition Scene_new (firstId : Z) : State := rebuild (mkState 15 9 0 0 [] firstId).

(** The write through [getDesiredNumDonutsX] and [getDesiredNumDonutsY]. *)
Definition set_desired (x y : Z) (st : State) : State :=
  mkState x y (m_numDonutsX st) (m_numDonutsY st) (m_geometryNodes st) (nextId st).
End Nodes.

Arguments Node : clear implicits.
Arguments State : clear implicits.
End Scene.

(** ** The application (vk_ddisplay_app.cpp) *)

Module VkDDisplayApp.
Local Open Scope Z_scope.

(** [LogicalDisplay*] and [CanvasRegionRenderThread*]; a null pointer is
    [None]. *)
Definition Display := nat.
Definition Thread := nat.
Definition Selection : Set := (option Display * option Thread)%type.

(** The selection state of the application. [renderThreads] has
    [m_canvasRegionsRenderThreads] of every logical display, [highlighted]
    the render threads whose [m_highlighted] is set. *)
Record State : Type := mkState {
  m_possibleSelections : list Selection;
  m_activeSelectionIndex : Z;
  renderThreads : gmap Display (list Thread);
  highlighted : gset Thread
}.

(** [VkDDisplayApp::VkDDisplayApp] *)
Definition init : State := mkState [(None, None)] 0 ∅ ∅.

(** The render threads that [visitSelection] calls the visitor on, in
    order. *)
Definition visitSelection (st : State) : exec (list Thread) :=
  selection ← deref (m_possibleSelections st) (Z.to_nat (m_activeSelectionIndex st));
  match selection with
  | (_, Some renderThread) => Done [renderThread]
  | (Some logicalDisplay, None) => Done (default [] (renderThreads st !! logicalDisplay))
  | (None, None) => Done (omap snd (m_possibleSelections st))
  end.

(** [renderThread->setHighlighted(b)] for every visited render thread. *)
Definition setHighlighted (b : bool) (visited : list Thread) (st : State) : State :=
  mkState (m_possibleSelections st) (m_activeSelectionIndex st) (renderThreads st)
          (if b then highlighted st ∪ list_to_set visited
           else highlighted st ∖ list_to_set visited).

(** [VkDDisplayApp::setActiveSelection]; the index expression is
    evaluated in [size_t] and stored in a [uint32_t]. *)
Definition setActiveSelection (activeSelectionIndex : Z) (st : State) : exec State :=
  visited ← visitSelection st;
  let st1 := setHighlighted false visited st in
  let size := Z.of_nat (length (m_possibleSelections st1)) in
  if size =? 0 then Fault DivisionByZero else
  let index := wrap32 (wrap64 (activeSelectionIndex mod size + wrap32 size) mod size) in
  let st2 := mkState (m_possibleSelections st1) index (renderThreads st1) (highlighted st1) in
  if index =? 0 then Done st2 else
  visited2 ← visitSelection st2;
  Done (setHighlighted true visited2 st2).

(** The part of [VkDDisplayApp::enableDisplay] after the logical device
    has answered: [numDisplayInfos] is [m_displayInfos.size()],
    [logicalDisplay] the display that [LogicalDevice::enableDisplay]
    returns, with its render threads, or [None] for a null pointer. The
    logical device is not asked when the index is out of range. *)
Definition enableDisplay (numDisplayInfos globalDisplayIndex : Z)
    (logicalDisplay : option (Display * list Thread)) (st : State) : bool * State :=
  if numDisplayInfos <=? globalDisplayIndex then (false, st) else
  match logicalDisplay with
  | Some (display, threads) =>
    (true,
     mkState (m_possibleSelections st
              ++ (Some display, None) :: ((λ t, (Some display, Some t)) <$> threads))
             (m_activeSelectionIndex st)
             (<[display := threads]> (renderThreads st))
             (highlighted st))
  | None => (false, st)
  end.

(** The keys of [handleInput] that change the selection. *)
Inductive Key : Set := KEY_PAGE_UP | KEY_PAGE_DOWN.

Definition handleInput (key : Key) (st : State) : exec State :=
  match key with
  | KEY_PAGE_UP => setActiveSelection (wrap32 (m_activeSelectionIndex st + 1)) st
  | KEY_PAGE_DOWN => setActiveSelection (wrap32 (m_activeSelectionIndex st - 1)) st
  end.

(** A session: displays are enabled and keys are pressed. *)
Inductive op : Type :=
| EnableDisplay (numDisplayInfos globalDisplayIndex : Z)
                (logicalDisplay : option (Display * list Thread))
| Press (key : Key).

Definition step (o : op) (st : State) : exec State :=
  match o with
  | EnableDisplay n i d => Done (enableDisplay n i d st).2
  | Press key => handleInput key st
  end.

Fixpoint run (ops : list op) (st : State) : exec State :=
  match ops with
  | [] => Done st
  | o :: ops' => st' ← step o st; run ops' st'
  end.
End VkDDisplayApp.

(** ** System topology (vk_ddisplay_app.cpp) *)

Module Topology.
Local Open Scope Z_scope.

(** [vk::DisplayPropertiesKHR]: the display handle and the name. *)
Record DisplayPropertiesKHR : Set := mkDisplayPropertiesKHR {
  display : nat;
  displayName : string
}.

(** [VkDDisplayApp::DisplayInfo] *)
Record DisplayInfo : Set := mkDisplayInfo {
  m_props : DisplayPropertiesKHR;
  m_deviceGroupIndex : Z;
  m_physicalDeviceIndices : gset Z
}.

(** What the instance enumerates: the device groups, each with its
    physical devices, each with the displays it reports. *)
Definition PhysicalDevice : Set := list DisplayPropertiesKHR.
Definition PhysicalDeviceGroup : Set := list PhysicalDevice.

(** The body of the innermost loop of [queryTolopogy] without the log
    output: [std::find_if] by display handle, then the insertion of the
    device index or a new entry. *)
Definition add_display (devGroupIdx devIdx : Z) (dispProps : DisplayPropertiesKHR)
    (m_displayInfos : list DisplayInfo) : list DisplayInfo :=
  match list_find (λ di, display (m_props di) = display dispProps) m_displayInfos with
  | Some (findIt, di) =>
    <[findIt := mkDisplayInfo (m_props di) (m_deviceGroupIndex di)
                              ({[devIdx]} ∪ m_physicalDeviceIndices di)]> m_displayInfos
  | None => m_displayInfos ++ [mkDisplayInfo dispProps devGroupIdx {[devIdx]}]
  end.

(** [VkDDisplayApp::queryTolopogy]: [m_displayInfos] after the three
    loops. *)
Definition queryTolopogy (devGroups : list PhysicalDeviceGroup) : list DisplayInfo :=
  foldl (λ infos '(devGroupIdx, devGroup),
           foldl (λ infos '(devIdx, physicalDeviceDisplays),
                    foldl (λ infos dispProps,
                             add_display (Z.of_nat devGroupIdx) (Z.of_nat devIdx)
                                         dispProps infos)
                          infos physicalDeviceDisplays)
                 infos (imap pair devGroup))
        [] (imap pair devGroups).
End Topology.

(** ** Enabling displays on a logical device (logical_device.cpp,
    logical_display.cpp) *)

Module DisplayEnabling.
Import LogicalDisplay Topology.
Local Open Scope Z_scope.

(** A logical display: its display handle and the device indices it was
    initialized with. *)
Definition LogicalDisplay : Set := (nat * list Z)%type.

(** The lines the functions below write to the log: the three error
    lines of [enableDisplay] (logical_device.cpp:67, 89 and 97), the two
    error lines of [init] (logical_display.cpp:46 and 82), and the
    information and the warning of [pushRenderContext]
    (logical_display.cpp:147 and 152), which print the number of present
    rectangles, the device and the name of the display. *)
Inductive LogLine : Set :=
| TriedToEnableDisplayTwice   (* Tried to enable display twice. *)
| DisplayNotConnected         (* Given display is not connected to any physical device
                                 of this device group. *)
| InitializationFailed        (* Initialization of logical display failed. *)
| NoPhysicalDeviceIndices     (* No physical device indices given. *)
| NoOpaqueAlpha               (* Display plane does not support opaque alpha. *)
| TightlyPacked (numRects : nat) (deviceIndex : Z) (displayName : string)
    (* ... default present rectangle(s) of device ... on display ... were tightly
       packed into a single one. *)
| NotTightlyPacked (numRects : nat) (deviceIndex : Z) (displayName : string).
    (* ... default present rectangles of device ... on display ... cannot be
       packed tightly. *)

Record State : Set := mkState {
  m_logicalDisplays : list LogicalDisplay;
  log : list LogLine
}.

(** What the driver answers to the queries of [LogicalDisplay::init] and
    [pushRenderContext] for the display at hand, by device index: the
    display modes, the current display of each display plane, whether the
    capabilities of a plane for a mode include opaque alpha, and the
    present rectangles of the surface. *)
Record Driver : Type := mkDriver {
  getDisplayModePropertiesKHR : Z → list DisplayModeProperties;
  currentDisplays : Z → list nat;
  supportsOpaque : Z → nat → nat → bool;
  getPresentRectanglesKHR : Z → list Rect2D
}.

(** The inner loop of [enableDisplay]: the device reports the display. *)
Definition reportsDisplay (displays : PhysicalDevice) (display_ : nat) : bool :=
  existsb (λ dispProps, bool_decide (display dispProps = display_)) displays.

(** The loop over [m_physicalDevices]: [deviceIndices]. *)
Definition deviceIndicesOf (m_physicalDevices : list PhysicalDevice) (display_ : nat) : list Z :=
  mjoin (imap (λ devIdx displays,
                 if reportsDisplay displays display_ then [Z.of_nat devIdx] else [])
              m_physicalDevices).

(** The loop of [pushRenderContext] that looks up the display's name. *)
Definition displayNameOf (physicalDevice : PhysicalDevice) (display_ : nat) : string :=
  foldl (λ name dispProps,
           if bool_decide (display dispProps = display_) then displayName dispProps else name)
        "unknown" physicalDevice.

(** [LogicalDisplay::pushRenderContext], as far as the log and the
    arithmetic go: the line it logs, or [None] where an index is out of
    range or an [int32_t] sum overflows. *)
Definition pushRenderContext (driver : Driver) (m_physicalDevices : list PhysicalDevice)
    (display_ : nat) (deviceIndex : Z) : option LogLine :=
  physicalDevice ← m_physicalDevices !! Z.to_nat deviceIndex;
  let presentRects := getPresentRectanglesKHR driver deviceIndex in
  b ← bounds_of presentRects;
  let line :=
    if tightlyPacked b presentRects
    then TightlyPacked (length presentRects) deviceIndex (displayNameOf physicalDevice display_)
    else NotTightlyPacked (length presentRects) deviceIndex
                          (displayNameOf physicalDevice display_) in
  _ ← renderArea_of b;
  Some line.

(** The loop of [init] over the device indices. *)
Fixpoint pushRenderContexts (driver : Driver) (m_physicalDevices : list PhysicalDevice)
    (display_ : nat) (deviceIndices : list Z) : option (list LogLine) :=
  match deviceIndices with
  | [] => Some []
  | devIdx :: rest =>
    line ← pushRenderContext driver m_physicalDevices display_ devIdx;
    lines ← pushRenderContexts driver m_physicalDevices display_ rest;
    Some (line :: lines)
  end.

(** [LogicalDisplay::init]: its answer and the lines it logs, or [None]
    where it has no answer: no display mode to select from, no plane
    that shows the display ([foundPlaneIdx.value()]), or a render context
    without one. *)
Definition init (driver : Driver) (m_physicalDevices : list PhysicalDevice)
    (display_ : nat) (deviceIndices : list Z) : option (bool * list LogLine) :=
  match deviceIndices with
  | [] => Some (false, [NoPhysicalDeviceIndices])
  | front :: _ =>
    match selectDisplayMode (getDisplayModePropertiesKHR driver front) with
    | Fault _ => None
    | Done displayModeProps =>
      foundPlaneIdx ← list_find (λ currentDisplay, currentDisplay = display_)
                                (currentDisplays driver front);
      let planeIdx := foundPlaneIdx.1 in
      if negb (supportsOpaque driver front (displayMode displayModeProps) planeIdx)
      then Some (false, [NoOpaqueAlpha])
      else
        lines ← pushRenderContexts driver m_physicalDevices display_ deviceIndices;
        Some (true, lines)
    end
  end.

Definition logged (lines : list LogLine) (st : State) : State :=
  mkState (m_logicalDisplays st) (log st ++ lines).

(** [LogicalDevice::enableDisplay]. The result is the logical display, or
    the inner [None] for a null pointer; the outer [None] is a call in
    which [init] has no answer. *)
Definition enableDisplay (driver : Driver) (m_physicalDevices : list PhysicalDevice)
    (display_ : nat) (st : State) : option (option LogicalDisplay * State) :=
  if existsb (λ logicalDisplay : LogicalDisplay, bool_decide (logicalDisplay.1 = display_))
             (m_logicalDisplays st)
  then Some (None, logged [TriedToEnableDisplayTwice] st)
  else
    let deviceIndices := deviceIndicesOf m_physicalDevices display_ in
    if bool_decide (deviceIndices = [])
    then Some (None, logged [DisplayNotConnected] st)
    else
      r ← init driver m_physicalDevices display_ deviceIndices;
      let st1 := logged r.2 st in
      if negb r.1
      then Some (None, logged [InitializationFailed] st1)
      else Some (Some (display_, deviceIndices),
                 mkState (m_logicalDisplays st1 ++ [(display_, deviceIndices)]) (log st1)).

(** Calls one after the other, each with what the driver answers during
    it, and their results. *)
Fixpoint run (m_physicalDevices : list PhysicalDevice) (calls : list (Driver * nat))
    (st : State) : option (list (option LogicalDisplay) * State) :=
  match calls with
  | [] => Some ([], st)
  | (driver, display_) :: calls' =>
    r ← enableDisplay driver m_physicalDevices display_ st;
    r' ← run m_physicalDevices calls' r.2;
    Some (r.1 :: r'.1, r'.2)
  end.
End DisplayEnabling.

(** * Properties *)

(** ** Bisection *)

Module MachineFacts.

Section LowerBound.
Context {A : Type} (lt : A → A → bool) (v : list A) (val : A).

(** [n] splits [v] into the elements less than [val] and the others. *)
Definition splits_at (n : nat) : Prop :=
  (∀ i x, v !! i = Some x → (i < n)%nat → lt x val = true) ∧
  (∀ i x, v !! i = Some x → (n ≤ i)%nat → lt x val = false).

Lemma lower_bound_loop_step (fuel first len : nat) :
  lower_bound_loop lt v val (S fuel) first (S len) =
  match v !! (first + Nat.div2 (S len))%nat with
  | Some x =>
    if lt x val
    then lower_bound_loop lt v val fuel (S (first + Nat.div2 (S len)))
                          (S len - Nat.div2 (S len) - 1)%nat
    else lower_bound_loop lt v val fuel first (Nat.div2 (S len))
  | None => first
  end.
Proof. reflexivity. Qed.

Lemma lower_bound_loop_splits (n fuel first len : nat) :
  splits_at n →
  (first ≤ n ≤ first + len)%nat →
  (first + len ≤ length v)%nat →
  (len ≤ fuel)%nat →
  lower_bound_loop lt v val fuel first len = n.
Proof.
  intros [Hlo Hhi]. revert first len.
  induction fuel as [|fuel IH]; intros first len Hn Hlen Hfuel.
  - simpl. lia.
  - destruct len as [|len']; [simpl; lia|].
    rewrite lower_bound_loop_step.
    remember (S len') as len eqn:Elen.
    assert (Hhalf : (Nat.div2 len < len)%nat).
    { apply Nat.lt_div2. lia. }
    generalize dependent (Nat.div2 len). intros half Hhalf.
    destruct (lookup_lt_is_Some_2 v (first + half)) as [x Hx]; [lia|].
    rewrite Hx. destruct (lt x val) eqn:Hlt.
    + assert (first + half < n)%nat.
      { destruct (decide (first + half < n)%nat) as [|Hge]; [done|].
        rewrite (Hhi _ _ Hx) in Hlt; [done|lia]. }
      apply IH; lia.
    + assert (n ≤ first + half)%nat.
      { destruct (decide (n ≤ first + half)%nat) as [|Hge]; [done|].
        rewrite (Hlo _ _ Hx) in Hlt; [done|lia]. }
      apply IH; lia.
Qed.

Lemma lower_bound_splits (n : nat) :
  splits_at n → (n ≤ length v)%nat → lower_bound lt v val = n.
Proof.
  intros. unfold lower_bound. apply lower_bound_loop_splits; auto; lia.
Qed.
End LowerBound.

Lemma partition_point_le {A} (lt : A → A → bool) (v : list A) (val : A) :
  (partition_point lt v val ≤ length v)%nat.
Proof. induction v as [|x v IH]; simpl; [lia|]. destruct (lt x val); simpl; lia. Qed.

Lemma partitioned_splits {A} (lt : A → A → bool) (v : list A) (val : A) :
  partitioned lt v val → splits_at lt v val (partition_point lt v val).
Proof.
  induction v as [|x v IH]; simpl.
  - intros _. split; intros i y Hy; by rewrite lookup_nil in Hy.
  - destruct (lt x val) eqn:Hlt.
    + intros Hp. destruct (IH Hp) as [Hlo Hhi]. split.
      * intros [|i] y Hy Hi; simpl in Hy; [by simplify_eq|].
        apply (Hlo i); [done|lia].
      * intros [|i] y Hy Hi; simpl in Hy; [lia|].
        apply (Hhi i); [done|lia].
    + intros Hall. split; [intros; lia|].
      intros [|i] y Hy _; simpl in Hy; [by simplify_eq|].
      rewrite Forall_forall in Hall. apply Hall.
      eapply list_elem_of_lookup_2. eauto.
  Qed.

(** On a partitioned vector the bisection returns the partition point. *)
Lemma lower_bound_partition_point {A} (lt : A → A → bool) (v : list A) (val : A) :
  partitioned lt v val → lower_bound lt v val = partition_point lt v val.
Proof.
  intros Hp. apply lower_bound_splits.
  - by apply partitioned_splits.
  - apply partition_point_le.
Qed.

Lemma lower_bound_le {A} (lt : A → A → bool) (v : list A) (val : A) :
  (lower_bound lt v val ≤ length v)%nat.
Proof.
  unfold lower_bound.
  assert (H : ∀ fuel first len, (first + len ≤ length v)%nat →
              (lower_bound_loop lt v val fuel first len ≤ length v)%nat).
  { induction fuel as [|fuel IH]; intros first len Hle; [simpl; lia|].
    destruct len as [|len']; [simpl; lia|].
    rewrite lower_bound_loop_step.
    pose proof (Nat.lt_div2 (S len') ltac:(lia)) as Hhalf.
    generalize dependent (Nat.div2 (S len')). intros half Hhalf.
    destruct (v !! _) as [a|]; [|lia]. destruct (lt a val); apply IH; lia. }
  apply H. lia.
Qed.

Lemma exec_bind_done {A B} (m : exec A) (k : A → exec B) (b : B) :
  m ≫= k = Done b → ∃ a, m = Done a ∧ k a = Done b.
Proof. destruct m as [a|f]; simpl; [eauto|discriminate]. Qed.
End MachineFacts.

(** ** Region allocator *)

Module MemoryPoolFacts.
Import MemoryPool MachineFacts.
Local Open Scope Z_scope.

(** *** Releasing past the last free interval *)

Lemma deref_length {A} (v : list A) : deref v (length v) = Fault OutOfBounds.
Proof.
  unfold deref. by rewrite (lookup_ge_None_2 v (length v)).
Qed.

Lemma back_nonempty {A} (v : list A) : v ≠ [] → ∃ x, back v = Done x.
Proof.
  intros Hv. unfold back. destruct (last v) as [x|] eqn:E; [eauto|].
  apply last_None in E. done.
Qed.

(** The branch of [returnInterval] taken when the bisection answers
    [end()], on a non-empty vector, evaluates [lbIt->m_begin] with
    [lbIt == end()]. *)
Lemma returnInterval_end_branch (interval : Interval) (free : list Interval) :
  m_begin interval ≠ m_end interval →
  free ≠ [] →
  lower_bound Interval_lt free interval = length free →
  returnInterval interval free = Fault OutOfBounds.
Proof.
  intros Hne Hfree Hlb. unfold returnInterval.
  rewrite (proj2 (Z.eqb_neq _ _) Hne), Hlb.
  rewrite bool_decide_eq_true_2 by done.
  rewrite bool_decide_eq_false_2 by done.
  destruct (back_nonempty free Hfree) as [b ->].
  cbn. by rewrite deref_length.
Qed.

(** An interval that lies behind every free interval sends the bisection
    to [end()]. *)
Lemma lower_bound_behind (interval : Interval) (free : list Interval) :
  Forall (λ i, Interval_lt i interval = true) free →
  lower_bound Interval_lt free interval = length free.
Proof.
  intros Hall. apply lower_bound_splits; [|done].
  split.
  - intros i x Hx _. rewrite Forall_forall in Hall. apply Hall.
    by eapply list_elem_of_lookup_2.
  - intros i x Hx Hi. apply lookup_lt_Some in Hx. lia.
Qed.

(** *** The request loop against first fit *)

Import MemoryPoolSpec.

Lemma wrap64_small (z : Z) : 0 <= z < 2 ^ 64 → wrap64 z = z.
Proof. intros. unfold wrap64. by apply Z.mod_small. Qed.

Lemma align_up_bounds (b alignment : Z) :
  0 < alignment →
  b <= align_up b alignment < b + alignment ∧ (alignment | align_up b alignment).
Proof.
  intros Hal. unfold align_up.
  pose proof (Z.mod_pos_bound (alignment - b mod alignment) alignment Hal).
  split; [lia|].
  apply Z.mod_divide; [lia|].
  rewrite Zplus_mod_idemp_r.
  replace (b + (alignment - b mod alignment))
    with (b - b mod alignment + 1 * alignment) by lia.
  rewrite Z_mod_plus_full.
  rewrite (Z.div_mod b alignment) at 1 by lia.
  replace (alignment * (b / alignment) + b mod alignment - b mod alignment)
    with ((b / alignment) * alignment) by lia.
  apply Z_mod_mult.
Qed.

(** Within range the code's aligned start is the mathematical one. *)
Lemma alignedBeginOf_align_up (b alignment : Z) :
  0 < alignment → 0 <= b → b + alignment < 2 ^ 64 →
  alignedBeginOf b alignment = align_up b alignment.
Proof.
  intros Hal Hb Hr. unfold alignedBeginOf.
  pose proof (Z.mod_pos_bound b alignment Hal).
  rewrite (wrap64_small (alignment - b mod alignment)) by lia.
  pose proof (align_up_bounds b alignment Hal) as [? _].
  apply wrap64_small. unfold align_up in *. lia.
Qed.

Lemma requestInterval_first_fit (size alignment : Z) (free : list Interval) :
  0 < alignment → 0 <= size →
  free_in_range size alignment free →
  match list_find (fits size alignment) free with
  | Some (_, i) =>
    ∃ free', requestInterval size alignment free =
             Done (Some (mkInterval (align_up (m_begin i) alignment)
                                    (align_up (m_begin i) alignment + size)), free')
  | None => requestInterval size alignment free = Done (None, free)
  end.
Proof.
  intros Hal Hsize. induction free as [|i free IH]; intros Hr; [done|].
  apply Forall_cons in Hr as [[Hb Hi] Hr]. specialize (IH Hr).
  cbn [requestInterval list_find].
  rewrite (proj2 (Z.eqb_neq alignment 0)) by lia.
  rewrite alignedBeginOf_align_up by lia.
  pose proof (align_up_bounds (m_begin i) alignment Hal) as [Hab _].
  rewrite (wrap64_small (align_up (m_begin i) alignment + size)) by lia.
  destruct (decide (fits size alignment i)) as [Hfit|Hfit]; unfold fits in Hfit.
  - rewrite (proj2 (Z.leb_le _ _)) by done. cbn.
    repeat case_match; eauto.
  - rewrite (proj2 (Z.leb_gt _ _)) by lia.
    destruct (list_find (fits size alignment) free) as [[n j]|]; cbn.
    + destruct IH as [free' ->]. cbn. eauto.
    + by rewrite IH.
Qed.

Lemma set_freeIntervals_id (pa : PageAllocation) :
  set_freeIntervals pa (m_freeIntervals pa) = pa.
Proof. by destruct pa. Qed.

Lemma list_find_fits_None (size alignment : Z) (pa : PageAllocation) :
  ¬ page_fits size alignment pa →
  list_find (fits size alignment) (m_freeIntervals pa) = None.
Proof.
  intros Hno. apply list_find_None. apply Forall_forall. intros i Hi Hfit.
  apply Hno. apply Exists_exists. eauto.
Qed.

Lemma list_find_fits_Some (size alignment : Z) (pa : PageAllocation) :
  page_fits size alignment pa →
  is_Some (list_find (fits size alignment) (m_freeIntervals pa)).
Proof.
  intros Hfit. destruct (list_find _ _) eqn:E; [eauto|].
  apply list_find_None in E. apply Exists_exists in Hfit as (i & Hi & Hfit).
  rewrite Forall_forall in E. by destruct (E i Hi).
Qed.

Lemma requestInterval_carves (size alignment : Z) (free : list Interval) :
  0 < alignment → 0 <= size →
  free_in_range size alignment free →
  requestInterval size alignment free =
  Done (match list_find (fits size alignment) free with
        | Some (k, i) =>
          (Some (mkInterval (align_up (m_begin i) alignment)
                            (align_up (m_begin i) alignment + size)),
           carved_out size alignment k i free)
        | None => (None, free)
        end).
Proof.
  intros Hal Hsize. induction free as [|i free IH]; intros Hr; [done|].
  apply Forall_cons in Hr as [[Hb Hi] Hr]. specialize (IH Hr).
  cbn [requestInterval list_find].
  rewrite (proj2 (Z.eqb_neq alignment 0)) by lia.
  rewrite alignedBeginOf_align_up by lia.
  pose proof (align_up_bounds (m_begin i) alignment Hal) as [Hab _].
  rewrite (wrap64_small (align_up (m_begin i) alignment + size)) by lia.
  destruct (decide (fits size alignment i)) as [Hfit|Hfit]; unfold fits in Hfit.
  - rewrite (proj2 (Z.leb_le _ _)) by done.
    unfold carved_out, remainders. cbn [take drop app].
    destruct (decide (m_begin i = align_up (m_begin i) alignment)) as [Eb|Eb];
      destruct (decide (align_up (m_begin i) alignment + size = m_end i)) as [Ee|Ee].
    + rewrite (proj2 (Z.eqb_eq _ _)) by done.
      rewrite (proj2 (Z.eqb_eq _ _) Ee).
      by rewrite !bool_decide_eq_true_2 by done.
    + rewrite (proj2 (Z.eqb_eq _ (m_begin i))) by done.
      rewrite (proj2 (Z.eqb_neq _ _) Ee). cbn [andb].
      rewrite (proj2 (Z.eqb_eq (m_begin i) _)) by done. cbn [negb].
      rewrite bool_decide_eq_true_2 by done.
      by rewrite bool_decide_eq_false_2 by done.
    + rewrite (proj2 (Z.eqb_neq _ (m_begin i))) by done. cbn [andb].
      rewrite (proj2 (Z.eqb_eq _ _) Ee).
      rewrite bool_decide_eq_false_2 by done.
      by rewrite bool_decide_eq_true_2 by done.
    + rewrite (proj2 (Z.eqb_neq _ (m_begin i))) by done. cbn [andb].
      rewrite (proj2 (Z.eqb_neq _ _) Ee).
      rewrite (proj2 (Z.eqb_neq (m_begin i) _)) by done. cbn [negb].
      by rewrite !bool_decide_eq_false_2 by done.
  - rewrite (proj2 (Z.leb_gt _ _)) by lia. rewrite IH.
    destruct (list_find (fits size alignment) free) as [[k j]|]; cbn; done.
Qed.

Lemma alloc_scan_carves (size alignment : Z) (pages : list PageAllocation) :
  0 < alignment → 0 <= size → size < 2 ^ 64 →
  Forall (λ pa, free_in_range size alignment (m_freeIntervals pa)) pages →
  alloc_scan size alignment pages =
  Done (match list_find (page_fits size alignment) pages with
        | Some (n, pa) =>
          match list_find (fits size alignment) (m_freeIntervals pa) with
          | Some (k, i) =>
            (Some (carve size alignment pa i),
             <[n := set_freeIntervals pa
                      (carved_out size alignment k i (m_freeIntervals pa))]> pages)
          | None => (None, pages)
          end
        | None => (None, pages)
        end).
Proof.
  intros Hal Hsize Hsz.
  induction pages as [|pa pages IH]; intros Hr; [done|].
  apply Forall_cons in Hr as [Hpa Hr]. specialize (IH Hr).
  cbn [alloc_scan list_find].
  rewrite (requestInterval_carves size alignment _ Hal Hsize Hpa).
  destruct (decide (page_fits size alignment pa)) as [Hfit|Hfit].
  - destruct (list_find_fits_Some _ _ _ Hfit) as [[k i] Hi].
    rewrite Hi. cbn. unfold allocationOf, carve. cbn.
    replace (align_up (m_begin i) alignment + size - align_up (m_begin i) alignment)
      with size by lia.
    by rewrite wrap64_small by lia.
  - rewrite (list_find_fits_None _ _ _ Hfit). cbn.
    rewrite set_freeIntervals_id, IH.
    destruct (list_find (page_fits size alignment) pages) as [[n p]|]; cbn; [|done].
    by destruct (list_find (fits size alignment) (m_freeIntervals p)) as [[m i]|].
Qed.

Lemma first_fit_Some (size alignment : Z) (pages : list PageAllocation) n pa i :
  first_fit size alignment pages = Some (n, pa, i) →
  ∃ k, list_find (page_fits size alignment) pages = Some (n, pa)
       ∧ list_find (fits size alignment) (m_freeIntervals pa) = Some (k, i).
Proof.
  unfold first_fit. intros H.
  destruct (list_find (page_fits size alignment) pages) as [[n' p]|] eqn:Ep; [|done].
  cbn in H.
  destruct (list_find (fits size alignment) (m_freeIntervals p)) as [[k j]|] eqn:Ei; [|done].
  cbn in H. simplify_eq. eauto.
Qed.

Lemma first_fit_None (size alignment : Z) (pages : list PageAllocation) :
  first_fit size alignment pages = None →
  list_find (page_fits size alignment) pages = None.
Proof.
  unfold first_fit. intros H.
  destruct (list_find (page_fits size alignment) pages) as [[n' p]|] eqn:Ep; [|done].
  cbn in H.
  destruct (list_find (fits size alignment) (m_freeIntervals p)) as [[k j]|] eqn:Ei; [done|].
  apply list_find_Some in Ep as (_ & Hfit & _).
  destruct (list_find_fits_Some _ _ _ Hfit) as [x Hx]. congruence.
Qed.

(** A fresh page serves the request it was created for: the region is
    the front of the page. *)
Lemma requestInterval_front_of_page (size alignment pageSize : Z) :
  0 < alignment → alignment < 2 ^ 64 → 0 <= size → size <= pageSize → size < 2 ^ 64 →
  requestInterval size alignment [mkInterval 0 pageSize] =
  Done (Some (mkInterval 0 size),
        if bool_decide (size = pageSize) then [] else [mkInterval size pageSize]).
Proof.
  intros Hal Hal' Hsize Hle Hsz. cbn.
  rewrite (proj2 (Z.eqb_neq alignment 0)) by lia.
  assert (alignedBeginOf 0 alignment = 0) as ->.
  { unfold alignedBeginOf. rewrite Zmod_0_l, Z.sub_0_r.
    rewrite (wrap64_small alignment) by lia. by rewrite Z_mod_same_full. }
  rewrite Z.add_0_l, (wrap64_small size) by lia.
  rewrite (proj2 (Z.leb_le _ _)) by done. cbn.
  case_bool_decide as E.
  - by rewrite (proj2 (Z.eqb_eq _ _) E).
  - by rewrite (proj2 (Z.eqb_neq _ _) E).
Qed.

(** What [alloc] answers and what it leaves in the pool, by whether some
    existing page fits. *)
Lemma alloc_carves (size alignment : Z) (driver : option DeviceMemory)
    (pool : VulkanMemoryPool) :
  pool_in_range size alignment pool →
  alloc size alignment driver pool =
  match list_find (page_fits size alignment) (m_pageAllocations pool) with
  | Some (n, pa) =>
    match list_find (fits size alignment) (m_freeIntervals pa) with
    | Some (k, i) =>
      Done (carve size alignment pa i,
            mkPool (m_minPageAllocationSize pool)
              (<[n := set_freeIntervals pa
                        (carved_out size alignment k i (m_freeIntervals pa))]>
                 (m_pageAllocations pool)))
    | None => Fault BadOptionalAccess
    end
  | None =>
    match driver with
    | Some devMem =>
      let pageSize := Z.max size (m_minPageAllocationSize pool) in
      Done (mkAllocation devMem 0 size,
            mkPool (m_minPageAllocationSize pool)
              (m_pageAllocations pool ++
               [mkPage devMem pageSize
                  (if bool_decide (size = pageSize) then []
                   else [mkInterval size pageSize])]))
    | None => Fault DriverError
    end
  end.
Proof.
  intros (Hal & Hsize & Hsum & Hmin & Hr).
  unfold alloc.
  rewrite (alloc_scan_carves size alignment _ Hal Hsize ltac:(lia) Hr).
  destruct (list_find (page_fits size alignment) (m_pageAllocations pool))
    as [[n pa]|] eqn:Ep.
  - apply list_find_Some in Ep as (_ & Hfit & _).
    destruct (list_find_fits_Some _ _ _ Hfit) as [[k i] Hi].
    rewrite Hi. done.
  - cbn -[requestInterval Z.max].
    destruct driver as [devMem|]; [|done].
    rewrite requestInterval_front_of_page by lia.
    cbn -[Z.max]. unfold allocationOf. cbn -[Z.max].
    by rewrite Z.sub_0_r, wrap64_small by lia.
Qed.

(** A request served at the very start of the first free interval. *)
Lemma requestInterval_head_aligned (size alignment b e : Z) (rest : list Interval) :
  0 < alignment → 0 <= size → 0 <= b → b + alignment + size < 2 ^ 64 →
  (alignment | b) → b + size <= e →
  requestInterval size alignment (mkInterval b e :: rest) =
  Done (Some (mkInterval b (b + size)),
        if bool_decide (b + size = e) then rest else mkInterval (b + size) e :: rest).
Proof.
  intros Hal Hsize Hb Hr Hdiv Hle.
  assert (Hab : alignedBeginOf b alignment = b).
  { rewrite alignedBeginOf_align_up by lia. unfold align_up.
    apply Z.mod_divide in Hdiv; [|lia]. rewrite Hdiv, Z.sub_0_r, Z_mod_same_full. lia. }
  cbn [requestInterval m_begin m_end].
  rewrite (proj2 (Z.eqb_neq alignment 0)) by lia.
  rewrite Hab, (wrap64_small (b + size)) by lia.
  rewrite (proj2 (Z.leb_le _ _)) by done.
  rewrite Z.eqb_refl. cbn [andb negb].
  case_bool_decide as Hbe.
  - by rewrite (proj2 (Z.eqb_eq _ _)) by done.
  - by rewrite (proj2 (Z.eqb_neq _ _)) by done.
Qed.

Lemma returnInterval_empty (interval : Interval) :
  m_begin interval ≠ m_end interval → returnInterval interval [] = Done [interval].
Proof.
  intros Hne. unfold returnInterval. by rewrite (proj2 (Z.eqb_neq _ _)) by done.
Qed.

(** Releasing the region in front of the only free interval, adjacent to it. *)
Lemma returnInterval_front (b m e : Z) :
  b < m → m < e →
  returnInterval (mkInterval b m) [mkInterval m e] = Done [mkInterval b e].
Proof.
  intros Hbm Hme. unfold returnInterval. cbn [m_begin m_end].
  rewrite (proj2 (Z.eqb_neq b m)) by lia.
  assert (Hlb : lower_bound Interval_lt [mkInterval m e] (mkInterval b m) = O).
  { unfold lower_bound. cbn. unfold Interval_lt. cbn.
    rewrite (proj2 (Z.eqb_neq m b)) by lia. cbn.
    by rewrite (proj2 (Z.ltb_ge m b)) by lia. }
  rewrite Hlb. cbn. by rewrite Z.eqb_refl.
Qed.

(** C4. [alloc(size, alignment)] returns a region of exactly [size] bytes
    at an offset divisible by [alignment]. When some page has a free
    interval that fits once aligned, the region is carved from the first
    such interval [i] (index [k]) of the first such page [pa] (index [n],
    the pages being scanned in creation order): it starts at the aligned
    start of [i], and the pool that [alloc] leaves is the old one with
    [i] replaced, in place, by what the region leaves of it
    ([remainders]); no page is added and no other page or interval
    changes. When no page fits, the pool that [alloc] leaves is the old
    one with exactly one page appended, of size
    [max(size, minPageAllocationSize)], and the region is the first
    [size] bytes of that page, the rest of it being its only free
    interval. The scenario of spec.md follows, with every intermediate
    pool written out: 4096 bytes aligned to 256 from an empty pool give a
    new page of [max(4096, minPage)] bytes and the region at offset 0;
    the release makes the whole page free again; 2048 bytes aligned to 512
    then come from the same page at offset 0, and the pool still has that
    one page, free from byte 2048 on. Sizes are taken inside the 64-bit
    range ([pool_in_range]). *)
Theorem alloc_first_fit_or_new_page (size alignment minPage : Z)
    (devMem devMem' : DeviceMemory) (driver2 : option DeviceMemory)
    (pool : VulkanMemoryPool) :
  pool_in_range size alignment pool →
  0 <= minPage < 2 ^ 64 →
  (∃ a pool',
     alloc size alignment (Some devMem) pool = Done (a, pool')
     ∧ a_size a = size
     ∧ (alignment | m_devMemOffset a)
     ∧ match first_fit size alignment (m_pageAllocations pool) with
       | Some (n, pa, i) =>
         m_pageAllocations pool !! n = Some pa
         ∧ (∀ m pb, m_pageAllocations pool !! m = Some pb → (m < n)%nat →
                    ¬ page_fits size alignment pb)
         ∧ a = carve size alignment pa i
         ∧ m_begin i <= m_devMemOffset a
         ∧ m_devMemOffset a + size <= m_end i
         ∧ ∃ k, m_freeIntervals pa !! k = Some i
                ∧ (∀ m j, m_freeIntervals pa !! m = Some j → (m < k)%nat →
                          ¬ fits size alignment j)
                ∧ pool' = mkPool (m_minPageAllocationSize pool)
                            (<[n := set_freeIntervals pa
                                      (carved_out size alignment k i (m_freeIntervals pa))]>
                               (m_pageAllocations pool))
       | None =>
         (∀ pb, pb ∈ m_pageAllocations pool → ¬ page_fits size alignment pb)
         ∧ a = mkAllocation devMem 0 size
         ∧ pool' = mkPool (m_minPageAllocationSize pool)
                     (m_pageAllocations pool ++
                      [mkPage devMem (Z.max size (m_minPageAllocationSize pool))
                         (if bool_decide (size = Z.max size (m_minPageAllocationSize pool))
                          then []
                          else [mkInterval size
                                  (Z.max size (m_minPageAllocationSize pool))])])
       end)
  ∧ (let pageSize := Z.max 4096 minPage in
     alloc 4096 256 (Some devMem') (mkPool minPage []) =
       Done (mkAllocation devMem' 0 4096,
             mkPool minPage
               [mkPage devMem' pageSize
                  (if bool_decide (4096 = pageSize) then []
                   else [mkInterval 4096 pageSize])])
     ∧ free (mkAllocation devMem' 0 4096)
            (mkPool minPage
               [mkPage devMem' pageSize
                  (if bool_decide (4096 = pageSize) then []
                   else [mkInterval 4096 pageSize])]) =
         Done (mkPool minPage [mkPage devMem' pageSize [mkInterval 0 pageSize]])
     ∧ alloc 2048 512 driver2
             (mkPool minPage [mkPage devMem' pageSize [mkInterval 0 pageSize]]) =
         Done (mkAllocation devMem' 0 2048,
               mkPool minPage [mkPage devMem' pageSize [mkInterval 2048 pageSize]])).
Proof.
  intros Hr Hmin. split.
  - pose proof (alloc_carves size alignment (Some devMem) pool Hr) as Hc.
    destruct Hr as (Hal & Hsize & Hsum & _ & Hr).
    destruct (first_fit size alignment (m_pageAllocations pool)) as [[[n pa] i]|] eqn:Eff.
    + destruct (first_fit_Some _ _ _ _ _ _ Eff) as (k & Ep & Ei).
      rewrite Ep, Ei in Hc.
      apply list_find_Some in Ep as (Hpa & _ & Hbefore).
      apply list_find_Some in Ei as (Hi & Hfit & Hbefore').
      pose proof (align_up_bounds (m_begin i) alignment Hal) as [Hab Hdiv].
      eexists _, _. split; [exact Hc|]. cbn [a_size m_devMemOffset carve].
      split; [done|]. split; [done|]. split; [done|]. split; [done|].
      split; [done|]. split; [lia|]. split; [exact Hfit|].
      exists k. done.
    + apply first_fit_None in Eff. rewrite Eff in Hc.
      eexists _, _. split; [exact Hc|]. cbn [a_size m_devMemOffset].
      split; [done|]. split; [apply Z.divide_0_r|].
      split; [|done].
      apply list_find_None in Eff. rewrite Forall_forall in Eff. exact Eff.
  - cbn zeta. remember (Z.max 4096 minPage) as P eqn:EP.
    assert (HP : 4096 <= P < 2 ^ 64) by lia.
    split.
    { unfold alloc. cbn -[requestInterval Z.max]. rewrite <- EP.
      rewrite (requestInterval_head_aligned 4096 256 0 P []); [|lia..| |lia].
      - cbn. done.
      - apply Z.divide_0_r. }
    split.
    { unfold free. cbn -[returnInterval]. rewrite bool_decide_eq_true_2 by done.
      cbn -[returnInterval]. rewrite (wrap64_small (0 + 4096)) by lia.
      case_bool_decide as HP'.
      - rewrite returnInterval_empty by (cbn; lia). cbn. by rewrite <- HP'.
      - rewrite returnInterval_front by lia. done. }
    unfold alloc. cbn -[requestInterval].
    rewrite (requestInterval_head_aligned 2048 512 0 P []); [|lia..| |lia].
    + cbn. rewrite bool_decide_eq_false_2 by lia. done.
    + apply Z.divide_0_r.
Qed.

Lemma alloc_first_fit_or_new_page_witness :
  pool_in_range 16 8 (mkPool 1024 [mkPage 1%nat 100 [mkInterval 10 20; mkInterval 30 100]])
  ∧ alloc 16 8 (Some 2%nat)
          (mkPool 1024 [mkPage 1%nat 100 [mkInterval 10 20; mkInterval 30 100]]) =
    Done (mkAllocation 1%nat 32 16,
          mkPool 1024 [mkPage 1%nat 100
                         [mkInterval 10 20; mkInterval 30 32; mkInterval 48 100]]).
Proof.
  assert (Hr : pool_in_range 16 8
                 (mkPool 1024 [mkPage 1%nat 100 [mkInterval 10 20; mkInterval 30 100]])).
  { unfold pool_in_range, free_in_range. cbn. repeat split; try lia.
    repeat constructor; cbn; lia. }
  split; [exact Hr|].
  destruct (alloc_first_fit_or_new_page 16 8 0 2%nat 3%nat None _ Hr ltac:(lia))
    as [(a & pool' & Halloc & _ & _ & Hff) _].
  change (first_fit 16 8 _) with
    (Some (0%nat, mkPage 1%nat 100 [mkInterval 10 20; mkInterval 30 100], mkInterval 30 100))
    in Hff.
  destruct Hff as (_ & _ & Ha & _ & _ & k & Hk & _ & Hpool).
  destruct k as [|[|k]]; [discriminate Hk| |discriminate Hk].
  rewrite Ha, Hpool in Halloc. exact Halloc.
Defined.

(** *** The page invariant *)

(** Byte [x] lies in the interval. *)
Definition inside (x : Z) (i : Interval) : Prop := m_begin i <= x < m_end i.

Global Instance inside_dec x i : Decision (inside x i).
Proof. unfold inside. apply _. Defined.

(** The number of intervals of [l] that contain byte [x]. *)
Definition cover (l : list Interval) (x : Z) : nat := length (filter (inside x) l).

(** A free list inside [lo, hi]: ascending, every interval non-empty, and
    a gap of at least one byte between neighbours (no overlap, nothing
    left to merge). *)
Fixpoint coalesced (lo hi : Z) (free : list Interval) : Prop :=
  match free with
  | [] => True
  | i :: rest =>
    lo <= m_begin i ∧ m_begin i < m_end i ∧ m_end i <= hi
    ∧ coalesced (m_end i + 1) hi rest
  end.

(** The invariant of a page: the free list is coalesced inside the page,
    every live region is a non-empty part of the page, and every byte of
    the page lies in exactly one free interval or live region. *)
Record page_inv (st : PageState) : Prop := mkPageInv {
  inv_free : coalesced 0 (m_size (page st)) (m_freeIntervals (page st));
  inv_live : Forall (λ r, 0 <= m_begin r ∧ m_begin r < m_end r
                          ∧ m_end r <= m_size (page st)) (live st);
  inv_tile : ∀ x, 0 <= x < m_size (page st) →
                  cover (m_freeIntervals (page st) ++ live st) x = 1%nat
}.

Lemma cover_cons i l x :
  cover (i :: l) x = ((if decide (inside x i) then 1 else 0) + cover l x)%nat.
Proof. unfold cover. rewrite filter_cons. by case_decide. Qed.

Lemma cover_app l1 l2 x : cover (l1 ++ l2) x = (cover l1 x + cover l2 x)%nat.
Proof. unfold cover. by rewrite filter_app, length_app. Qed.

Lemma cover_nil x : cover [] x = 0%nat.
Proof. done. Qed.

Lemma cover_elem l x i : i ∈ l → inside x i → (1 ≤ cover l x)%nat.
Proof.
  intros Hi Hx. unfold cover.
  assert (Hin : i ∈ filter (inside x) l) by by apply list_elem_of_filter.
  destruct (filter (inside x) l); [by apply elem_of_nil in Hin|cbn; lia].
Qed.

Lemma cover_zero l x i : cover l x = 0%nat → i ∈ l → ¬ inside x i.
Proof. intros Hc Hi Hx. pose proof (cover_elem l x i Hi Hx). lia. Qed.

Lemma coalesced_weaken lo lo' hi free :
  lo' <= lo → coalesced lo hi free → coalesced lo' hi free.
Proof. destruct free as [|i rest]; cbn; [done|]. intros ? (? & ? & ? & ?). repeat split; try done; lia. Qed.

(** Where a coalesced list ends. *)
Definition bound_after (lo : Z) (l : list Interval) : Z :=
  match last l with
  | Some p => m_end p + 1
  | None => lo
  end.

Lemma bound_after_snoc lo l p : bound_after lo (l ++ [p]) = m_end p + 1.
Proof. unfold bound_after. by rewrite last_snoc. Qed.

Lemma coalesced_app lo hi l1 l2 :
  coalesced lo hi (l1 ++ l2) ↔ coalesced lo hi l1 ∧ coalesced (bound_after lo l1) hi l2.
Proof.
  revert lo. induction l1 as [|i l1 IH]; intros lo; cbn.
  - unfold bound_after. cbn. tauto.
  - rewrite IH. unfold bound_after. cbn.
    destruct l1 as [|j l1]; cbn; [tauto|].
    destruct (last (j :: l1)) eqn:E; [tauto|].
    by apply last_None in E.
Qed.

Lemma coalesced_bounds lo hi free f :
  coalesced lo hi free → f ∈ free → lo <= m_begin f ∧ m_begin f < m_end f ∧ m_end f <= hi.
Proof.
  revert lo. induction free as [|i rest IH]; intros lo Hc Hf.
  - by apply elem_of_nil in Hf.
  - cbn in Hc. destruct Hc as (H1 & H2 & H3 & H4).
    apply elem_of_cons in Hf as [->|Hf]; [done|].
    destruct (IH _ H4 Hf) as (? & ? & ?). repeat split; try done; lia.
Qed.

(** Outside its bounds a coalesced list covers nothing, and it covers no
    byte twice. *)
Lemma coalesced_cover_below lo hi free x :
  coalesced lo hi free → x < lo → cover free x = 0%nat.
Proof.
  revert lo. induction free as [|i rest IH]; intros lo Hc Hx; [done|].
  cbn in Hc. destruct Hc as (H1 & H2 & H3 & H4).
  rewrite cover_cons, (IH _ H4) by lia.
  case_decide as Hin; [|done]. unfold inside in Hin. lia.
Qed.

Lemma coalesced_cover_le lo hi free x :
  coalesced lo hi free → (cover free x ≤ 1)%nat.
Proof.
  revert lo. induction free as [|i rest IH]; intros lo Hc; [cbn; lia|].
  cbn in Hc. destruct Hc as (H1 & H2 & H3 & H4).
  rewrite cover_cons. case_decide as Hin.
  - rewrite (coalesced_cover_below _ _ _ _ H4); [lia|]. unfold inside in Hin. lia.
  - specialize (IH _ H4). lia.
Qed.

(** **** Requests keep the invariant *)

(** With [lo >= 0] and the page inside the 64-bit range, no sum of the
    request loop wraps. *)
Lemma coalesced_in_range lo hi size alignment free :
  0 <= lo → hi + alignment + size < 2 ^ 64 →
  coalesced lo hi free → free_in_range size alignment free.
Proof.
  intros Hlo Hhi Hc. apply Forall_forall. intros f Hf.
  destruct (coalesced_bounds _ _ _ _ Hc Hf) as (? & ? & ?). lia.
Qed.

Lemma requestInterval_done size alignment free :
  0 < alignment → 0 <= size → free_in_range size alignment free →
  ∃ r, requestInterval size alignment free = Done r.
Proof.
  intros Hal Hsize Hr.
  pose proof (requestInterval_first_fit size alignment free Hal Hsize Hr) as H.
  destruct (list_find _ _) as [[n i]|]; [destruct H as [free' ->]|rewrite H]; eauto.
Qed.

Lemma requestInterval_none size alignment free free' :
  requestInterval size alignment free = Done (None, free') → free' = free.
Proof.
  revert free'. induction free as [|i rest IH]; intros free' H; cbn in H.
  - by simplify_eq.
  - repeat case_match; simplify_eq.
    apply exec_bind_done in H as ([r rest'] & Hrec & H). cbn in H. simplify_eq.
    f_equal. by apply IH.
Qed.

Lemma requestInterval_coalesced size alignment lo hi free c free' :
  0 < alignment → 0 < size → 0 <= lo → hi + alignment + size < 2 ^ 64 →
  coalesced lo hi free →
  requestInterval size alignment free = Done (Some c, free') →
  coalesced lo hi free'
  ∧ lo <= m_begin c ∧ m_begin c < m_end c ∧ m_end c <= hi
  ∧ m_end c - m_begin c = size
  ∧ (alignment | m_begin c)
  ∧ ∀ x, cover free x = (cover free' x + cover [c] x)%nat.
Proof.
  intros Hal Hsize. revert lo free'.
  induction free as [|i rest IH]; intros lo free' Hlo Hhi Hc H; [done|].
  cbn in Hc. destruct Hc as (H1 & H2 & H3 & H4).
  cbn [requestInterval] in H.
  rewrite (proj2 (Z.eqb_neq alignment 0)) in H by lia.
  rewrite alignedBeginOf_align_up in H by lia.
  pose proof (align_up_bounds (m_begin i) alignment Hal) as [Hab Hdiv].
  rewrite (wrap64_small (align_up (m_begin i) alignment + size)) in H by lia.
  set (ab := align_up (m_begin i) alignment) in *.
  destruct (Z.leb_spec (ab + size) (m_end i)) as [Hfit|Hfit].
  - rewrite (Z.eqb_sym (m_begin i) ab) in H.
    assert (Hcover : ∀ (x : Z) (l : list Interval),
              cover (i :: rest) x = (cover l x + cover [mkInterval ab (ab + size)] x)%nat ↔
              ((if decide (inside x i) then 1 else 0)
               + cover rest x = cover l x
                 + (if decide (inside x (mkInterval ab (ab + size))) then 1 else 0))%nat).
    { intros x l. rewrite !cover_cons, cover_nil. lia. }
    destruct (Z.eqb_spec ab (m_begin i)) as [Hb|Hb];
      destruct (Z.eqb_spec (ab + size) (m_end i)) as [He|He];
      cbn in H; simplify_eq; cbn [m_begin m_end coalesced];
      (repeat apply conj; try done; try lia;
       [try (eapply coalesced_weaken; [|exact H4]; lia)..|]);
      intros x; apply Hcover; rewrite ?cover_cons; unfold inside; cbn [m_begin m_end];
      repeat case_decide; lia.
  - apply exec_bind_done in H as ([r rest'] & Hrec & H). cbn in H. simplify_eq.
    destruct (IH (m_end i + 1) rest' ltac:(lia) Hhi H4 Hrec)
      as (Hc' & Hlo' & Hne & Hhi' & Hsz & Hdiv' & Hcov).
    cbn [coalesced]. repeat apply conj; try done; try lia.
    intros x. rewrite !cover_cons, Hcov, cover_cons. lia.
Qed.

(** **** Releases keep the invariant *)

Lemma lower_bound_pre_post (pre post : list Interval) (i : Interval) :
  Forall (λ f, Interval_lt f i = true) pre →
  Forall (λ f, Interval_lt f i = false) post →
  lower_bound Interval_lt (pre ++ post) i = length pre.
Proof.
  intros Hpre Hpost. apply lower_bound_splits.
  - rewrite Forall_forall in Hpre, Hpost. split.
    + intros n x Hx Hn. rewrite lookup_app_l in Hx by done.
      apply Hpre. by eapply list_elem_of_lookup_2.
    + intros n x Hx Hn. rewrite lookup_app_r in Hx by done.
      apply Hpost. by eapply list_elem_of_lookup_2.
  - rewrite length_app. lia.
Qed.

(** A non-empty region [a, b) that meets no free interval splits a
    coalesced list into the intervals before it and those behind it. *)
Lemma coalesced_split lo hi free a b :
  coalesced lo hi free → a < b →
  (∀ f, f ∈ free → m_end f <= a ∨ b <= m_begin f) →
  ∃ pre post,
    free = pre ++ post
    ∧ Forall (λ f, m_end f <= a) pre
    ∧ Forall (λ f, b <= m_begin f) post
    ∧ lower_bound Interval_lt free (mkInterval a b) = length pre.
Proof.
  intros Hc Hab Hdis.
  assert (Hsplit : ∃ pre post, free = pre ++ post
                     ∧ Forall (λ f, m_end f <= a) pre
                     ∧ Forall (λ f, b <= m_begin f) post).
  { revert lo Hc Hdis. induction free as [|f rest IH]; intros lo Hc Hdis.
    - by exists [], [].
    - cbn in Hc. destruct Hc as (H1 & H2 & H3 & H4).
      destruct (Hdis f ltac:(by left)) as [Hf|Hf].
      + destruct (IH _ H4) as (pre & post & -> & Hpre & Hpost).
        { intros g Hg. apply Hdis. by right. }
        exists (f :: pre), post. repeat split; try done. by constructor.
      + exists [], (f :: rest). repeat split; try done.
        apply Forall_forall. intros g [->|Hg]%elem_of_cons; [done|].
        destruct (coalesced_bounds _ _ _ _ H4 Hg). lia. }
  destruct Hsplit as (pre & post & -> & Hpre & Hpost).
  exists pre, post. repeat split; try done.
  apply lower_bound_pre_post.
  - apply Forall_forall. intros f Hf.
    destruct (coalesced_bounds _ _ _ f Hc) as (? & ? & ?); [apply elem_of_app; by left|].
    rewrite Forall_forall in Hpre. specialize (Hpre f Hf).
    unfold Interval_lt. cbn. rewrite (proj2 (Z.eqb_neq _ _)) by lia. cbn. lia.
  - apply Forall_forall. intros f Hf.
    rewrite Forall_forall in Hpost. specialize (Hpost f Hf).
    unfold Interval_lt. cbn. rewrite (proj2 (Z.eqb_neq _ _)) by lia. cbn. lia.
Qed.

(** Vector operations at the seam of [pre ++ post]. *)
Lemma deref_seam {A} (pre post : list A) (n : A) :
  deref (pre ++ n :: post) (length pre) = Done n.
Proof. unfold deref. by rewrite list_lookup_middle. Qed.

Lemma deref_before_seam {A} (pre post : list A) (p : A) :
  deref ((pre ++ [p]) ++ post) (pred (length (pre ++ [p]))) = Done p.
Proof.
  unfold deref. rewrite length_app. cbn. rewrite Nat.add_1_r. cbn.
  rewrite <- app_assoc. cbn. by rewrite list_lookup_middle.
Qed.

Lemma insert_seam {A} (pre post : list A) (n y : A) :
  <[length pre := y]> (pre ++ n :: post) = pre ++ y :: post.
Proof. by rewrite insert_app_r_alt, Nat.sub_diag by lia. Qed.

Lemma insert_before_seam {A} (pre post : list A) (p y : A) :
  <[pred (length (pre ++ [p])) := y]> ((pre ++ [p]) ++ post) = (pre ++ [y]) ++ post.
Proof.
  rewrite length_app. cbn. rewrite Nat.add_1_r. cbn.
  rewrite <- !app_assoc. cbn. apply insert_seam.
Qed.

Lemma vec_insert_seam {A} (pre post : list A) (y : A) :
  vec_insert (length pre) y (pre ++ post) = pre ++ y :: post.
Proof. unfold vec_insert. by rewrite take_app_length, drop_app_length. Qed.

Lemma vec_erase_seam {A} (pre post : list A) (n : A) :
  vec_erase (length pre) (pre ++ n :: post) = pre ++ post.
Proof.
  unfold vec_erase. rewrite take_app_length.
  replace (S (length pre)) with (length (pre ++ [n])) by (rewrite length_app; cbn; lia).
  rewrite (cons_middle n pre post), app_assoc. by rewrite drop_app_length.
Qed.

Ltac cover_solve :=
  intros; rewrite ?cover_app, ?cover_cons, ?cover_nil; unfold inside, set_end, set_begin;
  cbn [m_begin m_end]; repeat case_decide; lia.

(** [returnInterval] on a coalesced list and a region that meets no free
    interval: either the call runs into the past-the-end read (the list is
    not empty and the region lies behind all of it), or it returns a
    coalesced list that covers the region in addition. *)
Lemma returnInterval_coalesced lo hi free a b :
  coalesced lo hi free → lo <= a → a < b → b <= hi →
  (∀ f, f ∈ free → m_end f <= a ∨ b <= m_begin f) →
  (free ≠ [] ∧ Forall (λ f, m_end f <= a) free
   ∧ returnInterval (mkInterval a b) free = Fault OutOfBounds)
  ∨ (∃ free', returnInterval (mkInterval a b) free = Done free'
              ∧ coalesced lo hi free'
              ∧ ∀ x, cover free' x = (cover free x + cover [mkInterval a b] x)%nat).
Proof.
  intros Hc Hlo Hab Hhi Hdis.
  destruct (coalesced_split lo hi free a b Hc Hab Hdis)
    as (pre & post & -> & Hpre & Hpost & Hlb).
  destruct post as [|n post].
  - rewrite app_nil_r in *. destruct pre as [|p pre].
    + right. exists [mkInterval a b]. rewrite returnInterval_empty by (cbn; lia).
      split; [done|]. split; [cbn; lia|]. cover_solve.
    + left. split; [done|]. split; [done|].
      apply returnInterval_end_branch; [cbn; lia|done|done].
  - right.
    apply coalesced_app in Hc as [Hcpre Hcpost].
    cbn [coalesced] in Hcpost. destruct Hcpost as (Hn1 & Hn2 & Hn3 & Hcpost).
    apply Forall_cons in Hpost as [Hnb Hpost].
    unfold returnInterval. cbn [m_begin m_end].
    rewrite (proj2 (Z.eqb_neq a b)) by lia. rewrite Hlb.
    rewrite bool_decide_eq_false_2 by (rewrite length_app; cbn; lia).
    rewrite deref_seam. cbn [mbind exec_bind].
    destruct pre as [|p pre _] using rev_ind.
    + (* nothing in front *)
      rewrite bool_decide_eq_true_2 by done. cbn [mbind exec_bind andb].
      unfold bound_after in Hn1. cbn in Hn1.
      destruct (Z.eqb_spec b (m_begin n)) as [Hnext|Hnext].
      * exists (set_begin n a :: post). split; [reflexivity|]. split; [|cover_solve].
        cbn [coalesced set_begin m_begin m_end]. repeat apply conj; try done; lia.
      * exists (mkInterval a b :: n :: post). split; [reflexivity|]. split; [|cover_solve].
        cbn [coalesced m_begin m_end]. repeat apply conj; try done; lia.
    + (* an interval in front *)
      rewrite bool_decide_eq_false_2 by (rewrite length_app; cbn; lia).
      rewrite deref_before_seam. cbn [mbind exec_bind].
      apply coalesced_app in Hcpre as [Hcpre Hcp].
      cbn [coalesced] in Hcp. destruct Hcp as (Hp1 & Hp2 & Hp3 & _).
      rewrite bound_after_snoc in Hn1.
      apply Forall_app in Hpre as [Hpre Hpe]. apply Forall_cons in Hpe as [Hpe _].
      destruct (Z.eqb_spec (m_end p) a) as [Hprev|Hprev];
        destruct (Z.eqb_spec b (m_begin n)) as [Hnext|Hnext]; cbn [andb].
      * (* merge with both *)
        rewrite insert_before_seam.
        replace (length (pre ++ [p])) with (length (pre ++ [set_end p (m_end n)]))
          by (rewrite !length_app; done).
        rewrite vec_erase_seam.
        eexists. split; [reflexivity|]. split; [|cover_solve].
        apply coalesced_app. split.
        -- apply coalesced_app. split; [done|].
           cbn [coalesced set_end m_begin m_end]. repeat apply conj; try done; lia.
        -- rewrite bound_after_snoc. cbn [set_end m_end]. done.
      * (* merge with the interval in front *)
        rewrite insert_before_seam.
        eexists. split; [reflexivity|]. split; [|cover_solve].
        apply coalesced_app. split.
        -- apply coalesced_app. split; [done|].
           cbn [coalesced set_end m_begin m_end]. repeat apply conj; try done; lia.
        -- rewrite bound_after_snoc.
           cbn [coalesced set_end set_begin m_begin m_end]. repeat apply conj; try done; lia.
      * (* merge with the interval behind *)
        rewrite insert_seam.
        eexists. split; [reflexivity|]. split; [|cover_solve].
        apply coalesced_app. split.
        -- apply coalesced_app. split; [done|].
           cbn [coalesced set_end m_begin m_end]. repeat apply conj; try done; lia.
        -- rewrite bound_after_snoc.
           cbn [coalesced set_end set_begin m_begin m_end]. repeat apply conj; try done; lia.
      * (* no neighbour *)
        rewrite vec_insert_seam.
        eexists. split; [reflexivity|]. split; [|cover_solve].
        apply coalesced_app. split.
        -- apply coalesced_app. split; [done|].
           cbn [coalesced set_end m_begin m_end]. repeat apply conj; try done; lia.
        -- rewrite bound_after_snoc.
           cbn [coalesced set_end set_begin m_begin m_end]. repeat apply conj; try done; lia.
Qed.

(** **** Runs on one page *)

(** The calls the invariant is stated for: requests of a positive size
    with a positive alignment, inside the 64-bit range, and releases of
    regions that are live. *)
Definition valid_op (st : PageState) (o : page_op) : Prop :=
  match o with
  | Request size alignment =>
    0 < size ∧ 0 < alignment ∧ m_size (page st) + alignment + size < 2 ^ 64
  | Release region => region ∈ live st
  end.

Fixpoint valid_run (ops : list page_op) (st : PageState) : Prop :=
  match ops with
  | [] => True
  | o :: ops' =>
    valid_op st o
    ∧ match page_step o st with
      | Done st' => valid_run ops' st'
      | Fault _ => True
      end
  end.

Lemma cover_remove_first region l x :
  region ∈ l → cover l x = (cover [region] x + cover (remove_first region l) x)%nat.
Proof.
  induction l as [|r l IH]; intros Hin; [by apply elem_of_nil in Hin|].
  cbn [remove_first]. case_bool_decide as E.
  - subst. rewrite !cover_cons, cover_nil. lia.
  - apply elem_of_cons in Hin as [?|Hin]; [done|].
    rewrite !cover_cons, (IH Hin), !cover_cons, cover_nil. lia.
Qed.

Lemma remove_first_subset region l r : r ∈ remove_first region l → r ∈ l.
Proof.
  induction l as [|y l IH]; cbn; [done|]. case_bool_decide.
  - by right.
  - intros [->|?]%elem_of_cons; [by left|right; auto].
Qed.

Lemma cover_two l x i j a b :
  i ≠ j → l !! i = Some a → l !! j = Some b → inside x a → inside x b →
  (2 ≤ cover l x)%nat.
Proof.
  revert i j. induction l as [|y l IH]; intros i j Hij Ha Hb Hxa Hxb.
  - by rewrite lookup_nil in Ha.
  - rewrite cover_cons. destruct i as [|i], j as [|j]; cbn in Ha, Hb; simplify_eq.
    + rewrite decide_True by done.
      pose proof (cover_elem l x b (list_elem_of_lookup_2 _ _ _ Hb) Hxb). lia.
    + rewrite decide_True by done.
      pose proof (cover_elem l x a (list_elem_of_lookup_2 _ _ _ Ha) Hxa). lia.
    + assert (i ≠ j) by congruence.
      specialize (IH i j ltac:(done) Ha Hb Hxa Hxb). lia.
Qed.

(** Two non-empty intervals that intersect share a byte. *)
Lemma intersects_common a b :
  m_begin a < m_end a → m_begin b < m_end b →
  intersects a b = true → ∃ x, inside x a ∧ inside x b.
Proof.
  unfold intersects, inside. intros Ha Hb [H1 H2]%andb_true_iff.
  apply Z.ltb_lt in H1, H2.
  exists (Z.max (m_begin a) (m_begin b)). lia.
Qed.

(** A live region meets no free interval. *)
Lemma live_apart_from_free st region f :
  page_inv st → region ∈ live st → f ∈ m_freeIntervals (page st) →
  m_end f <= m_begin region ∨ m_end region <= m_begin f.
Proof.
  intros [Hfree Hlive Htile] Hr Hf.
  rewrite Forall_forall in Hlive. destruct (Hlive _ Hr) as (Hr1 & Hr2 & Hr3).
  destruct (coalesced_bounds _ _ _ _ Hfree Hf) as (Hf1 & Hf2 & Hf3).
  destruct (decide (m_end f <= m_begin region)) as [|H1]; [by left|].
  destruct (decide (m_end region <= m_begin f)) as [|H2]; [by right|].
  exfalso.
  specialize (Htile (Z.max (m_begin region) (m_begin f)) ltac:(lia)).
  rewrite cover_app in Htile.
  pose proof (cover_elem _ (Z.max (m_begin region) (m_begin f)) f Hf) as Hc1.
  pose proof (cover_elem _ (Z.max (m_begin region) (m_begin f)) region Hr) as Hc2.
  unfold inside in Hc1, Hc2. specialize (Hc1 ltac:(lia)). specialize (Hc2 ltac:(lia)). lia.
Qed.

(** One call: the invariant is kept, unless the call is a release that
    runs into the past-the-end read. *)
Lemma page_step_inv (o : page_op) (st : PageState) :
  page_inv st → valid_op st o →
  (∃ st', page_step o st = Done st' ∧ page_inv st'
          ∧ m_size (page st') = m_size (page st))
  ∨ (∃ region, o = Release region
               ∧ m_freeIntervals (page st) ≠ []
               ∧ Forall (λ f, m_end f <= m_begin region) (m_freeIntervals (page st))
               ∧ page_step o st = Fault OutOfBounds).
Proof.
  intros Hinv Hvalid. pose proof Hinv as [Hfree Hlive Htile].
  destruct o as [size alignment|region]; cbn [valid_op page_step] in *.
  - left. destruct Hvalid as (Hsize & Hal & Hrange).
    destruct (requestInterval_done size alignment (m_freeIntervals (page st)))
      as [[r free'] Hreq]; [lia|lia| |].
    { eapply coalesced_in_range; [|exact Hrange|exact Hfree]. lia. }
    rewrite Hreq. cbn [mbind exec_bind fst snd]. eexists. split; [reflexivity|].
    split; [|done].
    destruct r as [c|].
    + destruct (requestInterval_coalesced size alignment 0 (m_size (page st)) _ c free'
                  Hal Hsize ltac:(lia) Hrange Hfree Hreq)
        as (Hc & Hc1 & Hc2 & Hc3 & _ & _ & Hcov).
      constructor; cbn [page live set_freeIntervals m_freeIntervals m_size].
      * done.
      * by constructor.
      * intros x Hx. specialize (Htile x Hx).
        rewrite cover_app, cover_cons in *. rewrite Hcov, cover_cons, cover_nil in Htile. lia.
    + apply requestInterval_none in Hreq as ->.
      constructor; cbn [page live set_freeIntervals m_freeIntervals m_size]; done.
  - rewrite Forall_forall in Hlive. destruct (Hlive _ Hvalid) as (Hr1 & Hr2 & Hr3).
    destruct region as [a b]. cbn [m_begin m_end] in *.
    destruct (returnInterval_coalesced 0 (m_size (page st)) (m_freeIntervals (page st)) a b
                Hfree Hr1 Hr2 Hr3) as [(Hne & Hall & Hfault)|(free' & Hret & Hc & Hcov)].
    { intros f Hf. apply (live_apart_from_free st (mkInterval a b) f Hinv Hvalid Hf). }
    + right. exists (mkInterval a b). rewrite Hfault. done.
    + left. rewrite Hret. cbn [mbind exec_bind]. eexists. split; [reflexivity|].
      split; [|done].
      constructor; cbn [page live set_freeIntervals m_freeIntervals m_size].
      * done.
      * apply Forall_forall. intros r Hr. apply Hlive. by eapply remove_first_subset.
      * intros x Hx. specialize (Htile x Hx).
        rewrite cover_app in *. rewrite Hcov.
        rewrite (cover_remove_first _ _ x Hvalid) in Htile. lia.
Qed.

(** A fresh page satisfies the invariant. *)
Lemma newPage_inv (devMem : DeviceMemory) (size : Z) :
  0 < size → page_inv (mkPageState (newPage devMem size) []).
Proof.
  intros Hsize. constructor; cbn [page live newPage m_freeIntervals m_size].
  - cbn. lia.
  - constructor.
  - intros x Hx. rewrite app_nil_r, cover_cons, cover_nil.
    rewrite decide_True; [done|]. unfold inside. cbn. lia.
Qed.

(** Every run of valid calls keeps the invariant after each call, up to
    the first release that runs into the past-the-end read; nothing else
    stops a run. *)
Lemma page_run_inv (ops : list page_op) (st : PageState) :
  page_inv st → valid_run ops st →
  match page_run ops st with
  | Done st' => page_inv st'
  | Fault f => f = OutOfBounds
  end.
Proof.
  revert st. induction ops as [|o ops IH]; intros st Hinv Hvalid; [done|].
  cbn [valid_run] in Hvalid. destruct Hvalid as [Hop Hrest].
  cbn [page_run].
  destruct (page_step_inv o st Hinv Hop) as [(st' & Hstep & Hinv' & _)|(r & _ & _ & _ & Hf)].
  - rewrite Hstep in Hrest |- *. cbn [mbind exec_bind]. by apply IH.
  - by rewrite Hf.
Qed.

(** What the invariant says in the words of the claim. *)
Lemma page_inv_disjoint (st : PageState) :
  page_inv st →
  (∀ i j r1 r2, i ≠ j → live st !! i = Some r1 → live st !! j = Some r2 →
                intersects r1 r2 = false)
  ∧ (∀ r f, r ∈ live st → f ∈ m_freeIntervals (page st) → intersects r f = false)
  ∧ (∀ x, 0 <= x < m_size (page st) →
          (∃ i, i ∈ m_freeIntervals (page st) ++ live st ∧ inside x i)).
Proof.
  intros Hinv. pose proof Hinv as [Hfree Hlive Htile]. split; [|split].
  - intros i j r1 r2 Hij H1 H2.
    destruct (intersects r1 r2) eqn:E; [|done]. exfalso.
    rewrite Forall_forall in Hlive.
    destruct (Hlive r1 (list_elem_of_lookup_2 _ _ _ H1)) as (? & ? & ?).
    destruct (Hlive r2 (list_elem_of_lookup_2 _ _ _ H2)) as (? & ? & ?).
    destruct (intersects_common r1 r2 ltac:(done) ltac:(done) E) as (x & Hx1 & Hx2).
    pose proof (cover_two _ x i j r1 r2 Hij H1 H2 Hx1 Hx2) as Hc.
    unfold inside in Hx1.
    specialize (Htile x ltac:(lia)). rewrite cover_app in Htile. lia.
  - intros r f Hr Hf.
    destruct (live_apart_from_free st r f Hinv Hr Hf);
      unfold intersects; apply andb_false_iff; rewrite !Z.ltb_ge; lia.
  - intros x Hx. specialize (Htile x Hx). unfold cover in Htile.
    destruct (filter (inside x) (m_freeIntervals (page st) ++ live st)) as [|i l] eqn:E;
      [done|].
    exists i.
    assert (Hi : i ∈ filter (inside x) (m_freeIntervals (page st) ++ live st))
      by (rewrite E; by left).
    apply list_elem_of_filter in Hi. tauto.
Qed.

(** **** Coalescing *)

(** A range of bytes that a coalesced list covers without a hole lies in
    one of its intervals. *)
Lemma coalesced_contiguous lo hi free a c :
  coalesced lo hi free → a < c →
  (∀ x, a <= x < c → (1 ≤ cover free x)%nat) →
  ∃ f, f ∈ free ∧ m_begin f <= a ∧ c <= m_end f.
Proof.
  revert lo. induction free as [|f rest IH]; intros lo Hc Hac Hcov.
  - specialize (Hcov a ltac:(lia)). cbn in Hcov. lia.
  - cbn in Hc. destruct Hc as (H1 & H2 & H3 & H4).
    destruct (decide (inside a f)) as [Hin|Hout].
    + exists f. unfold inside in Hin. split; [by left|]. split; [lia|].
      destruct (decide (c <= m_end f)) as [|Hlt]; [done|]. exfalso.
      specialize (Hcov (m_end f) ltac:(lia)).
      rewrite cover_cons, (coalesced_cover_below _ _ _ _ H4) in Hcov by lia.
      rewrite decide_False in Hcov; [lia|]. unfold inside. lia.
    + assert (Hge : m_end f <= a).
      { destruct (decide (m_end f <= a)) as [|Hlt]; [done|]. exfalso.
        specialize (Hcov a ltac:(lia)).
        rewrite cover_cons, decide_False in Hcov by done.
        rewrite (coalesced_cover_below _ _ _ _ H4) in Hcov; [lia|].
        unfold inside in Hout. lia. }
      destruct (IH _ H4 Hac) as (g & Hg & Hg1 & Hg2).
      { intros x Hx. specialize (Hcov x Hx).
        rewrite cover_cons, decide_False in Hcov; [done|]. unfold inside. lia. }
      exists g. split; [by right|done].
Qed.

(** Two adjacent live regions [a, b) and [b, c), released one after the
    other in either order: when both calls return, one free interval
    contains [a, c), in a coalesced list. *)
Lemma release_adjacent_merged (st st' : PageState) (a b c : Z) (first second : Interval) :
  page_inv st →
  mkInterval a b ∈ live st → mkInterval b c ∈ live st →
  (first = mkInterval a b ∧ second = mkInterval b c
   ∨ first = mkInterval b c ∧ second = mkInterval a b) →
  page_run [Release first; Release second] st = Done st' →
  page_inv st'
  ∧ ∃ f, f ∈ m_freeIntervals (page st') ∧ m_begin f <= a ∧ c <= m_end f.
Proof.
  intros Hinv HA HB Horder Hrun.
  pose proof Hinv as [Hfree Hlive Htile].
  rewrite Forall_forall in Hlive.
  destruct (Hlive _ HA) as (HA1 & HA2 & HA3). destruct (Hlive _ HB) as (HB1 & HB2 & HB3).
  cbn [m_begin m_end] in *.
  assert (Hne : mkInterval a b ≠ mkInterval b c) by (intros ?; simplify_eq; lia).
  assert (Hfirst : first ∈ live st) by (destruct Horder as [[-> _]|[-> _]]; done).
  assert (Hsecond : second ∈ remove_first first (live st)).
  { assert (Hgen : ∀ (l : list Interval) (u v : Interval),
              u ≠ v → v ∈ l → v ∈ remove_first u l).
    { intros l u v Huv. induction l as [|y l IHl]; cbn; [done|].
      intros [->|Hin]%elem_of_cons.
      - rewrite bool_decide_eq_false_2 by done. by left.
      - case_bool_decide; [done|]. right. auto. }
    destruct Horder as [[-> ->]|[-> ->]]; apply Hgen; done. }
  cbn [page_run] in Hrun.
  apply exec_bind_done in Hrun as (st1 & Hstep1 & Hrun).
  apply exec_bind_done in Hrun as (st2 & Hstep2 & Hrun). simplify_eq.
  destruct (page_step_inv (Release first) st Hinv Hfirst)
    as [(st1' & Hs1 & Hinv1 & Hsz1)|(r & _ & _ & _ & Hf)]; [|congruence].
  rewrite Hs1 in Hstep1. simplify_eq.
  assert (Hlive1 : live st1 = remove_first first (live st)).
  { cbn in Hs1. apply exec_bind_done in Hs1 as (free1 & _ & Hs1). by simplify_eq. }
  assert (Hvalid2 : valid_op st1 (Release second)) by (cbn; by rewrite Hlive1).
  destruct (page_step_inv (Release second) st1 Hinv1 Hvalid2)
    as [(st2' & Hs2 & Hinv2 & Hsz2)|(r & _ & _ & _ & Hf)]; [|congruence].
  rewrite Hs2 in Hstep2. simplify_eq.
  assert (Hlive2 : live st' = remove_first second (live st1)).
  { cbn in Hs2. apply exec_bind_done in Hs2 as (free2 & _ & Hs2). by simplify_eq. }
  split; [done|].
  destruct Hinv2 as [Hfree2 _ Htile2].
  apply (coalesced_contiguous 0 (m_size (page st')) _ a c Hfree2 ltac:(lia)).
  intros x Hx.
  specialize (Htile x ltac:(lia)). specialize (Htile2 x ltac:(lia)).
  rewrite cover_app in Htile, Htile2.
  rewrite (cover_remove_first first _ x Hfirst) in Htile.
  rewrite (cover_remove_first second _ x Hsecond) in Htile.
  rewrite Hlive2, Hlive1 in Htile2.
  assert (Hone : (cover [first] x + cover [second] x = 1)%nat).
  { destruct Horder as [[-> ->]|[-> ->]]; rewrite !cover_cons, !cover_nil;
      unfold inside; cbn [m_begin m_end]; repeat case_decide; lia. }
  lia.
Qed.

(** *** The past-the-end branch of [returnInterval] *)

(** C10. When the bisection answers the past-the-end position on a
    non-empty free list, [returnInterval] compares the last interval's end
    with [lbIt->m_begin], the element at the insertion position: with
    indexing made total, that read is out of bounds, and the call stops
    there. *)
Theorem returnInterval_past_the_end_is_out_of_bounds
    (interval : Interval) (free : list Interval) :
  m_begin interval ≠ m_end interval →
  free ≠ [] →
  lower_bound Interval_lt free interval = length free →
  free !! lower_bound Interval_lt free interval = None
  ∧ returnInterval interval free = Fault OutOfBounds.
Proof.
  intros Hne Hfree Hlb. split.
  - rewrite Hlb. by apply lookup_ge_None_2.
  - by apply returnInterval_end_branch.
Qed.

Lemma returnInterval_past_the_end_is_out_of_bounds_witness :
  m_begin (mkInterval 10 20) ≠ m_end (mkInterval 10 20)
  ∧ [mkInterval 0 10] ≠ []
  ∧ lower_bound Interval_lt [mkInterval 0 10] (mkInterval 10 20) = length [mkInterval 0 10]
  ∧ returnInterval (mkInterval 10 20) [mkInterval 0 10] = Fault OutOfBounds.
Proof.
  assert (H1 : m_begin (mkInterval 10 20) ≠ m_end (mkInterval 10 20)) by (cbn; lia).
  assert (H2 : [mkInterval 0 10] ≠ []) by discriminate.
  assert (H3 : lower_bound Interval_lt [mkInterval 0 10] (mkInterval 10 20)
               = length [mkInterval 0 10]) by reflexivity.
  split; [exact H1|]. split; [exact H2|]. split; [exact H3|].
  exact (proj2 (returnInterval_past_the_end_is_out_of_bounds _ _ H1 H2 H3)).
Defined.

(** C3. Two adjacent regions [a, b) and [b, c) that lie behind every free
    interval, released in ascending order: the run does not end with one
    merged interval; it stops in the out-of-bounds read of the
    past-the-end branch (on the first release when a free interval
    exists, on the second otherwise). *)
Theorem release_ascending_behind_free_is_out_of_bounds
    (pa : PageAllocation) (regions : list Interval) (a b c : Z) :
  a < b → b < c →
  Forall (λ i, Interval_lt i (mkInterval a b) = true) (m_freeIntervals pa) →
  page_run [Release (mkInterval a b); Release (mkInterval b c)] (mkPageState pa regions)
  = Fault OutOfBounds.
Proof.
  intros Hab Hbc Hall. cbn [page_run page_step page].
  destruct (m_freeIntervals pa) as [|i free] eqn:Efree.
  - rewrite returnInterval_empty by (cbn; lia). cbn [mbind exec_bind page].
    cbn [set_freeIntervals m_freeIntervals].
    rewrite returnInterval_end_branch; [done|cbn; lia|done|].
    apply lower_bound_behind. constructor; [|done].
    unfold Interval_lt. cbn. rewrite (proj2 (Z.eqb_neq a b)) by lia. cbn. lia.
  - rewrite returnInterval_end_branch; [done|cbn; lia|done|].
    by apply lower_bound_behind.
Qed.

Lemma release_ascending_behind_free_is_out_of_bounds_witness :
  0 < 10 ∧ 10 < 20
  ∧ page_run [Release (mkInterval 0 10); Release (mkInterval 10 20)]
             (mkPageState (mkPage 1%nat 20 []) [mkInterval 0 10; mkInterval 10 20])
    = Fault OutOfBounds
  ∧ page_run [Release (mkInterval 10 20); Release (mkInterval 0 10)]
             (mkPageState (mkPage 1%nat 20 []) [mkInterval 0 10; mkInterval 10 20])
    = Done (mkPageState (mkPage 1%nat 20 [mkInterval 0 20]) []).
Proof.
  split; [lia|]. split; [lia|]. split.
  - apply (release_ascending_behind_free_is_out_of_bounds
             (mkPage 1%nat 20 []) _ 0 10 20); [lia|lia|constructor].
  - reflexivity.
Defined.

(** C1. A page of 20 bytes: two requests of 10 bytes fill it and the
    first region is released; the state reached satisfies the page
    invariant, with the free list [[0, 10)] and the live region [10, 20).
    Releasing that live region does not lead to a state with the invariant:
    the call stops in the out-of-bounds read of [returnInterval], and so
    does the run of the four calls. *)
Theorem page_run_leaves_the_invariant :
  let fresh := mkPageState (newPage 1%nat 20) [] in
  let st3 := mkPageState (mkPage 1%nat 20 [mkInterval 0 10]) [mkInterval 10 20] in
  page_run [Request 10 1; Request 10 1; Release (mkInterval 0 10)] fresh = Done st3
  ∧ page_inv st3
  ∧ valid_op st3 (Release (mkInterval 10 20))
  ∧ page_step (Release (mkInterval 10 20)) st3 = Fault OutOfBounds
  ∧ page_run [Request 10 1; Request 10 1;
              Release (mkInterval 0 10); Release (mkInterval 10 20)] fresh
    = Fault OutOfBounds.
Proof.
  intros fresh st3.
  assert (Hrun : page_run [Request 10 1; Request 10 1; Release (mkInterval 0 10)] fresh
                 = Done st3) by reflexivity.
  split; [exact Hrun|]. split; [|split; [|split; reflexivity]].
  - pose proof (page_run_inv [Request 10 1; Request 10 1; Release (mkInterval 0 10)] fresh)
      as Hinv.
    rewrite Hrun in Hinv. apply Hinv.
    + apply newPage_inv. lia.
    + vm_compute. repeat apply conj; try reflexivity. right. left.
  - cbn. by left.
Qed.
End MemoryPoolFacts.

(** ** Deferred deallocation queue *)

Module LogicalDeviceFacts.
Import LogicalDevice MachineFacts.
Local Open Scope Z_scope.

(** The queue is ordered by target frame index. *)
Definition sorted (queue : list DeallocationContainer) : Prop :=
  StronglySorted (λ a b, m_frameIndex a <= m_frameIndex b) queue.

Lemma sorted_partitioned (queue : list DeallocationContainer) (d : DeallocationContainer) :
  sorted queue → partitioned DeallocationContainer_lt queue d.
Proof.
  induction 1 as [|x queue Hs IH Hx]; [done|]. cbn.
  unfold DeallocationContainer_lt at 1.
  destruct (Z.ltb_spec (m_frameIndex x) (m_frameIndex d)); [done|].
  eapply Forall_impl; [exact Hx|]. intros y Hy. unfold DeallocationContainer_lt.
  apply Z.ltb_ge. cbn in Hy. lia.
Qed.

Lemma vec_insert_partition_point_sorted
    (queue : list DeallocationContainer) (d : DeallocationContainer) :
  sorted queue →
  sorted (vec_insert (partition_point DeallocationContainer_lt queue d) d queue).
Proof.
  unfold vec_insert. induction 1 as [|x queue Hs IH Hx]; cbn.
  - repeat constructor.
  - unfold DeallocationContainer_lt at 1 3.
    destruct (Z.ltb_spec (m_frameIndex x) (m_frameIndex d)) as [Hlt|Hge]; cbn.
    + constructor; [exact IH|].
      apply Forall_app. split.
      * eapply Forall_take in Hx. exact Hx.
      * constructor; [lia|]. eapply Forall_drop in Hx. exact Hx.
    + constructor; [by constructor|].
      constructor; [done|].
      eapply Forall_impl; [exact Hx|]. cbn. intros; lia.
Qed.

Lemma scheduleContainer_queue (d : DeallocationContainer) (st : State) :
  sorted (m_deallocationQueue st) →
  m_deallocationQueue (scheduleContainer d st) =
  vec_insert (partition_point DeallocationContainer_lt (m_deallocationQueue st) d) d
             (m_deallocationQueue st).
Proof.
  intros Hs. unfold scheduleContainer. cbn.
  by rewrite lower_bound_partition_point by by apply sorted_partitioned.
Qed.

Lemma scheduleContainer_sorted (d : DeallocationContainer) (st : State) :
  sorted (m_deallocationQueue st) → sorted (m_deallocationQueue (scheduleContainer d st)).
Proof.
  intros Hs. rewrite scheduleContainer_queue by done.
  by apply vec_insert_partition_point_sorted.
Qed.

Lemma elem_of_vec_insert {A} (n : nat) (x y : A) (v : list A) :
  y ∈ vec_insert n x v ↔ y = x ∨ y ∈ v.
Proof.
  unfold vec_insert. rewrite elem_of_app, elem_of_cons.
  rewrite <- (take_drop n v) at 3. rewrite elem_of_app. tauto.
Qed.

Lemma scheduleContainer_elem (d e : DeallocationContainer) (st : State) :
  e ∈ m_deallocationQueue (scheduleContainer d st) ↔
  e = d ∨ e ∈ m_deallocationQueue st.
Proof. unfold scheduleContainer. cbn. apply elem_of_vec_insert. Qed.

(** What the scan at the end of [render] splits off. *)
Lemma reclaim_scan_released (f : Z) (queue : list DeallocationContainer) :
  Forall (λ d, m_frameIndex d < f) (take (reclaim_scan f queue) queue).
Proof.
  induction queue as [|x queue IH]; cbn; [constructor|].
  destruct (Z.ltb_spec (m_frameIndex x) f); cbn; [|constructor].
  by constructor.
Qed.

Lemma reclaim_scan_remaining (f : Z) (queue : list DeallocationContainer) :
  sorted queue →
  Forall (λ d, f <= m_frameIndex d) (drop (reclaim_scan f queue) queue).
Proof.
  induction 1 as [|x queue Hs IH Hx]; cbn; [constructor|].
  destruct (Z.ltb_spec (m_frameIndex x) f); cbn; [done|].
  constructor; [done|]. eapply Forall_impl; [exact Hx|]. cbn. intros; lia.
Qed.

Lemma render_reclaim_prefix (st : State) :
  m_deallocationQueue st =
  (render_reclaim st).1 ++ m_deallocationQueue (render_reclaim st).2.
Proof. unfold render_reclaim. cbn. by rewrite take_drop. Qed.

Lemma render_reclaim_sorted (st : State) :
  sorted (m_deallocationQueue st) → sorted (m_deallocationQueue (render_reclaim st).2).
Proof.
  intros Hs. unfold render_reclaim. cbn.
  generalize (reclaim_scan (s_frameIndex st) (m_deallocationQueue st)). intros n.
  revert Hs. generalize (m_deallocationQueue st).
  induction n as [|n IH]; intros queue Hs; [done|].
  destruct Hs; cbn; [constructor|by apply IH].
Qed.

(** One frame boundary, for a container [d] in a sorted queue. *)
Lemma render_reclaim_gate (d : DeallocationContainer) (st : State) :
  sorted (m_deallocationQueue st) →
  d ∈ m_deallocationQueue st →
  (d ∈ (render_reclaim st).1 ↔ m_frameIndex d < s_frameIndex st)
  ∧ (d ∈ m_deallocationQueue (render_reclaim st).2 ↔ s_frameIndex st <= m_frameIndex d).
Proof.
  intros Hs Hd.
  pose proof (reclaim_scan_released (s_frameIndex st) (m_deallocationQueue st)) as Hrel.
  pose proof (reclaim_scan_remaining (s_frameIndex st) _ Hs) as Hrem.
  rewrite (render_reclaim_prefix st) in Hd. apply elem_of_app in Hd.
  rewrite Forall_forall in Hrel, Hrem.
  unfold render_reclaim in *. cbn in *.
  split; split.
  - apply Hrel.
  - intros Hlt. destruct Hd as [|Hd]; [done|]. apply Hrem in Hd. lia.
  - apply Hrem.
  - intros Hge. destruct Hd as [Hd|]; [|done]. apply Hrel in Hd. lia.
Qed.

(** *** Runs of schedule and render calls *)

Lemma run_op_sorted (o : op) (st : State) :
  sorted (m_deallocationQueue st) → sorted (m_deallocationQueue (run_op o st).2).
Proof.
  destruct o as [a k|]; cbn -[render_reclaim]; intros Hs.
  - by apply scheduleContainer_sorted.
  - by apply render_reclaim_sorted.
Qed.

Lemma run_sorted (ops : list op) (st : State) :
  sorted (m_deallocationQueue st) → sorted (m_deallocationQueue (run ops st).2).
Proof.
  revert st. induction ops as [|o ops IH]; intros st Hs; [done|].
  cbn -[run_op]. apply IH. by apply run_op_sorted.
Qed.

Lemma run_ops_app (ops1 ops2 : list op) (st : State) :
  run (ops1 ++ ops2) st =
  ((run ops1 st).1 ++ (run ops2 (run ops1 st).2).1, (run ops2 (run ops1 st).2).2).
Proof.
  revert st. induction ops1 as [|o ops1 IH]; intros st.
  - cbn. by destruct (run ops2 st).
  - cbn -[run_op]. rewrite IH. cbn -[run_op]. by rewrite app_assoc.
Qed.

(** Whatever a frame boundary at frame [f] releases has a target below [f]. *)
Lemma run_released_before (ops : list op) (st : State) (f : Z)
    (ds : list DeallocationContainer) :
  (f, ds) ∈ (run ops st).1 → Forall (λ d, m_frameIndex d < f) ds.
Proof.
  revert st. induction ops as [|o ops IH]; intros st; cbn -[run_op].
  - by intros ?%elem_of_nil.
  - intros [Hin|Hin]%elem_of_app; [|by eapply IH].
    destruct o as [a k|]; cbn in Hin.
    + by apply elem_of_nil in Hin.
    + apply list_elem_of_singleton in Hin. simplify_eq. apply reclaim_scan_released.
Qed.

(** A container stays in the queue as long as every frame boundary so far
    was at a frame not above its target. *)
Lemma run_keeps_pending (ops : list op) (st : State) (d : DeallocationContainer) :
  sorted (m_deallocationQueue st) →
  d ∈ m_deallocationQueue st →
  (∀ f ds, (f, ds) ∈ (run ops st).1 → f <= m_frameIndex d) →
  d ∈ m_deallocationQueue (run ops st).2.
Proof.
  revert st. induction ops as [|o ops IH]; intros st Hs Hd Hlog; [done|].
  cbn -[run_op] in *. apply IH.
  - by apply run_op_sorted.
  - destruct o as [a k|].
    + cbn. apply scheduleContainer_elem. by right.
    + cbn -[render_reclaim].
      apply (render_reclaim_gate d st Hs Hd).
      apply (Hlog (s_frameIndex st) (render_reclaim st).1).
      apply elem_of_app. left. cbn -[render_reclaim]. by apply list_elem_of_singleton.
  - intros f ds Hin. apply (Hlog f ds). apply elem_of_app. by right.
Qed.

(** C2. A resource scheduled with [numFramesToKeepAlive = k] at frame
    index [F] enters the queue with target [F + k]; in every run of
    schedule and render calls that follows, no frame boundary at a frame
    [f <= F + k] releases it, and the first frame boundary at a frame
    [f > F + k] does; what a frame boundary releases is a prefix of the
    queue, namely the containers whose target is below the frame index.
    [F + k] is taken inside the 64-bit range of [FrameIndex]. *)
Theorem reclamation_gating (st : State) (r : Resource) (k : Z) (ops ops1 ops2 : list op) :
  sorted (m_deallocationQueue st) →
  0 <= s_frameIndex st → 0 <= k → s_frameIndex st + k < 2 ^ 64 →
  let d := mkDeallocation (s_frameIndex st + k) r in
  let st1 := scheduleForDeallocation r k st in
  d ∈ m_deallocationQueue st1
  ∧ (∀ f ds, (f, ds) ∈ (run ops st1).1 → f <= s_frameIndex st + k → d ∉ ds)
  ∧ (ops = ops1 ++ Render :: ops2 →
     (∀ f ds, (f, ds) ∈ (run ops1 st1).1 → f <= s_frameIndex st + k) →
     s_frameIndex st + k < s_frameIndex (run ops1 st1).2 →
     d ∈ (render_reclaim (run ops1 st1).2).1
     ∧ (s_frameIndex (run ops1 st1).2, (render_reclaim (run ops1 st1).2).1)
         ∈ (run ops st1).1)
  ∧ (∀ st2 : State,
       m_deallocationQueue st2 =
         (render_reclaim st2).1 ++ m_deallocationQueue (render_reclaim st2).2
       ∧ Forall (λ e, m_frameIndex e < s_frameIndex st2) (render_reclaim st2).1
       ∧ (sorted (m_deallocationQueue st2) →
          Forall (λ e, s_frameIndex st2 <= m_frameIndex e)
                 (m_deallocationQueue (render_reclaim st2).2))).
Proof.
  intros Hs HF Hk Hr d st1.
  assert (Hd : d ∈ m_deallocationQueue st1).
  { unfold st1, scheduleForDeallocation. apply scheduleContainer_elem. left.
    unfold d. f_equal. symmetry. apply Z.mod_small. lia. }
  assert (Hs1 : sorted (m_deallocationQueue st1)).
  { by apply scheduleContainer_sorted. }
  split; [exact Hd|]. split; [|split].
  - intros f ds Hin Hf Hds.
    apply run_released_before in Hin. rewrite Forall_forall in Hin.
    apply Hin in Hds. cbn in Hds. lia.
  - intros -> Hbefore Hafter.
    pose proof (run_keeps_pending ops1 st1 d Hs1 Hd Hbefore) as Hpend.
    pose proof (run_sorted ops1 st1 Hs1) as Hs2.
    split.
    + by apply (render_reclaim_gate d _ Hs2 Hpend).
    + rewrite run_ops_app. cbn -[render_reclaim]. apply elem_of_app. right.
      apply elem_of_cons. by left.
  - intros st2. split; [apply render_reclaim_prefix|]. split.
    + apply reclaim_scan_released.
    + apply reclaim_scan_remaining.
Qed.

Lemma reclamation_gating_witness :
  sorted [mkDeallocation 6 1%nat]
  ∧ mkDeallocation 6 2%nat ∈
      (render_reclaim
         (run [Render; Render]
              (scheduleForDeallocation 2%nat 1 (mkState 5 [mkDeallocation 6 1%nat]))).2).1.
Proof.
  assert (Hs : sorted [mkDeallocation 6 1%nat]) by repeat constructor.
  split; [exact Hs|].
  refine (proj1 (proj1 (proj2 (proj2
    (reclamation_gating (mkState 5 [mkDeallocation 6 1%nat]) 2%nat 1
       [Render; Render; Render] [Render; Render] [] Hs _ _ _))) eq_refl _ _)).
  - cbn. lia.
  - lia.
  - cbn. lia.
  - intros f ds Hin. vm_compute in Hin.
    repeat (apply elem_of_cons in Hin as [Hin|Hin]; [simplify_eq; cbn; lia|]).
    by apply elem_of_nil in Hin.
  - vm_compute. reflexivity.
Defined.
End LogicalDeviceFacts.

(** ** Command execution unit *)

Module CommandExecutionUnitFacts.
Import CommandExecutionUnit MachineFacts.
Local Open Scope Z_scope.

(** What a request does to the per-frame bookkeeping. *)
Lemma request_bookkeeping q mask tid st cb st' :
  requestCommandBufferUnguarded q mask tid st = Done (cb, st') →
  m_commandBufferInfos st' =
    <[cb := mkCommandBufferInfo (cb, default 0 mask) [] []]> (m_commandBufferInfos st)
  ∧ m_submitOrder st' = <[q := default [] (m_submitOrder st !! q) ++ [cb]]> (m_submitOrder st)
  ∧ log st' = log st.
Proof.
  unfold requestCommandBufferUnguarded. intros H.
  destruct (find_pool q tid st) as [cbp|];
    destruct (Z.of_nat (length (m_commandBuffers _)) <=? _);
    apply exec_bind_done in H as (c & _ & H); by simplify_eq.
Qed.

Lemma pushWaits_bookkeeping cb infos st :
  m_submitOrder (pushWaits cb infos st) = m_submitOrder st
  ∧ dom (m_commandBufferInfos (pushWaits cb infos st)) = dom (m_commandBufferInfos st).
Proof.
  unfold pushWaits. case_bool_decide; [done|].
  destruct (m_commandBufferInfos st !! cb) as [info|] eqn:E; [|done]. cbn.
  split; [done|]. apply dom_insert_lookup_L. eauto.
Qed.

Lemma pushSignals_bookkeeping cb infos st :
  m_submitOrder (pushSignals cb infos st) = m_submitOrder st
  ∧ dom (m_commandBufferInfos (pushSignals cb infos st)) = dom (m_commandBufferInfos st).
Proof.
  unfold pushSignals. case_bool_decide; [done|].
  destruct (m_commandBufferInfos st !! cb) as [info|] eqn:E; [|done]. cbn.
  split; [done|]. apply dom_insert_lookup_L. eauto.
Qed.

(** Every record in [m_commandBufferInfos] names the handle it is filed
    under. *)
Definition infos_named (st : State) : Prop :=
  ∀ cb info, m_commandBufferInfos st !! cb = Some info → (m_commandBufferInfo info).1 = cb.

Lemma request_infos_named q mask tid st cb st' :
  requestCommandBufferUnguarded q mask tid st = Done (cb, st') →
  infos_named st → infos_named st'.
Proof.
  intros (Hi & _ & _)%request_bookkeeping Hn c info. rewrite Hi.
  rewrite lookup_insert. case_decide; [|by apply Hn]. intros; by simplify_eq.
Qed.

Lemma pushWaits_infos_named cb infos st : infos_named st → infos_named (pushWaits cb infos st).
Proof.
  intros Hn. unfold pushWaits. case_bool_decide; [done|].
  destruct (m_commandBufferInfos st !! cb) as [info|] eqn:E; [|done].
  intros c info'. cbn. rewrite lookup_insert. case_decide; [|by apply Hn].
  intros; simplify_eq. cbn. by apply Hn.
Qed.

Lemma pushSignals_infos_named cb infos st :
  infos_named st → infos_named (pushSignals cb infos st).
Proof.
  intros Hn. unfold pushSignals. case_bool_decide; [done|].
  destruct (m_commandBufferInfos st !! cb) as [info|] eqn:E; [|done].
  intros c info'. cbn. rewrite lookup_insert. case_decide; [|by apply Hn].
  intros; simplify_eq. cbn. by apply Hn.
Qed.

(** *** The submission order list *)

Lemma issued_on_cons q q' cb issued :
  issued_on q' ((q, cb) :: issued) =
  if bool_decide (q = q') then cb :: issued_on q' issued else issued_on q' issued.
Proof.
  unfold issued_on. rewrite filter_cons. cbn.
  case_decide; case_bool_decide; done.
Qed.

Lemma record_frame_bookkeeping ops st issued st' :
  record_frame ops st = Done (issued, st') →
  (∀ q, default [] (m_submitOrder st' !! q) =
        default [] (m_submitOrder st !! q) ++ issued_on q issued)
  ∧ dom (m_commandBufferInfos st') =
      dom (m_commandBufferInfos st) ∪ list_to_set issued.*2
  ∧ (infos_named st → infos_named st').
Proof.
  revert st issued st'. induction ops as [|o ops IH]; intros st issued st' H.
  - cbn in H. simplify_eq. split; [|split; [|done]].
    + intros q. unfold issued_on. cbn. by rewrite app_nil_r.
    + cbn. set_solver.
  - destruct o as [q mask tid|cb infos|cb infos]; cbn [record_frame] in H.
    + apply exec_bind_done in H as ([cb st1] & Hreq & H).
      apply exec_bind_done in H as ([issued1 st2] & Hrec & H).
      cbn in H, Hrec. simplify_eq.
      destruct (IH _ _ _ Hrec) as (Ho & Hd & Hn).
      pose proof (request_bookkeeping _ _ _ _ _ _ Hreq) as (Hi1 & Ho1 & _).
      split; [|split].
      * intros q'. rewrite Ho, Ho1, issued_on_cons. cbn.
        rewrite lookup_insert. case_decide; case_bool_decide; try done.
        subst. cbn. by rewrite <- app_assoc.
      * rewrite Hd. cbn. rewrite Hi1, dom_insert_L. set_solver.
      * intros Hst. apply Hn. by eapply request_infos_named.
    + destruct (IH _ _ _ H) as (Ho & Hd & Hn).
      destruct (pushWaits_bookkeeping cb infos st) as [Ho1 Hd1].
      rewrite Ho1, Hd1 in *. repeat split; try done.
      intros Hst. by apply Hn, pushWaits_infos_named.
    + destruct (IH _ _ _ H) as (Ho & Hd & Hn).
      destruct (pushSignals_bookkeeping cb infos st) as [Ho1 Hd1].
      rewrite Ho1, Hd1 in *. repeat split; try done.
      intros Hst. by apply Hn, pushSignals_infos_named.
Qed.



Lemma record_frame_untouched ops st issued st' q :
  record_frame ops st = Done (issued, st') →
  issued_on q issued = [] →
  m_submitOrder st' !! q = m_submitOrder st !! q.
Proof.
  revert st issued st'. induction ops as [|o ops IH]; intros st issued st' H Hq.
  - cbn in H. by simplify_eq.
  - destruct o as [q' mask tid|cb infos|cb infos]; cbn [record_frame] in H.
    + apply exec_bind_done in H as ([cb st1] & Hreq & H).
      apply exec_bind_done in H as ([issued1 st2] & Hrec & H).
      cbn in H, Hrec. simplify_eq.
      rewrite issued_on_cons in Hq. case_bool_decide; [done|].
      rewrite (IH _ _ _ Hrec Hq).
      pose proof (request_bookkeeping _ _ _ _ _ _ Hreq) as (_ & -> & _).
      by rewrite lookup_insert_ne.
    + rewrite (IH _ _ _ H Hq). apply (f_equal (.!! q)), pushWaits_bookkeeping.
    + rewrite (IH _ _ _ H Hq). apply (f_equal (.!! q)), pushSignals_bookkeeping.
Qed.

Lemma submit_calls st q batch fence :
  submit_batches st !! q = Some (batch, fence) →
  QueueSubmit2 q batch fence ∈ d_calls (submit st).
Proof.
  intros H. unfold submit. cbn. apply elem_of_app. right.
  apply list_elem_of_fmap. exists (q, (batch, fence)). split; [done|].
  by apply elem_of_map_to_list.
Qed.



(** *** Handles the unit did not issue *)

Definition log_error (st : State) : State :=
  mkState (m_library st) (m_commandBufferInfos st) (m_submitOrder st)
          (d_nextHandle st) (d_calls st) (log st ++ [unknown_command_buffer]).

Lemma pushWaits_unknown cb infos st :
  m_commandBufferInfos st !! cb = None → infos ≠ [] →
  pushWaits cb infos st = log_error st.
Proof.
  intros Hcb Hne. unfold pushWaits. rewrite bool_decide_eq_false_2 by done.
  by rewrite Hcb.
Qed.

Lemma pushSignals_unknown cb infos st :
  m_commandBufferInfos st !! cb = None → infos ≠ [] →
  pushSignals cb infos st = log_error st.
Proof.
  intros Hcb Hne. unfold pushSignals. rewrite bool_decide_eq_false_2 by done.
  by rewrite Hcb.
Qed.

(** C9. While a frame is recorded (from the empty bookkeeping that
    [submit] leaves), a handle that no request of the frame has returned
    is unknown to [pushWaits], [pushSignals], [pushWait] and
    [pushSignal]: with a non-empty semaphore list they append the error
    line to the log and change nothing else: the library, the wait and
    signal lists, the submission order and the device calls are those of
    before. *)
Theorem push_on_unknown_handle_only_logs
    (st st' : State) (ops : list frame_op) (issued : list (Z * CommandBuffer))
    (cmdBuffer : CommandBuffer) (infos : list SemaphoreSubmitInfo)
    (info : SemaphoreSubmitInfo) :
  m_commandBufferInfos st = ∅ →
  record_frame ops st = Done (issued, st') →
  cmdBuffer ∉ issued.*2 →
  infos ≠ [] →
  pushWaits cmdBuffer infos st' = log_error st'
  ∧ pushSignals cmdBuffer infos st' = log_error st'
  ∧ pushWait cmdBuffer info st' = log_error st'
  ∧ pushSignal cmdBuffer info st' = log_error st'
  ∧ m_library (log_error st') = m_library st'
  ∧ m_commandBufferInfos (log_error st') = m_commandBufferInfos st'
  ∧ m_submitOrder (log_error st') = m_submitOrder st'
  ∧ d_calls (log_error st') = d_calls st'
  ∧ log (log_error st') = log st' ++ [unknown_command_buffer].
Proof.
  intros Hi Hrec Hcb Hne.
  destruct (record_frame_bookkeeping _ _ _ _ Hrec) as (_ & Hdom & _).
  assert (Hnone : m_commandBufferInfos st' !! cmdBuffer = None).
  { apply not_elem_of_dom. rewrite Hdom, Hi, dom_empty_L.
    rewrite elem_of_union, elem_of_list_to_set. intros [[]%elem_of_empty|]; done. }
  repeat split.
  - by apply pushWaits_unknown.
  - by apply pushSignals_unknown.
  - by apply pushWaits_unknown.
  - by apply pushSignals_unknown.
Qed.

Lemma push_on_unknown_handle_only_logs_witness :
  m_commandBufferInfos init = ∅
  ∧ [mkSemaphoreSubmitInfo 1%nat 0 0 0] ≠ []
  ∧ match record_frame [Request 0 None 7%nat] init with
    | Done (issued, st') =>
      issued = [(0, 3%nat)]
      ∧ pushWaits 99%nat [mkSemaphoreSubmitInfo 1%nat 0 0 0] st' = log_error st'
      ∧ pushSignals 99%nat [mkSemaphoreSubmitInfo 1%nat 0 0 0] st' = log_error st'
    | Fault _ => False
    end.
Proof.
  split; [reflexivity|]. split; [discriminate|].
  destruct (record_frame [Request 0 None 7%nat] init) as [[issued st']|f] eqn:E;
    [|vm_compute in E; discriminate].
  assert (Hissued : issued = [(0, 3%nat)]).
  { pose proof E as E'. vm_compute in E'. congruence. }
  split; [exact Hissued|].
  assert (Hcb : 99%nat ∉ issued.*2).
  { rewrite Hissued. cbn. intros [?|[]%elem_of_nil]%elem_of_cons. discriminate. }
  destruct (push_on_unknown_handle_only_logs init st' _ issued 99%nat
              [mkSemaphoreSubmitInfo 1%nat 0 0 0] (mkSemaphoreSubmitInfo 1%nat 0 0 0)
              eq_refl E Hcb ltac:(discriminate)) as (Hw & Hs & _).
  split; assumption.
Defined.

(** *** Recycling of command buffers *)

(** In every pool the next index has reached the number of buffers
    allocated: nothing is left to hand out again. *)
Definition pool_full (st : State) : Prop :=
  ∀ q tid cbp, find_pool q tid st = Some cbp →
    m_nextCommandBufferIndex cbp = Z.of_nat (length (m_commandBuffers cbp)).

Lemma pool_full_init : pool_full init.
Proof. intros q tid cbp. unfold find_pool, init. cbn. by rewrite lookup_empty. Qed.

Lemma find_pool_library st st' q tid :
  m_library st' = m_library st → find_pool q tid st' = find_pool q tid st.
Proof. unfold find_pool. by intros ->. Qed.

Lemma waitForIdleAndReset_library st :
  m_library (waitForIdleAndReset st) = m_library st
  ∧ d_nextHandle (waitForIdleAndReset st) = d_nextHandle st
  ∧ m_commandBufferInfos (waitForIdleAndReset st) = m_commandBufferInfos st
  ∧ m_submitOrder (waitForIdleAndReset st) = m_submitOrder st.
Proof.
  unfold waitForIdleAndReset, waitForIdle. by case_bool_decide.
Qed.

Lemma find_pool_store q tid fence cbp st st' q' tid' :
  m_library st' = store_pool q tid fence cbp (m_library st) →
  find_pool q' tid' st' =
  if bool_decide (q' = q ∧ tid' = tid) then Some cbp else find_pool q' tid' st.
Proof.
  intros Hl. unfold find_pool. rewrite Hl. unfold store_pool.
  destruct (decide (q' = q)) as [->|Hq].
  - rewrite lookup_insert_eq. cbn.
    destruct (decide (tid' = tid)) as [->|Ht].
    + rewrite lookup_insert_eq. by rewrite bool_decide_eq_true_2.
    + rewrite lookup_insert_ne by done.
      rewrite bool_decide_eq_false_2 by naive_solver.
      by destruct (m_library st !! q).
  - rewrite lookup_insert_ne by done.
    by rewrite bool_decide_eq_false_2 by naive_solver.
Qed.

(** With full pools a request always has a command buffer allocated, and
    returns that one. *)
Lemma request_allocates q mask tid st :
  pool_full st →
  ∃ cb st' cbp',
    requestCommandBufferUnguarded q mask tid st = Done (cb, st')
    ∧ find_pool q tid st' = Some cbp'
    ∧ m_commandBuffers cbp' =
        match find_pool q tid st with
        | Some cbp => m_commandBuffers cbp
        | None => []
        end ++ [cb]
    ∧ m_nextCommandBufferIndex cbp' =
        wrap32 (Z.of_nat (length (m_commandBuffers cbp') - 1) + 1)
    ∧ (∀ q' tid', (q', tid') ≠ (q, tid) → find_pool q' tid' st' = find_pool q' tid' st)
    ∧ last (d_calls st') = Some (AllocateCommandBuffer (m_commandPool cbp') cb).
Proof.
  intros Hfull. unfold requestCommandBufferUnguarded.
  destruct (find_pool q tid st) as [cbp|] eqn:Ef.
  - rewrite (Hfull _ _ _ Ef), (proj2 (Z.leb_le _ _)) by lia.
    rewrite Nat2Z.id. unfold deref. rewrite lookup_app_r by lia.
    rewrite Nat.sub_diag. cbn.
    eexists _, _, _. split; [reflexivity|].
    split.
    { rewrite (find_pool_store q tid _ _ st) by done.
      by rewrite bool_decide_eq_true_2. }
    split; [reflexivity|]. split.
    { cbn. rewrite length_app. cbn. do 2 f_equal. lia. }
    split.
    { intros q' tid' Hne. rewrite (find_pool_store q tid _ _ st) by done.
      rewrite bool_decide_eq_false_2; [done|]. intros [-> ->]. done. }
    cbn. by rewrite last_snoc.
  - cbn. eexists _, _, _. split; [reflexivity|].
    split.
    { rewrite (find_pool_store q tid _ _ st) by done.
      by rewrite bool_decide_eq_true_2. }
    split; [reflexivity|]. split; [done|]. split.
    { intros q' tid' Hne. rewrite (find_pool_store q tid _ _ st) by done.
      rewrite bool_decide_eq_false_2; [done|]. intros [-> ->]. done. }
    cbn. by rewrite last_snoc.
Qed.

Lemma allocated_request q mask tid st cb st' :
  pool_full st →
  requestCommandBufferUnguarded q mask tid st = Done (cb, st') →
  allocated q tid st' = S (allocated q tid st)
  ∧ (∀ q' tid', (q', tid') ≠ (q, tid) → find_pool q' tid' st' = find_pool q' tid' st)
  ∧ (Z.of_nat (S (allocated q tid st)) < 2 ^ 32 → pool_full st').
Proof.
  intros Hfull Hreq.
  destruct (request_allocates q mask tid st Hfull)
    as (cb' & st'' & cbp' & Hreq' & Hf & Hb & Hi & Hother & _).
  rewrite Hreq in Hreq'. simplify_eq.
  assert (Hlen : length (m_commandBuffers cbp') = S (allocated q tid st)).
  { rewrite Hb, length_app. unfold allocated. cbn.
    destruct (find_pool q tid st); cbn; lia. }
  split; [|split; [done|]].
  - unfold allocated at 1. by rewrite Hf.
  - intros Hbound q' tid' cbp Hcbp.
    destruct (decide ((q', tid') = (q, tid))) as [Heq|Hne].
    + simplify_eq. rewrite Hi, Hlen. unfold wrap32.
      rewrite Z.mod_small; lia.
    + rewrite Hother in Hcbp by done. by eapply Hfull.
Qed.

Lemma find_pool_touch qs q tid st st' :
  m_library st' = touch_library qs (m_library st) →
  find_pool q tid st' = find_pool q tid st.
Proof.
  unfold find_pool, touch_library. intros ->. generalize (m_library st). clear st st'.
  induction qs as [|q' qs IH]; intros lib; [done|]. cbn [foldl].
  rewrite IH. destruct (lib !! q') eqn:E; [done|].
  destruct (decide (q = q')) as [->|Hne].
  - rewrite lookup_insert_eq, E. cbn. by rewrite lookup_empty.
  - by rewrite lookup_insert_ne.
Qed.

Lemma pool_full_library st st' :
  (∀ q tid, find_pool q tid st' = find_pool q tid st) → pool_full st → pool_full st'.
Proof. intros H Hfull q tid cbp. rewrite H. apply Hfull. Qed.

Lemma pushWaits_library cb infos st : m_library (pushWaits cb infos st) = m_library st.
Proof. unfold pushWaits. repeat case_match; done. Qed.

Lemma pushSignals_library cb infos st : m_library (pushSignals cb infos st) = m_library st.
Proof. unfold pushSignals. repeat case_match; done. Qed.

Lemma allocated_library st st' q tid :
  find_pool q tid st' = find_pool q tid st → allocated q tid st' = allocated q tid st.
Proof. unfold allocated. by intros ->. Qed.

Lemma record_frame_pool_full ops st issued st' :
  pool_full st →
  (∀ q tid, Z.of_nat (allocated q tid st + length ops) < 2 ^ 32) →
  record_frame ops st = Done (issued, st') →
  pool_full st'.
Proof.
  revert st issued st'. induction ops as [|o ops IH]; intros st issued st' Hfull Hb H.
  - cbn in H. by simplify_eq.
  - destruct o as [q mask tid|cb infos|cb infos]; cbn [record_frame] in H.
    + apply exec_bind_done in H as ([cb st1] & Hreq & H).
      apply exec_bind_done in H as ([issued1 st2] & Hrec & H).
      cbn in H, Hrec. simplify_eq.
      destruct (allocated_request _ _ _ _ _ _ Hfull Hreq) as (Ha & Hother & Hfull1).
      eapply IH; [apply Hfull1| |exact Hrec].
      * specialize (Hb q tid). cbn in Hb. lia.
      * intros q' tid'. destruct (decide ((q', tid') = (q, tid))) as [Heq|Hne].
        -- simplify_eq. rewrite Ha. specialize (Hb q tid). cbn in Hb. lia.
        -- rewrite (allocated_library st st1) by by apply Hother.
           specialize (Hb q' tid'). cbn in Hb. lia.
    + eapply IH; [| |exact H].
      * eapply pool_full_library; [|exact Hfull]. intros.
        apply find_pool_library, pushWaits_library.
      * intros q tid. rewrite (allocated_library st)
          by apply find_pool_library, pushWaits_library.
        specialize (Hb q tid). cbn in Hb. lia.
    + eapply IH; [| |exact H].
      * eapply pool_full_library; [|exact Hfull]. intros.
        apply find_pool_library, pushSignals_library.
      * intros q tid. rewrite (allocated_library st)
          by apply find_pool_library, pushSignals_library.
        specialize (Hb q tid). cbn in Hb. lia.
Qed.

(** Pools stay full from frame to frame: neither [waitForIdleAndReset]
    nor [submit] moves an index back. *)
Lemma frame_pool_full ops st issued st' :
  pool_full st →
  (∀ q tid, Z.of_nat (allocated q tid st + length ops) < 2 ^ 32) →
  frame ops st = Done (issued, st') →
  pool_full st'.
Proof.
  intros Hfull Hb H. unfold frame in H.
  apply exec_bind_done in H as ([issued1 st1] & Hrec & H). cbn in H. simplify_eq.
  destruct (waitForIdleAndReset_library st) as (Hl & _).
  eapply pool_full_library; [intros; by eapply (find_pool_touch _ _ _ st1)|].
  eapply record_frame_pool_full; [| |exact Hrec].
  - eapply pool_full_library; [|exact Hfull]. intros. by apply find_pool_library.
  - intros q tid. rewrite (allocated_library st) by by apply find_pool_library.
    apply Hb.
Qed.

(** C7. After [waitForIdleAndReset] a request does not reuse a command
    buffer of an earlier frame: no index was moved back, so the request
    has one more buffer allocated for the pool and returns that new one,
    even when the frame has asked for no more buffers than earlier frames
    did. *)
Theorem request_after_reset_allocates
    (st : State) (q : Z) (mask : option DeviceMask) (tid : ThreadId) :
  pool_full st →
  ∃ cb st' pool,
    requestCommandBuffer q mask tid (waitForIdleAndReset st) = Done (cb, st')
    ∧ allocated q tid st' = S (allocated q tid st)
    ∧ last (d_calls st') = Some (AllocateCommandBuffer pool cb).
Proof.
  intros Hfull.
  destruct (waitForIdleAndReset_library st) as (Hl & _).
  assert (Hfull' : pool_full (waitForIdleAndReset st)).
  { eapply pool_full_library; [|exact Hfull]. intros. by apply find_pool_library. }
  destruct (request_allocates q mask tid _ Hfull')
    as (cb & st' & cbp' & Hreq & _ & _ & _ & _ & Hlast).
  exists cb, st', (m_commandPool cbp'). split; [exact Hreq|]. split; [|exact Hlast].
  destruct (allocated_request _ _ _ _ _ _ Hfull' Hreq) as (Ha & _).
  rewrite Ha. f_equal. by apply allocated_library, find_pool_library.
Qed.

Lemma request_after_reset_allocates_witness :
  match frame [Request 0 None 7%nat] init with
  | Done (issued, st1) =>
    issued = [(0, 3%nat)]
    ∧ pool_full st1
    ∧ allocated 0 7%nat st1 = 1%nat
    ∧ ∃ cb st2 pool,
        requestCommandBuffer 0 None 7%nat (waitForIdleAndReset st1) = Done (cb, st2)
        ∧ allocated 0 7%nat st2 = 2%nat
        ∧ last (d_calls st2) = Some (AllocateCommandBuffer pool cb)
  | Fault _ => False
  end.
Proof.
  destruct (frame [Request 0 None 7%nat] init) as [[issued st1]|f] eqn:E;
    [|vm_compute in E; discriminate].
  assert (Hfull : pool_full st1).
  { eapply frame_pool_full; [apply pool_full_init| |exact E].
    intros q tid. unfold allocated, find_pool, init. cbn. rewrite lookup_empty. cbn. lia. }
  assert (Hissued : issued = [(0, 3%nat)] ∧ allocated 0 7%nat st1 = 1%nat).
  { pose proof E as E'. vm_compute in E'. simplify_eq. split; reflexivity. }
  destruct Hissued as [Hissued Ha].
  split; [exact Hissued|]. split; [exact Hfull|]. split; [exact Ha|].
  destruct (request_after_reset_allocates st1 0 None 7%nat Hfull)
    as (cb & st2 & pool & Hreq & Ha2 & Hlast).
  exists cb, st2, pool. rewrite Ha in Ha2. auto.
Defined.
End CommandExecutionUnitFacts.

(** ** Upload coordinator *)

Module UploaderFacts.
Import CommandExecutionUnit Uploader.

Lemma barrier_count_app b cmds1 cmds2 :
  barrier_count b (cmds1 ++ cmds2) = (barrier_count b cmds1 + barrier_count b cmds2)%nat.
Proof.
  induction cmds1 as [|c cmds1 IH]; [done|]. destruct c; cbn; rewrite IH; lia.
Qed.

(** How often [b] occurs in a barrier list. *)
Definition occurrences (b : BufferMemoryBarrier2) (bs : list BufferMemoryBarrier2) : nat :=
  length (filter (λ x, x = b) bs).

Lemma occurrences_elem b bs : b ∈ bs → (1 ≤ occurrences b bs)%nat.
Proof.
  intros Hb. unfold occurrences.
  assert (Hin : b ∈ filter (λ x, x = b) bs) by by apply list_elem_of_filter.
  destruct (filter (λ x, x = b) bs); [by apply elem_of_nil in Hin|cbn; lia].
Qed.

Section Finish.
Context (transfer graphics : CommandBuffer)
        (releases acquisitions : list BufferMemoryBarrier2).
Hypothesis distinct : transfer ≠ graphics.

(** What the second loop of [finish] appends to either command buffer. *)
Definition transfer_part (copies : list BufferCopy) : list Command :=
  bufferCopy ← copies;
  [CopyBuffer (m_srcBufferAllocation bufferCopy) (m_dstBuffer bufferCopy)
              (m_region bufferCopy);
   PipelineBarrier2 releases].

Definition graphics_part (copies : list BufferCopy) : list Command :=
  (λ _, PipelineBarrier2 acquisitions) <$> copies.

Lemma record_lookup cb c rec cb' :
  default [] (record cb c rec !! cb') =
  if bool_decide (cb' = cb) then default [] (rec !! cb) ++ [c]
  else default [] (rec !! cb').
Proof.
  clear distinct.
  unfold record. case_bool_decide as E.
  - subst. by rewrite lookup_insert_eq.
  - by rewrite lookup_insert_ne.
Qed.

Lemma finish_copy_loop copies rec sched :
  let r := foldl (finish_copy transfer graphics releases acquisitions) (rec, sched) copies in
  default [] (r.1 !! transfer) = default [] (rec !! transfer) ++ transfer_part copies
  ∧ default [] (r.1 !! graphics) = default [] (rec !! graphics) ++ graphics_part copies
  ∧ r.2 = sched ++ (m_srcBufferAllocation <$> copies).
Proof.
  revert rec sched. induction copies as [|c copies IH]; intros rec sched.
  - cbn. by rewrite !app_nil_r.
  - cbn [foldl].
    destruct (finish_copy transfer graphics releases acquisitions (rec, sched) c)
      as [rec' sched'] eqn:E.
    destruct (IH rec' sched') as (Ht & Hg & Hs).
    cbn zeta in *. rewrite Ht, Hg, Hs. clear Ht Hg Hs IH.
    unfold finish_copy in E. cbn in E. simplify_eq.
    unfold transfer_part, graphics_part. cbn.
    rewrite !record_lookup.
    repeat (case_bool_decide; try done).
    by rewrite <- !app_assoc.
Qed.

Lemma barrier_count_transfer_part b copies :
  barrier_count b (transfer_part copies) = (length copies * occurrences b releases)%nat.
Proof.
  clear distinct.
  induction copies as [|c copies IH]; [done|].
  unfold transfer_part in IH |- *. cbn. rewrite IH. fold (occurrences b releases). lia.
Qed.

Lemma barrier_count_graphics_part b copies :
  barrier_count b (graphics_part copies) = (length copies * occurrences b acquisitions)%nat.
Proof.
  clear distinct.
  induction copies as [|c copies IH]; [done|].
  unfold graphics_part in IH |- *. cbn. rewrite IH.
  fold (occurrences b acquisitions). lia.
Qed.
End Finish.

Lemma finish_commands (dev : Device) (st : State) :
  m_transferCmdBuffer st ≠ m_graphicsCmdBuffer st →
  commands_of (m_transferCmdBuffer st) (finish dev st) =
    default [] (recorded st !! m_transferCmdBuffer st) ++ [Begin]
    ++ transfer_part (release_of dev <$> m_bufferCopies st) (m_bufferCopies st) ++ [End_]
  ∧ commands_of (m_graphicsCmdBuffer st) (finish dev st) =
      default [] (recorded st !! m_graphicsCmdBuffer st) ++ [Begin]
      ++ graphics_part (acquisition_of dev <$> m_bufferCopies st) (m_bufferCopies st)
      ++ [End_].
Proof.
  intros Hne. unfold commands_of, finish. cbn [recorded].
  destruct (finish_copy_loop (m_transferCmdBuffer st) (m_graphicsCmdBuffer st)
              (release_of dev <$> m_bufferCopies st)
              (acquisition_of dev <$> m_bufferCopies st) Hne (m_bufferCopies st)
              (record (m_graphicsCmdBuffer st) Begin
                      (record (m_transferCmdBuffer st) Begin (recorded st)))
              (scheduled st)) as (Ht & Hg & _).
  cbn zeta in Ht, Hg.
  rewrite !record_lookup.
  repeat (case_bool_decide; try done).
  rewrite Ht, Hg, !record_lookup.
  repeat (case_bool_decide; try done).
  by rewrite <- !app_assoc.
Qed.

(** C6. With [n] pending copies, [finish] records the whole list of
    release barriers on the transfer command buffer once per copy, and the
    whole list of acquire barriers on the graphics command buffer once per
    copy: the barrier of a pending copy is recorded [n] times as often as
    it stands in its list, so at least [n] times and not once. The
    acquire barrier names the graphics family as source and the transfer
    family as destination. *)
Theorem finish_records_each_barrier_per_copy
    (dev : Device) (st : State) (bufferCopy : BufferCopy) :
  m_transferCmdBuffer st ≠ m_graphicsCmdBuffer st →
  recorded st !! m_transferCmdBuffer st = None →
  recorded st !! m_graphicsCmdBuffer st = None →
  bufferCopy ∈ m_bufferCopies st →
  let n := length (m_bufferCopies st) in
  let release := release_of dev bufferCopy in
  let acquisition := acquisition_of dev bufferCopy in
  barrier_count release (commands_of (m_transferCmdBuffer st) (finish dev st))
    = (n * occurrences release (release_of dev <$> m_bufferCopies st))%nat
  ∧ barrier_count acquisition (commands_of (m_graphicsCmdBuffer st) (finish dev st))
    = (n * occurrences acquisition (acquisition_of dev <$> m_bufferCopies st))%nat
  ∧ (n ≤ barrier_count release (commands_of (m_transferCmdBuffer st) (finish dev st)))%nat
  ∧ (n ≤ barrier_count acquisition
            (commands_of (m_graphicsCmdBuffer st) (finish dev st)))%nat
  ∧ srcQueueFamilyIndex release = transferQueueFamilyIndex dev
  ∧ dstQueueFamilyIndex release = graphicsQueueFamilyIndex dev
  ∧ srcQueueFamilyIndex acquisition = graphicsQueueFamilyIndex dev
  ∧ dstQueueFamilyIndex acquisition = transferQueueFamilyIndex dev.
Proof.
  intros Hne Ht Hg Hin n release acquisition.
  destruct (finish_commands dev st Hne) as [Hct Hcg].
  assert (Hr : barrier_count release (commands_of (m_transferCmdBuffer st) (finish dev st))
               = (n * occurrences release (release_of dev <$> m_bufferCopies st))%nat).
  { rewrite Hct, Ht. cbn. rewrite barrier_count_app, barrier_count_transfer_part. cbn. lia. }
  assert (Ha : barrier_count acquisition
                 (commands_of (m_graphicsCmdBuffer st) (finish dev st))
               = (n * occurrences acquisition
                        (acquisition_of dev <$> m_bufferCopies st))%nat).
  { rewrite Hcg, Hg. cbn. rewrite barrier_count_app, barrier_count_graphics_part. cbn. lia. }
  assert (1 ≤ occurrences release (release_of dev <$> m_bufferCopies st))%nat.
  { apply occurrences_elem, list_elem_of_fmap. eauto. }
  assert (1 ≤ occurrences acquisition (acquisition_of dev <$> m_bufferCopies st))%nat.
  { apply occurrences_elem, list_elem_of_fmap. eauto. }
  repeat split; try done; nia.
Qed.

(** Two pending copies of 64 bytes to the buffers 10 and 11. *)
Definition two_copies : State :=
  mkState [mkBufferCopy 20%nat 10%nat (mkVkBufferCopy 0 0 64) 0x8;
           mkBufferCopy 21%nat 11%nat (mkVkBufferCopy 0 0 64) 0x8]
          3%nat 6%nat ∅ [].

Lemma finish_records_each_barrier_per_copy_witness :
  m_transferCmdBuffer two_copies ≠ m_graphicsCmdBuffer two_copies
  ∧ barrier_count (release_of (mkDevice 1 0)
                     (mkBufferCopy 20%nat 10%nat (mkVkBufferCopy 0 0 64) 0x8))
                  (commands_of 3%nat (finish (mkDevice 1 0) two_copies)) = 2%nat
  ∧ barrier_count (acquisition_of (mkDevice 1 0)
                     (mkBufferCopy 20%nat 10%nat (mkVkBufferCopy 0 0 64) 0x8))
                  (commands_of 6%nat (finish (mkDevice 1 0) two_copies)) = 2%nat.
Proof.
  assert (Hne : m_transferCmdBuffer two_copies ≠ m_graphicsCmdBuffer two_copies)
    by discriminate.
  split; [exact Hne|].
  destruct (finish_records_each_barrier_per_copy (mkDevice 1 0) two_copies
              (mkBufferCopy 20%nat 10%nat (mkVkBufferCopy 0 0 64) 0x8)
              Hne eq_refl eq_refl ltac:(by left)) as (Hr & Ha & _).
  split; [exact Hr|exact Ha].
Defined.
End UploaderFacts.

(** ** Worker render thread *)

Module RenderThreadFacts.
Import RenderThread.

(** *** The caller's order of calls *)

(** What holds of the state in each phase, [n] cycles having begun. A
    cycle that has begun is pending, in the callback, or recorded. *)
Definition at_rest (n : nat) (s : State) : Prop :=
  ((worker s = Entry ∧ m_status s = CREATED ∧ n = O)
   ∨ (worker s = Blocked ∧ m_status s = WAITING))
  ∧ invoked s = n ∧ returned s = n.

Definition in_flight (n : nat) (s : State) : Prop :=
  (m_status s = RECORDING ∧ (worker s = Entry ∨ worker s = Blocked)
   ∧ S (invoked s) = n ∧ S (returned s) = n)
  ∨ (m_status s = RECORDING ∧ worker s = InCallback
     ∧ invoked s = n ∧ S (returned s) = n)
  ∨ (m_status s = WAITING ∧ worker s = Blocked
     ∧ invoked s = n ∧ returned s = n).

Definition protocol_inv (ph : Phase) (n : nat) (s : State) : Prop :=
  match ph with
  | BeforeStart =>
    m_status s = CREATED ∧ worker s = NotStarted ∧ orchestrator s = Running
    ∧ invoked s = O ∧ returned s = O ∧ n = O
  | BetweenCycles =>
    (orchestrator s = Running ∧ at_rest n s)
    ∨ (orchestrator s = InFinish ∧ in_flight n s)
  | InCycle => orchestrator s = Running ∧ in_flight n s
  | AfterInterrupt =>
    orchestrator s = Running ∧ m_status s = INTERRUPTED
    ∧ (worker s = Entry ∨ worker s = Blocked ∨ worker s = Exited)
    ∧ invoked s = n ∧ returned s = n
  end.

Definition begins (l : label) : nat :=
  match l with RecordCommandsAsync => 1 | _ => 0 end.

Lemma cycles_cons l tr : cycles (l :: tr) = (begins l + cycles tr)%nat.
Proof.
  unfold cycles. rewrite filter_cons. by destruct l.
Qed.

Lemma step_protocol_inv ph ph' l n s s' :
  protocol_step ph l = Some ph' → step l s = Some s' →
  protocol_inv ph n s → protocol_inv ph' (begins l + n) s'.
Proof.
  intros Hph Hstep Hinv.
  destruct ph, l; cbn in Hph; simplify_eq;
    unfold protocol_inv, at_rest, in_flight, begins in *.
  all: destruct s as [st w o i r]; cbn in *.
  all: destruct st, w, o; vm_compute in Hstep; simplify_eq; cbn.
  all: try (exfalso; intuition (discriminate || lia)).
  all: intuition (simplify_eq; try lia; auto).
Qed.

Lemma run_protocol_inv tr ph ph' n s s' :
  protocol ph tr = Some ph' → run tr s = Some s' →
  protocol_inv ph n s → protocol_inv ph' (cycles tr + n) s'.
Proof.
  revert ph n s. induction tr as [|l tr IH]; intros ph n s Hph Hrun Hinv.
  - cbn in *. by simplify_eq.
  - cbn in Hph, Hrun.
    destruct (protocol_step ph l) as [ph1|] eqn:E1; [|done].
    destruct (step l s) as [s1|] eqn:E2; [|done]. cbn in Hph, Hrun.
    rewrite cycles_cons.
    replace (begins l + cycles tr + n)%nat with (cycles tr + (begins l + n))%nat by lia.
    eapply IH; [done|done|]. by eapply step_protocol_inv.
Qed.

(** After [interrupt()] the caller's order has no call left that begins a
    cycle, and the phase stays. *)
Lemma protocol_after_interrupt tr ph' :
  protocol AfterInterrupt tr = Some ph' → ph' = AfterInterrupt ∧ cycles tr = O.
Proof.
  induction tr as [|l tr IH]; intros H; [cbn in H; by simplify_eq|].
  cbn [protocol] in H.
  destruct l; cbn in H; try done; rewrite cycles_cons; cbn [begins Nat.add]; by apply IH.
Qed.

(** The worker leaves its loop at its first step after [interrupt()]. *)
Lemma run_exits tr s s' :
  m_status s = INTERRUPTED → worker s ≠ InCallback →
  protocol AfterInterrupt tr = Some AfterInterrupt →
  run tr s = Some s' →
  (worker s = Exited → worker s' = Exited)
  ∧ (WorkerRun ∈ tr → worker s' = Exited).
Proof.
  revert s. induction tr as [|l tr IH]; intros s Hst Hw Hph Hrun.
  - cbn in Hrun. simplify_eq. split; [done|]. intros Hin. by apply elem_of_nil in Hin.
  - cbn in Hph, Hrun.
    destruct (protocol_step AfterInterrupt l) as [ph1|] eqn:E1; [|done].
    destruct (step l s) as [s1|] eqn:E2; [|done]. cbn in Hph, Hrun.
    assert (ph1 = AfterInterrupt) as -> by (destruct l; cbn in E1; by simplify_eq).
    assert (H1 : m_status s1 = INTERRUPTED ∧ worker s1 ≠ InCallback
                 ∧ (worker s = Exited → worker s1 = Exited)
                 ∧ (l = WorkerRun → worker s1 = Exited)).
    { destruct s as [st w o i r]; cbn in *. subst st.
      destruct l, w, o; cbn in E1; vm_compute in E2; simplify_eq; cbn; done. }
    destruct H1 as (Hst1 & Hw1 & Hex & Hrun1).
    destruct (IH s1 Hst1 Hw1 Hph Hrun) as [IH1 IH2].
    split; [naive_solver|].
    intros Hin. apply elem_of_cons in Hin as [<-|Hin]; naive_solver.
Qed.

(** C8. The calls on a render thread are made in the caller's order
    ([protocol]): [start()] first, then recording cycles, each a
    [recordCommandsAsync] followed by [finishCommandRecording] with no
    other call in between, then [interrupt()], after which no cycle is
    begun. The worker's steps interleave with them in any way. [tr] is
    any such trace from the constructor's state to [s], and [rest] any
    such continuation from [s] to [s'].

    Rendezvous. Whenever the caller is outside every call and not inside
    a cycle, the callback has been invoked, and has returned, exactly as
    often as cycles were begun; at any time it has been invoked at most
    once per cycle begun. So when [rest] is one cycle, begun outside any
    call and ended with [finishCommandRecording] returned, the callback
    has been invoked exactly once more and has returned, and the worker
    waits again. The rendezvous is not vacuous: a cycle begun between
    cycles can run to the return of [finishCommandRecording], and a
    [finishCommandRecording] that is due or waiting returns after at most
    two steps of the worker.

    Interrupt. Once the status is [INTERRUPTED] it stays so, the callback
    is never invoked again whatever follows, a worker that has left its
    loop stays out, the worker's first step leaves the loop, and as long
    as it has not left, that step is enabled. *)
Theorem rendezvous_and_interrupt (tr rest : list label) (ph ph' : Phase) (s s' : State) :
  protocol BeforeStart tr = Some ph → run tr init = Some s →
  protocol ph rest = Some ph' → run rest s = Some s' →
  (ph ≠ InCycle → orchestrator s = Running →
   invoked s = cycles tr ∧ returned s = cycles tr)
  ∧ (returned s ≤ invoked s ∧ invoked s ≤ cycles tr ∧ cycles tr ≤ S (returned s))
  ∧ (ph = BetweenCycles → orchestrator s = Running →
     cycles rest = 1%nat → ph' = BetweenCycles → orchestrator s' = Running →
     invoked s' = S (invoked s) ∧ returned s' = S (returned s)
     ∧ worker s' = Blocked ∧ m_status s' = WAITING)
  ∧ (ph = BetweenCycles → orchestrator s = Running →
     ∃ s2, run [RecordCommandsAsync; WorkerRun; WorkerReturn; FinishCommandRecording] s
             = Some s2
           ∧ orchestrator s2 = Running)
  ∧ (ph = InCycle ∨ orchestrator s = InFinish →
     ∃ w s2, Forall (λ l, is_worker l = true) w ∧ length w ≤ 2
             ∧ run (w ++ [if bool_decide (orchestrator s = InFinish)
                          then FinishWake else FinishCommandRecording]) s = Some s2
             ∧ orchestrator s2 = Running)
  ∧ (m_status s = INTERRUPTED →
     m_status s' = INTERRUPTED
     ∧ invoked s' = invoked s ∧ returned s' = returned s
     ∧ (worker s = Exited → worker s' = Exited)
     ∧ (WorkerRun ∈ rest → worker s' = Exited)
     ∧ (worker s' = Exited
        ∨ ∃ s'', step WorkerRun s' = Some s'' ∧ worker s'' = Exited)).
Proof.
  intros Hph Hrun Hph' Hrun'.
  assert (Hinit : protocol_inv BeforeStart 0 init) by (cbn; done).
  pose proof (run_protocol_inv tr _ _ _ _ _ Hph Hrun Hinit) as Hs.
  pose proof (run_protocol_inv rest _ _ _ _ _ Hph' Hrun' Hs) as Hs'.
  rewrite Nat.add_0_r in Hs, Hs'.
  split; [|split; [|split; [|split; [|split]]]].
  - intros Hne Ho. destruct ph; cbn in Hs; unfold at_rest, in_flight in Hs.
    + intuition lia.
    + destruct Hs as [[_ (_ & ? & ?)]|[Ho' _]]; [done|congruence].
    + done.
    + naive_solver.
  - destruct ph; cbn in Hs; unfold at_rest, in_flight in Hs.
    + intuition lia.
    + intuition lia.
    + intuition lia.
    + intuition lia.
  - intros -> Ho Hone -> Ho'. rewrite Hone in Hs'.
    cbn in Hs, Hs'. unfold at_rest, in_flight in Hs, Hs'.
    destruct Hs as [[_ (_ & Hi & Hr)]|[? _]]; [|congruence].
    destruct Hs' as [[_ (Hw & Hi' & Hr')]|[? _]]; [|congruence].
    split; [lia|]. split; [lia|].
    destruct Hw as [(_ & _ & Hz)|[Hw Hst]]; [lia|done].
  - intros -> Ho. cbn in Hs. unfold at_rest, in_flight in Hs.
    destruct Hs as [[_ (Hw & Hi & Hr)]|[? _]]; [|congruence].
    destruct s as [st w o i r]; cbn in *. subst o.
    destruct Hw as [(-> & -> & _)|[-> ->]]; vm_compute; eauto.
  - intros Hc.
    assert (Hfl : in_flight (cycles tr) s).
    { destruct Hc as [->|Ho]; [by destruct Hs|].
      destruct ph; cbn in Hs.
      - intuition congruence.
      - destruct Hs as [[? _]|[_ ?]]; [congruence|done].
      - destruct Hs as [? _]. congruence.
      - destruct Hs as [? _]. congruence. }
    assert (Hmx : orchestrator s = InFinish ∨ orchestrator s = Running)
      by (destruct (orchestrator s); auto).
    destruct s as [st w o i r]; cbn in *. unfold in_flight in Hfl. cbn in Hfl.
    destruct Hfl as [(-> & [-> | ->] & _)|[(-> & -> & _)|(-> & -> & _)]].
    + exists [WorkerRun; WorkerReturn]. destruct Hmx as [-> | ->]; vm_compute;
        eexists; (split; [repeat constructor|]); (split; [lia|]); split; reflexivity.
    + exists [WorkerRun; WorkerReturn]. destruct Hmx as [-> | ->]; vm_compute;
        eexists; (split; [repeat constructor|]); (split; [lia|]); split; reflexivity.
    + exists [WorkerReturn]. destruct Hmx as [-> | ->]; vm_compute;
        eexists; (split; [repeat constructor|]); (split; [lia|]); split; reflexivity.
    + exists []. destruct Hmx as [-> | ->]; vm_compute;
        eexists; (split; [repeat constructor|]); (split; [lia|]); split; reflexivity.
  - intros Hst.
    assert (ph = AfterInterrupt) as ->.
    { destruct ph; cbn in Hs; unfold at_rest, in_flight in Hs; [| | |done].
      - intuition congruence.
      - intuition congruence.
      - intuition congruence. }
    destruct (protocol_after_interrupt _ _ Hph') as [-> Hz].
    rewrite Hz in Hs'. cbn in Hs, Hs'.
    destruct Hs as (_ & _ & Hw & Hi & Hr).
    destruct Hs' as (Ho' & Hst' & Hw' & Hi' & Hr').
    split; [done|]. split; [lia|]. split; [lia|].
    assert (Hw0 : worker s ≠ InCallback) by (intuition congruence).
    destruct (run_exits rest s s' Hst Hw0 Hph' Hrun') as [He1 He2].
    split; [done|]. split; [done|].
    destruct s' as [st w o i r]; cbn in *. subst st.
    destruct Hw' as [-> |[-> | ->]]; [right|right|by left]; vm_compute; eauto.
Qed.

Lemma rendezvous_and_interrupt_witness :
  (protocol BeforeStart
     [Start; RecordCommandsAsync; FinishCommandRecording; WorkerRun; WorkerReturn; FinishWake]
   = Some BetweenCycles
   ∧ run [Start; RecordCommandsAsync; FinishCommandRecording; WorkerRun; WorkerReturn;
          FinishWake] init
     = Some (mkState WAITING Blocked Running 1 1)
   ∧ protocol BetweenCycles
       [RecordCommandsAsync; WorkerRun; WorkerReturn; FinishCommandRecording]
     = Some BetweenCycles
   ∧ run [RecordCommandsAsync; WorkerRun; WorkerReturn; FinishCommandRecording]
         (mkState WAITING Blocked Running 1 1)
     = Some (mkState WAITING Blocked Running 2 2)
   ∧ invoked (mkState WAITING Blocked Running 2 2) = 2%nat)
  ∧ (protocol BeforeStart [Start; WorkerRun; Interrupt] = Some AfterInterrupt
     ∧ run [Start; WorkerRun; Interrupt] init = Some (mkState INTERRUPTED Blocked Running 0 0)
     ∧ protocol AfterInterrupt [WorkerRun] = Some AfterInterrupt
     ∧ run [WorkerRun] (mkState INTERRUPTED Blocked Running 0 0)
       = Some (mkState INTERRUPTED Exited Running 0 0)
     ∧ worker (mkState INTERRUPTED Exited Running 0 0) = Exited).
Proof.
  pose proof (rendezvous_and_interrupt
                [Start; RecordCommandsAsync; FinishCommandRecording; WorkerRun;
                 WorkerReturn; FinishWake]
                [RecordCommandsAsync; WorkerRun; WorkerReturn; FinishCommandRecording]
                BetweenCycles BetweenCycles
                (mkState WAITING Blocked Running 1 1)
                (mkState WAITING Blocked Running 2 2)
                eq_refl eq_refl eq_refl eq_refl) as (_ & _ & H1 & _).
  pose proof (rendezvous_and_interrupt
                [Start; WorkerRun; Interrupt] [WorkerRun]
                AfterInterrupt AfterInterrupt
                (mkState INTERRUPTED Blocked Running 0 0)
                (mkState INTERRUPTED Exited Running 0 0)
                eq_refl eq_refl eq_refl eq_refl) as (_ & _ & _ & _ & _ & H2).
  split.
  - split; [reflexivity|]. split; [reflexivity|]. split; [reflexivity|].
    split; [reflexivity|].
    destruct (H1 eq_refl eq_refl eq_refl eq_refl eq_refl) as (Hi & _). exact Hi.
  - split; [reflexivity|]. split; [reflexivity|]. split; [reflexivity|].
    split; [reflexivity|].
    destruct (H2 eq_refl) as (_ & _ & _ & _ & Hw & _). apply Hw. by left.
Defined.

(** The order of the calls matters: [recordCommandsAsync] assigns
    [RECORDING] whatever the status is, so a call that came after
    [interrupt()] and before the worker has woken up, which the caller's
    order excludes, would have the worker record once more. *)
Lemma recordCommandsAsync_after_interrupt :
  run [Start; WorkerRun; Interrupt; RecordCommandsAsync; WorkerRun] init
    = Some (mkState RECORDING InCallback Running 1 0)
  ∧ protocol BeforeStart [Start; WorkerRun; Interrupt; RecordCommandsAsync; WorkerRun]
    = None.
Proof. split; reflexivity. Qed.
End RenderThreadFacts.

Module MemoryPoolTests.
Import MemoryPool.
Local Open Scope Z_scope.

Example request_1 :
  requestInterval 10 1 [mkInterval 0 100] = Done (Some (mkInterval 0 10), [mkInterval 10 100]).
Proof. reflexivity. Qed.

Example release_fault :
  returnInterval (mkInterval 10 20) [mkInterval 0 10] = Fault OutOfBounds.
Proof. reflexivity. Qed.

Example release_front :
  returnInterval (mkInterval 0 10) [mkInterval 10 20] = Done [mkInterval 0 20].
Proof. reflexivity. Qed.
End MemoryPoolTests.

(** * Properties of the code around the engine *)

(** ** Loops over lists *)

Module ListFacts.

Lemma foldl_bind {A B C} (f : A → C → A) (g : B → list C) (l : list B) (a : A) :
  foldl f a (l ≫= g) = foldl (λ a y, foldl f a (g y)) a l.
Proof.
  revert a. induction l as [|y l IH]; intros a; [done|].
  cbn. rewrite foldl_app. apply IH.
Qed.

Lemma foldl_pointwise {A B} (f g : A → B → A) (l : list B) (a : A) :
  (∀ a x, f a x = g a x) → foldl f a l = foldl g a l.
Proof.
  intros H. revert a. induction l as [|x l IH]; intros a; [done|]. cbn. by rewrite H, IH.
Qed.

Lemma length_bind_uniform {A B} (f : A → list B) (l : list A) (n : nat) :
  (∀ x, x ∈ l → length (f x) = n) → length (x ← l; f x) = (length l * n)%nat.
Proof.
  induction l as [|x l IH]; intros H; [done|]. cbn. rewrite length_app, IH, H.
  - lia.
  - by left.
  - intros y Hy. apply H. by right.
Qed.

Lemma Forall_bind_list {A B} (P : B → Prop) (f : A → list B) (l : list A) :
  (∀ x, x ∈ l → Forall P (f x)) → Forall P (x ← l; f x).
Proof.
  induction l as [|x l IH]; intros H; [constructor|]. cbn. apply Forall_app. split.
  - apply H. by left.
  - apply IH. intros y Hy. apply H. by right.
Qed.

Lemma Forall_removelast {A} (P : A → Prop) (l : list A) : Forall P l → Forall P (removelast l).
Proof.
  induction 1 as [|x l Hx Hl IH]; [constructor|]. cbn. destruct l; [constructor|].
  constructor; [done|]. exact IH.
Qed.
End ListFacts.

Module PageLifetimeFacts.
Import MemoryPool MemoryPoolSpec MachineFacts MemoryPoolFacts PageLifetime.
Local Open Scope Z_scope.

Lemma valid_run_app ops1 ops2 st :
  valid_run (ops1 ++ ops2) st → valid_run ops1 st.
Proof.
  revert st. induction ops1 as [|o ops1 IH]; intros st; cbn; [done|].
  intros [Ho Hrest]. split; [done|]. destruct (page_step o st); [by apply IH|done].
Qed.

Lemma coalesced_cover_above lo hi free x :
  coalesced lo hi free → hi <= x → cover free x = 0%nat.
Proof.
  revert lo. induction free as [|i rest IH]; intros lo Hc Hx; [done|].
  cbn in Hc. destruct Hc as (H1 & H2 & H3 & H4).
  rewrite cover_cons, (IH _ H4) by lia.
  case_decide as Hin; [|done]. unfold inside in Hin. lia.
Qed.

(** A coalesced list is determined by the bytes it covers. *)
Lemma coalesced_unique lo hi lo' hi' l1 l2 :
  coalesced lo hi l1 → coalesced lo' hi' l2 →
  (∀ x, cover l1 x = cover l2 x) → l1 = l2.
Proof.
  revert lo lo' l2. induction l1 as [|i1 r1 IH]; intros lo lo' l2 H1 H2 Hcov.
  - destruct l2 as [|i2 r2]; [done|]. exfalso.
    cbn in H2. destruct H2 as (? & ? & ? & ?).
    specialize (Hcov (m_begin i2)). rewrite cover_nil, cover_cons in Hcov.
    rewrite decide_True in Hcov; [lia|]. unfold inside. lia.
  - cbn in H1. destruct H1 as (A1 & A2 & A3 & A4).
    destruct l2 as [|i2 r2].
    { exfalso. specialize (Hcov (m_begin i1)). rewrite cover_nil, cover_cons in Hcov.
      rewrite decide_True in Hcov; [lia|]. unfold inside. lia. }
    cbn in H2. destruct H2 as (B1 & B2 & B3 & B4).
    assert (Hb : m_begin i1 = m_begin i2).
    { destruct (Z.lt_trichotomy (m_begin i1) (m_begin i2)) as [Hlt|[?|Hlt]]; [|done|]; exfalso.
      - specialize (Hcov (m_begin i1)). rewrite !cover_cons in Hcov.
        rewrite decide_True in Hcov by (unfold inside; lia).
        rewrite (decide_False (P := inside (m_begin i1) i2)) in Hcov by (unfold inside; lia).
        rewrite (coalesced_cover_below _ _ r2 _ B4) in Hcov by lia. lia.
      - specialize (Hcov (m_begin i2)). rewrite !cover_cons in Hcov.
        rewrite (decide_True (P := inside (m_begin i2) i2)) in Hcov by (unfold inside; lia).
        rewrite (decide_False (P := inside (m_begin i2) i1)) in Hcov by (unfold inside; lia).
        rewrite (coalesced_cover_below _ _ r1 _ A4) in Hcov by lia. lia. }
    assert (He : m_end i1 = m_end i2).
    { destruct (Z.lt_trichotomy (m_end i1) (m_end i2)) as [Hlt|[?|Hlt]]; [|done|]; exfalso.
      - specialize (Hcov (m_end i1)). rewrite !cover_cons in Hcov.
        rewrite (decide_False (P := inside (m_end i1) i1)) in Hcov by (unfold inside; lia).
        rewrite (decide_True (P := inside (m_end i1) i2)) in Hcov by (unfold inside; lia).
        rewrite (coalesced_cover_below _ _ r1 _ A4) in Hcov by lia. lia.
      - specialize (Hcov (m_end i2)). rewrite !cover_cons in Hcov.
        rewrite (decide_True (P := inside (m_end i2) i1)) in Hcov by (unfold inside; lia).
        rewrite (decide_False (P := inside (m_end i2) i2)) in Hcov by (unfold inside; lia).
        rewrite (coalesced_cover_below _ _ r2 _ B4) in Hcov by lia. lia. }
    assert (i1 = i2) as -> by (destruct i1, i2; cbn in *; congruence).
    f_equal. eapply IH; [exact A4|exact B4|].
    intros x. specialize (Hcov x). rewrite !cover_cons in Hcov. lia.
Qed.

(** X1. Along a run of valid calls, every prefix that returns leaves the
    page with the invariant; the only fault a valid run can meet is the
    out-of-bounds read of a release. *)
Theorem valid_run_keeps_the_page_invariant
    (ops1 ops2 : list page_op) (st : PageState) :
  page_inv st → valid_run (ops1 ++ ops2) st →
  match page_run ops1 st with
  | Done st1 =>
    page_inv st1
    ∧ (∀ i j r1 r2, i ≠ j → live st1 !! i = Some r1 → live st1 !! j = Some r2 →
                    intersects r1 r2 = false)
    ∧ (∀ r f, r ∈ live st1 → f ∈ m_freeIntervals (page st1) → intersects r f = false)
  | Fault f => f = OutOfBounds
  end.
Proof.
  intros Hinv Hvalid. apply valid_run_app in Hvalid.
  pose proof (page_run_inv ops1 st Hinv Hvalid) as H.
  destruct (page_run ops1 st) as [st1|f]; [|done].
  split; [done|]. destruct (page_inv_disjoint st1 H) as (? & ? & _). done.
Qed.

Lemma valid_run_keeps_the_page_invariant_witness :
  page_inv (mkPageState (mkPage 1%nat 64 [mkInterval 24 64]) [mkInterval 16 24; mkInterval 0 16]).
Proof.
  assert (Hinv : page_inv (mkPageState (newPage 1%nat 64) [])) by (apply newPage_inv; lia).
  assert (Hvalid : valid_run ([Request 16 8; Request 8 8] ++ [Release (mkInterval 0 16)])
                             (mkPageState (newPage 1%nat 64) [])).
  { vm_compute. repeat apply conj; try reflexivity. right. left. }
  exact (proj1 (valid_run_keeps_the_page_invariant _ _ _ Hinv Hvalid)).
Defined.

Lemma page_step_page (o : page_op) (st st' : PageState) :
  page_step o st = Done st' →
  m_devMem (page st') = m_devMem (page st) ∧ m_size (page st') = m_size (page st).
Proof.
  destruct o as [size alignment|region]; cbn [page_step]; intros H;
    apply exec_bind_done in H as (f & _ & H); by simplify_eq.
Qed.

Lemma page_run_page (ops : list page_op) (st st' : PageState) :
  page_run ops st = Done st' →
  m_devMem (page st') = m_devMem (page st) ∧ m_size (page st') = m_size (page st).
Proof.
  revert st. induction ops as [|o ops IH]; intros st H; cbn [page_run] in H.
  - by simplify_eq.
  - apply exec_bind_done in H as (st1 & Hstep & Hrun).
    destruct (page_step_page _ _ _ Hstep) as [Hd Hs].
    destruct (IH _ Hrun) as [Hd' Hs']. split; congruence.
Qed.

(** X2. A page is created with the whole of it free, and regions are
    requested from it and released to it by any run of valid calls. If
    the run returns and has released every region it was given, the page
    is as it was created: its free list is the single interval
    [[0, m_size)], which is what the destructor asserts. A run that does
    not return has met the out-of-bounds read of a release. *)
Theorem all_returned_page_is_one_interval
    (devMem : DeviceMemory) (size : Z) (ops : list page_op) :
  0 < size →
  valid_run ops (mkPageState (newPage devMem size) []) →
  match page_run ops (mkPageState (newPage devMem size) []) with
  | Done st =>
    live st = [] →
    page st = newPage devMem size ∧ destructor_assert (page st) = true
  | Fault f => f = OutOfBounds
  end.
Proof.
  intros Hsize Hvalid.
  pose proof (page_run_inv ops _ (newPage_inv devMem size Hsize) Hvalid) as Hinv.
  destruct (page_run ops (mkPageState (newPage devMem size) [])) as [st|f] eqn:Hrun;
    [|done].
  intros Hlive.
  destruct (page_run_page _ _ _ Hrun) as [Hdev Hsz]. cbn in Hdev, Hsz.
  destruct Hinv as [Hfree _ Htile]. rewrite Hlive in Htile.
  assert (Hfl : m_freeIntervals (page st) = [mkInterval 0 (m_size (page st))]).
  { eapply coalesced_unique; [exact Hfree| |].
    - instantiate (1 := m_size (page st)). instantiate (1 := 0). cbn. lia.
    - intros x. rewrite cover_cons, cover_nil.
      case_decide as Hin.
      + unfold inside in Hin. cbn in Hin. specialize (Htile x Hin).
        by rewrite app_nil_r in Htile.
      + unfold inside in Hin. cbn in Hin.
        destruct (decide (x < 0)).
        * by rewrite (coalesced_cover_below _ _ _ _ Hfree).
        * rewrite (coalesced_cover_above _ _ _ _ Hfree); [done|lia]. }
  split.
  - destruct (page st) as [d s f]. cbn in *. unfold newPage. congruence.
  - unfold destructor_assert. rewrite Hfl. cbn.
    rewrite Z.eqb_refl. by rewrite orb_true_r.
Qed.

Lemma all_returned_page_is_one_interval_witness :
  valid_run [Request 16 8; Request 8 8; Release (mkInterval 0 16); Release (mkInterval 16 24)]
            (mkPageState (newPage 1%nat 64) [])
  ∧ page_run [Request 16 8; Request 8 8; Release (mkInterval 0 16)]
             (mkPageState (newPage 1%nat 64) [])
    = Done (mkPageState (mkPage 1%nat 64 [mkInterval 0 16; mkInterval 24 64])
                        [mkInterval 16 24])
  ∧ page_run [Request 16 8; Request 8 8; Release (mkInterval 0 16); Release (mkInterval 16 24)]
             (mkPageState (newPage 1%nat 64) [])
    = Done (mkPageState (mkPage 1%nat 64 [mkInterval 0 64]) [])
  ∧ destructor_assert (page (mkPageState (mkPage 1%nat 64 [mkInterval 0 64]) [])) = true.
Proof.
  assert (Hvalid : valid_run [Request 16 8; Request 8 8; Release (mkInterval 0 16);
                              Release (mkInterval 16 24)]
                             (mkPageState (newPage 1%nat 64) [])).
  { vm_compute. repeat apply conj; try reflexivity; try exact I.
    - right. left.
    - left. }
  split; [exact Hvalid|]. split; [reflexivity|]. split; [reflexivity|].
  pose proof (all_returned_page_is_one_interval 1%nat 64 _ ltac:(lia) Hvalid) as H.
  change (page_run _ _) with (Done (mkPageState (mkPage 1%nat 64 [mkInterval 0 64]) [])) in H.
  exact (proj2 (H eq_refl)).
Defined.

(** X3. A request followed by the release of the region it returned, when
    the release returns, restores the page state. *)
Theorem request_then_release_restores_the_page
    (st st1 st2 : PageState) (size alignment : Z) (region : Interval) :
  page_inv st → valid_op st (Request size alignment) →
  page_step (Request size alignment) st = Done st1 →
  live st1 = region :: live st →
  page_step (Release region) st1 = Done st2 →
  st2 = st.
Proof.
  intros Hinv Hvalid Hreq Hlive1 Hrel.
  destruct (page_step_inv _ st Hinv Hvalid) as [(st1' & Hs1 & Hinv1 & Hsz1)|(r & Hr & _)];
    [|done].
  assert (st1' = st1) as -> by congruence. clear Hs1.
  assert (Hvalid1 : valid_op st1 (Release region)) by (cbn; rewrite Hlive1; by left).
  destruct (page_step_inv _ st1 Hinv1 Hvalid1)
    as [(st2' & Hs2 & Hinv2 & Hsz2)|(r & _ & _ & _ & Hf)]; [|congruence].
  assert (st2' = st2) as -> by congruence. clear Hs2.
  assert (Hlive2 : live st2 = live st).
  { cbn in Hrel. apply exec_bind_done in Hrel as (f & _ & Hrel). simplify_eq. cbn.
    rewrite Hlive1. cbn. by rewrite bool_decide_eq_true_2. }
  assert (Hdev : m_devMem (page st2) = m_devMem (page st)).
  { cbn in Hrel, Hreq. apply exec_bind_done in Hrel as (f & _ & Hrel).
    apply exec_bind_done in Hreq as (f' & _ & Hreq). by simplify_eq. }
  destruct Hinv as [Hfree _ Htile]. destruct Hinv2 as [Hfree2 _ Htile2].
  assert (Hfl : m_freeIntervals (page st2) = m_freeIntervals (page st)).
  { eapply coalesced_unique; [exact Hfree2|exact Hfree|].
    intros x. destruct (decide (0 <= x < m_size (page st))) as [Hx|Hx].
    - specialize (Htile x Hx). specialize (Htile2 x ltac:(lia)).
      rewrite cover_app in *. rewrite Hlive2 in Htile2. lia.
    - destruct (decide (x < 0)).
      + by rewrite (coalesced_cover_below _ _ _ _ Hfree),
                   (coalesced_cover_below _ _ _ _ Hfree2).
      + rewrite (coalesced_cover_above _ _ _ _ Hfree),
                (coalesced_cover_above _ _ _ _ Hfree2); [done|lia..]. }
  destruct st as [[d s f] l], st2 as [[d2 s2 f2] l2]. cbn in *. congruence.
Qed.

Lemma request_then_release_restores_the_page_witness :
  page_step (Release (mkInterval 16 32))
            (mkPageState (mkPage 1%nat 64 [mkInterval 8 16; mkInterval 32 64])
                         [mkInterval 16 32; mkInterval 0 8])
  = Done (mkPageState (mkPage 1%nat 64 [mkInterval 8 64]) [mkInterval 0 8]).
Proof.
  set (st := mkPageState (mkPage 1%nat 64 [mkInterval 8 64]) [mkInterval 0 8]).
  assert (Hinv : page_inv st).
  { pose proof (page_run_inv [Request 8 1] (mkPageState (newPage 1%nat 64) [])
                  (newPage_inv 1%nat 64 ltac:(lia))) as H.
    apply H. vm_compute. repeat apply conj; try reflexivity; exact I. }
  assert (Hvalid : valid_op st (Request 16 16)) by (vm_compute; repeat apply conj; reflexivity).
  assert (Hreq : page_step (Request 16 16) st
                 = Done (mkPageState (mkPage 1%nat 64 [mkInterval 8 16; mkInterval 32 64])
                                     [mkInterval 16 32; mkInterval 0 8])) by reflexivity.
  destruct (page_step (Release (mkInterval 16 32))
              (mkPageState (mkPage 1%nat 64 [mkInterval 8 16; mkInterval 32 64])
                           [mkInterval 16 32; mkInterval 0 8])) as [st2|f] eqn:Hrel;
    [|vm_compute in Hrel; discriminate].
  f_equal.
  exact (request_then_release_restores_the_page st _ st2 16 16 (mkInterval 16 32)
           Hinv Hvalid Hreq eq_refl Hrel).
Defined.
End PageLifetimeFacts.

Module PoolRunsFacts.
Import MemoryPool MemoryPoolSpec MachineFacts MemoryPoolFacts PoolRuns.
Local Open Scope Z_scope.

(** The regions of the live allocations that lie on a page. *)
Definition live_on (pa : PageAllocation) (allocs : list Allocation) : list Interval :=
  region_of <$> filter (λ a, a_devMem a = m_devMem pa) allocs.

(** The invariant of a pool: page handles are distinct, every live
    allocation names a page, and every page with the regions of its
    allocations satisfies the page invariant. *)
Record pool_inv (st : PoolState) : Prop := mkPoolInv {
  pinv_nodup : NoDup (m_devMem <$> m_pageAllocations (pool st));
  pinv_owner : ∀ a, a ∈ allocations st →
                    a_devMem a ∈ m_devMem <$> m_pageAllocations (pool st);
  pinv_range : ∀ a, a ∈ allocations st →
                    0 <= a_size a ∧ m_devMemOffset a + a_size a < 2 ^ 64;
  pinv_pages : ∀ k pa, m_pageAllocations (pool st) !! k = Some pa →
                       page_inv (mkPageState pa (live_on pa (allocations st)))
}.

(** The calls the invariant is stated for. The driver answers a request
    for memory with a handle that no page of the pool has. *)
Definition valid_pool_op (st : PoolState) (o : pool_op) : Prop :=
  match o with
  | Alloc size alignment driver =>
    0 < size ∧ 0 < alignment
    ∧ 0 <= m_minPageAllocationSize (pool st)
    ∧ Z.max size (m_minPageAllocationSize (pool st)) + alignment + size < 2 ^ 64
    ∧ Forall (λ pa, m_size pa + alignment + size < 2 ^ 64) (m_pageAllocations (pool st))
    ∧ ∀ devMem, driver = Some devMem →
                devMem ∉ m_devMem <$> m_pageAllocations (pool st)
  | Free allocation => allocation ∈ allocations st
  end.

Fixpoint valid_pool_run (ops : list pool_op) (st : PoolState) : Prop :=
  match ops with
  | [] => True
  | o :: ops' =>
    valid_pool_op st o
    ∧ match pool_step o st with
      | Done st' => valid_pool_run ops' st'
      | Fault _ => True
      end
  end.

Lemma alloc_scan_cases size alignment pages r pages' :
  alloc_scan size alignment pages = Done (r, pages') →
  match r with
  | None => pages' = pages
  | Some a =>
    ∃ (k : nat) pa c free',
      pages !! k = Some pa
      ∧ requestInterval size alignment (m_freeIntervals pa) = Done (Some c, free')
      ∧ pages' = <[k := set_freeIntervals pa free']> pages
      ∧ a = allocationOf (set_freeIntervals pa free') c
  end.
Proof.
  revert r pages'. induction pages as [|pa rest IH]; intros r pages' H; cbn in H.
  - by simplify_eq.
  - apply exec_bind_done in H as ([c free'] & Hreq & H). cbn in H.
    destruct c as [c|].
    + simplify_eq. exists O, pa, c, free'. done.
    + apply exec_bind_done in H as ([r' rest'] & Hscan & H). cbn in H. simplify_eq.
      apply requestInterval_none in Hreq as ->.
      specialize (IH _ _ Hscan). destruct r as [a|].
      * destruct IH as (k & pb & c & free' & Hk & Hreq & -> & ->).
        exists (S k), pb, c, free'. repeat split; try done.
        cbn. f_equal. by destruct pa.
      * subst. f_equal. by destruct pa.
Qed.

Lemma find_page_Some devMem pages i :
  find_page devMem pages = Some i →
  ∃ pa, pages !! i = Some pa ∧ m_devMem pa = devMem.
Proof.
  revert i. induction pages as [|pa rest IH]; intros i H; cbn in H; [done|].
  case_bool_decide.
  - simplify_eq. by exists pa.
  - destruct (find_page devMem rest) as [j|]; cbn in H; [|done]. simplify_eq.
    destruct (IH j eq_refl) as (pb & ? & ?). by exists pb.
Qed.

Lemma find_page_None devMem pages :
  find_page devMem pages = None → devMem ∉ m_devMem <$> pages.
Proof.
  induction pages as [|pa rest IH]; cbn; [intros _; apply not_elem_of_nil|].
  case_bool_decide; [done|].
  destruct (find_page devMem rest); [done|]. intros _.
  apply not_elem_of_cons. split; [done|]. by apply IH.
Qed.

Lemma cover_Permutation l1 l2 x : l1 ≡ₚ l2 → cover l1 x = cover l2 x.
Proof. intros H. unfold cover. by rewrite H. Qed.

Lemma page_inv_Permutation pa l1 l2 :
  l1 ≡ₚ l2 → page_inv (mkPageState pa l1) → page_inv (mkPageState pa l2).
Proof.
  intros Hp [Hf Hl Ht]. cbn in *. constructor; cbn.
  - done.
  - by rewrite <- Hp.
  - intros x Hx. rewrite cover_app, <- (cover_Permutation _ _ x Hp), <- cover_app. by apply Ht.
Qed.

Lemma remove_first_Permutation (r : Interval) l : r ∈ l → l ≡ₚ r :: remove_first r l.
Proof.
  induction l as [|y l IH]; [by intros ?%elem_of_nil|]. cbn.
  case_bool_decide; [by subst|].
  intros [->|Hin]%elem_of_cons; [done|].
  rewrite (IH Hin) at 1. apply Permutation_swap.
Qed.

Lemma remove_allocation_Permutation (a : Allocation) l :
  a ∈ l → l ≡ₚ a :: remove_allocation a l.
Proof.
  induction l as [|y l IH]; [by intros ?%elem_of_nil|]. cbn.
  case_bool_decide; [by subst|].
  intros [->|Hin]%elem_of_cons; [done|].
  rewrite (IH Hin) at 1. apply Permutation_swap.
Qed.

Lemma remove_allocation_subset a l b : b ∈ remove_allocation a l → b ∈ l.
Proof.
  induction l as [|y l IH]; cbn; [done|]. case_bool_decide.
  - by right.
  - intros [->|?]%elem_of_cons; [by left|right; auto].
Qed.

Lemma live_on_remove_other pa a allocs :
  a_devMem a ≠ m_devMem pa →
  live_on pa (remove_allocation a allocs) = live_on pa allocs.
Proof.
  intros Hne. unfold live_on. f_equal.
  induction allocs as [|y l IH]; cbn [remove_allocation]; [done|].
  case_bool_decide.
  - subst. by rewrite filter_cons_False.
  - rewrite !filter_cons. case_decide; by rewrite IH.
Qed.

Lemma live_on_remove_same pa a allocs :
  a ∈ allocs → a_devMem a = m_devMem pa →
  live_on pa (remove_allocation a allocs)
  ≡ₚ remove_first (region_of a) (live_on pa allocs).
Proof.
  intros Hin Hdev.
  assert (H1 : live_on pa allocs ≡ₚ region_of a :: live_on pa (remove_allocation a allocs)).
  { unfold live_on.
    transitivity (region_of <$> filter (λ b, a_devMem b = m_devMem pa)
                                       (a :: remove_allocation a allocs)).
    - f_equiv. f_equiv. by apply remove_allocation_Permutation.
    - by rewrite filter_cons_True. }
  assert (H2 : region_of a ∈ live_on pa allocs).
  { rewrite H1. by left. }
  apply (Permutation_cons_inv (a := region_of a)).
  rewrite <- H1. by apply remove_first_Permutation.
Qed.

Lemma region_of_allocationOf pa c :
  0 <= m_begin c → m_begin c <= m_end c → m_end c < 2 ^ 64 →
  region_of (allocationOf pa c) = c.
Proof.
  intros. unfold region_of, allocationOf. cbn.
  rewrite (wrap64_small (m_end c - m_begin c)) by lia.
  rewrite wrap64_small by lia. destruct c; cbn; f_equal; lia.
Qed.

Lemma live_on_fresh pa allocs (pages : list PageAllocation) :
  (∀ a, a ∈ allocs → a_devMem a ∈ m_devMem <$> pages) →
  m_devMem pa ∉ m_devMem <$> pages →
  live_on pa allocs = [].
Proof.
  intros Hown Hfresh. unfold live_on.
  induction allocs as [|a l IH]; [done|].
  rewrite filter_cons_False.
  - apply IH. intros b Hb. apply Hown. by right.
  - intros Heq. apply Hfresh. rewrite <- Heq. apply Hown. by left.
Qed.

Lemma live_on_cons_other pa a allocs :
  a_devMem a ≠ m_devMem pa → live_on pa (a :: allocs) = live_on pa allocs.
Proof. intros. unfold live_on. by rewrite filter_cons_False. Qed.

Lemma live_on_cons_same pa a allocs :
  a_devMem a = m_devMem pa → live_on pa (a :: allocs) = region_of a :: live_on pa allocs.
Proof. intros. unfold live_on. by rewrite filter_cons_True. Qed.

Lemma live_on_set_freeIntervals pa free allocs :
  live_on (set_freeIntervals pa free) allocs = live_on pa allocs.
Proof. done. Qed.

Lemma NoDup_fmap_lookup {A B} (f : A → B) (l : list A) i j x y :
  NoDup (f <$> l) → l !! i = Some x → l !! j = Some y → f x = f y → i = j.
Proof.
  intros Hnd Hi Hj Heq.
  eapply NoDup_lookup; [exact Hnd| |].
  - rewrite list_lookup_fmap, Hi. done.
  - rewrite list_lookup_fmap, Hj. cbn. by rewrite Heq.
Qed.

(** One call on the pool keeps the invariant when it returns. *)
Lemma pool_step_inv (o : pool_op) (st st' : PoolState) :
  pool_inv st → valid_pool_op st o → pool_step o st = Done st' → pool_inv st'.
Proof.
  intros [Hnd Hown Hrng Hpages] Hvalid Hstep.
  destruct o as [size alignment driver|a]; cbn [pool_step valid_pool_op] in *.
  - destruct Hvalid as (Hsize & Hal & Hmin & Hnew & Hrange & Hfresh).
    apply exec_bind_done in Hstep as ([a pool'] & Halloc & Hstep). cbn in Hstep.
    simplify_eq. unfold alloc in Halloc.
    apply exec_bind_done in Halloc as ([r pages'] & Hscan & Halloc). cbn [fst snd] in Halloc.
    pose proof (alloc_scan_cases _ _ _ _ _ Hscan) as Hcases.
    destruct r as [a0|].
    + (* carved from an existing page *)
      simplify_eq. destruct Hcases as (k & pa & c & free' & Hk & Hreq & -> & ->).
      pose proof (Hpages k pa Hk) as Hinv.
      assert (Hvalid : valid_op (mkPageState pa (live_on pa (allocations st)))
                                (Request size alignment)).
      { cbn. repeat split; try done. rewrite Forall_forall in Hrange.
        apply Hrange. by eapply list_elem_of_lookup_2. }
      destruct (page_step_inv _ _ Hinv Hvalid) as [(st1 & Hs1 & Hinv1 & _)|(? & ? & _)];
        [|done].
      cbn in Hs1. rewrite Hreq in Hs1. cbn in Hs1. simplify_eq.
      assert (Hc : 0 <= m_begin c ∧ m_begin c < m_end c ∧ m_end c <= m_size pa).
      { destruct Hinv1 as [_ Hl _]. cbn in Hl. by apply Forall_cons in Hl as [Hl _]. }
      assert (Hsz : m_size pa + alignment + size < 2 ^ 64).
      { rewrite Forall_forall in Hrange. apply Hrange. by eapply list_elem_of_lookup_2. }
      assert (Hdevs : m_devMem <$> <[k:=set_freeIntervals pa free']> (m_pageAllocations (pool st))
                      = m_devMem <$> m_pageAllocations (pool st)).
      { rewrite list_fmap_insert. cbn. apply list_insert_id.
        by rewrite list_lookup_fmap, Hk. }
      constructor; cbn [pool allocations m_pageAllocations].
      * by rewrite Hdevs.
      * rewrite Hdevs. intros b [->|Hb]%elem_of_cons; [|by apply Hown].
        cbn. apply list_elem_of_fmap. exists pa. split; [done|].
        by eapply list_elem_of_lookup_2.
      * intros b [->|Hb]%elem_of_cons; [|by apply Hrng].
        cbn. rewrite wrap64_small by lia. lia.
      * intros j pb Hj. destruct (decide (j = k)) as [->|Hjk].
        -- rewrite list_lookup_insert_eq in Hj by (by eapply lookup_lt_Some).
           simplify_eq. rewrite live_on_set_freeIntervals.
           rewrite live_on_cons_same by done.
           rewrite region_of_allocationOf by lia. done.
        -- rewrite list_lookup_insert_ne in Hj by done.
           rewrite live_on_cons_other; [by eapply Hpages|].
           cbn. intros Heq. apply Hjk.
           by eapply (NoDup_fmap_lookup m_devMem _ j k pb pa).
    + (* a new page *)
      subst pages'. destruct driver as [devMem|]; [|done].
      apply exec_bind_done in Halloc as ([c free'] & Hreq & Halloc). cbn [fst snd] in Halloc.
      destruct c as [c|]; [|done]. simplify_eq.
      set (pageSize := Z.max size (m_minPageAllocationSize (pool st))) in *.
      assert (Hinv : page_inv (mkPageState (newPage devMem pageSize) [])).
      { apply newPage_inv. lia. }
      assert (Hvalid : valid_op (mkPageState (newPage devMem pageSize) [])
                                (Request size alignment)).
      { cbn. repeat split; try done. }
      destruct (page_step_inv _ _ Hinv Hvalid) as [(st1 & Hs1 & Hinv1 & _)|(? & ? & _)];
        [|done].
      cbn -[requestInterval newPage] in Hs1. rewrite Hreq in Hs1. cbn in Hs1. simplify_eq.
      assert (Hc : 0 <= m_begin c ∧ m_begin c < m_end c ∧ m_end c <= pageSize).
      { destruct Hinv1 as [_ Hl _]. cbn in Hl. by apply Forall_cons in Hl as [Hl _]. }
      specialize (Hfresh devMem eq_refl).
      constructor; cbn [pool allocations m_pageAllocations].
      * rewrite fmap_app. cbn. apply NoDup_app. split; [done|]. split.
        -- intros d Hd [->|[]%elem_of_nil]%elem_of_cons. done.
        -- apply NoDup_singleton.
      * rewrite fmap_app. intros b [->|Hb]%elem_of_cons.
        -- cbn. apply elem_of_app. right. by left.
        -- apply elem_of_app. left. by apply Hown.
      * intros b [->|Hb]%elem_of_cons; [|by apply Hrng].
        cbn. rewrite wrap64_small by lia. lia.
      * intros j pb Hj. apply lookup_app_Some in Hj as [Hj|[Hlen Hj]].
        -- rewrite live_on_cons_other; [by eapply Hpages|].
           cbn. intros Heq. apply Hfresh. rewrite Heq.
           apply list_elem_of_fmap. exists pb. split; [done|].
           by eapply list_elem_of_lookup_2.
        -- destruct (j - length (m_pageAllocations (pool st)))%nat; cbn in Hj; [|done].
           simplify_eq. rewrite live_on_set_freeIntervals.
           rewrite live_on_cons_same by done.
           rewrite region_of_allocationOf by lia.
           rewrite (live_on_fresh _ _ (m_pageAllocations (pool st))); done.
  - unfold free in Hstep.
    apply exec_bind_done in Hstep as (pool' & Hfree & Hstep). simplify_eq.
    destruct (find_page (a_devMem a) (m_pageAllocations (pool st))) as [i|] eqn:Efind;
      [|done].
    destruct (find_page_Some _ _ _ Efind) as (pa & Hi & Hdev).
    unfold deref in Hfree. rewrite Hi in Hfree. cbn in Hfree.
    apply exec_bind_done in Hfree as (free' & Hret & Hfree). simplify_eq.
    pose proof (Hpages i pa Hi) as Hinv.
    assert (Hlive : region_of a ∈ live_on pa (allocations st)).
    { unfold live_on. apply list_elem_of_fmap. exists a. split; [done|].
      by apply list_elem_of_filter. }
    destruct (page_step_inv (Release (region_of a)) _ Hinv Hlive)
      as [(st1 & Hs1 & Hinv1 & _)|(? & _ & _ & _ & Hf)].
    2: { cbn in Hf. unfold region_of in Hf. rewrite Hret in Hf. done. }
    cbn [page_step page m_freeIntervals] in Hs1.
    unfold region_of in Hs1. rewrite Hret in Hs1. cbn in Hs1. simplify_eq.
    assert (Hdevs : m_devMem <$> <[i:=set_freeIntervals pa free']> (m_pageAllocations (pool st))
                    = m_devMem <$> m_pageAllocations (pool st)).
    { rewrite list_fmap_insert. cbn. apply list_insert_id.
      by rewrite list_lookup_fmap, Hi. }
    constructor; cbn [pool allocations m_pageAllocations].
    + by rewrite Hdevs.
    + rewrite Hdevs. intros b Hb. apply Hown. by eapply remove_allocation_subset.
    + intros b Hb. apply Hrng. by eapply remove_allocation_subset.
    + intros j pb Hj. destruct (decide (j = i)) as [->|Hji].
      * rewrite list_lookup_insert_eq in Hj by (by eapply lookup_lt_Some).
        simplify_eq. rewrite live_on_set_freeIntervals.
        eapply page_inv_Permutation; [|exact Hinv1].
        symmetry. by apply live_on_remove_same.
      * rewrite list_lookup_insert_ne in Hj by done.
        rewrite live_on_remove_other; [by eapply Hpages|].
        intros Heq. apply Hji.
        eapply (NoDup_fmap_lookup m_devMem _ j i pb pa); try done. congruence.
Qed.

Lemma pool_run_inv (ops : list pool_op) (st st' : PoolState) :
  pool_inv st → valid_pool_run ops st → pool_run ops st = Done st' → pool_inv st'.
Proof.
  revert st. induction ops as [|o ops IH]; intros st Hinv Hvalid Hrun; cbn in *.
  - by simplify_eq.
  - destruct Hvalid as [Ho Hrest].
    apply exec_bind_done in Hrun as (st1 & Hstep & Hrun). rewrite Hstep in Hrest.
    eapply IH; [|done..]. by eapply pool_step_inv.
Qed.

Lemma pool_inv_empty (minPageAllocationSize : Z) :
  pool_inv (mkPoolState (mkPool minPageAllocationSize []) []).
Proof.
  constructor; cbn.
  - constructor.
  - by intros a ?%elem_of_nil.
  - by intros a ?%elem_of_nil.
  - by intros k pa ?.
Qed.

Lemma lookup_two_Permutation {A} (l : list A) i j a b :
  i ≠ j → l !! i = Some a → l !! j = Some b → ∃ rest, l ≡ₚ a :: b :: rest.
Proof.
  revert i j. induction l as [|y l IH]; intros i j Hij Ha Hb; [done|].
  destruct i as [|i], j as [|j]; cbn in Ha, Hb; simplify_eq.
  - exists (delete j l). f_equiv. by apply delete_Permutation.
  - exists (delete i l). etrans; [|apply Permutation_swap].
    f_equiv. by apply delete_Permutation.
  - destruct (IH i j ltac:(congruence) Ha Hb) as (rest & Hr).
    exists (y :: rest). etrans; [apply Permutation_skip, Hr|].
    etrans; [apply Permutation_swap|]. f_equiv. apply Permutation_swap.
Qed.

(** X4. Along every run of valid calls on a pool that returns, two live
    allocations on the same device memory never share a byte, and every
    live allocation lies inside the page that carries its handle. *)
Theorem live_allocations_never_overlap (ops : list pool_op) (st st' : PoolState) :
  pool_inv st → valid_pool_run ops st → pool_run ops st = Done st' →
  (∀ i j a b, i ≠ j →
     allocations st' !! i = Some a → allocations st' !! j = Some b →
     a_devMem a = a_devMem b →
     m_devMemOffset a + a_size a <= m_devMemOffset b
     ∨ m_devMemOffset b + a_size b <= m_devMemOffset a)
  ∧ (∀ a, a ∈ allocations st' →
       ∃ pa, pa ∈ m_pageAllocations (pool st') ∧ m_devMem pa = a_devMem a
             ∧ 0 <= m_devMemOffset a ∧ 0 < a_size a
             ∧ m_devMemOffset a + a_size a <= m_size pa).
Proof.
  intros Hinv Hvalid Hrun.
  destruct (pool_run_inv ops st st' Hinv Hvalid Hrun) as [Hnd Hown Hrng Hpages].
  assert (Hpage : ∀ a, a ∈ allocations st' →
            ∃ k pa, m_pageAllocations (pool st') !! k = Some pa ∧ m_devMem pa = a_devMem a
                    ∧ region_of a ∈ live_on pa (allocations st')).
  { intros a Ha. specialize (Hown a Ha).
    apply list_elem_of_fmap in Hown as (pa & Hdev & Hpa).
    apply list_elem_of_lookup in Hpa as [k Hk]. exists k, pa. repeat split; try done.
    unfold live_on. apply list_elem_of_fmap. exists a. split; [done|].
    by apply list_elem_of_filter. }
  assert (Hreg : ∀ a, a ∈ allocations st' →
            region_of a = mkInterval (m_devMemOffset a) (m_devMemOffset a + a_size a)
            ∧ ∃ pa, pa ∈ m_pageAllocations (pool st') ∧ m_devMem pa = a_devMem a
                    ∧ 0 <= m_devMemOffset a ∧ 0 < a_size a
                    ∧ m_devMemOffset a + a_size a <= m_size pa).
  { intros a Ha. destruct (Hpage a Ha) as (k & pa & Hk & Hdev & Hlive).
    destruct (Hrng a Ha) as [Hs Hsum].
    destruct (Hpages k pa Hk) as [_ Hl _]. cbn in Hl. rewrite Forall_forall in Hl.
    specialize (Hl _ Hlive). unfold region_of in Hl |- *. cbn in Hl.
    assert (0 <= m_devMemOffset a) by lia.
    rewrite wrap64_small in Hl |- * by lia. split; [done|].
    exists pa. split; [by eapply list_elem_of_lookup_2|]. split; [done|]. lia. }
  split; [|intros a Ha; by apply Hreg].
  intros i j a b Hij Ha Hb Hdev.
  pose proof (list_elem_of_lookup_2 _ _ _ Ha) as Hain.
  pose proof (list_elem_of_lookup_2 _ _ _ Hb) as Hbin.
  destruct (Hreg a Hain) as (Hra & _ & _ & _ & Ha0 & Ha1 & _).
  destruct (Hreg b Hbin) as (Hrb & _ & _ & _ & Hb0 & Hb1 & _).
  destruct (Hpage a Hain) as (k & pa & Hk & Hpadev & _).
  destruct (Hpages k pa Hk) as [Hfree _ Htile]. cbn in Hfree, Htile.
  destruct (Hreg a Hain) as (_ & pa' & Hpa' & Hpa'dev & _ & _ & Hle).
  assert (pa' = pa) as ->.
  { apply list_elem_of_lookup in Hpa' as [k' Hk'].
    assert (k' = k) as ->
      by (eapply (NoDup_fmap_lookup m_devMem _ k' k pa' pa); try done; congruence).
    congruence. }
  destruct (decide (m_devMemOffset a + a_size a <= m_devMemOffset b)) as [|H1]; [by left|].
  destruct (decide (m_devMemOffset b + a_size b <= m_devMemOffset a)) as [|H2]; [by right|].
  exfalso.
  destruct (lookup_two_Permutation _ i j a b Hij Ha Hb) as (rest & Hperm).
  set (x := Z.max (m_devMemOffset a) (m_devMemOffset b)).
  specialize (Htile x ltac:(lia)). rewrite cover_app in Htile.
  assert (Hc : (2 ≤ cover (live_on pa (allocations st')) x)%nat).
  { unfold live_on.
    rewrite (cover_Permutation _ (region_of <$> filter (λ c, a_devMem c = m_devMem pa)
                                                       (a :: b :: rest)) x).
    2: { f_equiv. f_equiv. done. }
    rewrite filter_cons_True by done. rewrite filter_cons_True by congruence.
    rewrite !fmap_cons, !cover_cons, Hra, Hrb.
    rewrite !decide_True by (unfold inside; cbn; lia). lia. }
  lia.
Qed.

Lemma live_allocations_never_overlap_witness :
  pool_run [Alloc 16 8 (Some 1%nat); Alloc 8 8 (Some 2%nat)]
           (mkPoolState (mkPool 64 []) [])
  = Done (mkPoolState (mkPool 64 [mkPage 1%nat 64 [mkInterval 24 64]])
                      [mkAllocation 1%nat 16 8; mkAllocation 1%nat 0 16])
  ∧ (0 + 16 <= 16 ∨ 16 + 8 <= 0).
Proof.
  assert (Hrun : pool_run [Alloc 16 8 (Some 1%nat); Alloc 8 8 (Some 2%nat)]
                          (mkPoolState (mkPool 64 []) [])
                 = Done (mkPoolState (mkPool 64 [mkPage 1%nat 64 [mkInterval 24 64]])
                                     [mkAllocation 1%nat 16 8; mkAllocation 1%nat 0 16]))
    by reflexivity.
  split; [exact Hrun|].
  assert (Hvalid : valid_pool_run [Alloc 16 8 (Some 1%nat); Alloc 8 8 (Some 2%nat)]
                                  (mkPoolState (mkPool 64 []) [])).
  { cbn -[Z.pow]. repeat apply conj; try lia; try done.
    - intros devMem _. apply not_elem_of_nil.
    - repeat constructor; cbn; lia.
    - intros devMem [= <-]. intros [?|[]%elem_of_nil]%elem_of_cons. done. }
  destruct (live_allocations_never_overlap _ _ _ (pool_inv_empty 64) Hvalid Hrun)
    as [Hdis _].
  exact (Hdis 1%nat 0%nat (mkAllocation 1%nat 0 16) (mkAllocation 1%nat 16 8)
              ltac:(done) eq_refl eq_refl eq_refl).
Defined.

(** The handle and the size of a page. *)
Definition page_id (pa : PageAllocation) : DeviceMemory * Z := (m_devMem pa, m_size pa).

Lemma page_id_insert (pages : list PageAllocation) k pa free' :
  pages !! k = Some pa →
  page_id <$> <[k := set_freeIntervals pa free']> pages = page_id <$> pages.
Proof.
  intros Hk. rewrite list_fmap_insert. apply list_insert_id.
  by rewrite list_lookup_fmap, Hk.
Qed.

Definition is_alloc (o : pool_op) : bool :=
  match o with Alloc _ _ _ => true | Free _ => false end.

Lemma pool_step_pages (o : pool_op) (st st' : PoolState) :
  pool_step o st = Done st' →
  m_minPageAllocationSize (pool st') = m_minPageAllocationSize (pool st)
  ∧ (page_id <$> m_pageAllocations (pool st') = page_id <$> m_pageAllocations (pool st)
     ∨ ∃ size alignment devMem,
         o = Alloc size alignment (Some devMem)
         ∧ page_id <$> m_pageAllocations (pool st')
           = (page_id <$> m_pageAllocations (pool st))
             ++ [(devMem, Z.max size (m_minPageAllocationSize (pool st)))]).
Proof.
  intros Hstep. destruct o as [size alignment driver|a]; cbn [pool_step] in Hstep.
  - apply exec_bind_done in Hstep as ([a pool'] & Halloc & Hstep). cbn in Hstep.
    simplify_eq. cbn [pool]. unfold alloc in Halloc.
    apply exec_bind_done in Halloc as ([r pages'] & Hscan & Halloc). cbn [fst snd] in Halloc.
    pose proof (alloc_scan_cases _ _ _ _ _ Hscan) as Hcases.
    destruct r as [a0|].
    + simplify_eq. destruct Hcases as (k & pa & c & free' & Hk & _ & -> & _).
      split; [done|]. left. by apply page_id_insert.
    + subst pages'. destruct driver as [devMem|]; [|done].
      apply exec_bind_done in Halloc as ([c free'] & Hreq & Halloc). cbn [fst snd] in Halloc.
      destruct c as [c|]; [|done]. simplify_eq. split; [done|]. right.
      exists size, alignment, devMem. split; [done|]. cbn. by rewrite fmap_app.
  - unfold free in Hstep.
    apply exec_bind_done in Hstep as (pool' & Hfree & Hstep). simplify_eq. cbn [pool].
    destruct (find_page (a_devMem a) (m_pageAllocations (pool st))) as [i|] eqn:Efind;
      [|done].
    destruct (find_page_Some _ _ _ Efind) as (pa & Hi & Hdev).
    unfold deref in Hfree. rewrite Hi in Hfree. cbn in Hfree.
    apply exec_bind_done in Hfree as (free' & Hret & Hfree). simplify_eq.
    split; [done|]. left. by apply page_id_insert.
Qed.

(** X5. A pool never gives a page back and never resizes one: whatever
    is allocated and freed, the pages it had stay, in order, with their
    handles and sizes; a call adds at most one page, at the end, and only
    [alloc] does. *)
Theorem pool_pages_only_grow (ops : list pool_op) (st st' : PoolState) :
  pool_run ops st = Done st' →
  page_id <$> m_pageAllocations (pool st) `prefix_of` page_id <$> m_pageAllocations (pool st')
  ∧ (length (m_pageAllocations (pool st'))
     ≤ length (m_pageAllocations (pool st)) + length (filter is_alloc ops))%nat
  ∧ m_minPageAllocationSize (pool st') = m_minPageAllocationSize (pool st).
Proof.
  revert st. induction ops as [|o ops IH]; intros st Hrun; cbn [pool_run] in Hrun.
  - simplify_eq. cbn. split; [done|]. split; [lia|done].
  - apply exec_bind_done in Hrun as (st1 & Hstep & Hrun).
    destruct (IH _ Hrun) as (Hpre & Hlen & Hmin).
    destruct (pool_step_pages _ _ _ Hstep) as [Hmin1 Hpages].
    split; [|split; [|congruence]].
    + etrans; [|exact Hpre].
      destruct Hpages as [->|(? & ? & ? & _ & ->)]; [done|]. by apply prefix_app_r.
    + assert (Hl1 : (length (m_pageAllocations (pool st1))
                     ≤ length (m_pageAllocations (pool st))
                       + (if is_alloc o then 1 else 0))%nat).
      { destruct Hpages as [He|(sz & al & d & Ho & He)];
          apply (f_equal length) in He; rewrite ?length_app, !length_fmap in He.
        - destruct (is_alloc o); lia.
        - subst o. cbn in *. lia. }
      rewrite filter_cons. case_decide as Hd; destruct (is_alloc o); cbn in Hd |- *;
        try done; lia.
Qed.

Lemma pool_pages_only_grow_witness :
  [(1%nat, 64)] `prefix_of` [(1%nat, 64); (2%nat, 100)].
Proof.
  assert (Hrun : pool_run [Alloc 100 1 (Some 2%nat); Free (mkAllocation 2%nat 0 100);
                           Free (mkAllocation 1%nat 0 16)]
                   (mkPoolState (mkPool 64 [mkPage 1%nat 64 [mkInterval 16 64]])
                                [mkAllocation 1%nat 0 16])
                 = Done (mkPoolState (mkPool 64 [mkPage 1%nat 64 [mkInterval 0 64];
                                                  mkPage 2%nat 100 [mkInterval 0 100]]) []))
    by reflexivity.
  exact (proj1 (pool_pages_only_grow _ _ _ Hrun)).
Defined.
End PoolRunsFacts.

Module AllocationOwnershipFacts.
Import MemoryPool AllocationOwnership.
Local Open Scope Z_scope.

(** The allocations owned by the objects of a map, in the map's order. *)
Definition held_of (m : gmap nat Object) : list (nat * Allocation) :=
  omap (λ e, owned e.2) (map_to_list m).

Definition held (st : State) : list (nat * Allocation) := held_of (objects st).

Definition own (o : Object) : list (nat * Allocation) :=
  match owned o with Some a => [a] | None => [] end.

Lemma held_insert_new this o (m : gmap nat Object) :
  m !! this = None → held_of (<[this := o]> m) ≡ₚ own o ++ held_of m.
Proof.
  intros Hn. unfold held_of, own. rewrite (map_to_list_insert _ _ _ Hn). cbn.
  by destruct (owned o).
Qed.

Lemma held_delete this o (m : gmap nat Object) :
  m !! this = Some o → held_of m ≡ₚ own o ++ held_of (delete this m).
Proof.
  intros Hs. unfold held_of, own. rewrite <- (map_to_list_delete _ _ _ Hs). cbn.
  by destruct (owned o).
Qed.

Lemma held_overwrite this o o' (m : gmap nat Object) :
  m !! this = Some o → own o' ++ held_of m ≡ₚ own o ++ held_of (<[this := o']> m).
Proof.
  intros Hs. rewrite (held_delete this o m Hs).
  rewrite <- (insert_delete_eq m this o').
  rewrite (held_insert_new this o' (delete this m)) by apply lookup_delete_eq.
  rewrite !app_assoc. apply Permutation_app_tail, Permutation_app_comm.
Qed.

Lemma free_conserves this st st1 :
  free this st = Some st1 →
  (∃ o1, objects st1 !! this = Some o1 ∧ own o1 = [])
  ∧ held st1 ++ freed st1 ≡ₚ held st ++ freed st
  ∧ (∀ other, other ≠ this → objects st1 !! other = objects st !! other).
Proof.
  unfold free. destruct (objects st !! this) as [o|] eqn:Ho; [|done]. cbn.
  destruct (m_memPool o) as [memPool|] eqn:Hp; intros [= <-].
  - split; [|split].
    + exists cleared. cbn. by rewrite lookup_insert_eq.
    + unfold held. cbn [objects freed].
      pose proof (held_overwrite this o cleared (objects st) Ho) as H.
      unfold own at 1 2 in H. unfold owned in H. rewrite Hp in H. cbn in H.
      rewrite H. cbn [app]. rewrite app_assoc. symmetry. apply Permutation_cons_append.
    + intros other Hne. cbn. by rewrite lookup_insert_ne.
  - split; [|done]. exists o. split; [done|]. unfold own, owned. by rewrite Hp.
Qed.

Lemma move_conserves this other o o1 (m : gmap nat Object) :
  this ≠ other → m !! other = Some o →
  (m !! this = None ∨ m !! this = Some o1 ∧ own o1 = []) →
  held_of (<[other := cleared]> (<[this := o]> m)) ≡ₚ held_of m.
Proof.
  intros Hne Ho Hthis.
  assert (H1 : held_of (<[this := o]> m) ≡ₚ own o ++ held_of m).
  { destruct Hthis as [Hn|[Hs Hown]].
    - by apply held_insert_new.
    - pose proof (held_overwrite this o1 o m Hs) as H. rewrite Hown in H. cbn in H.
      by symmetry. }
  assert (H2 : held_of (<[this := o]> m)
               ≡ₚ own o ++ held_of (<[other := cleared]> (<[this := o]> m))).
  { pose proof (held_overwrite other o cleared (<[this := o]> m)) as H.
    rewrite lookup_insert_ne in H by done. specialize (H Ho). exact H. }
  rewrite H1 in H2. by apply Permutation_app_inv_l in H2.
Qed.

Lemma step_conserves o st st' :
  step o st = Some st' →
  held st' ++ freed st' ≡ₚ held st ++ freed st ++ returned [o].
Proof.
  destruct o as [this|this memPool region|this other|this other|this|this]; cbn [step returned omap].
  - destruct (objects st !! this) eqn:E; [done|]. intros [= <-]. unfold held. cbn.
    rewrite (held_insert_new _ _ _ E). cbn. by rewrite app_nil_r.
  - destruct (objects st !! this) eqn:E; [done|]. intros [= <-]. unfold held. cbn.
    rewrite (held_insert_new _ _ _ E). cbn.
    rewrite (Permutation_app_comm (freed st)). cbn.
    by rewrite Permutation_middle.
  - destruct (objects st !! this) eqn:E; [done|].
    destruct (objects st !! other) as [o|] eqn:Eo; [|done]. cbn. intros [= <-].
    unfold held. cbn. rewrite app_nil_r. apply Permutation_app_tail.
    apply (move_conserves this other o cleared); [by intros ->; simplify_eq|done|by left].
  - case_bool_decide as Hsame.
    + destruct (objects st !! this); [|done]. cbn. intros [= <-]. by rewrite app_nil_r.
    + destruct (free this st) as [st1|] eqn:Ef; [|done]. cbn.
      destruct (objects st1 !! other) as [o|] eqn:Eo; [|done]. cbn. intros [= <-].
      destruct (free_conserves _ _ _ Ef) as ((o1 & Ho1 & Hown) & Hcons & _).
      rewrite app_nil_r, <- Hcons. unfold held. cbn. apply Permutation_app_tail.
      apply (move_conserves this other o o1); [done|done|by right].
  - intros Hf. rewrite app_nil_r. by destruct (free_conserves _ _ _ Hf) as (_ & H & _).
  - destruct (free this st) as [st1|] eqn:Ef; [|done]. cbn. intros [= <-].
    destruct (free_conserves _ _ _ Ef) as ((o1 & Ho1 & Hown) & Hcons & _).
    rewrite app_nil_r, <- Hcons. unfold held. cbn. apply Permutation_app_tail.
    rewrite (held_delete this o1 (objects st1) Ho1), Hown. done.
Qed.

Lemma returned_app ops1 ops2 : returned (ops1 ++ ops2) = returned ops1 ++ returned ops2.
Proof. unfold returned. apply omap_app. Qed.

Lemma run_conserves ops st st' :
  run ops st = Some st' →
  held st' ++ freed st' ≡ₚ held st ++ freed st ++ returned ops.
Proof.
  revert st. induction ops as [|o ops IH]; intros st Hrun.
  - cbn in Hrun. simplify_eq. cbn. by rewrite app_nil_r.
  - cbn [run] in Hrun. destruct (step o st) as [st1|] eqn:Es; [|done]. cbn in Hrun.
    rewrite (IH _ Hrun), app_assoc, (step_conserves _ _ _ Es).
    change (o :: ops) with ([o] ++ ops). rewrite returned_app. by rewrite <- !app_assoc.
Qed.

Lemma held_lookup (m : gmap nat Object) this o a :
  m !! this = Some o → owned o = Some a → a ∈ held_of m.
Proof.
  intros Hl Ho. unfold held_of. apply list_elem_of_omap. exists (this, o).
  split; [by apply elem_of_map_to_list|done].
Qed.

(** X6. However allocation objects are constructed, moved, assigned, freed
    and destroyed, every allocation that [alloc] returned is owned by one
    object or has been handed to [VulkanMemoryPool::free], once in all,
    and nothing else is handed to it: the allocations owned and those freed
    make up those returned. So an allocation an object owns has not been
    freed, and when no object is left each returned allocation has been
    freed exactly once. *)
Theorem allocation_freed_exactly_once (ops : list op) (st' : State) :
  run ops (mkState ∅ []) = Some st' →
  held st' ++ freed st' ≡ₚ returned ops
  ∧ (objects st' = ∅ → freed st' ≡ₚ returned ops)
  ∧ (NoDup (returned ops) →
     NoDup (freed st')
     ∧ ∀ this o a, objects st' !! this = Some o → owned o = Some a → a ∉ freed st').
Proof.
  intros Hrun. pose proof (run_conserves _ _ _ Hrun) as Hc.
  unfold held at 2 in Hc. cbn in Hc. unfold held_of in Hc. rewrite map_to_list_empty in Hc.
  cbn in Hc. split; [done|]. split.
  - intros He. unfold held, held_of in Hc. rewrite He, map_to_list_empty in Hc. done.
  - intros Hnd. rewrite <- Hc in Hnd. apply NoDup_app in Hnd as (_ & Hdisj & Hfreed).
    split; [done|]. intros this o a Hl Ho. apply Hdisj. by eapply held_lookup.
Qed.

Lemma allocation_freed_exactly_once_witness :
  ∃ st', run [Return 1%nat 9%nat (mkAllocation 4%nat 0 16); Construct 2%nat;
              MoveAssign 2%nat 1%nat; MoveAssign 2%nat 2%nat; Destroy 1%nat;
              MoveConstruct 3%nat 2%nat; Destroy 2%nat; Free 3%nat; Destroy 3%nat]
             (mkState ∅ []) = Some st'
         ∧ freed st' ≡ₚ [(9%nat, mkAllocation 4%nat 0 16)].
Proof.
  destruct (run [Return 1%nat 9%nat (mkAllocation 4%nat 0 16); Construct 2%nat;
                 MoveAssign 2%nat 1%nat; MoveAssign 2%nat 2%nat; Destroy 1%nat;
                 MoveConstruct 3%nat 2%nat; Destroy 2%nat; Free 3%nat; Destroy 3%nat]
                (mkState ∅ [])) as [st'|] eqn:E; [|vm_compute in E; discriminate].
  exists st'. split; [reflexivity|].
  apply (proj1 (proj2 (allocation_freed_exactly_once _ _ E))).
  vm_compute in E. by injection E as <-.
Defined.
End AllocationOwnershipFacts.

Module DeviceSetupFacts.
Import DeviceSetup.
Local Open Scope Z_scope.

Lemma desiredFlagsOnAllDevices_spec devices dev i flags :
  desiredFlagsOnAllDevices devices dev i flags
  = bool_decide (devices = []) || has_flags dev i flags.
Proof.
  unfold desiredFlagsOnAllDevices.
  assert (H : ∀ b, foldl (λ desired (_ : QueueFamilyProperties),
                            desired && has_flags dev i flags) b devices
                   = b && (bool_decide (devices = []) || has_flags dev i flags)).
  { induction devices as [|d ds IH]; intros b; cbn; [by rewrite andb_true_r|].
    rewrite IH. destruct b, (has_flags dev i flags), (bool_decide (ds = [])); done. }
  by rewrite H.
Qed.

Lemma inner_loop_spec devices dev flags (exclude : gset nat) (idxs : list nat)
    (c : gset nat) (j : nat) :
  j ∈ (foldl (λ (candidates : gset nat) i,
               if decide (i ∈ exclude) then candidates
               else if desiredFlagsOnAllDevices devices dev i flags
               then {[i]} ∪ candidates
               else candidates) c idxs)
  ↔ j ∈ c ∨ (j ∈ idxs ∧ (j ∉ exclude) ∧ desiredFlagsOnAllDevices devices dev j flags = true).
Proof.
  revert c. induction idxs as [|i idxs IH]; intros c; cbn [foldl].
  - rewrite elem_of_nil. tauto.
  - rewrite IH, elem_of_cons. case_decide as He.
    + split; [|intros [?|[[->|?] ?]]; tauto]. tauto.
    + destruct (desiredFlagsOnAllDevices devices dev i flags) eqn:Ed.
      * rewrite elem_of_union, elem_of_singleton.
        split; [intros [[->|?]|?]; tauto|]. intros [?|[[->|?] ?]]; tauto.
      * split; [tauto|]. intros [?|[[->|?] (? & ?)]]; [tauto| |tauto]. congruence.
Qed.

(** The set [candidates]: the family indices outside the excluded ones
    for which some device of the group has the flags. *)
Lemma candidates_of_spec devices flags (exclude : gset nat) (j : nat) :
  j ∈ candidates_of devices flags exclude
  ↔ (j ∉ exclude) ∧ ∃ dev, dev ∈ devices ∧ has_flags dev j flags = true.
Proof.
  unfold candidates_of.
  assert (H : ∀ (ds : list QueueFamilyProperties) (c : gset nat),
            j ∈ (foldl (λ (candidates : gset nat) (physicalDevice : QueueFamilyProperties),
                         foldl (λ (candidates : gset nat) i,
                                  if decide (i ∈ exclude) then candidates
                                  else if desiredFlagsOnAllDevices devices physicalDevice i flags
                                  then {[i]} ∪ candidates
                                  else candidates)
                               candidates (seq 0 (length physicalDevice))) c ds)
            ↔ j ∈ c ∨ ((j ∉ exclude) ∧ ∃ dev, dev ∈ ds ∧ (j < length dev)%nat
                        ∧ desiredFlagsOnAllDevices devices dev j flags = true)).
  { induction ds as [|d ds IH]; intros c; cbn [foldl].
    - split; [tauto|]. intros [?|(_ & dev & []%elem_of_nil & _)]. done.
    - rewrite IH, inner_loop_spec. rewrite elem_of_seq. split.
      + intros [[?|(? & ? & ?)]|(? & dev & ? & ? & ?)]; [tauto| |].
        * right. split; [done|]. exists d. split; [by left|]. split; [lia|done].
        * right. split; [done|]. exists dev. split; [by right|done].
      + intros [?|(? & dev & [->|?]%elem_of_cons & ? & ?)]; [tauto| |].
        * left. right. split; [lia|done].
        * right. split; [done|]. by exists dev. }
  rewrite H. rewrite elem_of_empty. split.
  - intros [[]|(He & dev & Hdev & Hlt & Hd)]. split; [done|]. exists dev. split; [done|].
    rewrite desiredFlagsOnAllDevices_spec in Hd.
    rewrite bool_decide_eq_false_2 in Hd; [done|]. intros ->. by apply elem_of_nil in Hdev.
  - intros (He & dev & Hdev & Hf). right. split; [done|]. exists dev. split; [done|].
    split.
    + unfold has_flags in Hf. destruct (dev !! j) eqn:E; [|done]. by eapply lookup_lt_Some.
    + rewrite desiredFlagsOnAllDevices_spec, Hf. by rewrite orb_true_r.
Qed.

(** X7. [getQueueFamilyIndex] answers a family index outside the excluded
    ones for which at least one device of the group has one of the flags
    (the other devices are not consulted), and it answers nothing, with
    the error logged, exactly when no such index exists. *)
Theorem getQueueFamilyIndex_spec (begin : gset nat → nat)
    (devices : list QueueFamilyProperties) (flags : Z) (exclude : gset nat) :
  (∀ s : gset nat, s ≠ ∅ → begin s ∈ s) →
  match getQueueFamilyIndex begin devices flags exclude with
  | (Some i, logged) =>
    (i ∉ exclude) ∧ (∃ dev, dev ∈ devices ∧ has_flags dev i flags = true) ∧ logged = []
  | (None, logged) =>
    (∀ i dev, dev ∈ devices → has_flags dev i flags = true → i ∈ exclude)
    ∧ logged = ["No common queue family index found."]
  end.
Proof.
  intros Hbegin. unfold getQueueFamilyIndex. case_decide as Hc.
  - split; [|done]. intros i dev Hdev Hf.
    destruct (decide (i ∈ exclude)) as [|Hn]; [done|]. exfalso.
    assert (Hi : i ∈ candidates_of devices flags exclude).
    { apply candidates_of_spec. split; [done|]. by exists dev. }
    rewrite Hc in Hi. by apply elem_of_empty in Hi.
  - specialize (Hbegin _ Hc). apply candidates_of_spec in Hbegin as [? ?]. done.
Qed.

(** The choice of the first element used in the examples. *)
Definition first_listed (s : gset nat) : nat := default O (head (elements s)).

Lemma first_listed_elem (s : gset nat) : s ≠ ∅ → first_listed s ∈ s.
Proof.
  intros Hs. unfold first_listed. destruct (elements s) as [|x l] eqn:E.
  - by apply elements_empty_inv, leibniz_equiv in E.
  - cbn. apply elem_of_elements. rewrite E. by left.
Qed.

Lemma getQueueFamilyIndex_spec_witness :
  getQueueFamilyIndex first_listed [[1]; [1; 4]] QueueFlagBits_eTransfer {[0%nat]}
  = (Some 1%nat, []).
Proof.
  pose proof (getQueueFamilyIndex_spec first_listed [[1]; [1; 4]] QueueFlagBits_eTransfer
                {[0%nat]} first_listed_elem) as H.
  destruct (getQueueFamilyIndex first_listed [[1]; [1; 4]] QueueFlagBits_eTransfer {[0%nat]})
    as [[i|] logged] eqn:E.
  - destruct H as (Hex & (dev & Hdev & Hf) & ->). f_equal. f_equal.
    unfold has_flags in Hf.
    repeat (apply elem_of_cons in Hdev as [->|Hdev]);
      [| |by apply elem_of_nil in Hdev];
      destruct i as [|[|i]]; cbn in Hf; try done; set_solver.
  - destruct H as [H _]. specialize (H 1%nat [1; 4] ltac:(set_solver) eq_refl). set_solver.
Defined.

(** X8. When [start] gets its three queue families they are pairwise
    distinct, the first has the graphics flag and the other two the
    transfer flag on some device of the group; on a group whose devices
    have fewer than three queue families [start] fails. *)
Theorem selectQueueFamilies_distinct (begin : gset nat → nat)
    (devices : list QueueFamilyProperties) :
  (∀ s : gset nat, s ≠ ∅ → begin s ∈ s) →
  match (selectQueueFamilies begin devices).1 with
  | Some (graphics, transfer, framebufferTransfer) =>
    graphics ≠ transfer ∧ graphics ≠ framebufferTransfer ∧ transfer ≠ framebufferTransfer
    ∧ (∃ dev, dev ∈ devices ∧ has_flags dev graphics QueueFlagBits_eGraphics = true)
    ∧ (∃ dev, dev ∈ devices ∧ has_flags dev transfer QueueFlagBits_eTransfer = true)
    ∧ (∃ dev, dev ∈ devices
              ∧ has_flags dev framebufferTransfer QueueFlagBits_eTransfer = true)
  | None => True
  end
  ∧ (Forall (λ dev, (length dev < 3)%nat) devices →
     (selectQueueFamilies begin devices).1 = None).
Proof.
  intros Hbegin.
  assert (Hsel : match (selectQueueFamilies begin devices).1 with
    | Some (graphics, transfer, framebufferTransfer) =>
      graphics ≠ transfer ∧ graphics ≠ framebufferTransfer ∧ transfer ≠ framebufferTransfer
      ∧ (∃ dev, dev ∈ devices ∧ has_flags dev graphics QueueFlagBits_eGraphics = true)
      ∧ (∃ dev, dev ∈ devices ∧ has_flags dev transfer QueueFlagBits_eTransfer = true)
      ∧ (∃ dev, dev ∈ devices
                ∧ has_flags dev framebufferTransfer QueueFlagBits_eTransfer = true)
    | None => True
    end).
  { unfold selectQueueFamilies.
    pose proof (getQueueFamilyIndex_spec begin devices QueueFlagBits_eGraphics ∅ Hbegin) as Hg.
    destruct (getQueueFamilyIndex begin devices QueueFlagBits_eGraphics ∅)
      as [[g|] lg]; cbn [fst snd]; [|done].
    pose proof (getQueueFamilyIndex_spec begin devices QueueFlagBits_eTransfer {[g]} Hbegin)
      as Ht.
    destruct (getQueueFamilyIndex begin devices QueueFlagBits_eTransfer {[g]})
      as [[t|] lt]; cbn [fst snd]; [|done].
    pose proof (getQueueFamilyIndex_spec begin devices QueueFlagBits_eTransfer {[g; t]} Hbegin)
      as Hf.
    destruct (getQueueFamilyIndex begin devices QueueFlagBits_eTransfer {[g; t]})
      as [[f|] lf]; cbn [fst snd]; [|done].
    destruct Hg as (_ & Hg & _), Ht as (Ht1 & Ht & _), Hf as (Hf1 & Hf & _).
    repeat split; try done; set_solver. }
  split; [exact Hsel|].
  intros Hsmall. destruct (selectQueueFamilies begin devices).1 as [[[g t] f]|]; [|done].
  exfalso. destruct Hsel as (Hgt & Hgf & Htf & (dg & Hdg & Hg) & (dt & Hdt & Ht) & (df & Hdf & Hf)).
  rewrite Forall_forall in Hsmall.
  assert (Hlt : ∀ dev i fl, dev ∈ devices → has_flags dev i fl = true → (i < 2)%nat).
  { intros dev i fl Hdev Hfl. specialize (Hsmall dev Hdev).
    unfold has_flags in Hfl. destruct (dev !! i) eqn:E; [|done].
    apply lookup_lt_Some in E. lia. }
  pose proof (Hlt _ _ _ Hdg Hg). pose proof (Hlt _ _ _ Hdt Ht). pose proof (Hlt _ _ _ Hdf Hf).
  lia.
Qed.

Lemma selectQueueFamilies_distinct_witness :
  (selectQueueFamilies first_listed [[1; 4; 4]]).1 = Some (0%nat, 2%nat, 1%nat)
  ∧ (selectQueueFamilies first_listed [[1; 4]]).1 = None.
Proof.
  split; [vm_compute; reflexivity|].
  apply (selectQueueFamilies_distinct first_listed [[1; 4]] first_listed_elem).
  repeat constructor.
Defined.
End DeviceSetupFacts.

Module MemoryTypeFacts.
Import DeviceSetup.
Local Open Scope Z_scope.

Lemma memoryTypeLoop_spec (i : nat) memoryTypes bits flags :
  match memoryTypeLoop i memoryTypes bits flags with
  | Some r =>
    (i ≤ r)%nat
    ∧ (∃ propertyFlags, memoryTypes !! (r - i)%nat = Some propertyFlags
                        ∧ suitable bits flags r propertyFlags = true)
    ∧ ∀ j propertyFlags, (j < r - i)%nat → memoryTypes !! j = Some propertyFlags →
                         suitable bits flags (i + j) propertyFlags = false
  | None =>
    ∀ j propertyFlags, memoryTypes !! j = Some propertyFlags →
                       suitable bits flags (i + j) propertyFlags = false
  end.
Proof.
  revert i. induction memoryTypes as [|p rest IH]; intros i; cbn [memoryTypeLoop].
  - by intros j pf ?.
  - destruct (suitable bits flags i p) eqn:E.
    + split; [lia|]. split.
      * exists p. by rewrite Nat.sub_diag.
      * intros j pf Hj. lia.
    + specialize (IH (S i)).
      destruct (memoryTypeLoop (S i) rest bits flags) as [r|].
      * destruct IH as (Hle & (pf & Hpf & Hs) & Hbefore).
        split; [lia|]. split.
        -- exists pf. split; [|done].
           replace (r - i)%nat with (S (r - S i)) by lia. done.
        -- intros j pf' Hj Hl. destruct j as [|j]; cbn in Hl.
           ++ simplify_eq. by rewrite Nat.add_0_r.
           ++ replace (i + S j)%nat with (S i + j)%nat by lia.
              eapply Hbefore; [lia|done].
      * intros j pf Hl. destruct j as [|j]; cbn in Hl.
        -- simplify_eq. by rewrite Nat.add_0_r.
        -- replace (i + S j)%nat with (S i + j)%nat by lia. by eapply IH.
Qed.

(** X9. [getMemoryTypeIndex] answers the least index of a memory type
    allowed by [memoryTypeBits] and carrying all the wanted property flags,
    and [0xFFFFFFFF], with an error logged, exactly when there is none. *)
Theorem getMemoryTypeIndex_least_suitable
    (memoryTypes : MemoryTypes) (memoryTypeBits memPropFlags : Z) :
  (length memoryTypes ≤ 32)%nat →
  let r := getMemoryTypeIndex memoryTypes memoryTypeBits memPropFlags in
  (r.1 ≠ 2 ^ 32 - 1 →
     ∃ (i : nat) propertyFlags,
       r.1 = Z.of_nat i ∧ memoryTypes !! i = Some propertyFlags
       ∧ Z.testbit memoryTypeBits r.1 = true
       ∧ Z.land propertyFlags memPropFlags = memPropFlags
       ∧ (∀ j pf, (j < i)%nat → memoryTypes !! j = Some pf →
                  suitable memoryTypeBits memPropFlags j pf = false)
       ∧ r.2 = [])
  ∧ (r.1 = 2 ^ 32 - 1 →
     (∀ j pf, memoryTypes !! j = Some pf →
              suitable memoryTypeBits memPropFlags j pf = false)
     ∧ r.2 = ["Failed to allocate device memory."]).
Proof.
  intros Hlen r. subst r. unfold getMemoryTypeIndex.
  pose proof (memoryTypeLoop_spec 0 memoryTypes memoryTypeBits memPropFlags) as H.
  destruct (memoryTypeLoop 0 memoryTypes memoryTypeBits memPropFlags) as [i|]; cbn [fst snd].
  - destruct H as (_ & (pf & Hpf & Hs) & Hbefore). rewrite Nat.sub_0_r in *.
    apply lookup_lt_Some in Hpf as Hlt.
    split; [|intros; lia]. intros _. exists i, pf.
    unfold suitable in Hs. apply andb_true_iff in Hs as [Hbit Hland].
    apply Z.eqb_eq in Hland. repeat split; try done.
  - split; [intros Hne; exfalso; apply Hne; reflexivity|].
    intros _. split; [|done]. intros j pf Hl. by apply (H j pf).
Qed.

Lemma getMemoryTypeIndex_least_suitable_witness :
  getMemoryTypeIndex [1; 6; 7; 6] 14 6 = (1, [])
  ∧ getMemoryTypeIndex [1; 6; 7; 6] 1 6 = (2 ^ 32 - 1, ["Failed to allocate device memory."]).
Proof.
  assert (Hlen : (length [1; 6; 7; 6] ≤ 32)%nat) by (cbn; lia).
  destruct (getMemoryTypeIndex_least_suitable [1; 6; 7; 6] 1 6 Hlen) as [_ H].
  split; [reflexivity|].
  destruct (H eq_refl) as [_ Hlog].
  apply injective_projections; [reflexivity|exact Hlog].
Defined.
End MemoryTypeFacts.

Module DeviceFramesFacts.
Import LogicalDevice LogicalDeviceFacts DeviceFrames.
Local Open Scope Z_scope.

Lemma schedule_all_frameIndex scheduled st :
  s_frameIndex (foldl (λ s (a : Resource * Z), scheduleForDeallocation a.1 a.2 s) st scheduled)
  = s_frameIndex st.
Proof. revert st. induction scheduled as [|a l IH]; intros st; cbn; [done|]. by rewrite IH. Qed.

Lemma render_frameIndex scheduled st :
  s_frameIndex (render scheduled st).2 = wrap64 (s_frameIndex st + 1).
Proof. unfold render, render_reclaim. cbn. by rewrite schedule_all_frameIndex. Qed.

Lemma render_released scheduled st i d :
  (render scheduled st).1 !! i = Some (Released d) →
  (2 ≤ i)%nat ∧ m_frameIndex d < s_frameIndex st.
Proof.
  unfold render. cbn [fst]. intros H.
  apply lookup_app_Some in H as [H|[Hlen H]].
  { destruct i as [|[|i]]; cbn in H; done. }
  cbn [length] in Hlen, H. split; [lia|].
  rewrite list_lookup_fmap in H.
  destruct (_ !! (i - 2)%nat) as [e|] eqn:E; cbn in H; [|done]. simplify_eq.
  unfold render_reclaim in E. cbn [fst] in E.
  pose proof (reclaim_scan_released
                (s_frameIndex (foldl (λ s (a : Resource * Z),
                                        scheduleForDeallocation a.1 a.2 s) st scheduled))
                (m_deallocationQueue (foldl (λ s (a : Resource * Z),
                                        scheduleForDeallocation a.1 a.2 s) st scheduled)))
    as Hrel.
  rewrite Forall_forall in Hrel. rewrite schedule_all_frameIndex in Hrel, E.
  apply Hrel. by eapply list_elem_of_lookup_2.
Qed.

Lemma unitOf_plus_4 (F : Z) : unitOf (F + 4) = unitOf F.
Proof.
  unfold unitOf, NUM_QUEUED_FRAMES.
  replace (F + 4) with (F + 1 * 4) by lia. by rewrite Z.mod_add.
Qed.

(** After frame [F], while the frame index is at most [F + 4], a container
    whose target is [F + 3] or later is released only after the unit of
    frame [F] has been waited for. *)
Lemma frames_wait_before_release (F : Z) (fs : list (list (Resource * Z))) (st : State) :
  F < s_frameIndex st <= F + 4 → F + 4 < 2 ^ 64 → 0 <= F →
  ∀ i d, (frames fs st).1 !! i = Some (Released d) → F + 3 <= m_frameIndex d →
         ∃ j, (j < i)%nat ∧ (frames fs st).1 !! j = Some (WaitUnit (unitOf F)).
Proof.
  revert st. induction fs as [|scheduled fs IH]; intros st Hf Hrange HF i d Hi Hd.
  - done.
  - cbn [frames fst] in Hi |- *.
    apply lookup_app_Some in Hi as [Hi|[Hlen Hi]].
    + apply render_released in Hi as Hrel. destruct Hrel as [Hi2 Hlt].
      assert (s_frameIndex st = F + 4) as Heq by lia.
      exists O. split; [lia|]. cbn. by rewrite Heq, unitOf_plus_4.
    + destruct (decide (s_frameIndex st = F + 4)) as [Heq|Hne].
      * exists O. split.
        -- unfold render in Hlen. cbn in Hlen. lia.
        -- cbn. by rewrite Heq, unitOf_plus_4.
      * destruct (IH (render scheduled st).2) with (i := (i - length (render scheduled st).1)%nat)
                                                 (d := d)
          as (j & Hj & Hw); try done.
        { rewrite render_frameIndex. unfold wrap64. rewrite Z.mod_small by lia.
          lia. }
        exists (length (render scheduled st).1 + j)%nat. split; [lia|].
        rewrite lookup_app_r by lia.
        by replace (length (render scheduled st).1 + j - length (render scheduled st).1)%nat
          with j by lia.
Qed.

(** X10. A resource scheduled while frame [F] is recorded, to be kept alive
    for at least three frames, is not released within frame [F]; and in
    the frames that follow it is released only after the command execution
    unit that frame [F] was submitted on has been waited for again. *)
Theorem release_waits_for_the_recording_unit
    (st : State) (scheduled : list (Resource * Z)) (fs : list (list (Resource * Z)))
    (r : Resource) (k : Z) :
  0 <= s_frameIndex st → s_frameIndex st + 4 < 2 ^ 64 →
  (r, k) ∈ scheduled → 3 <= k → s_frameIndex st + k < 2 ^ 64 →
  let F := s_frameIndex st in
  let d := mkDeallocation (F + k) r in
  let events := (frames (scheduled :: fs) st).1 in
  events !! 0%nat = Some (WaitUnit (unitOf F))
  ∧ events !! 1%nat = Some (SubmitUnit (unitOf F))
  ∧ ∀ i, events !! i = Some (Released d) →
         ∃ j, (1 < j < i)%nat ∧ events !! j = Some (WaitUnit (unitOf F)).
Proof.
  intros HF Hrange Hin Hk Hsum F d events. subst events.
  cbn [frames fst]. split; [done|]. split; [done|].
  intros i Hi. apply lookup_app_Some in Hi as [Hi|[Hlen Hi]].
  - apply render_released in Hi as [_ Hlt]. cbn in Hlt. subst F. lia.
  - destruct (frames_wait_before_release F fs (render scheduled st).2) with
      (i := (i - length (render scheduled st).1)%nat) (d := d) as (j & Hj & Hw); try done.
    + rewrite render_frameIndex. unfold wrap64. rewrite Z.mod_small by lia.
      subst F. lia.
    + cbn. subst F. lia.
    + exists (length (render scheduled st).1 + j)%nat.
      assert (2 ≤ length (render scheduled st).1)%nat by (unfold render; cbn; lia).
      split; [lia|].
      rewrite lookup_app_r by lia.
      by replace (length (render scheduled st).1 + j - length (render scheduled st).1)%nat
        with j by lia.
Qed.

Lemma release_waits_for_the_recording_unit_witness :
  ∃ j, (1 < j < 12)%nat
       ∧ (frames [[(7%nat, 4)]; []; []; []; []; []] (mkState 0 [])).1 !! j
         = Some (WaitUnit 0).
Proof.
  refine (proj2 (proj2 (release_waits_for_the_recording_unit (mkState 0 []) [(7%nat, 4)]
                          [[]; []; []; []; []] 7%nat 4 _ _ _ _ _)) 12%nat _).
  - cbn. lia.
  - cbn. lia.
  - by left.
  - lia.
  - cbn. lia.
  - reflexivity.
Defined.

(** X11. [interrupt] waits for the unit that the last [render] was
    submitted on (so three wrap-arounds of the unit index later it is the
    unit of frame [F] again), also when the 64-bit frame index wraps, and
    then releases every pending container whatever its target frame. *)
Theorem interrupt_waits_for_the_last_unit
    (st : State) (scheduled : list (Resource * Z)) :
  0 <= s_frameIndex st < 2 ^ 64 →
  let after := (render scheduled st).2 in
  (render scheduled st).1 !! 1%nat = Some (SubmitUnit (unitOf (s_frameIndex st)))
  ∧ (interrupt after).1
    = WaitUnit (unitOf (s_frameIndex st)) :: (Released <$> m_deallocationQueue after)
  ∧ m_deallocationQueue (interrupt after).2 = [].
Proof.
  intros HF after. split; [done|]. split; [|done].
  unfold interrupt. cbn [fst app]. f_equal. f_equal.
  unfold after. rewrite render_frameIndex. unfold unitOf, wrap64, NUM_QUEUED_FRAMES.
  assert (E : 2 ^ 64 = 4 * 2 ^ 62) by reflexivity.
  destruct (decide (s_frameIndex st + 1 < 2 ^ 64)).
  - rewrite (Z.mod_small (s_frameIndex st + 1)) by lia.
    destruct (decide (s_frameIndex st + 1 + 4 < 2 ^ 64)).
    + rewrite (Z.mod_small (s_frameIndex st + 1 + 4)) by lia.
      rewrite (Z.mod_small (s_frameIndex st + 1 + 4 - 1)) by lia.
      replace (s_frameIndex st + 1 + 4 - 1) with (s_frameIndex st + 1 * 4) by lia.
      by rewrite Z.mod_add.
    + replace ((s_frameIndex st + 1 + 4) mod 2 ^ 64) with (s_frameIndex st + 5 - 2 ^ 64).
      2: { apply Z.mod_unique with 1; lia. }
      destruct (decide (s_frameIndex st + 5 - 2 ^ 64 - 1 < 0)).
      * replace ((s_frameIndex st + 5 - 2 ^ 64 - 1) mod 2 ^ 64) with (s_frameIndex st + 4).
        2: { apply Z.mod_unique with (-1); lia. }
        replace (s_frameIndex st + 4) with (s_frameIndex st + 1 * 4) by lia.
        by rewrite Z.mod_add.
      * rewrite (Z.mod_small (s_frameIndex st + 5 - 2 ^ 64 - 1)) by lia.
        replace (s_frameIndex st + 5 - 2 ^ 64 - 1)
          with (s_frameIndex st + (1 - 2 ^ 62) * 4) by lia.
        by rewrite Z.mod_add.
  - assert (s_frameIndex st = 2 ^ 64 - 1) as -> by lia. reflexivity.
Qed.

Lemma interrupt_waits_for_the_last_unit_witness :
  (interrupt (render [(7%nat, 4)] (mkState 5 [])).2).1
  = [WaitUnit 1; Released (mkDeallocation 9 7%nat)].
Proof.
  assert (HF : 0 <= s_frameIndex (mkState 5 []) < 2 ^ 64) by (cbn; lia).
  exact (proj1 (proj2 (interrupt_waits_for_the_last_unit (mkState 5 []) [(7%nat, 4)] HF))).
Defined.
End DeviceFramesFacts.

Module SubmitInfosFacts.
Import CommandExecutionUnit MachineFacts CommandExecutionUnitFacts SubmitInfos.
Local Open Scope Z_scope.

Lemma pushWaits_info cb c infos st info :
  m_commandBufferInfos st !! cb = Some info →
  m_commandBufferInfos (pushWaits c infos st) !! cb =
  Some (mkCommandBufferInfo (m_commandBufferInfo info)
          (m_waitSemaphoreInfos info ++ if bool_decide (c = cb) then infos else [])
          (m_signalSemaphoreInfos info)).
Proof.
  intros Hi. unfold pushWaits. case_bool_decide as Hnil.
  - subst. rewrite Hi. destruct info. cbn. case_bool_decide; by rewrite app_nil_r.
  - destruct (decide (c = cb)) as [->|Hne].
    + rewrite Hi. cbn. rewrite lookup_insert_eq. by rewrite bool_decide_eq_true_2.
    + rewrite bool_decide_eq_false_2 by done. rewrite app_nil_r.
      destruct (m_commandBufferInfos st !! c); cbn.
      * rewrite lookup_insert_ne by done. rewrite Hi. by destruct info.
      * rewrite Hi. by destruct info.
Qed.

Lemma pushSignals_info cb c infos st info :
  m_commandBufferInfos st !! cb = Some info →
  m_commandBufferInfos (pushSignals c infos st) !! cb =
  Some (mkCommandBufferInfo (m_commandBufferInfo info)
          (m_waitSemaphoreInfos info)
          (m_signalSemaphoreInfos info ++ if bool_decide (c = cb) then infos else [])).
Proof.
  intros Hi. unfold pushSignals. case_bool_decide as Hnil.
  - subst. rewrite Hi. destruct info. cbn. case_bool_decide; by rewrite app_nil_r.
  - destruct (decide (c = cb)) as [->|Hne].
    + rewrite Hi. cbn. rewrite lookup_insert_eq. by rewrite bool_decide_eq_true_2.
    + rewrite bool_decide_eq_false_2 by done. rewrite app_nil_r.
      destruct (m_commandBufferInfos st !! c); cbn.
      * rewrite lookup_insert_ne by done. rewrite Hi. by destruct info.
      * rewrite Hi. by destruct info.
Qed.

(** What the calls of a frame do to the record of a command buffer that
    is not issued again. *)
Lemma record_frame_info ops st issued st' cb info :
  m_commandBufferInfos st !! cb = Some info →
  record_frame ops st = Done (issued, st') →
  cb ∉ issued.*2 →
  m_commandBufferInfos st' !! cb =
  Some (mkCommandBufferInfo (m_commandBufferInfo info)
          (m_waitSemaphoreInfos info ++ pushed_waits cb ops)
          (m_signalSemaphoreInfos info ++ pushed_signals cb ops)).
Proof.
  revert st issued st' info. induction ops as [|o ops IH]; intros st issued st' info Hi H Hn.
  - cbn in H. simplify_eq. cbn. rewrite !app_nil_r. rewrite Hi. by destruct info.
  - destruct o as [q mask tid|c infos|c infos]; cbn [record_frame] in H.
    + apply exec_bind_done in H as ([cb1 st1] & Hreq & H).
      apply exec_bind_done in H as ([issued1 st2] & Hrec & H).
      cbn in H, Hrec. simplify_eq. cbn in Hn.
      apply not_elem_of_cons in Hn as [Hne Hn].
      pose proof (request_bookkeeping _ _ _ _ _ _ Hreq) as (Hi1 & _ & _).
      cbn [pushed_waits pushed_signals].
      eapply IH; [|exact Hrec|exact Hn].
      rewrite Hi1. by rewrite lookup_insert_ne.
    + cbn [pushed_waits pushed_signals].
      rewrite (IH _ _ _ _ (pushWaits_info cb c infos st info Hi) H Hn). cbn.
      by rewrite <- app_assoc.
    + cbn [pushed_waits pushed_signals].
      rewrite (IH _ _ _ _ (pushSignals_info cb c infos st info Hi) H Hn). cbn.
      by rewrite <- app_assoc.
Qed.

(** The record of a command buffer from its request to the end of the
    frame, and the batch it is submitted in. *)
Lemma issued_info
    (st st1 st' : State) (q : Z) (mask : option DeviceMask) (tid : ThreadId)
    (cb : CommandBuffer) (ops : list frame_op) (issued : list (Z * CommandBuffer)) :
  requestCommandBuffer q mask tid st = Done (cb, st1) →
  record_frame ops st1 = Done (issued, st') →
  cb ∉ issued.*2 →
  let info := mkSubmitInfo2 (pushed_waits cb ops) (cb, default 0 mask)
                            (pushed_signals cb ops) in
  submitInfoOf (m_commandBufferInfos st') cb = info
  ∧ ∃ batch fence, QueueSubmit2 q batch fence ∈ d_calls (submit st') ∧ info ∈ batch.
Proof.
  intros Hreq Hrec Hn info.
  pose proof (request_bookkeeping _ _ _ _ _ _ Hreq) as (Hi1 & Ho1 & _).
  assert (Hinfo : m_commandBufferInfos st1 !! cb
                  = Some (mkCommandBufferInfo (cb, default 0 mask) [] [])).
  { rewrite Hi1. by rewrite lookup_insert_eq. }
  pose proof (record_frame_info _ _ _ _ _ _ Hinfo Hrec Hn) as Hfinal. cbn in Hfinal.
  assert (Hsub : submitInfoOf (m_commandBufferInfos st') cb = info).
  { unfold submitInfoOf. by rewrite Hfinal. }
  split; [exact Hsub|].
  destruct (record_frame_bookkeeping _ _ _ _ Hrec) as (Horder & _ & _).
  specialize (Horder q). rewrite Ho1, lookup_insert_eq in Horder. cbn in Horder.
  destruct (m_submitOrder st' !! q) as [order|] eqn:Eo; cbn in Horder.
  2: { by destruct (default [] (m_submitOrder st !! q)). }
  exists (submitInfoOf (m_commandBufferInfos st') <$> order), (fence_of (m_library st') q).
  split.
  - apply submit_calls. unfold submit_batches. rewrite map_lookup_imap, Eo. done.
  - rewrite <- Hsub. apply list_elem_of_fmap. exists cb. split; [done|].
    rewrite Horder. set_solver.
Qed.



(** With full pools a request hands out a handle the driver has just
    created. *)
Lemma request_fresh q mask tid st cb st' :
  pool_full st →
  requestCommandBufferUnguarded q mask tid st = Done (cb, st') →
  (d_nextHandle st ≤ cb < d_nextHandle st')%nat.
Proof.
  intros Hfull. unfold requestCommandBufferUnguarded.
  destruct (find_pool q tid st) as [cbp|] eqn:Ef.
  - rewrite (Hfull _ _ _ Ef), (proj2 (Z.leb_le _ _)) by lia.
    rewrite Nat2Z.id. unfold deref. rewrite lookup_app_r by lia.
    rewrite Nat.sub_diag. cbn. intros H. simplify_eq. cbn. lia.
  - cbn. intros H. change (Z.of_nat 0 <=? 0) with true in H.
    change (Z.to_nat 0) with O in H. cbn in H. simplify_eq. cbn. lia.
Qed.
End SubmitInfosFacts.

Module FenceTracesFacts.
Import CommandExecutionUnit MachineFacts CommandExecutionUnitFacts FenceTraces.
Local Open Scope Z_scope.

(** The fences of the library are handles the device has given, one per
    queue family. *)
Definition fences_apart_below (lib : gmap Z QueueFamilyIndexData) (next : nat) : Prop :=
  ∀ q data, lib !! q = Some data →
    (m_syncFence data < next)%nat
    ∧ ∀ q' data', q' ≠ q → lib !! q' = Some data' → m_syncFence data' ≠ m_syncFence data.

Definition fences_apart (st : State) : Prop :=
  fences_apart_below (m_library st) (d_nextHandle st).

Lemma submitted_fences_app calls1 calls2 :
  submitted_fences (calls1 ++ calls2) = submitted_fences calls1 ++ submitted_fences calls2.
Proof. unfold submitted_fences. apply omap_app. Qed.

Lemma fence_in_library (lib : gmap Z QueueFamilyIndexData) q data :
  lib !! q = Some data → m_syncFence data ∈ library_fences lib.
Proof.
  intros Hl. unfold library_fences. apply list_elem_of_fmap. exists (q, data).
  split; [done|]. by apply elem_of_map_to_list.
Qed.

Lemma waitForIdle_calls st q data :
  m_library st !! q = Some data →
  d_calls (waitForIdle st)
  = d_calls st ++ [WaitForFences (library_fences (m_library st));
                   ResetFences (library_fences (m_library st))]
  ∧ m_library (waitForIdle st) = m_library st.
Proof.
  intros Hl. unfold waitForIdle. pose proof (fence_in_library _ _ _ Hl) as Hin.
  case_bool_decide as Hnil; [rewrite Hnil in Hin; by apply elem_of_nil in Hin|]. done.
Qed.

Lemma store_pool_fences q tid fence cbp lib (next next' : nat) :
  fences_apart_below lib next → (next ≤ next')%nat → (fence < next')%nat →
  is_Some (lib !! q) ∧ fence = fence_of lib q ∨ (next ≤ fence)%nat →
  fences_apart_below (store_pool q tid fence cbp lib) next'.
Proof.
  intros Hap Hle Hlt Hfence q1 data1 Hl1. unfold store_pool in *.
  destruct (decide (q1 = q)) as [->|Hne1].
  - rewrite lookup_insert_eq in Hl1. simplify_eq. cbn [m_syncFence]. split; [done|].
    intros q' data' Hne' Hl'. rewrite lookup_insert_ne in Hl' by done.
    destruct Hfence as [[[data Hd] ->]|Hfresh].
    + unfold fence_of. rewrite Hd. cbn. by eapply (Hap q data Hd).
    + destruct (Hap q' data' Hl') as [Hb _]. lia.
  - rewrite lookup_insert_ne in Hl1 by done.
    destruct (Hap q1 data1 Hl1) as [Hb Hd]. split; [lia|].
    intros q' data' Hne' Hl'. destruct (decide (q' = q)) as [->|Hne2].
    + rewrite lookup_insert_eq in Hl'. simplify_eq. cbn [m_syncFence].
      destruct Hfence as [[[data Hdq] ->]|Hfresh].
      * unfold fence_of. rewrite Hdq. cbn. by eapply Hd.
      * lia.
    + rewrite lookup_insert_ne in Hl' by done. by eapply Hd.
Qed.

(** What a request does to the library, the handles and the calls. *)
Lemma request_shape q mask tid st cb st' :
  requestCommandBufferUnguarded q mask tid st = Done (cb, st') →
  ∃ fence cbp' calls,
    m_library st' = store_pool q tid fence cbp' (m_library st)
    ∧ d_calls st' = d_calls st ++ calls ∧ submitted_fences calls = []
    ∧ (d_nextHandle st ≤ d_nextHandle st')%nat
    ∧ (is_Some (m_library st !! q) ∧ fence = fence_of (m_library st) q
       ∨ (d_nextHandle st ≤ fence < d_nextHandle st')%nat).
Proof.
  unfold requestCommandBufferUnguarded.
  destruct (find_pool q tid st) as [cbp|] eqn:Ef.
  - assert (Hsome : is_Some (m_library st !! q)).
    { unfold find_pool in Ef. destruct (m_library st !! q); [by eexists|done]. }
    destruct (Z.of_nat (length (m_commandBuffers cbp)) <=? m_nextCommandBufferIndex cbp);
      intros Hr; apply exec_bind_done in Hr as (c & _ & Hr); simplify_eq;
      cbn [d_calls m_library d_nextHandle].
    + eexists _, _, _. split; [reflexivity|]. split; [reflexivity|]. split; [done|].
      split; [lia|]. by left.
    + eexists _, _, []. split; [reflexivity|]. split; [by rewrite app_nil_r|].
      split; [done|]. split; [lia|]. by left.
  - change (Z.of_nat (length (m_commandBuffers (mkCommandBufferPool (S (d_nextHandle st)) [] 0)))
            <=? m_nextCommandBufferIndex (mkCommandBufferPool (S (d_nextHandle st)) [] 0))
      with true.
    cbn iota beta. intros Hr. apply exec_bind_done in Hr as (c & _ & Hr). simplify_eq.
    cbn [d_calls m_library d_nextHandle].
    eexists _, _, _. split; [reflexivity|]. split; [by rewrite <- app_assoc|].
    split; [done|]. split; [lia|]. right. lia.
Qed.

Lemma request_fences q mask tid st cb st' :
  requestCommandBufferUnguarded q mask tid st = Done (cb, st') →
  (∃ calls, d_calls st' = d_calls st ++ calls ∧ submitted_fences calls = [])
  ∧ (∀ q', q' ≠ q → m_library st' !! q' = m_library st !! q')
  ∧ is_Some (m_library st' !! q)
  ∧ (fences_apart st → fences_apart st').
Proof.
  intros Hr. destruct (request_shape _ _ _ _ _ _ Hr)
    as (fence & cbp' & calls & Hlib & Hcalls & Hsub & Hnext & Hfence).
  split; [by exists calls|]. split; [|split].
  - intros q' Hne. rewrite Hlib. unfold store_pool. by rewrite lookup_insert_ne.
  - rewrite Hlib. unfold store_pool. by rewrite lookup_insert_eq.
  - intros Hap. unfold fences_apart. rewrite Hlib.
    apply (store_pool_fences _ _ _ _ _ (d_nextHandle st)); [done|done| |].
    + destruct Hfence as [[[data Hd] ->]|?]; [|lia].
      unfold fence_of. rewrite Hd. cbn. destruct (Hap q data Hd) as [Hb _]. lia.
    + destruct Hfence as [?|?]; [by left|right; lia].
Qed.

Lemma push_fences_apart st st' :
  m_library st' = m_library st → d_nextHandle st' = d_nextHandle st →
  fences_apart st → fences_apart st'.
Proof. unfold fences_apart. by intros -> ->. Qed.

Lemma pushWaits_handles cb infos st :
  d_nextHandle (pushWaits cb infos st) = d_nextHandle st
  ∧ d_calls (pushWaits cb infos st) = d_calls st.
Proof.
  unfold pushWaits. case_bool_decide; [done|].
  by destruct (m_commandBufferInfos st !! cb).
Qed.

Lemma pushSignals_handles cb infos st :
  d_nextHandle (pushSignals cb infos st) = d_nextHandle st
  ∧ d_calls (pushSignals cb infos st) = d_calls st.
Proof.
  unfold pushSignals. case_bool_decide; [done|].
  by destruct (m_commandBufferInfos st !! cb).
Qed.

(** While a frame is recorded nothing is submitted, a family without a
    request keeps its entry, and every family with a request has one. *)
Lemma record_frame_fences ops st issued st' :
  record_frame ops st = Done (issued, st') →
  (∃ calls, d_calls st' = d_calls st ++ calls ∧ submitted_fences calls = [])
  ∧ (∀ q, issued_on q issued = [] → m_library st' !! q = m_library st !! q)
  ∧ (∀ q, issued_on q issued ≠ [] → is_Some (m_library st' !! q))
  ∧ (∀ q, is_Some (m_library st !! q) → is_Some (m_library st' !! q))
  ∧ (fences_apart st → fences_apart st').
Proof.
  revert st issued st'. induction ops as [|o ops IH]; intros st issued st' Hrec.
  - cbn in Hrec. simplify_eq. split; [exists []; by rewrite app_nil_r|]. done.
  - destruct o as [q0 mask tid|cb infos|cb infos]; cbn [record_frame] in Hrec.
    + apply exec_bind_done in Hrec as ([cb0 st1] & Hreq & Hrec).
      apply exec_bind_done in Hrec as ([issued' st2] & Hrec & Hd). cbn in Hrec, Hd.
      simplify_eq. unfold requestCommandBuffer in Hreq.
      destruct (request_fences _ _ _ _ _ _ Hreq) as ((c1 & Hc1 & Hs1) & Hl1 & Hq1 & Hap1).
      destruct (IH _ _ _ Hrec) as ((c2 & Hc2 & Hs2) & Hl2 & Hq2 & Hk2 & Hap2).
      split; [|split; [|split; [|split]]].
      * exists (c1 ++ c2). rewrite Hc2, Hc1, <- app_assoc. split; [done|].
        by rewrite submitted_fences_app, Hs1, Hs2.
      * intros q Hq. rewrite issued_on_cons in Hq. case_bool_decide as Hd; [done|].
        rewrite (Hl2 q Hq). apply Hl1. congruence.
      * intros q Hq. rewrite issued_on_cons in Hq. case_bool_decide as Hd.
        -- subst q0. by apply Hk2.
        -- by apply Hq2.
      * intros q Hq. apply Hk2. destruct (decide (q = q0)) as [->|Hne]; [done|].
        by rewrite Hl1.
      * auto.
    + destruct (IH _ _ _ Hrec) as ((c2 & Hc2 & Hs2) & Hl2 & Hq2 & Hk2 & Hap2).
      destruct (pushWaits_handles cb infos st) as [Hn Hc].
      rewrite pushWaits_library in *. rewrite Hc in Hc2.
      split; [by exists c2|]. split; [done|]. split; [done|]. split; [done|].
      intros Hap. apply Hap2. by apply (push_fences_apart st); [apply pushWaits_library| |].
    + destruct (IH _ _ _ Hrec) as ((c2 & Hc2 & Hs2) & Hl2 & Hq2 & Hk2 & Hap2).
      destruct (pushSignals_handles cb infos st) as [Hn Hc].
      rewrite pushSignals_library in *. rewrite Hc in Hc2.
      split; [by exists c2|]. split; [done|]. split; [done|]. split; [done|].
      intros Hap. apply Hap2. by apply (push_fences_apart st); [apply pushSignals_library| |].
Qed.

Lemma touch_library_lookup qs (lib : gmap Z QueueFamilyIndexData) q :
  is_Some (lib !! q) → touch_library qs lib !! q = lib !! q.
Proof.
  revert lib. induction qs as [|q0 qs IH]; intros lib Hq; [done|].
  cbn. destruct (lib !! q0) eqn:E; [by apply IH|].
  assert (Hne : q0 ≠ q) by (intros ->; rewrite E in Hq; by destruct Hq).
  etrans; [apply IH; by rewrite lookup_insert_ne|]. by rewrite lookup_insert_ne.
Qed.

(** The fences [submit] hands to the queues are those of the families
    with a request. *)
Lemma submit_fences st :
  ∃ calls, d_calls (submit st) = d_calls st ++ calls
           ∧ ∀ f, f ∈ submitted_fences calls →
                  ∃ q, is_Some (m_submitOrder st !! q) ∧ f = fence_of (m_library st) q.
Proof.
  unfold submit. cbn [d_calls]. eexists. split; [reflexivity|].
  intros f Hf. unfold submitted_fences in Hf. apply list_elem_of_omap in Hf as (c & Hc & Hf).
  apply list_elem_of_fmap in Hc as ([q [batch fence]] & -> & Hb). cbn in Hf. simplify_eq.
  apply elem_of_map_to_list in Hb. unfold submit_batches in Hb.
  rewrite map_lookup_imap in Hb. destruct (m_submitOrder st !! q) eqn:E; cbn in Hb; [|done].
  simplify_eq. exists q. split; [by eexists|done].
Qed.

Lemma touch_library_known qs (lib : gmap Z QueueFamilyIndexData) :
  (∀ q, q ∈ qs → is_Some (lib !! q)) → touch_library qs lib = lib.
Proof.
  induction qs as [|q0 qs IH]; intros Hq; [done|]. cbn.
  destruct (Hq q0 ltac:(by left)) as [data Hd]. rewrite Hd.
  apply IH. intros q Hin. apply Hq. by right.
Qed.

Lemma fences_apart_init : fences_apart init.
Proof. intros q data Hl. cbn in Hl. by rewrite lookup_empty in Hl. Qed.

(** A frame keeps the fences apart and ends with nothing to submit. *)
Lemma frame_fences_apart ops st issued st1 :
  fences_apart st → m_submitOrder st = ∅ →
  frame ops st = Done (issued, st1) →
  fences_apart st1 ∧ m_submitOrder st1 = ∅.
Proof.
  intros Hap Hempty Hframe. unfold frame in Hframe.
  apply exec_bind_done in Hframe as ([issued' st'] & Hrec & Hd). cbn in Hd. simplify_eq.
  destruct (waitForIdleAndReset_library st) as (Hlib0 & Hnext0 & _ & Horder0).
  assert (Hap0 : fences_apart (waitForIdleAndReset st)).
  { unfold fences_apart. by rewrite Hlib0, Hnext0. }
  destruct (record_frame_fences _ _ _ _ Hrec) as (_ & _ & Hreq & _ & Hap1).
  split; [|done]. unfold fences_apart, submit. cbn [m_library d_nextHandle].
  rewrite touch_library_known; [by apply Hap1|].
  intros q Hin. apply list_elem_of_fmap in Hin as ([q' [batch fence]] & -> & Hb). cbn.
  apply elem_of_map_to_list in Hb. unfold submit_batches in Hb.
  rewrite map_lookup_imap in Hb. destruct (m_submitOrder st' !! q') eqn:E; cbn in Hb; [|done].
  apply Hreq. intros Hnil.
  rewrite (record_frame_untouched _ _ _ _ q' Hrec Hnil), Horder0, Hempty in E.
  by rewrite lookup_empty in E.
Qed.

(** X13. A queue family that has an entry in the library but gets no request
    in a frame makes the next wait on the unit wait for a fence that no
    submission can signal. The frame's [waitForIdleAndReset] resets the
    family's fence with the others, [submit] hands it to no queue, and
    the next [waitForIdle] waits for it again, for all fences and without
    a timeout. *)
Theorem idle_family_fence_is_waited_for_unsubmitted
    (st st1 : State) (ops : list frame_op) (issued : list (Z * CommandBuffer)) (q : Z) :
  fences_apart st → m_submitOrder st = ∅ →
  is_Some (m_library st !! q) →
  frame ops st = Done (issued, st1) →
  issued_on q issued = [] →
  let fence := fence_of (m_library st) q in
  ∃ fences calls fences',
    d_calls (waitForIdle st1)
    = d_calls st ++ [WaitForFences fences; ResetFences fences] ++ calls
      ++ [WaitForFences fences'; ResetFences fences']
    ∧ fence ∈ fences ∧ fence ∈ fences' ∧ fence ∉ submitted_fences calls.
Proof.
  intros Hap Hempty [data Hq] Hframe Hidle fence.
  assert (Hfence : fence = m_syncFence data) by (subst fence; unfold fence_of; by rewrite Hq).
  clearbody fence. subst fence.
  unfold frame in Hframe. apply exec_bind_done in Hframe as ([issued' st'] & Hrec & Hd).
  cbn in Hd. simplify_eq.
  destruct (waitForIdleAndReset_library st) as (Hlib0 & Hnext0 & _ & Horder0).
  destruct (waitForIdle_calls st q data Hq) as [Hcalls0 Hlibw].
  assert (Hap0 : fences_apart (waitForIdleAndReset st)).
  { unfold fences_apart. by rewrite Hlib0, Hnext0. }
  destruct (record_frame_fences _ _ _ _ Hrec) as ((c1 & Hc1 & Hs1) & Hkeep & Hreq & Hsome & Hap1).
  specialize (Hap1 Hap0).
  assert (Hq' : m_library st' !! q = Some data) by (rewrite (Hkeep q Hidle), Hlib0; done).
  destruct (submit_fences st') as (c2 & Hc2 & Hs2).
  assert (Hq1 : m_library (submit st') !! q = Some data).
  { unfold submit. cbn [m_library]. rewrite touch_library_lookup; [done|by eexists]. }
  destruct (waitForIdle_calls (submit st') q data Hq1) as [Hcalls1 _].
  exists (library_fences (m_library st)),
         ((ResetCommandPool <$> library_pools (m_library (waitForIdle st))) ++ c1 ++ c2),
         (library_fences (m_library (submit st'))).
  split; [|split; [|split]].
  - rewrite Hcalls1, Hc2, Hc1. unfold waitForIdleAndReset, add_calls. cbn [d_calls].
    rewrite Hcalls0. by rewrite <- !app_assoc.
  - by eapply fence_in_library.
  - by eapply fence_in_library.
  - rewrite !submitted_fences_app, Hs1. cbn [app].
    intros [Hin|Hin]%elem_of_app.
    + unfold submitted_fences in Hin. apply list_elem_of_omap in Hin as (c & Hc & Hf).
      apply list_elem_of_fmap in Hc as (p & -> & _). done.
    + destruct (Hs2 _ Hin) as (q' & [order Hq'o] & Hf).
      assert (Hne : q' ≠ q).
      { intros ->. rewrite (record_frame_untouched _ _ _ _ q Hrec Hidle), Horder0, Hempty in Hq'o.
        by rewrite lookup_empty in Hq'o. }
      assert (Hq'some : is_Some (m_library st' !! q')).
      { apply Hreq. intros Hnil.
        rewrite (record_frame_untouched _ _ _ _ q' Hrec Hnil), Horder0, Hempty in Hq'o.
        by rewrite lookup_empty in Hq'o. }
      destruct Hq'some as [data' Hd'].
      destruct (Hap1 q data Hq') as [_ Hdiff].
      apply (Hdiff q' data' Hne Hd'). unfold fence_of in Hf. rewrite Hd' in Hf. cbn in Hf.
      congruence.
Qed.

Lemma idle_family_fence_is_waited_for_unsubmitted_witness :
  ∃ issued0 st issued st1 fences calls fences',
    frame [Request 0 None 7%nat; Request 1 None 7%nat] init = Done (issued0, st)
    ∧ frame [Request 0 None 7%nat] st = Done (issued, st1)
    ∧ d_calls (waitForIdle st1)
      = d_calls st ++ [WaitForFences fences; ResetFences fences] ++ calls
        ++ [WaitForFences fences'; ResetFences fences']
    ∧ fence_of (m_library st) 1 ∈ fences'
    ∧ fence_of (m_library st) 1 ∉ submitted_fences calls.
Proof.
  destruct (frame [Request 0 None 7%nat; Request 1 None 7%nat] init)
    as [[issued0 st]|f] eqn:E1; [|vm_compute in E1; discriminate].
  destruct (frame_fences_apart _ _ _ _ fences_apart_init eq_refl E1) as [Hap Hempty].
  assert (Hsome : is_Some (m_library st !! 1)).
  { vm_compute in E1. injection E1 as <- <-. vm_compute. by eexists. }
  destruct (frame [Request 0 None 7%nat] st) as [[issued st1]|f] eqn:E2.
  2: { vm_compute in E1. injection E1 as <- <-. vm_compute in E2. discriminate. }
  assert (Hidle : issued_on 1 issued = []).
  { vm_compute in E1. injection E1 as <- <-. vm_compute in E2. injection E2 as <- <-.
    reflexivity. }
  destruct (idle_family_fence_is_waited_for_unsubmitted st st1 _ issued 1
              Hap Hempty Hsome E2 Hidle) as (fences & calls & fences' & Hc & _ & Hin & Hnot).
  by exists issued0, st, issued, st1, fences, calls, fences'.
Defined.
End FenceTracesFacts.

Module UploadsFacts.
Import CommandExecutionUnit Uploader MachineFacts CommandExecutionUnitFacts UploaderFacts.
Import SubmitInfos SubmitInfosFacts Uploads.
Local Open Scope Z_scope.

Lemma uploads_pending (us : list Upload) (st : Uploader.State) :
  let st' := foldl (λ s u, upload u s) st us in
  m_bufferCopies st' =
    m_bufferCopies st ++
    ((λ u, mkBufferCopy (u_staging u) (u_dstBuffer u)
                        (mkVkBufferCopy 0 (u_dstBufferOffset u) (u_size u))
                        (u_dstStageMask u)) <$> us)
  ∧ m_transferCmdBuffer st' = m_transferCmdBuffer st
  ∧ m_graphicsCmdBuffer st' = m_graphicsCmdBuffer st
  ∧ recorded st' = recorded st
  ∧ scheduled st' = scheduled st.
Proof.
  revert st. induction us as [|u us IH]; intros st; cbn [foldl].
  - cbn. by rewrite app_nil_r.
  - destruct (IH (upload u st)) as (H1 & H2 & H3 & H4 & H5). cbn zeta in *.
    rewrite H1, H2, H3, H4, H5. cbn. by rewrite <- app_assoc.
Qed.

Lemma copies_of_app cmds1 cmds2 :
  copies_of (cmds1 ++ cmds2) = copies_of cmds1 ++ copies_of cmds2.
Proof. unfold copies_of. apply omap_app. Qed.

Lemma copies_of_transfer_part releases copies :
  copies_of (transfer_part releases copies)
  = (λ c, (m_srcBufferAllocation c, m_dstBuffer c, m_region c)) <$> copies.
Proof.
  induction copies as [|c copies IH]; [done|].
  unfold transfer_part in *. cbn. by rewrite <- IH.
Qed.

Lemma copies_of_graphics_part acquisitions (copies : list BufferCopy) :
  copies_of (graphics_part acquisitions copies) = [].
Proof. induction copies as [|c copies IH]; [done|]. done. Qed.

(** X14. Every upload requested since the last [finish] is copied exactly
    once by the next [finish], on the transfer command buffer and in the
    order of the requests, from offset 0 of its staging buffer to the
    requested offset of its destination; its staging buffer is handed to
    the deferred deallocation once; nothing stays pending, so a [finish]
    with no upload in between records no copy and no barrier. *)
Theorem finish_copies_each_upload_once
    (dev : Device) (st : Uploader.State) (us : list Upload) :
  m_bufferCopies st = [] →
  m_transferCmdBuffer st ≠ m_graphicsCmdBuffer st →
  recorded st !! m_transferCmdBuffer st = None →
  recorded st !! m_graphicsCmdBuffer st = None →
  let st' := finish dev (foldl (λ s u, upload u s) st us) in
  copies_of (commands_of (m_transferCmdBuffer st) st')
  = (λ u, (u_staging u, u_dstBuffer u,
           mkVkBufferCopy 0 (u_dstBufferOffset u) (u_size u))) <$> us
  ∧ copies_of (commands_of (m_graphicsCmdBuffer st) st') = []
  ∧ scheduled st' = scheduled st ++ (u_staging <$> us)
  ∧ m_bufferCopies st' = []
  ∧ (us = [] →
     commands_of (m_transferCmdBuffer st) st' = [Begin; End_]
     ∧ commands_of (m_graphicsCmdBuffer st) st' = [Begin; End_]).
Proof.
  intros Hpending Hne Ht Hg st'. subst st'.
  destruct (uploads_pending us st) as (Hc & Htb & Hgb & Hrec & Hsched). cbn zeta in *.
  set (st1 := foldl (λ s u, upload u s) st us) in *.
  assert (Hne1 : m_transferCmdBuffer st1 ≠ m_graphicsCmdBuffer st1) by congruence.
  destruct (finish_commands dev st1 Hne1) as [Hct Hcg].
  rewrite Htb, Hrec, Ht in Hct. rewrite Hgb, Hrec, Hg in Hcg.
  rewrite Hpending in Hc. cbn [app] in Hc.
  split; [|split; [|split; [|split]]].
  - rewrite Hct. cbn [default]. rewrite !copies_of_app, copies_of_transfer_part.
    cbn. rewrite app_nil_r, Hc, <- list_fmap_compose. done.
  - rewrite Hcg. cbn [default]. rewrite !copies_of_app, copies_of_graphics_part. done.
  - unfold finish. cbn [scheduled].
    destruct (finish_copy_loop (m_transferCmdBuffer st1) (m_graphicsCmdBuffer st1)
                (release_of dev <$> m_bufferCopies st1)
                (acquisition_of dev <$> m_bufferCopies st1) Hne1 (m_bufferCopies st1)
                (record (m_graphicsCmdBuffer st1) Begin
                        (record (m_transferCmdBuffer st1) Begin (recorded st1)))
                (scheduled st1)) as (_ & _ & Hs).
    cbn zeta in Hs. rewrite Hs, Hsched, Hc, <- list_fmap_compose. done.
  - done.
  - intros ->. rewrite Hct, Hcg, Hc. done.
Qed.

Lemma finish_copies_each_upload_once_witness :
  copies_of (commands_of 3%nat
               (finish (mkDevice 1 0)
                  (foldl (λ s u, upload u s) (Uploader.mkState [] 3%nat 6%nat ∅ [])
                         [mkUpload 10%nat 128 64 8 20%nat; mkUpload 11%nat 0 32 8 21%nat])))
  = [(20%nat, 10%nat, mkVkBufferCopy 0 128 64); (21%nat, 11%nat, mkVkBufferCopy 0 0 32)].
Proof.
  exact (proj1 (finish_copies_each_upload_once (mkDevice 1 0)
                  (Uploader.mkState [] 3%nat 6%nat ∅ [])
                  [mkUpload 10%nat 128 64 8 20%nat; mkUpload 11%nat 0 32 8 21%nat]
                  eq_refl ltac:(discriminate) eq_refl eq_refl)).
Defined.

(** X15. [prepare] gets two distinct command buffers and makes the
    graphics one wait, at all commands, for the value of the timeline
    semaphore that the transfer one signals at the copy stage: the frame
    index plus one. *)
Theorem prepare_pairs_signal_and_wait
    (dev : Device) (syncSem : Semaphore) (frameIndex : Z) (tid : ThreadId)
    (st st' : Uploader.State) (unit unit' : CommandExecutionUnit.State) :
  pool_full unit →
  (∀ q t, Z.of_nat (allocated q t unit + 2) < 2 ^ 32) →
  prepare dev syncSem frameIndex tid st unit = Done (st', unit') →
  let transfer := m_transferCmdBuffer st' in
  let graphics := m_graphicsCmdBuffer st' in
  let value := wrap64 (frameIndex + 1) in
  transfer ≠ graphics
  ∧ submitInfoOf (m_commandBufferInfos unit') transfer
    = mkSubmitInfo2 [] (transfer, 0)
                    [mkSemaphoreSubmitInfo syncSem value PipelineStage2_Copy 0]
  ∧ submitInfoOf (m_commandBufferInfos unit') graphics
    = mkSubmitInfo2 [mkSemaphoreSubmitInfo syncSem value PipelineStage2_AllCommands 0]
                    (graphics, 0) []
  ∧ m_bufferCopies st' = m_bufferCopies st.
Proof.
  intros Hfull Hbound Hprep transfer graphics value. unfold prepare in Hprep.
  apply exec_bind_done in Hprep as ([t unit1] & Ht & Hprep).
  apply exec_bind_done in Hprep as ([g unit2] & Hg & Hprep).
  cbn [fst snd] in Hprep, Hg. simplify_eq.
  subst transfer graphics value.
  cbn [m_transferCmdBuffer m_graphicsCmdBuffer m_bufferCopies].
  pose proof (request_fresh _ _ _ _ _ _ Hfull Ht) as Hft.
  destruct (allocated_request _ _ _ _ _ _ Hfull Ht) as (Ha & _ & Hfull1).
  assert (Hfull1' : pool_full unit1).
  { apply Hfull1. specialize (Hbound (transferQueueFamilyIndex dev) tid). lia. }
  pose proof (request_fresh _ _ _ _ _ _ Hfull1' Hg) as Hfg.
  assert (Hne : t ≠ g) by lia.
  split; [exact Hne|].
  set (sig := mkSemaphoreSubmitInfo syncSem (wrap64 (frameIndex + 1)) PipelineStage2_Copy 0).
  set (wt := mkSemaphoreSubmitInfo syncSem (wrap64 (frameIndex + 1))
                                   PipelineStage2_AllCommands 0).
  split; [|split; [|done]].
  - assert (Hrec : record_frame [Request (graphicsQueueFamilyIndex dev) None tid;
                                 PushSignals t [sig]; PushWaits g [wt]] unit1
                   = Done ([(graphicsQueueFamilyIndex dev, g)],
                           pushWait g wt (pushSignal t sig unit2))).
    { cbn [record_frame]. unfold requestCommandBuffer in *. rewrite Hg. done. }
    destruct (issued_info _ _ _ _ _ _ _ _ _ Ht Hrec) as [Hinfo _].
    { cbn. intros [?|[]%elem_of_nil]%elem_of_cons. done. }
    rewrite Hinfo. cbn. repeat case_bool_decide; simplify_eq; done.
  - assert (Hrec : record_frame [PushSignals t [sig]; PushWaits g [wt]] unit2
                   = Done ([], pushWait g wt (pushSignal t sig unit2))) by done.
    destruct (issued_info _ _ _ _ _ _ _ _ _ Hg Hrec) as [Hinfo _].
    { apply not_elem_of_nil. }
    rewrite Hinfo. cbn. repeat case_bool_decide; simplify_eq; done.
Qed.

Lemma prepare_pairs_signal_and_wait_witness :
  match prepare (mkDevice 1 0) 9%nat 41 7%nat (Uploader.mkState [] O O ∅ []) init with
  | Done (st', unit') =>
    submitInfoOf (m_commandBufferInfos unit') (m_graphicsCmdBuffer st')
    = mkSubmitInfo2 [mkSemaphoreSubmitInfo 9%nat 42 PipelineStage2_AllCommands 0]
                    (m_graphicsCmdBuffer st', 0) []
  | Fault _ => False
  end.
Proof.
  destruct (prepare (mkDevice 1 0) 9%nat 41 7%nat (Uploader.mkState [] O O ∅ []) init)
    as [[st' unit']|f] eqn:E; [|vm_compute in E; discriminate].
  refine (proj1 (proj2 (proj2 (prepare_pairs_signal_and_wait _ _ _ _ _ _ _ _
                                 pool_full_init _ E)))).
  intros q t. unfold allocated, find_pool, init. cbn. rewrite lookup_empty. cbn. lia.
Defined.
End UploadsFacts.

Module RenderThreadTracesFacts.
Import RenderThread RenderThreadFacts RenderThreadTraces.

Lemma step_requests l s s' (n : nat) :
  invoked s + pending s ≤ n → returned s ≤ invoked s ≤ S (returned s) →
  (worker s = InCallback ↔ invoked s = S (returned s)) →
  step l s = Some s' →
  invoked s' + pending s' ≤ n + (if bool_decide (l = RecordCommandsAsync) then 1 else 0)
  ∧ returned s' ≤ invoked s' ≤ S (returned s')
  ∧ (worker s' = InCallback ↔ invoked s' = S (returned s')).
Proof.
  unfold pending. intros Hn Hr Hw Hstep.
  destruct s as [st w o i r]. cbn in *.
  assert (Hw' : w = InCallback ∧ i = S r ∨ w ≠ InCallback ∧ i = r).
  { destruct (decide (w = InCallback)) as [E|E].
    - left. split; [done|]. by apply Hw.
    - right. split; [done|]. destruct (decide (i = S r)) as [E'|E']; [|lia].
      by apply Hw in E'. }
  clear Hw.
  destruct l, st, w, o; vm_compute in Hstep; simplify_eq; cbn in *;
    repeat case_bool_decide; cbn in *; naive_solver lia.
Qed.

Lemma run_requests tr s s' (n : nat) :
  invoked s + pending s ≤ n → returned s ≤ invoked s ≤ S (returned s) →
  (worker s = InCallback ↔ invoked s = S (returned s)) →
  run tr s = Some s' →
  invoked s' + pending s' ≤ n + requests tr
  ∧ returned s' ≤ invoked s' ≤ S (returned s')
  ∧ (worker s' = InCallback ↔ invoked s' = S (returned s')).
Proof.
  revert s n. induction tr as [|l tr IH]; intros s n Hn Hr Hw Hrun.
  - cbn in Hrun. simplify_eq. unfold requests. cbn. split; [lia|done].
  - cbn in Hrun. destruct (step l s) as [s1|] eqn:E; [|done]. cbn in Hrun.
    destruct (step_requests l s s1 n Hn Hr Hw E) as (Hn1 & Hr1 & Hw1).
    destruct (IH s1 _ Hn1 Hr1 Hw1 Hrun) as (Hn2 & Hr2 & Hw2).
    split; [|done]. unfold requests in *. rewrite filter_cons.
    case_bool_decide; case_decide; try done; cbn [length]; lia.
Qed.

(** X16. In every interleaving from the constructor on, the callback has
    been invoked at most as often as [recordCommandsAsync] has been
    called, the worker is inside the callback exactly while one invocation
    has not returned, and no two invocations overlap. *)
Theorem callback_only_on_request (tr : list label) (s : State) :
  run tr init = Some s →
  invoked s ≤ requests tr
  ∧ returned s ≤ invoked s ≤ S (returned s)
  ∧ (worker s = InCallback ↔ invoked s = S (returned s)).
Proof.
  intros Hrun.
  assert (H1 : invoked init + pending init ≤ 0) by (vm_compute; constructor).
  assert (H2 : returned init ≤ invoked init ≤ S (returned init)) by (cbn; lia).
  assert (H3 : worker init = InCallback ↔ invoked init = S (returned init))
    by (cbn; split; intros; discriminate).
  destruct (run_requests tr init s 0 H1 H2 H3 Hrun) as (Hn & Hr & Hw).
  split; [lia|done].
Qed.

Lemma callback_only_on_request_witness :
  invoked (mkState WAITING Blocked Running 1 1) ≤ 2.
Proof.
  exact (proj1 (callback_only_on_request
                  [Start; RecordCommandsAsync; RecordCommandsAsync; WorkerRun; WorkerReturn]
                  (mkState WAITING Blocked Running 1 1) eq_refl)).
Defined.

(** X17. When [recordCommandsAsync] has been called while the worker
    thread does not run (before [start], or after the loop has ended), the
    [finishCommandRecording] that follows never returns: it waits for a
    status nobody will set, and no step of either thread is enabled. *)
Theorem finish_blocks_without_worker (s s1 : State) :
  worker s = NotStarted ∨ worker s = Exited →
  m_status s = RECORDING →
  step FinishCommandRecording s = Some s1 →
  orchestrator s1 = InFinish
  ∧ (∀ l, step l s1 = None)
  ∧ ∀ tr s2, run tr s1 = Some s2 → s2 = s1.
Proof.
  intros Hw Hst Hstep.
  assert (Hs1 : orchestrator s1 = InFinish ∧ m_status s1 = RECORDING
                ∧ (worker s1 = NotStarted ∨ worker s1 = Exited)).
  { destruct s as [st w o i r]. cbn in *. subst st.
    destruct Hw as [->| ->], o; vm_compute in Hstep; simplify_eq; cbn; naive_solver. }
  destruct Hs1 as (Ho & Hs & Hw1).
  assert (Hnone : ∀ l, step l s1 = None).
  { intros l. destruct s1 as [st w o i r]. cbn in *. subst st o.
    destruct Hw1 as [->| ->], l; reflexivity. }
  split; [done|]. split; [done|].
  intros tr s2 Hrun. destruct tr as [|l tr]; cbn in Hrun; [by simplify_eq|].
  by rewrite Hnone in Hrun.
Qed.

Lemma finish_blocks_without_worker_witness :
  run [RecordCommandsAsync; FinishCommandRecording] init
  = Some (mkState RECORDING NotStarted InFinish 0 0)
  ∧ step Start (mkState RECORDING NotStarted InFinish 0 0) = None.
Proof.
  split; [reflexivity|].
  apply (finish_blocks_without_worker (mkState RECORDING NotStarted Running 0 0)
           (mkState RECORDING NotStarted InFinish 0 0) (or_introl eq_refl) eq_refl eq_refl).
Defined.
End RenderThreadTracesFacts.

Module LogicalDisplayFacts.
Import LogicalDisplay.
Local Open Scope Z_scope.

Section MaxElement.
Context {A : Type} (lt : A → A → bool).
Hypothesis irreflexive : ∀ a, lt a a = false.
Hypothesis transitive : ∀ a b c, lt a b = true → lt b c = true → lt a c = true.
Hypothesis incomparable : ∀ a b c, lt a b = false → lt b c = false → lt a c = false.

Lemma max_element_loop_spec (seen rest : list A) (i : nat) (m : A) :
  seen !! i = Some m →
  (∀ x, x ∈ seen → lt m x = false) →
  (∀ j x, (j < i)%nat → seen !! j = Some x → lt x m = true) →
  let r := max_element_loop lt (i, m) (length seen) rest in
  ∃ m', (seen ++ rest) !! r = Some m'
        ∧ (∀ x, x ∈ seen ++ rest → lt m' x = false)
        ∧ (∀ j x, (j < r)%nat → (seen ++ rest) !! j = Some x → lt x m' = true).
Proof.
  revert seen i m. induction rest as [|y rest IH]; intros seen i m Hi Hmax Hfirst; cbn.
  - rewrite app_nil_r. by exists m.
  - replace (seen ++ y :: rest) with ((seen ++ [y]) ++ rest) by by rewrite <- app_assoc.
    replace (S (length seen)) with (length (seen ++ [y])) by (rewrite length_app; cbn; lia).
    destruct (lt m y) eqn:E.
    + apply IH.
      * rewrite lookup_app_r by lia. by rewrite Nat.sub_diag.
      * intros x [Hx|Hx%list_elem_of_singleton]%elem_of_app; [|by subst].
        destruct (lt y x) eqn:E'; [|done].
        rewrite <- (Hmax x Hx). symmetry. by eapply transitive.
      * intros j x Hj Hl.
        rewrite lookup_app_l in Hl by done.
        destruct (decide (j < i)%nat) as [Hlt|Hge].
        -- eapply transitive; [by eapply Hfirst|done].
        -- destruct (lt x y) eqn:E'; [done|].
           assert (Hx : lt m x = false) by (apply Hmax; by eapply list_elem_of_lookup_2).
           by rewrite (incomparable _ _ _ Hx E') in E.
    + apply IH.
      * rewrite lookup_app_l; [done|]. by eapply lookup_lt_Some.
      * intros x [Hx|Hx%list_elem_of_singleton]%elem_of_app; [by apply Hmax|by subst].
      * intros j x Hj Hl. apply lookup_lt_Some in Hi as Hlen.
        rewrite lookup_app_l in Hl by lia. by eapply Hfirst.
Qed.

Lemma max_element_spec (v : list A) :
  v ≠ [] →
  ∃ m, v !! max_element lt v = Some m
       ∧ (∀ x, x ∈ v → lt m x = false)
       ∧ (∀ j x, (j < max_element lt v)%nat → v !! j = Some x → lt x m = true).
Proof.
  destruct v as [|x rest]; [done|]. intros _. cbn [max_element].
  apply (max_element_loop_spec [x] rest O x).
  - done.
  - intros y ->%list_elem_of_singleton. apply irreflexive.
  - intros j y Hj. lia.
Qed.
End MaxElement.

Lemma mode_lt_spec a b :
  mode_lt a b = true ↔
  visibleRegion_width a < visibleRegion_width b
  ∨ visibleRegion_width a = visibleRegion_width b
    ∧ (visibleRegion_height a < visibleRegion_height b
       ∨ visibleRegion_height a = visibleRegion_height b ∧ refreshRate a < refreshRate b).
Proof.
  unfold mode_lt.
  destruct (Z.eqb_spec (visibleRegion_width a) (visibleRegion_width b));
    destruct (Z.eqb_spec (visibleRegion_height a) (visibleRegion_height b));
    cbn; rewrite Z.ltb_lt; lia.
Qed.

Lemma mode_lt_false a b :
  mode_lt a b = false ↔
  visibleRegion_width b < visibleRegion_width a
  ∨ visibleRegion_width a = visibleRegion_width b
    ∧ (visibleRegion_height b < visibleRegion_height a
       ∨ visibleRegion_height a = visibleRegion_height b ∧ refreshRate b <= refreshRate a).
Proof.
  rewrite <- not_true_iff_false, mode_lt_spec. lia.
Qed.

(** X18. Of the display modes the driver reports, [init] selects one of
    the widest, among those one of the highest, among those one with the
    highest refresh rate, and the first such mode in the driver's order;
    with no mode reported it dereferences the past-the-end position. *)
Theorem selectDisplayMode_largest (modes : list DisplayModeProperties) :
  (modes = [] → selectDisplayMode modes = Fault OutOfBounds)
  ∧ (modes ≠ [] →
     ∃ (i : nat) m,
       selectDisplayMode modes = Done m ∧ modes !! i = Some m
       ∧ (∀ x, x ∈ modes →
            visibleRegion_width x < visibleRegion_width m
            ∨ visibleRegion_width x = visibleRegion_width m
              ∧ (visibleRegion_height x < visibleRegion_height m
                 ∨ visibleRegion_height x = visibleRegion_height m
                   ∧ refreshRate x <= refreshRate m))
       ∧ (∀ j x, (j < i)%nat → modes !! j = Some x → mode_lt x m = true)).
Proof.
  split; [by intros ->|]. intros Hne.
  destruct (max_element_spec mode_lt) with (v := modes) as (m & Hm & Hmax & Hfirst).
  - intros a. apply mode_lt_false. lia.
  - intros a b c. rewrite !mode_lt_spec. lia.
  - intros a b c. rewrite !mode_lt_false. lia.
  - done.
  - exists (max_element mode_lt modes), m.
    unfold selectDisplayMode, deref. rewrite Hm. repeat split; try done.
    intros x Hx. specialize (Hmax x Hx). apply mode_lt_false in Hmax. lia.
Qed.

Lemma selectDisplayMode_largest_witness :
  selectDisplayMode [mkDisplayModeProperties 1 1920 1080 60000;
                     mkDisplayModeProperties 2 3840 2160 30000;
                     mkDisplayModeProperties 3 3840 2160 60000;
                     mkDisplayModeProperties 4 3840 2160 60000]
  = Done (mkDisplayModeProperties 3 3840 2160 60000).
Proof.
  destruct (proj2 (selectDisplayMode_largest
                     [mkDisplayModeProperties 1 1920 1080 60000;
                      mkDisplayModeProperties 2 3840 2160 30000;
                      mkDisplayModeProperties 3 3840 2160 60000;
                      mkDisplayModeProperties 4 3840 2160 60000]) ltac:(done))
    as (i & m & Hsel & Hi & Hmax & Hfirst).
  rewrite Hsel. f_equal.
  pose proof (Hmax (mkDisplayModeProperties 3 3840 2160 60000)
                   ltac:(set_solver)) as H3. cbn in H3.
  destruct i as [|[|[|[|i]]]]; cbn in Hi; simplify_eq; cbn in H3; try lia; try done.
Defined.

Lemma for_while_not_entered fuel x body flag : for_while fuel x x body flag = flag.
Proof.
  destruct fuel; cbn; [done|]. rewrite Z.ltb_irrefl. by rewrite andb_false_r.
Qed.

(** X19. The check for pixels of the combined rectangle that no present
    rectangle covers never looks at a pixel: its inner loop runs while
    [x < minX] from [x = minX], so the present rectangles always count as
    tightly packed, whatever they are. *)
Theorem tightlyPacked_always (b : Bounds) (presentRects : list Rect2D) :
  tightlyPacked b presentRects = true.
Proof.
  unfold tightlyPacked.
  assert (H : ∀ fuel y,
            for_while fuel y (maxY b)
              (λ y tightlyPacked,
                 for_while (Z.to_nat (minX b - minX b)) (minX b) (minX b)
                   (λ x tightlyPacked, tightlyPacked && coveredBy presentRects x y)
                   tightlyPacked)
              true = true).
  { induction fuel as [|fuel IH]; intros y; cbn [for_while]; [done|].
    cbn [andb]. destruct (y <? maxY b); [|done].
    rewrite for_while_not_entered. apply IH. }
  apply H.
Qed.

Lemma to_int32_small z : - 2 ^ 31 <= z < 2 ^ 31 → to_int32 z = z.
Proof. intros. unfold to_int32. rewrite Z.mod_small; lia. Qed.

Lemma wrap32_small z : 0 <= z < 2 ^ 32 → wrap32 z = z.
Proof. intros. unfold wrap32. by apply Z.mod_small. Qed.

(** Present rectangles as displays have them: inside a quarter of the
    [int32_t] range, so that no sum overflows. *)
Definition small (r : Rect2D) : Prop :=
  0 <= offset_x r < 2 ^ 30 ∧ 0 <= offset_y r < 2 ^ 30
  ∧ 0 <= extent_width r < 2 ^ 30 ∧ 0 <= extent_height r < 2 ^ 30.

Lemma contains_small r x y :
  small r →
  contains r x y = true ↔
  offset_x r <= x < offset_x r + extent_width r
  ∧ offset_y r <= y < offset_y r + extent_height r.
Proof.
  intros (? & ? & ? & ?). unfold contains.
  rewrite !(wrap32_small (_ + _)) by lia. rewrite !to_int32_small by lia.
  rewrite !andb_true_iff, !Z.leb_le, !Z.ltb_lt. lia.
Qed.

Definition in_int32 (z : Z) : Prop := - 2 ^ 31 <= z < 2 ^ 31.

Lemma int32_result_Some z : in_int32 z → int32_result z = Some z.
Proof.
  unfold in_int32, int32_result, INT32_MIN, INT32_MAX. intros.
  rewrite (proj2 (Z.leb_le _ _)), (proj2 (Z.leb_le _ _)) by lia. done.
Qed.

Lemma bounds_loop_spec (b : Bounds) (rects : list Rect2D) :
  Forall small rects →
  in_int32 (minX b) → in_int32 (maxX b) → in_int32 (minY b) → in_int32 (maxY b) →
  ∃ b', bounds_loop b rects = Some b'
        ∧ in_int32 (minX b') ∧ in_int32 (maxX b') ∧ in_int32 (minY b') ∧ in_int32 (maxY b')
        ∧ (∀ r, r ∈ rects →
             minX b' <= offset_x r ∧ offset_x r + extent_width r <= maxX b'
             ∧ minY b' <= offset_y r ∧ offset_y r + extent_height r <= maxY b')
        ∧ minX b' <= minX b ∧ maxX b <= maxX b' ∧ minY b' <= minY b ∧ maxY b <= maxY b'
        ∧ (minX b' = minX b ∨ ∃ r, r ∈ rects ∧ offset_x r = minX b')
        ∧ (maxX b' = maxX b ∨ ∃ r, r ∈ rects ∧ offset_x r + extent_width r = maxX b')
        ∧ (minY b' = minY b ∨ ∃ r, r ∈ rects ∧ offset_y r = minY b')
        ∧ (maxY b' = maxY b ∨ ∃ r, r ∈ rects ∧ offset_y r + extent_height r = maxY b').
Proof.
  intros Hsmall. revert b. induction Hsmall as [|r rects Hr Hrects IH]; intros b H1 H2 H3 H4.
  - exists b. cbn [bounds_loop].
    split_and!; first [done | lia | by left | by intros r ?%elem_of_nil].
  - destruct Hr as (Hx & Hy & Hw & Hh). unfold in_int32 in *.
    cbn [bounds_loop]. unfold bounds_step.
    rewrite !to_int32_small by lia.
    rewrite !int32_result_Some by (unfold in_int32; lia). cbn [mbind option_bind].
    destruct (IH (mkBounds (Z.min (minX b) (offset_x r))
                           (Z.max (maxX b) (offset_x r + extent_width r))
                           (Z.min (minY b) (offset_y r))
                           (Z.max (maxY b) (offset_y r + extent_height r))))
      as (b' & Hloop & I1 & I2 & I3 & I4 & Hall & L1 & L2 & L3 & L4 & A1 & A2 & A3 & A4);
      cbn [minX maxX minY maxY]; try lia.
    cbn [minX maxX minY maxY] in *.
    exists b'. split; [done|]. split; [done|]. split; [done|]. split; [done|].
    split; [done|]. split.
    { intros r' [->|Hr']%elem_of_cons; [lia|by apply Hall]. }
    split; [lia|]. split; [lia|]. split; [lia|]. split; [lia|].
    assert (Hin : ∀ r', r' ∈ rects → r' ∈ r :: rects) by (intros; by right).
    assert (Hhd : r ∈ r :: rects) by by left.
    split; [|split; [|split]].
    + destruct A1 as [A1|(r' & ? & ?)]; [|right; eauto].
      destruct (decide (minX b <= offset_x r)); [left; lia|right; exists r; split; [done|lia]].
    + destruct A2 as [A2|(r' & ? & ?)]; [|right; eauto].
      destruct (decide (offset_x r + extent_width r <= maxX b));
        [left; lia|right; exists r; split; [done|lia]].
    + destruct A3 as [A3|(r' & ? & ?)]; [|right; eauto].
      destruct (decide (minY b <= offset_y r)); [left; lia|right; exists r; split; [done|lia]].
    + destruct A4 as [A4|(r' & ? & ?)]; [|right; eauto].
      destruct (decide (offset_y r + extent_height r <= maxY b));
        [left; lia|right; exists r; split; [done|lia]].
Qed.

(** X20. For present rectangles inside a quarter of the [int32_t] range,
    the render area that [pushRenderContext] hands to the render thread
    contains every pixel of every present rectangle, and each of its four
    edges is an edge of one of them; with no present rectangle the
    subtraction [maxX - minX] overflows [int32_t]. *)
Theorem renderArea_covers_present_rectangles (presentRects : list Rect2D) :
  (presentRects = [] → renderArea presentRects = None)
  ∧ (presentRects ≠ [] → Forall small presentRects →
     ∃ area,
       renderArea presentRects = Some area
       ∧ (∀ r x y, r ∈ presentRects → contains r x y = true → contains area x y = true)
       ∧ (∃ r, r ∈ presentRects ∧ offset_x r = offset_x area)
       ∧ (∃ r, r ∈ presentRects ∧ offset_y r = offset_y area)
       ∧ (∃ r, r ∈ presentRects
               ∧ offset_x r + extent_width r = offset_x area + extent_width area)
       ∧ (∃ r, r ∈ presentRects
               ∧ offset_y r + extent_height r = offset_y area + extent_height area)).
Proof.
  split; [by intros ->|]. intros Hne Hsmall.
  destruct (bounds_loop_spec (mkBounds INT32_MAX INT32_MIN INT32_MAX INT32_MIN)
              presentRects Hsmall)
    as (b & Hloop & I1 & I2 & I3 & I4 & Hall & _ & _ & _ & _ & A1 & A2 & A3 & A4);
    try (unfold in_int32, INT32_MAX, INT32_MIN; cbn; lia).
  destruct presentRects as [|r0 rest]; [done|].
  assert (Hr0 : r0 ∈ r0 :: rest) by by left.
  apply Forall_cons in Hsmall as Hsm. destruct Hsm as [(Hx & Hy & Hw & Hh) _].
  destruct (Hall r0 Hr0) as (B1 & B2 & B3 & B4).
  assert (Hb : ∀ r, r ∈ r0 :: rest →
            0 <= offset_x r < 2 ^ 30 ∧ 0 <= offset_y r < 2 ^ 30
            ∧ 0 <= extent_width r < 2 ^ 30 ∧ 0 <= extent_height r < 2 ^ 30).
  { rewrite Forall_forall in Hsmall. exact Hsmall. }
  cbn [minX maxX minY maxY] in A1, A2, A3, A4. unfold INT32_MAX, INT32_MIN in A1, A2, A3, A4.
  assert (A1' : ∃ r, r ∈ r0 :: rest ∧ offset_x r = minX b) by (destruct A1; [lia|done]).
  assert (A2' : ∃ r, r ∈ r0 :: rest ∧ offset_x r + extent_width r = maxX b)
    by (destruct A2; [lia|done]).
  assert (A3' : ∃ r, r ∈ r0 :: rest ∧ offset_y r = minY b) by (destruct A3; [lia|done]).
  assert (A4' : ∃ r, r ∈ r0 :: rest ∧ offset_y r + extent_height r = maxY b)
    by (destruct A4; [lia|done]).
  assert (R1 : 0 <= minX b < 2 ^ 30).
  { destruct A1' as (r & Hr & <-). destruct (Hb r Hr). lia. }
  assert (R2 : 0 <= maxX b < 2 ^ 31).
  { destruct A2' as (r & Hr & <-). destruct (Hb r Hr) as (? & ? & ? & ?). lia. }
  assert (R3 : 0 <= minY b < 2 ^ 30).
  { destruct A3' as (r & Hr & <-). destruct (Hb r Hr) as (? & ? & ? & ?). lia. }
  assert (R4 : 0 <= maxY b < 2 ^ 31).
  { destruct A4' as (r & Hr & <-). destruct (Hb r Hr) as (? & ? & ? & ?). lia. }
  exists (mkRect2D (minX b) (minY b) (maxX b - minX b) (maxY b - minY b)).
  split.
  { unfold renderArea, bounds_of. rewrite Hloop. cbn [mbind option_bind].
    unfold renderArea_of.
    rewrite !int32_result_Some by (unfold in_int32; lia). cbn [mbind option_bind].
    rewrite !wrap32_small by lia. done. }
  cbn [offset_x offset_y extent_width extent_height].
  split; [|split; [done|split; [done|split]]].
  - intros r x y Hr Hc. apply contains_small in Hc; [|by apply Hb].
    destruct (Hall r Hr) as (? & ? & ? & ?).
    unfold contains. cbn [offset_x offset_y extent_width extent_height].
    rewrite !(wrap32_small (_ + _)) by lia. rewrite !to_int32_small by lia.
    rewrite !andb_true_iff, !Z.leb_le, !Z.ltb_lt. lia.
  - destruct A2' as (r & ? & ?). exists r. split; [done|lia].
  - destruct A4' as (r & ? & ?). exists r. split; [done|lia].
Qed.

Lemma renderArea_covers_present_rectangles_witness :
  renderArea [mkRect2D 0 0 1920 1080; mkRect2D 1920 0 1920 1080]
  = Some (mkRect2D 0 0 3840 1080)
  ∧ contains (mkRect2D 0 0 3840 1080) 2000 500 = true.
Proof.
  split; [reflexivity|].
  destruct (proj2 (renderArea_covers_present_rectangles
                     [mkRect2D 0 0 1920 1080; mkRect2D 1920 0 1920 1080])
              ltac:(done)) as (area & Harea & Hcov & _).
  { repeat constructor; cbn; lia. }
  assert (area = mkRect2D 0 0 3840 1080) as -> by (vm_compute in Harea; congruence).
  apply (Hcov (mkRect2D 1920 0 1920 1080)); [set_solver|reflexivity].
Defined.
End LogicalDisplayFacts.

Module CanvasRegionRenderThreadFacts.
Import CommandExecutionUnit MachineFacts CommandExecutionUnitFacts.
Import SubmitInfos SubmitInfosFacts CanvasRegionRenderThread.
Local Open Scope Z_scope.

(** X21. Whatever the physical device of a render thread is, also one the
    instance does not list, its clear colour is read inside [COLORS]; the
    index is taken modulo 12, the size of a colour in bytes, not modulo
    the 14 entries, so [DARK_GRAY] and [BLACK] are never chosen and devices
    12 positions apart share a colour. *)
Theorem clearColorOf_in_bounds (devices : list nat) (dev : nat) :
  let index := systemPhysicalDeviceIndexOf devices dev in
  0 <= index < 2 ^ 32
  ∧ (dev ∉ devices → find_position dev devices = length devices)
  ∧ ∃ c, clearColorOf index = Done c ∧ c ≠ DARK_GRAY ∧ c ≠ BLACK
         ∧ (index + 12 < 2 ^ 32 → clearColorOf (index + 12) = Done c).
Proof.
  intros index. split; [|split].
  - subst index. unfold systemPhysicalDeviceIndexOf, wrap32. apply Z.mod_pos_bound. lia.
  - induction devices as [|d rest IH]; [done|]. cbn. intros Hn.
    apply not_elem_of_cons in Hn as [Hne Hn].
    rewrite bool_decide_eq_false_2 by done. by rewrite IH.
  - assert (Hmod : 0 <= index mod 12 < 12) by (apply Z.mod_pos_bound; lia).
    assert (Hshift : (index + 12) mod 12 = index mod 12).
    { replace (index + 12) with (index + 1 * 12) by lia. apply Z.mod_add. lia. }
    unfold clearColorOf, sizeof_Vec3f. rewrite Hshift.
    generalize dependent (index mod 12). intros m Hm _.
    assert (Hcases : m = 0 ∨ m = 1 ∨ m = 2 ∨ m = 3 ∨ m = 4 ∨ m = 5 ∨ m = 6 ∨ m = 7
                     ∨ m = 8 ∨ m = 9 ∨ m = 10 ∨ m = 11) by lia.
    repeat (destruct Hcases as [->|Hcases]); try subst m;
      (eexists; split; [reflexivity|]; split; [done|]; split; [done|done]).
Qed.

Lemma request_library_full q mask tid st cb st' :
  pool_full st → Z.of_nat (S (allocated q tid st)) < 2 ^ 32 →
  requestCommandBufferUnguarded q mask tid st = Done (cb, st') →
  pool_full st' ∧ (d_nextHandle st ≤ cb < d_nextHandle st')%nat.
Proof.
  intros Hfull Hb Hreq. split.
  - destruct (allocated_request _ _ _ _ _ _ Hfull Hreq) as (_ & _ & H). by apply H.
  - by eapply request_fresh.
Qed.

Lemma pushWait_pushWaits c w st : pushWait c w st = pushWaits c [w] st.
Proof. reflexivity. Qed.

Lemma pushSignal_pushSignals c w st : pushSignal c w st = pushSignals c [w] st.
Proof. reflexivity. Qed.

(** The calls of [recordCommands] on the unit for a frame with instances. *)
Lemma recordCommands_calls
    (gq tq : Z) (uploaderSem : Semaphore) (frameIndex numInstances : Z) (meshPending : bool)
    (newSemaphore : Semaphore) (tid : ThreadId) (rt rt' : Thread) (unit unit' : State)
    (g : CommandBuffer) (t : option CommandBuffer) :
  numInstances ≠ 0 →
  recordCommands gq tq uploaderSem frameIndex numInstances meshPending newSemaphore
                 tid rt unit = Done (rt', g, t, unit') →
  let sem := default newSemaphore (m_syncTimelineSemaphore rt) in
  let v := match m_syncTimelineSemaphore rt with
           | Some _ => m_syncTimelineSemaphoreValue rt
           | None => 0
           end in
  let dev := m_deviceIndex rt in
  let mask := ofSingleDevice dev in
  let v1 := wrap64 (v + 1) in
  let v2 := wrap64 (v1 + 1) in
  let done := mkSemaphoreSubmitInfo (m_renderDoneSem rt) 0
                PipelineStage2_ColorAttachmentOutput dev in
  ∃ transfer u1 unit1,
    requestCommandBufferUnguarded gq (Some mask) tid unit = Done (g, u1)
    ∧ requestCommandBufferUnguarded tq (Some mask) tid u1 = Done (transfer, unit1)
    ∧ t = Some transfer
    ∧ rt' = mkThread dev (m_imageAcquiredSem rt) (m_renderDoneSem rt) (Some sem) v2
    ∧ record_frame
        ([PushWaits g [done];
          PushWaits transfer [mkSemaphoreSubmitInfo sem v PipelineStage2_Transfer dev];
          PushSignals transfer [mkSemaphoreSubmitInfo sem v1 PipelineStage2_Transfer dev];
          PushWaits g [mkSemaphoreSubmitInfo sem v1 PipelineStage2_VertexAttributeInput dev]]
         ++ (if meshPending
             then [PushWaits g [mkSemaphoreSubmitInfo uploaderSem (wrap64 (frameIndex + 1))
                                  PipelineStage2_VertexAttributeInput dev]]
             else [])
         ++ [PushSignals g [mkSemaphoreSubmitInfo sem v2
                              PipelineStage2_VertexAttributeInput dev];
             PushSignals g [done]]) unit1 = Done ([], unit').
Proof.
  intros Hn Hrec sem v dev mask v1 v2 done. unfold recordCommands in Hrec.
  rewrite (proj2 (Z.eqb_neq numInstances 0) Hn) in Hrec.
  unfold requestCommandBuffers in Hrec. fold requestCommandBuffers in Hrec.
  destruct (requestCommandBufferUnguarded gq _ tid unit) as [[g0 u1]|f] eqn:Hg;
    [|discriminate Hrec].
  cbn [mbind exec_bind fst snd requestCommandBuffers] in Hrec.
  destruct (requestCommandBufferUnguarded tq _ tid u1) as [[t0 unit1]|f] eqn:Ht;
    [|discriminate Hrec].
  cbn [mbind exec_bind fst snd] in Hrec.
  unfold deref, MemoryPool.back in Hrec.
  cbn [lookup list_lookup last mbind exec_bind] in Hrec.
  unfold getImageAcquiredSemaphore, getRenderDoneSemaphore in Hrec.
  rewrite ?pushWait_pushWaits, ?pushSignal_pushSignals in Hrec.
  exists t0, u1, unit1.
  destruct meshPending; cbn [record_frame app]; injection Hrec as <- <- <- <-;
    (split; [first [exact Hg|reflexivity]|split; [first [exact Ht|reflexivity]|
       split; [reflexivity|split; reflexivity]]]).
Qed.

(** X22. What a frame with instances submits for a render thread. The
    transfer command buffer waits for the current value [v] of the thread's
    timeline semaphore and signals [v + 1]; the graphics command buffer
    waits for [v + 1] and signals [v + 2], which is the value the next
    frame's transfer command buffer waits for. The graphics command buffer
    also waits for the uploader's semaphore at the frame index plus one
    when the mesh is not available yet. Its first wait and its last signal
    are both on the render-done semaphore: the image-acquired getter
    answers that one. *)
Theorem recordCommands_timeline_chain
    (gq tq : Z) (uploaderSem : Semaphore) (frameIndex numInstances : Z) (meshPending : bool)
    (newSemaphore : Semaphore) (tid : ThreadId) (rt rt' : Thread) (unit unit' : State)
    (g : CommandBuffer) (t : option CommandBuffer) :
  pool_full unit →
  (∀ q tid', Z.of_nat (allocated q tid' unit + 2) < 2 ^ 32) →
  numInstances ≠ 0 →
  recordCommands gq tq uploaderSem frameIndex numInstances meshPending newSemaphore
                 tid rt unit = Done (rt', g, t, unit') →
  let sem := default newSemaphore (m_syncTimelineSemaphore rt) in
  let v := match m_syncTimelineSemaphore rt with
           | Some _ => m_syncTimelineSemaphoreValue rt
           | None => 0
           end in
  let dev := m_deviceIndex rt in
  let mask := ofSingleDevice dev in
  ∃ transfer,
    t = Some transfer ∧ transfer ≠ g
    ∧ submitInfoOf (m_commandBufferInfos unit') transfer
      = mkSubmitInfo2
          [mkSemaphoreSubmitInfo sem v PipelineStage2_Transfer dev]
          (transfer, mask)
          [mkSemaphoreSubmitInfo sem (wrap64 (v + 1)) PipelineStage2_Transfer dev]
    ∧ submitInfoOf (m_commandBufferInfos unit') g
      = mkSubmitInfo2
          ([mkSemaphoreSubmitInfo (m_renderDoneSem rt) 0
              PipelineStage2_ColorAttachmentOutput dev;
            mkSemaphoreSubmitInfo sem (wrap64 (v + 1))
              PipelineStage2_VertexAttributeInput dev]
           ++ (if meshPending
               then [mkSemaphoreSubmitInfo uploaderSem (wrap64 (frameIndex + 1))
                       PipelineStage2_VertexAttributeInput dev]
               else []))
          (g, mask)
          [mkSemaphoreSubmitInfo sem (wrap64 (wrap64 (v + 1) + 1))
             PipelineStage2_VertexAttributeInput dev;
           mkSemaphoreSubmitInfo (m_renderDoneSem rt) 0
             PipelineStage2_ColorAttachmentOutput dev]
    ∧ m_syncTimelineSemaphore rt' = Some sem
    ∧ m_syncTimelineSemaphoreValue rt' = wrap64 (wrap64 (v + 1) + 1).
Proof.
  intros Hfull Hbound Hn Hrec sem v dev mask.
  destruct (recordCommands_calls _ _ _ _ _ _ _ _ _ _ _ _ _ _ Hn Hrec)
    as (t0 & u1 & unit1 & Hg & Ht & -> & -> & Hpush).
  fold sem v dev mask in Hg, Ht, Hpush.
  assert (Hbg : Z.of_nat (S (allocated gq tid unit)) < 2 ^ 32)
    by (specialize (Hbound gq tid); lia).
  destruct (request_library_full _ _ _ _ _ _ Hfull Hbg Hg) as [Hfull1 Hfg].
  assert (Hft : (d_nextHandle u1 ≤ t0 < d_nextHandle unit1)%nat) by by eapply request_fresh.
  assert (Hne : t0 ≠ g) by lia.
  assert (Hne' : g ≠ t0) by done.
  exists t0. split; [done|]. split; [done|].
  split; [|split; [|split; reflexivity]]; clear Hrec;
    generalize dependent (wrap64 (frameIndex + 1)); intros f1;
    generalize dependent (wrap64 (wrap64 (v + 1) + 1)); intros v2;
    generalize dependent (wrap64 (v + 1)); intros v1 Hpush.
  - destruct (issued_info _ _ _ _ _ _ _ _ _ Ht Hpush) as [Hinfo _]; [apply not_elem_of_nil|].
    rewrite Hinfo.
    destruct meshPending; cbn [pushed_waits pushed_signals app];
      rewrite !(bool_decide_eq_true_2 (t0 = t0)) by done;
      rewrite !(bool_decide_eq_false_2 (g = t0)) by done; reflexivity.
  - match type of Hpush with record_frame ?pushes _ = _ =>
      assert (Hrec2 : record_frame (Request tq (Some mask) tid :: pushes) u1
                      = Done ([(tq, t0)], unit'))
    end.
    { cbn [record_frame]. unfold requestCommandBuffer in *.
      rewrite Ht. cbn [mbind exec_bind snd fst]. rewrite Hpush. done. }
    destruct (issued_info _ _ _ _ _ _ _ _ _ Hg Hrec2) as [Hinfo _].
    { cbn. intros [?|[]%elem_of_nil]%elem_of_cons. done. }
    rewrite Hinfo.
    destruct meshPending; cbn [pushed_waits pushed_signals app];
      rewrite !(bool_decide_eq_true_2 (g = g)) by done;
      rewrite !(bool_decide_eq_false_2 (t0 = g)) by done; reflexivity.
Qed.

Lemma recordCommands_timeline_chain_witness :
  match recordCommands 0 1 50%nat 7 3 true 60%nat 5%nat
                       (mkThread 0 40%nat 41%nat (Some 42%nat) 6) init with
  | Done (rt', g, t, unit') =>
    m_syncTimelineSemaphoreValue rt' = 8
    ∧ waitSemaphoreInfos (submitInfoOf (m_commandBufferInfos unit') g)
      = [mkSemaphoreSubmitInfo 41%nat 0 PipelineStage2_ColorAttachmentOutput 0;
         mkSemaphoreSubmitInfo 42%nat 7 PipelineStage2_VertexAttributeInput 0;
         mkSemaphoreSubmitInfo 50%nat 8 PipelineStage2_VertexAttributeInput 0]
  | Fault _ => False
  end.
Proof.
  destruct (recordCommands 0 1 50%nat 7 3 true 60%nat 5%nat
              (mkThread 0 40%nat 41%nat (Some 42%nat) 6) init)
    as [[[[rt' g] t] unit']|f] eqn:E; [|vm_compute in E; discriminate].
  assert (Hbound : ∀ q tid', Z.of_nat (allocated q tid' init + 2) < 2 ^ 32).
  { intros q tid'. unfold allocated, find_pool, init. cbn. rewrite lookup_empty. cbn. lia. }
  assert (Hn : 3 ≠ 0) by lia.
  destruct (recordCommands_timeline_chain 0 1 50%nat 7 3 true 60%nat 5%nat
              (mkThread 0 40%nat 41%nat (Some 42%nat) 6) rt' init unit' g t
              pool_full_init Hbound Hn E) as (transfer & _ & _ & _ & Hg & _ & Hv).
  split; [exact Hv|]. rewrite Hg. reflexivity.
Defined.
End CanvasRegionRenderThreadFacts.

Module TriangleMeshFacts.
Import TriangleMesh ListFacts.
Local Open Scope Z_scope.

Lemma length_strip_row S i : 0 <= S → length (strip_row S i) = Z.to_nat (2 * S + 1).
Proof.
  intros HS. unfold strip_row. rewrite length_app. cbn [length].
  assert (H : ∀ (l : list Z), length (j ← l; [wrap32 (i * S + j); wrap32 ((i + 1) * S + j)])
                              = (2 * length l)%nat).
  { induction l as [|x l IH]; [done|]. cbn. rewrite IH. lia. }
  rewrite H, length_seqZ. lia.
Qed.




Lemma strip_row_valid S T i :
  0 <= S → 0 <= i < T - 1 → S * T < 2 ^ 32 →
  Forall (λ k, k = RESTART ∨ 0 <= k < S * T) (strip_row S i).
Proof.
  intros HS Hi Hb. unfold strip_row. apply Forall_app. split; [|constructor; [by left|constructor]].
  apply Forall_bind_list. intros j Hj. apply elem_of_seqZ in Hj.
  assert (0 <= i * S + j < S * T) by nia.
  assert (0 <= (i + 1) * S + j < S * T) by nia.
  unfold wrap32. rewrite !Z.mod_small by lia.
  constructor; [right; lia|]. constructor; [right; lia|]. constructor.
Qed.

(** X23. For a grid of [S] by [T] vertices with [T >= 2] and fewer than
    [2^32] vertices, [buildParametric] produces [S * T] vertices and an
    index list of [T - 1] strips of [2 * S] indices separated by restart
    indices, [(T - 1) * (2 * S + 1) - 1] entries in all, every one of which
    is the restart index or the index of a vertex; with [T = 1] it removes
    the last element of an empty vector. *)
Theorem buildParametric_indices_valid
    {float Vertex : Type} (float_of_uint32 : Z → float) (fdiv : float → float → float)
    (getVertex : float → float → Vertex) (S T : Z) :
  (T = 1 → indicesOf S T = Fault OutOfBounds)
  ∧ (0 <= S → 2 <= T → S * T < 2 ^ 32 → T < 2 ^ 32 →
     ∃ indices,
       indicesOf S T = Done indices
       ∧ length indices = Z.to_nat ((T - 1) * (2 * S + 1) - 1)
       ∧ Forall (λ k, k = RESTART ∨ 0 <= k < S * T) indices
       ∧ length (verticesOf float_of_uint32 fdiv getVertex S T) = Z.to_nat (S * T)).
Proof.
  split; [by intros ->|]. intros HS HT Hb HT'.
  assert (Hw : wrap32 (T - 1) = T - 1) by (unfold wrap32; rewrite Z.mod_small; lia).
  assert (Hlen : length (index_rows S T) = Z.to_nat ((T - 1) * (2 * S + 1))).
  { unfold index_rows. rewrite Hw.
    rewrite (length_bind_uniform _ _ (Z.to_nat (2 * S + 1))).
    - rewrite length_seqZ. nia.
    - intros i _. by apply length_strip_row. }
  assert (Hall : Forall (λ k, k = RESTART ∨ 0 <= k < S * T) (index_rows S T)).
  { unfold index_rows. rewrite Hw. apply Forall_bind_list. intros i Hi.
    apply elem_of_seqZ in Hi. apply strip_row_valid; lia. }
  unfold indicesOf. destruct (index_rows S T) as [|k rows] eqn:E.
  { cbn in Hlen. nia. }
  exists (removelast (k :: rows)). split; [done|]. split; [|split].
  - assert (Hrl : ∀ (l : list Z), l ≠ [] → length (removelast l) = pred (length l)).
    { intros l Hl. destruct (exists_last Hl) as (l' & x & ->).
      rewrite removelast_last, length_app. cbn. lia. }
    rewrite Hrl by done. rewrite Hlen. nia.
  - by apply Forall_removelast.
  - unfold verticesOf.
    rewrite (length_bind_uniform _ _ (Z.to_nat S)).
    + rewrite length_seqZ. nia.
    + intros it _. rewrite (length_bind_uniform _ _ 1%nat).
      * rewrite length_seqZ. lia.
      * done.
Qed.

Lemma buildParametric_indices_valid_witness :
  indicesOf 2 3 = Done [0; 2; 1; 3; 0xffffffff; 2; 4; 3; 5].
Proof.
  destruct (proj2 (buildParametric_indices_valid (λ z, z) Z.div (λ s t, (s, t)) 2 3))
    as (indices & Hi & _); [lia..|].
  rewrite Hi. f_equal. vm_compute in Hi. congruence.
Defined.
End TriangleMeshFacts.

Module TriangleMeshInstanceSetFacts.
Import TriangleMeshInstanceSet.
Local Open Scope Z_scope.

(** The buffer is large enough for the collected instances. *)
Definition buffer_fits (st : State) : Prop :=
  m_instances_size st <= m_bufferCapacity st
  ∧ (0 < m_instances_size st →
     ∃ buffer size, m_bufferAllocation st = Some (buffer, size)
                    ∧ size = m_bufferCapacity st * sizeof_DefaultInstance
                    ∧ copySize st <= size).

(** X24. After [endInstanceCollection] the capacity is at least the number
    of collected instances and a non-empty set has a device buffer that
    the copy of [updateDeviceMemory] fits into; the capacity never shrinks;
    a buffer is replaced only when the instances exceed the capacity, then
    by one of at least 16 and at least twice as many instances, and the
    old one is handed to the deferred deallocation. *)
Theorem endInstanceCollection_capacity (newBuffer : nat) (n : Z) (st : State) :
  0 <= n < 2 ^ 32 → 0 <= m_bufferCapacity st < 2 ^ 31 →
  (∀ buffer size, m_bufferAllocation st = Some (buffer, size) →
                  size = m_bufferCapacity st * sizeof_DefaultInstance) →
  (0 < m_bufferCapacity st → is_Some (m_bufferAllocation st)) →
  let r := endInstanceCollection newBuffer (collect n st) in
  buffer_fits r.2
  ∧ m_bufferCapacity st <= m_bufferCapacity r.2 < 2 ^ 32
  ∧ (n <= m_bufferCapacity st → r = ([], collect n st))
  ∧ (m_bufferCapacity st < n →
     r.1 = [m_bufferAllocation st]
     ∧ 16 <= m_bufferCapacity r.2 ∧ 2 * m_bufferCapacity st <= m_bufferCapacity r.2).
Proof.
  intros Hn Hcap Hsize Hsome r. subst r.
  unfold endInstanceCollection, collect. cbn [m_instances_size m_bufferCapacity m_bufferAllocation].
  destruct (Z.ltb_spec (m_bufferCapacity st) n) as [Hlt|Hge].
  - cbn [fst snd]. unfold wrap32, wrap64, sizeof_DefaultInstance in *.
    rewrite (Z.mod_small n), (Z.mod_small (2 * m_bufferCapacity st)) by lia.
    unfold buffer_fits, copySize, wrap64, sizeof_DefaultInstance.
    cbn [m_instances_size m_bufferCapacity m_bufferAllocation].
    rewrite (Z.mod_small (n * 140)) by lia.
    rewrite (Z.mod_small (_ * 140)) by lia.
    split; [|split; [lia|split; [lia|]]].
    + split; [lia|]. intros _. eexists _, _. split; [done|]. split; [done|]. lia.
    + intros _. split; [done|]. lia.
  - cbn [fst snd]. unfold buffer_fits, copySize, wrap64, sizeof_DefaultInstance in *.
    cbn [m_instances_size m_bufferCapacity m_bufferAllocation].
    rewrite (Z.mod_small (n * 140)) by lia.
    split; [|split; [lia|split; [done|lia]]].
    split; [lia|]. intros Hpos.
    destruct (Hsome ltac:(lia)) as [[buffer size] Hb].
    exists buffer, size. split; [done|]. rewrite (Hsize _ _ Hb). split; [done|]. lia.
Qed.

Lemma endInstanceCollection_capacity_witness :
  endInstanceCollection 5%nat (collect 40 (mkState 3 (Some (4%nat, 2240)) 16))
  = ([Some (4%nat, 2240)], mkState 40 (Some (5%nat, 5600)) 40)
  ∧ 2 * 16 <= 40.
Proof.
  split; [reflexivity|].
  refine (proj2 (proj2 (proj2 (proj2 (proj2
            (endInstanceCollection_capacity 5%nat 40 (mkState 3 (Some (4%nat, 2240)) 16)
               _ _ _ _))) _))).
  - lia.
  - cbn. lia.
  - cbn. intros buffer size [= <- <-]. reflexivity.
  - cbn. intros _. by eexists.
  - cbn. lia.
Defined.
End TriangleMeshInstanceSetFacts.

Module SceneFacts.
Import LogicalDisplay Scene ListFacts.
Local Open Scope Z_scope.

(** The ids that [n] calls of [Node::Node] give, from the counter value
    [start]. *)
Definition ids_from (start : Z) (n : nat) : list Z :=
  (λ k : nat, wrap32 (start + Z.of_nat k)) <$> seq 0 n.

(** The number of tori of a grid: the front plane and the back plane. *)
Definition grid_count (x y : Z) : Z :=
  x * y + (2 * Z.max (x ÷ 4) 1 - 1) * (2 * Z.max (y ÷ 4) 1 - 1).

Lemma ids_from_app start n m :
  ids_from start (n + m) = ids_from start n ++ ids_from (wrap32 (start + Z.of_nat n)) m.
Proof.
  unfold ids_from. rewrite seq_app, fmap_app. f_equal. cbn [Nat.add].
  replace (seq n m) with (Nat.add n <$> seq 0 m)
    by (rewrite fmap_add_seq; f_equal; lia).
  rewrite <- list_fmap_compose. apply list_fmap_ext.
  intros _ k _. cbn. unfold wrap32.
  rewrite Zplus_mod_idemp_l. f_equal. lia.
Qed.

Lemma ids_from_NoDup start n : Z.of_nat n <= 2 ^ 32 → NoDup (ids_from start n).
Proof.
  intros Hn. unfold ids_from. apply NoDup_fmap_2_strong; [|apply NoDup_seq].
  intros a b Ha Hb Heq. apply elem_of_seq in Ha, Hb. unfold wrap32 in Heq.
  assert (Hd : (Z.of_nat a - Z.of_nat b) mod 2 ^ 32 = 0).
  { replace (Z.of_nat a - Z.of_nat b) with ((start + Z.of_nat a) - (start + Z.of_nat b)) by lia.
    rewrite Zminus_mod, Heq, Z.sub_diag. reflexivity. }
  apply Z.mod_divide in Hd; [|lia]. destruct Hd as [q Hq].
  assert (q = 0) by nia. lia.
Qed.

Section Nodes.
Context {float NodeData : Type}.
Variable plane0 plane1 : float.
Variable torus : float → Z → Z → Z → Z → NodeData.

(** The grid has the desired size. *)
Definition in_sync (st : State NodeData) : Prop :=
  m_numDonutsX st = m_desiredNumDonutsX st ∧ m_numDonutsY st = m_desiredNumDonutsY st
  ∧ 1 <= m_desiredNumDonutsX st <= INT32_MAX ∧ 1 <= m_desiredNumDonutsY st <= INT32_MAX.

(** The nodes that one call of [fillDonutPlane] appends, row by row. *)
Definition plane_data (z : float) (numDonutsX numDonutsY : Z) : list NodeData :=
  y ← seqZ 0 numDonutsY; x ← seqZ 0 numDonutsX; [torus z numDonutsX numDonutsY x y].

Lemma emplace_all (ds : list NodeData) (st : State NodeData) :
  let st' := foldl (λ st d, emplace_back d st) st ds in
  0 <= nextId st < 2 ^ 32 →
  m_desiredNumDonutsX st' = m_desiredNumDonutsX st
  ∧ m_desiredNumDonutsY st' = m_desiredNumDonutsY st
  ∧ m_numDonutsX st' = m_numDonutsX st ∧ m_numDonutsY st' = m_numDonutsY st
  ∧ m_data <$> m_geometryNodes st' = (m_data <$> m_geometryNodes st) ++ ds
  ∧ m_id <$> m_geometryNodes st'
    = (m_id <$> m_geometryNodes st) ++ ids_from (nextId st) (length ds)
  ∧ nextId st' = wrap32 (nextId st + Z.of_nat (length ds)).
Proof.
  revert st. induction ds as [|d ds IH]; intros st; cbn [foldl]; intros Hid.
  - cbn. rewrite !app_nil_r, Z.add_0_r. unfold wrap32. rewrite Z.mod_small by done. done.
  - destruct (IH (emplace_back d st)) as (H1 & H2 & H3 & H4 & H5 & H6 & H7).
    { cbn. unfold wrap32. apply Z.mod_pos_bound. lia. }
    rewrite H1, H2, H3, H4, H5, H6, H7. cbn [emplace_back m_desiredNumDonutsX
      m_desiredNumDonutsY m_numDonutsX m_numDonutsY m_geometryNodes nextId].
    rewrite !fmap_app. cbn [fmap list_fmap m_data m_id]. rewrite <- !app_assoc.
    split_and!; try done.
    + f_equal. change (length (d :: ds)) with (1 + length ds)%nat.
      rewrite ids_from_app. cbn [app]. f_equal.
      unfold ids_from. cbn. rewrite Z.add_0_r. change (Z.of_nat 1) with 1.
      f_equal. unfold wrap32. by rewrite Z.mod_small.
    + cbn [length]. unfold wrap32. rewrite Zplus_mod_idemp_l. f_equal. lia.
Qed.



Lemma fillDonutPlane_emplace (z : float) (numDonutsX numDonutsY : Z) (st : State NodeData) :
  fillDonutPlane torus z numDonutsX numDonutsY st
  = foldl (λ st d, emplace_back d st) st
      (y ← seqZ 0 (to_int32 numDonutsY); x ← seqZ 0 (to_int32 numDonutsX);
       [torus z numDonutsX numDonutsY x y]).
Proof.
  unfold fillDonutPlane. rewrite foldl_bind. apply foldl_pointwise. intros st' y.
  rewrite foldl_bind. apply foldl_pointwise. intros st'' x. reflexivity.
Qed.

Lemma length_plane (z : float) (nx ny mx my : Z) :
  0 <= mx → 0 <= my →
  length (y ← seqZ 0 my; x ← seqZ 0 mx; [torus z nx ny x y]) = Z.to_nat (mx * my).
Proof.
  intros Hx Hy.
  assert (Hrow : ∀ (f : Z → NodeData) (l : list Z), length (x ← l; [f x]) = length l).
  { intros f l. induction l as [|x l IH]; [done|]. cbn. by rewrite IH. }
  assert (Hrows : ∀ (l : list Z), length (y ← l; x ← seqZ 0 mx; [torus z nx ny x y])
                                  = (length l * Z.to_nat mx)%nat).
  { induction l as [|y l IH]; [done|]. cbn. rewrite length_app, IH, Hrow, length_seqZ. lia. }
  rewrite Hrows, length_seqZ. nia.
Qed.

Lemma to_int32_wrap32_small (z : Z) : 0 <= z <= INT32_MAX → to_int32 (wrap32 z) = z.
Proof.
  unfold INT32_MAX, to_int32, wrap32. intros Hz.
  rewrite (Z.mod_small z) by lia. rewrite Z.mod_small by lia. lia.
Qed.

Lemma back_plane_bounds (x : Z) :
  1 <= x <= INT32_MAX → 1 <= 2 * Z.max (x ÷ 4) 1 - 1 <= INT32_MAX.
Proof.
  unfold INT32_MAX. intros Hx.
  assert (0 <= x ÷ 4 <= x).
  { rewrite Z.quot_div_nonneg by lia. split; [apply Z.div_pos; lia|].
    apply Z.div_le_upper_bound; lia. }
  assert (4 * (x ÷ 4) <= x).
  { rewrite Z.quot_div_nonneg by lia. apply Z.mul_div_le. lia. }
  lia.
Qed.

(** What [rebuild] does when the grid does not have the desired size. *)
Lemma rebuild_fires (st : State NodeData) :
  let x := Z.max 1 (m_desiredNumDonutsX st) in
  let y := Z.max 1 (m_desiredNumDonutsY st) in
  let bx := 2 * Z.max (x ÷ 4) 1 - 1 in
  let by_ := 2 * Z.max (y ÷ 4) 1 - 1 in
  let st' := rebuild plane0 plane1 torus st in
  m_desiredNumDonutsX st <= INT32_MAX → m_desiredNumDonutsY st <= INT32_MAX →
  0 <= nextId st < 2 ^ 32 →
  x ≠ m_numDonutsX st ∨ y ≠ m_numDonutsY st →
  m_desiredNumDonutsX st' = x ∧ m_desiredNumDonutsY st' = y
  ∧ m_numDonutsX st' = x ∧ m_numDonutsY st' = y
  ∧ m_data <$> m_geometryNodes st'
    = (b ← seqZ 0 y; a ← seqZ 0 x; [torus plane0 x y a b])
      ++ (b ← seqZ 0 by_; a ← seqZ 0 bx; [torus plane1 bx by_ a b])
  ∧ m_id <$> m_geometryNodes st' = ids_from (nextId st) (Z.to_nat (grid_count x y))
  ∧ length (m_geometryNodes st') = Z.to_nat (grid_count x y)
  ∧ nextId st' = wrap32 (nextId st + grid_count x y).
Proof.
  intros x y bx by_ st' Hx Hy Hid Hne. unfold INT32_MAX in Hx, Hy.
  assert (Hx' : 1 <= x <= INT32_MAX) by (unfold INT32_MAX; subst x; lia).
  assert (Hy' : 1 <= y <= INT32_MAX) by (unfold INT32_MAX; subst y; lia).
  pose proof (back_plane_bounds x Hx') as Hbx. pose proof (back_plane_bounds y Hy') as Hby.
  fold bx in Hbx. fold by_ in Hby.
  assert (Hst' : st' = fillDonutPlane torus plane1 (wrap32 bx) (wrap32 by_)
                         (fillDonutPlane torus plane0 (wrap32 x) (wrap32 y)
                            (mkState x y x y [] (nextId st)))).
  { subst st'. unfold rebuild. fold x y. fold bx by_.
    destruct (negb (x =? m_numDonutsX st) || negb (y =? m_numDonutsY st)) eqn:E; [done|].
    apply orb_false_elim in E as [E1 E2].
    apply negb_false_iff, Z.eqb_eq in E1. apply negb_false_iff, Z.eqb_eq in E2. lia. }
  assert (Hwx : wrap32 x = x) by (unfold wrap32, INT32_MAX in *; rewrite Z.mod_small; lia).
  assert (Hwy : wrap32 y = y) by (unfold wrap32, INT32_MAX in *; rewrite Z.mod_small; lia).
  assert (Hwbx : wrap32 bx = bx) by (unfold wrap32, INT32_MAX in *; rewrite Z.mod_small; lia).
  assert (Hwby : wrap32 by_ = by_)
    by (unfold wrap32, INT32_MAX in *; rewrite Z.mod_small; lia).
  rewrite !fillDonutPlane_emplace in Hst'.
  rewrite !to_int32_wrap32_small in Hst' by (unfold INT32_MAX in *; lia).
  rewrite Hwx, Hwy, Hwbx, Hwby in Hst'.
  set (front := y0 ← seqZ 0 y; x0 ← seqZ 0 x; [torus plane0 x y x0 y0]) in *.
  set (back := y0 ← seqZ 0 by_; x0 ← seqZ 0 bx; [torus plane1 bx by_ x0 y0]) in *.
  set (st0 := mkState x y x y [] (nextId st)) in *.
  destruct (emplace_all front st0) as (F1 & F2 & F3 & F4 & F5 & F6 & F7); [done|].
  destruct (emplace_all back (foldl (λ st d, emplace_back d st) st0 front))
    as (B1 & B2 & B3 & B4 & B5 & B6 & B7).
  { rewrite F7. unfold wrap32. apply Z.mod_pos_bound. lia. }
  rewrite <- Hst' in *.
  assert (Hlf : length front = Z.to_nat (x * y)) by (apply length_plane; lia).
  assert (Hlb : length back = Z.to_nat (bx * by_)) by (apply length_plane; lia).
  assert (Hcount : Z.to_nat (grid_count x y) = (length front + length back)%nat).
  { unfold grid_count. fold bx by_. rewrite Hlf, Hlb. nia. }
  assert (Hids : m_id <$> m_geometryNodes st' = ids_from (nextId st) (Z.to_nat (grid_count x y))).
  { rewrite B6, F6. cbn [m_geometryNodes st0 fmap list_fmap app nextId].
    rewrite Hcount, ids_from_app. f_equal.
    by rewrite F7. }
  split_and!.
  - by rewrite B1, F1.
  - by rewrite B2, F2.
  - by rewrite B3, F3.
  - by rewrite B4, F4.
  - by rewrite B5, F5.
  - exact Hids.
  - rewrite <- (length_fmap m_id), Hids. unfold ids_from. by rewrite length_fmap, length_seq.
  - rewrite B7, F7. cbn [st0 nextId]. unfold wrap32. rewrite Zplus_mod_idemp_l. f_equal.
    unfold grid_count. fold bx by_. rewrite Hlf, Hlb. unfold INT32_MAX in *. nia.
Qed.

(** X25. When the grid does not have the desired size, [rebuild] clamps the
    desired size to at least 1, makes it the size of the grid and replaces
    the nodes by the front plane of [x * y] tori, row by row, followed by
    the back plane of [(2 * max (x / 4) 1 - 1) * (2 * max (y / 4) 1 - 1)]
    tori; the ids of the nodes continue the node counter and are pairwise
    different. *)
Theorem rebuild_fills_both_planes (st : State NodeData) :
  let x := Z.max 1 (m_desiredNumDonutsX st) in
  let y := Z.max 1 (m_desiredNumDonutsY st) in
  let bx := 2 * Z.max (x ÷ 4) 1 - 1 in
  let by_ := 2 * Z.max (y ÷ 4) 1 - 1 in
  let st' := rebuild plane0 plane1 torus st in
  m_desiredNumDonutsX st <= INT32_MAX → m_desiredNumDonutsY st <= INT32_MAX →
  0 <= nextId st < 2 ^ 32 →
  x ≠ m_numDonutsX st ∨ y ≠ m_numDonutsY st →
  in_sync st'
  ∧ m_numDonutsX st' = x ∧ m_numDonutsY st' = y
  ∧ m_data <$> m_geometryNodes st'
    = (b ← seqZ 0 y; a ← seqZ 0 x; [torus plane0 x y a b])
      ++ (b ← seqZ 0 by_; a ← seqZ 0 bx; [torus plane1 bx by_ a b])
  ∧ length (m_geometryNodes st') = Z.to_nat (x * y + bx * by_)
  ∧ m_id <$> m_geometryNodes st' = ids_from (nextId st) (length (m_geometryNodes st'))
  ∧ (x * y + bx * by_ <= 2 ^ 32 → NoDup (m_id <$> m_geometryNodes st')).
Proof.
  intros x y bx by_ st' Hx Hy Hid Hne.
  destruct (rebuild_fires st Hx Hy Hid Hne) as (H1 & H2 & H3 & H4 & H5 & H6 & H7 & _).
  fold x y bx by_ st' in H1, H2, H3, H4, H5, H6, H7.
  change (grid_count x y) with (x * y + bx * by_) in *.
  split_and!; try done.
  - unfold in_sync. rewrite H1, H2, H3, H4. unfold INT32_MAX in *. subst x y. lia.
  - by rewrite H7.
  - intros Hc. rewrite H6. apply ids_from_NoDup.
    assert (Hx1 : 1 <= x <= INT32_MAX) by (unfold INT32_MAX in *; subst x; lia).
    assert (Hy1 : 1 <= y <= INT32_MAX) by (unfold INT32_MAX in *; subst y; lia).
    pose proof (back_plane_bounds x Hx1) as Hbx. pose proof (back_plane_bounds y Hy1) as Hby.
    fold bx in Hbx. fold by_ in Hby. nia.
Qed.

(** When the grid has the desired size, [rebuild] changes nothing. *)
Lemma rebuild_in_sync (st : State NodeData) : in_sync st → rebuild plane0 plane1 torus st = st.
Proof.
  intros (Hx & Hy & Hdx & Hdy). unfold rebuild.
  rewrite !Z.max_r by lia. rewrite Hx, Hy, !Z.eqb_refl. cbn. destruct st; cbn in *. congruence.
Qed.

(** What a key handler that rebuilds the grid of [st] leaves: the desired
    size and the grid size of [st], the nodes of both planes built
    afresh, under the next ids of the node counter, which has moved on by
    their number. *)
Definition rebuilt (st st' : State NodeData) : Prop :=
  let x := m_numDonutsX st in
  let y := m_numDonutsY st in
  let bx := 2 * Z.max (x ÷ 4) 1 - 1 in
  let by_ := 2 * Z.max (y ÷ 4) 1 - 1 in
  in_sync st'
  ∧ m_numDonutsX st' = x ∧ m_numDonutsY st' = y
  ∧ m_desiredNumDonutsX st' = m_desiredNumDonutsX st
  ∧ m_desiredNumDonutsY st' = m_desiredNumDonutsY st
  ∧ m_data <$> m_geometryNodes st'
    = (b ← seqZ 0 y; a ← seqZ 0 x; [torus plane0 x y a b])
      ++ (b ← seqZ 0 by_; a ← seqZ 0 bx; [torus plane1 bx by_ a b])
  ∧ m_id <$> m_geometryNodes st' = ids_from (nextId st) (Z.to_nat (grid_count x y))
  ∧ length (m_geometryNodes st') = Z.to_nat (grid_count x y)
  ∧ nextId st' = wrap32 (nextId st + grid_count x y).

(** A handler that has written a size other than the desired one ends in
    a [rebuild] that fires. *)
Lemma rebuild_after_write (st st1 : State NodeData) :
  in_sync st → 0 <= nextId st < 2 ^ 32 →
  m_desiredNumDonutsX st1 = m_desiredNumDonutsX st →
  m_desiredNumDonutsY st1 = m_desiredNumDonutsY st →
  nextId st1 = nextId st →
  m_numDonutsX st1 ≠ m_numDonutsX st ∨ m_numDonutsY st1 ≠ m_numDonutsY st →
  rebuilt st (rebuild plane0 plane1 torus st1).
Proof.
  intros (Hx & Hy & Hdx & Hdy) Hid H1 H2 H3 Hne. unfold INT32_MAX in *.
  destruct (rebuild_fires st1) as (R1 & R2 & R3 & R4 & R5 & R6 & R7 & R8).
  - unfold INT32_MAX. lia.
  - unfold INT32_MAX. lia.
  - lia.
  - lia.
  - rewrite H1, H2, H3 in *. rewrite !Z.max_r in * by lia.
    unfold rebuilt, in_sync. cbn zeta.
    rewrite R1, R2, R3, R4, R5, R6, R7, R8, Hx, Hy. unfold INT32_MAX.
    split_and!; first [done|lia].
Qed.

(** X26. The four key handlers leave the size of the grid as it was. In a
    scene whose grid has the desired size, each of them ends with the same
    desired size and the same grid size as before: the size it writes is
    overwritten by [rebuild] with the desired size, which it does not
    touch. Decreasing a size of 1 changes nothing at all; every other call
    replaces the nodes by as many new ones: the two planes are built
    afresh for the same size, and the new nodes get the next ids of the
    node counter. *)
Theorem key_handlers_keep_the_grid_size (st : State NodeData) :
  in_sync st → m_numDonutsX st < INT32_MAX → m_numDonutsY st < INT32_MAX →
  0 <= nextId st < 2 ^ 32 →
  (∃ st', increaseNumDonutsX plane0 plane1 torus st = Some st' ∧ rebuilt st st')
  ∧ (∃ st', increaseNumDonutsY plane0 plane1 torus st = Some st' ∧ rebuilt st st')
  ∧ (m_numDonutsX st = 1 → decreaseNumDonutsX plane0 plane1 torus st = Some st)
  ∧ (m_numDonutsX st ≠ 1 →
     ∃ st', decreaseNumDonutsX plane0 plane1 torus st = Some st' ∧ rebuilt st st')
  ∧ (m_numDonutsY st = 1 → decreaseNumDonutsY plane0 plane1 torus st = Some st)
  ∧ (m_numDonutsY st ≠ 1 →
     ∃ st', decreaseNumDonutsY plane0 plane1 torus st = Some st' ∧ rebuilt st st').
Proof.
  intros Hs Hmx Hmy Hid. pose proof Hs as (Hx & Hy & Hdx & Hdy). unfold INT32_MAX in *.
  assert (Hres : ∀ z, - 2 ^ 31 <= z <= 2 ^ 31 - 1 → int32_result z = Some z).
  { intros z Hz. unfold int32_result, INT32_MIN, INT32_MAX.
    destruct (Z.leb_spec (- 2 ^ 31) z); [|lia]. destruct (Z.leb_spec z (2 ^ 31 - 1)); [done|lia]. }
  split_and!.
  - unfold increaseNumDonutsX. rewrite Hres by lia. cbn [mbind option_bind].
    eexists. split; [reflexivity|].
    apply rebuild_after_write; cbn; [done|done|done|done|done|lia].
  - unfold increaseNumDonutsY. rewrite Hres by lia. cbn [mbind option_bind].
    eexists. split; [reflexivity|].
    apply rebuild_after_write; cbn; [done|done|done|done|done|lia].
  - intros H1. unfold decreaseNumDonutsX. rewrite Hres by lia. cbn [mbind option_bind].
    rewrite H1. change (Z.max 1 (1 - 1)) with 1. f_equal.
    replace (set_numDonutsX 1 st) with st
      by (unfold set_numDonutsX; rewrite <- H1; by destruct st).
    by apply rebuild_in_sync.
  - intros H1. unfold decreaseNumDonutsX. rewrite Hres by lia. cbn [mbind option_bind].
    eexists. split; [reflexivity|].
    apply rebuild_after_write; cbn; [done|done|done|done|done|lia].
  - intros H1. unfold decreaseNumDonutsY. rewrite Hres by lia. cbn [mbind option_bind].
    rewrite H1. change (Z.max 1 (1 - 1)) with 1. f_equal.
    replace (set_numDonutsY 1 st) with st
      by (unfold set_numDonutsY; rewrite <- H1; by destruct st).
    by apply rebuild_in_sync.
  - intros H1. unfold decreaseNumDonutsY. rewrite Hres by lia. cbn [mbind option_bind].
    eexists. split; [reflexivity|].
    apply rebuild_after_write; cbn; [done|done|done|done|done|lia].
Qed.

Lemma Scene_new_in_sync : in_sync (Scene_new plane0 plane1 torus 0).
Proof.
  unfold Scene_new.
  destruct (rebuild_fires (mkState 15 9 0 0 [] 0)) as (H1 & H2 & H3 & H4 & _);
    try (cbn; unfold INT32_MAX; lia).
  unfold in_sync. rewrite H1, H2, H3, H4. cbn. unfold INT32_MAX. lia.
Qed.
End Nodes.

Lemma rebuild_fills_both_planes_witness :
  length (m_geometryNodes
            (Scene_new 0 1 (λ z nx ny x y, (z, x, y)) 0)) = 150%nat
  ∧ m_id <$> m_geometryNodes (Scene_new 0 1 (λ z nx ny x y, (z, x, y)) 0)
    = ids_from 0 150.
Proof.
  pose proof (rebuild_fills_both_planes 0 1 (λ z nx ny x y, (z, x, y))
                (mkState 15 9 0 0 [] 0)) as H.
  cbn zeta in H. destruct H as (_ & _ & _ & _ & Hlen & Hids & _).
  - unfold INT32_MAX. cbn. lia.
  - unfold INT32_MAX. cbn. lia.
  - cbn. lia.
  - cbn. lia.
  - split; [exact Hlen|]. unfold Scene_new. rewrite Hids, Hlen. reflexivity.
Defined.

Lemma key_handlers_keep_the_grid_size_witness :
  ∃ st', increaseNumDonutsX 0 1 (λ z nx ny x y, (z, x, y))
           (Scene_new 0 1 (λ z nx ny x y, (z, x, y)) 0) = Some st'
         ∧ m_numDonutsX st' = 15 ∧ m_numDonutsY st' = 9
         ∧ m_id <$> m_geometryNodes st' = ids_from 150 150
         ∧ nextId st' = 300.
Proof.
  pose proof (key_handlers_keep_the_grid_size 0 1 (λ z nx ny x y, (z, x, y))
                (Scene_new 0 1 (λ z nx ny x y, (z, x, y)) 0)
                (Scene_new_in_sync 0 1 _)) as H.
  destruct H as [(st' & Hst' & _ & Hx & Hy & _ & _ & _ & Hids & _ & Hnext) _].
  - vm_compute. reflexivity.
  - vm_compute. reflexivity.
  - vm_compute. split; [discriminate|reflexivity].
  - exists st'. split; [exact Hst'|]. split; [exact Hx|]. split; [exact Hy|].
    split; [exact Hids|exact Hnext].
Defined.
End SceneFacts.

Module VkDDisplayAppFacts.
Import VkDDisplayApp.
Local Open Scope Z_scope.

(** The selections are the entry for everything followed by entries of
    enabled displays. The index is inside the selections, and the
    highlighted render threads are those of the active selection; none if
    that is the first one, which stands for all of them. *)
Definition selection_inv (st : State) : Prop :=
  (∃ rest, m_possibleSelections st = (None, None) :: rest
           ∧ Forall (λ s : Selection, ∃ display, s.1 = Some display
                                      ∧ is_Some (renderThreads st !! display)) rest)
  ∧ 0 <= m_activeSelectionIndex st < Z.of_nat (length (m_possibleSelections st))
  ∧ ∃ visited, visitSelection st = Done visited
               ∧ highlighted st = if m_activeSelectionIndex st =? 0 then ∅
                                  else list_to_set visited.

(** A logical display is enabled once: the session never gets the same
    display from the logical device twice. *)
Fixpoint valid_run (ops : list op) (st : State) : Prop :=
  match ops with
  | [] => True
  | o :: ops' =>
    match o with
    | EnableDisplay n i (Some (d, _)) => n <= i ∨ renderThreads st !! d = None
    | _ => True
    end
    ∧ ∀ st', step o st = Done st' → valid_run ops' st'
  end.

Lemma index_in_bounds (i size : Z) :
  0 < size →
  0 <= wrap32 (wrap64 (i mod size + wrap32 size) mod size) < size.
Proof.
  intros Hs. unfold wrap32 at 1.
  pose proof (Z.mod_pos_bound (wrap64 (i mod size + wrap32 size)) size Hs) as Hm.
  pose proof (Z.mod_pos_bound (wrap64 (i mod size + wrap32 size) mod size) (2 ^ 32)
                ltac:(lia)) as Hw.
  split; [lia|].
  eapply Z.le_lt_trans; [apply Z.mod_le; lia|lia].
Qed.

Lemma index_small (i size : Z) :
  0 < size < 2 ^ 32 → wrap32 (wrap64 (i mod size + wrap32 size) mod size) = i mod size.
Proof.
  intros Hs. pose proof (Z.mod_pos_bound i size ltac:(lia)) as Hm.
  unfold wrap32, wrap64. rewrite (Z.mod_small size) by lia.
  rewrite (Z.mod_small (i mod size + size)) by lia.
  replace (i mod size + size) with (i mod size + 1 * size) by lia.
  rewrite Z.mod_add by lia. rewrite Zmod_mod. apply Z.mod_small. lia.
Qed.

Lemma visitSelection_in_bounds (st : State) :
  0 <= m_activeSelectionIndex st < Z.of_nat (length (m_possibleSelections st)) →
  ∃ visited, visitSelection st = Done visited.
Proof.
  intros Hi. unfold visitSelection, deref.
  destruct (lookup_lt_is_Some_2 (m_possibleSelections st) (Z.to_nat (m_activeSelectionIndex st)))
    as [[d t] Hl]; [lia|].
  rewrite Hl. destruct d, t; cbn; by eexists.
Qed.

Lemma setActiveSelection_inv (i : Z) (st : State) :
  selection_inv st →
  ∃ st', setActiveSelection i st = Done st' ∧ selection_inv st'
         ∧ m_possibleSelections st' = m_possibleSelections st
         ∧ renderThreads st' = renderThreads st
         ∧ m_activeSelectionIndex st'
           = wrap32 (wrap64 (i mod Z.of_nat (length (m_possibleSelections st))
                             + wrap32 (Z.of_nat (length (m_possibleSelections st))))
                     mod Z.of_nat (length (m_possibleSelections st))).
Proof.
  intros (Hsel & Hidx & visited & Hv & Hh). unfold setActiveSelection. rewrite Hv.
  cbn [mbind exec_bind setHighlighted m_possibleSelections renderThreads highlighted
       m_activeSelectionIndex].
  set (size := Z.of_nat (length (m_possibleSelections st))) in *.
  assert (Hs : 0 < size) by lia.
  destruct (Z.eqb_spec size 0) as [|_]; [lia|].
  pose proof (index_in_bounds i size Hs) as Hb.
  set (index := wrap32 (wrap64 (i mod size + wrap32 size) mod size)) in *.
  assert (Hcleared : highlighted st ∖ list_to_set visited = (∅ : gset Thread)).
  { rewrite Hh. destruct (m_activeSelectionIndex st =? 0); set_solver. }
  rewrite Hcleared.
  destruct (visitSelection_in_bounds
              (mkState (m_possibleSelections st) index (renderThreads st) ∅))
    as [v2 Hv2]; [cbn; lia|].
  destruct (Z.eqb_spec index 0) as [H0|H0].
  - eexists. split; [reflexivity|]. split; [|done].
    split; [exact Hsel|]. split; [cbn; lia|]. exists v2. split; [exact Hv2|].
    cbn. by destruct (Z.eqb_spec index 0).
  - rewrite Hv2. cbn [mbind exec_bind]. eexists. split; [reflexivity|]. split; [|done].
    split; [exact Hsel|]. split; [cbn; lia|]. exists v2. split; [exact Hv2|].
    cbn. destruct (Z.eqb_spec index 0); [done|]. set_solver.
Qed.

Lemma enableDisplay_inv n i d (st : State) :
  selection_inv st →
  match d with
  | Some (display, _) => n <= i ∨ renderThreads st !! display = None
  | None => True
  end →
  selection_inv (enableDisplay n i d st).2.
Proof.
  intros Hinv Hfresh. pose proof Hinv as ((rest & Hsel & Hrest) & Hidx & visited & Hv & Hh).
  unfold enableDisplay.
  destruct (Z.leb_spec n i) as [Hle|Hlt]; [done|].
  destruct d as [[display threads]|]; [|done].
  destruct Hfresh as [?|Hfresh]; [lia|].
  cbn [snd]. split; [|split].
  - exists (rest ++ (Some display, None) :: ((λ t, (Some display, Some t)) <$> threads)).
    cbn [m_possibleSelections renderThreads]. split; [by rewrite Hsel|].
    apply Forall_app. split.
    + eapply Forall_impl; [exact Hrest|]. intros s (d0 & Hd0 & Hsome). exists d0.
      split; [done|]. destruct (decide (d0 = display)) as [->|Hne].
      * by rewrite lookup_insert_eq.
      * by rewrite lookup_insert_ne.
    + apply Forall_cons. split.
      * exists display. split; [done|]. by rewrite lookup_insert_eq.
      * apply Forall_fmap, Forall_forall. intros t _. exists display.
        split; [done|]. by rewrite lookup_insert_eq.
  - cbn. rewrite length_app. lia.
  - cbn [m_activeSelectionIndex highlighted].
    unfold visitSelection, deref in *.
    cbn [m_possibleSelections m_activeSelectionIndex renderThreads].
    destruct (m_possibleSelections st !! Z.to_nat (m_activeSelectionIndex st))
      as [[od ot]|] eqn:Hl; [|done].
    rewrite (lookup_app_l_Some _ _ _ _ Hl). cbn [mbind exec_bind] in *.
    destruct ot as [t|]; [by exists visited|].
    destruct od as [d0|].
    + assert (Hd0 : is_Some (renderThreads st !! d0)).
      { rewrite Hsel in Hl. destruct (Z.to_nat (m_activeSelectionIndex st)) as [|k]; [done|].
        cbn in Hl. rewrite Forall_forall in Hrest.
        destruct (Hrest _ (list_elem_of_lookup_2 _ _ _ Hl)) as (d1 & Hd1 & Hs1).
        cbn in Hd1. by simplify_eq. }
      assert (d0 ≠ display) by (intros ->; rewrite Hfresh in Hd0; by destruct Hd0).
      rewrite lookup_insert_ne by done. by exists visited.
    + assert (Hz : m_activeSelectionIndex st = 0).
      { rewrite Hsel in Hl. destruct (Z.to_nat (m_activeSelectionIndex st)) as [|k] eqn:Ek;
          [lia|]. cbn in Hl. rewrite Forall_forall in Hrest.
        destruct (Hrest _ (list_elem_of_lookup_2 _ _ _ Hl)) as (d1 & Hd1 & _). done. }
      eexists. split; [done|]. rewrite Hh, Hz. done.
Qed.

Lemma run_inv (ops : list op) (st : State) :
  selection_inv st → valid_run ops st →
  ∃ st', run ops st = Done st' ∧ selection_inv st'.
Proof.
  revert st. induction ops as [|o ops IH]; intros st Hinv Hvalid; [by exists st|].
  destruct Hvalid as [Hfresh Hvalid]. cbn [run].
  assert (Hstep : ∃ st1, step o st = Done st1 ∧ selection_inv st1).
  { destruct o as [n i d|key].
    - eexists. split; [reflexivity|]. apply enableDisplay_inv; [done|].
      destruct d as [[display threads]|]; done.
    - destruct key; cbn [step handleInput];
        destruct (setActiveSelection_inv
                    (wrap32 (m_activeSelectionIndex st + 1)) st Hinv) as (st1 & H1 & H2 & _);
        destruct (setActiveSelection_inv
                    (wrap32 (m_activeSelectionIndex st - 1)) st Hinv) as (st2 & H3 & H4 & _);
        eauto. }
  destruct Hstep as (st1 & Hstep & Hinv1). rewrite Hstep. cbn [mbind exec_bind].
  apply IH; [done|]. by apply Hvalid.
Qed.

Lemma selection_inv_init : selection_inv init.
Proof.
  split; [|split].
  - exists []. split; [done|constructor].
  - cbn. lia.
  - exists []. split; done.
Qed.

(** X27. In a session that enables displays and presses the selection keys,
    no call reads outside [m_possibleSelections] or divides by zero, the
    index stays inside the selections, and the highlighted render threads
    are exactly those the active selection stands for; none is highlighted
    while the first entry, which stands for all render threads, is active. *)
Theorem highlight_follows_the_selection (ops : list op) :
  valid_run ops init →
  ∃ st, run ops init = Done st
        ∧ 0 <= m_activeSelectionIndex st < Z.of_nat (length (m_possibleSelections st))
        ∧ ∃ visited, visitSelection st = Done visited
                     ∧ highlighted st = if m_activeSelectionIndex st =? 0 then ∅
                                        else list_to_set visited.
Proof.
  intros Hvalid. destruct (run_inv ops init selection_inv_init Hvalid) as (st & Hrun & Hinv).
  exists st. split; [done|]. by destruct Hinv as (_ & Hidx & Hvis).
Qed.

Lemma highlight_follows_the_selection_witness :
  ∃ st, run [EnableDisplay 2 0 (Some (7%nat, [20%nat; 21%nat])); Press KEY_PAGE_UP;
             EnableDisplay 2 1 (Some (8%nat, [30%nat])); Press KEY_PAGE_UP; Press KEY_PAGE_UP;
             Press KEY_PAGE_DOWN] init = Done st
        ∧ m_activeSelectionIndex st = 2 ∧ highlighted st = {[20%nat]}.
Proof.
  destruct (highlight_follows_the_selection
              [EnableDisplay 2 0 (Some (7%nat, [20%nat; 21%nat])); Press KEY_PAGE_UP;
               EnableDisplay 2 1 (Some (8%nat, [30%nat])); Press KEY_PAGE_UP;
               Press KEY_PAGE_UP; Press KEY_PAGE_DOWN])
    as (st & Hrun & _ & visited & Hv & Hh).
  - cbn [valid_run]. split; [by right|]. intros st1 [= <-].
    split; [done|]. intros st2 H2. vm_compute in H2. injection H2 as <-.
    split; [by right|]. intros st3 [= <-].
    split; [done|]. intros st4 H4. vm_compute in H4. injection H4 as <-.
    split; [done|]. intros st5 H5. vm_compute in H5. injection H5 as <-.
    split; [done|]. intros st6 H6. done.
  - exists st. split; [exact Hrun|]. vm_compute in Hrun. injection Hrun as <-.
    split; [reflexivity|]. rewrite Hh. vm_compute in Hv. injection Hv as <-.
    cbn. set_solver.
Defined.

(** X28. [setActiveSelection] stores an index inside [m_possibleSelections]
    whatever it is given: the given index modulo the number of selections.
    PAGE_UP moves to the next entry and from the last one to the first.
    PAGE_DOWN moves to the previous entry, but from the first entry, where
    the [uint32_t] index wraps around to [2^32 - 1], it reaches the last
    entry only if the number of selections divides [2^32]. *)
Theorem setActiveSelection_index (i : Z) (st : State) :
  selection_inv st →
  let size := Z.of_nat (length (m_possibleSelections st)) in
  size < 2 ^ 32 →
  (∃ st', setActiveSelection i st = Done st' ∧ m_activeSelectionIndex st' = i mod size
          ∧ 0 <= m_activeSelectionIndex st' < size)
  ∧ (∃ st', handleInput KEY_PAGE_UP st = Done st'
            ∧ m_activeSelectionIndex st'
              = if m_activeSelectionIndex st =? size - 1 then 0
                else m_activeSelectionIndex st + 1)
  ∧ (∃ st', handleInput KEY_PAGE_DOWN st = Done st'
            ∧ m_activeSelectionIndex st'
              = if m_activeSelectionIndex st =? 0 then (2 ^ 32 - 1) mod size
                else m_activeSelectionIndex st - 1)
  ∧ ((2 ^ 32 - 1) mod size = size - 1 ↔ (size | 2 ^ 32)).
Proof.
  intros Hinv size Hsize. pose proof Hinv as (_ & Hidx & _). fold size in Hidx.
  assert (Hset : ∀ j, ∃ st', setActiveSelection j st = Done st'
                             ∧ m_activeSelectionIndex st' = j mod size).
  { intros j. destruct (setActiveSelection_inv j st Hinv) as (st' & Hs & _ & _ & _ & Hi).
    exists st'. split; [done|]. rewrite Hi. apply index_small. lia. }
  split; [|split; [|split]].
  - destruct (Hset i) as (st' & Hs & Hi). exists st'. split; [done|]. split; [done|].
    rewrite Hi. apply Z.mod_pos_bound. lia.
  - cbn [handleInput]. destruct (Hset (wrap32 (m_activeSelectionIndex st + 1)))
      as (st' & Hs & Hi).
    exists st'. split; [done|]. rewrite Hi. unfold wrap32.
    rewrite (Z.mod_small (_ + 1)) by lia.
    destruct (Z.eqb_spec (m_activeSelectionIndex st) (size - 1)) as [->|Hne].
    + replace (size - 1 + 1) with size by lia. apply Z.mod_same. lia.
    + apply Z.mod_small. lia.
  - cbn [handleInput]. destruct (Hset (wrap32 (m_activeSelectionIndex st - 1)))
      as (st' & Hs & Hi).
    exists st'. split; [done|]. rewrite Hi. unfold wrap32.
    destruct (Z.eqb_spec (m_activeSelectionIndex st) 0) as [->|Hne].
    + reflexivity.
    + rewrite (Z.mod_small (_ - 1)) by lia. apply Z.mod_small. lia.
  - split.
    + intros Hm. exists ((2 ^ 32 - 1) / size + 1).
      pose proof (Z.div_mod (2 ^ 32 - 1) size ltac:(lia)) as Hdm. lia.
    + intros [q Hq]. symmetry. apply (Z.mod_unique _ _ (q - 1)); lia.
Qed.

Lemma setActiveSelection_index_witness :
  ∃ st', handleInput KEY_PAGE_DOWN
           (enableDisplay 1 0 (Some (7%nat, [20%nat])) init).2 = Done st'
         ∧ m_activeSelectionIndex st' = 0.
Proof.
  destruct (setActiveSelection_index 0 (enableDisplay 1 0 (Some (7%nat, [20%nat])) init).2)
    as (_ & _ & (st' & Hs & Hi) & _).
  - apply enableDisplay_inv; [apply selection_inv_init|by right].
  - vm_compute. reflexivity.
  - exists st'. split; [exact Hs|]. rewrite Hi. reflexivity.
Defined.
End VkDDisplayAppFacts.

Module TopologyFacts.
Import Topology ListFacts.
Local Open Scope Z_scope.

(** Display [p] is reported by physical device [devIdx] of device group
    [devGroupIdx]. *)
Definition reports (devGroups : list PhysicalDeviceGroup) (devGroupIdx devIdx : Z)
    (p : DisplayPropertiesKHR) : Prop :=
  ∃ (g d : nat) devGroup displays,
    devGroupIdx = Z.of_nat g ∧ devIdx = Z.of_nat d
    ∧ devGroups !! g = Some devGroup ∧ devGroup !! d = Some displays ∧ p ∈ displays.

(** The reports in the order of the loops. *)
Definition events (devGroups : list PhysicalDeviceGroup) : list (Z * Z * DisplayPropertiesKHR) :=
  '(g, devGroup) ← imap pair devGroups;
  '(d, displays) ← imap pair devGroup;
  p ← displays; [(Z.of_nat g, Z.of_nat d, p)].



Lemma queryTolopogy_events (devGroups : list PhysicalDeviceGroup) :
  queryTolopogy devGroups
  = foldl (λ infos '(g, d, p), add_display g d p infos) [] (events devGroups).
Proof.
  unfold queryTolopogy, events. rewrite foldl_bind.
  apply foldl_pointwise. intros infos [g devGroup].
  rewrite foldl_bind. apply foldl_pointwise. intros infos' [d displays].
  rewrite foldl_bind. apply foldl_pointwise. intros infos'' p. reflexivity.
Qed.

Lemma elem_of_imap_pair {A} (l : list A) (i : nat) (x : A) :
  (i, x) ∈ imap pair l ↔ l !! i = Some x.
Proof.
  rewrite list_elem_of_lookup. split.
  - intros [k Hk]. rewrite list_lookup_imap in Hk.
    destruct (l !! k) eqn:E; cbn in Hk; [|done]. by simplify_eq.
  - intros Hl. exists i. rewrite list_lookup_imap, Hl. done.
Qed.

Lemma elem_of_events (devGroups : list PhysicalDeviceGroup) g d p :
  (g, d, p) ∈ events devGroups ↔ reports devGroups g d p.
Proof.
  unfold events, reports. rewrite list_elem_of_bind. split.
  - intros ([gi devGroup] & Hin & Hg%elem_of_imap_pair).
    apply list_elem_of_bind in Hin as ([di displays] & Hin & Hd%elem_of_imap_pair).
    apply list_elem_of_bind in Hin as (p' & Hin & Hp).
    apply list_elem_of_singleton in Hin. simplify_eq.
    by exists gi, di, devGroup, displays.
  - intros (gi & di & devGroup & displays & -> & -> & Hg & Hd & Hp).
    exists (gi, devGroup). split; [|by apply elem_of_imap_pair].
    apply list_elem_of_bind. exists (di, displays). split; [|by apply elem_of_imap_pair].
    apply list_elem_of_bind. exists p. split; [|done]. by apply list_elem_of_singleton.
Qed.

(** What [m_displayInfos] is after the reports [es]. *)
Record listed (es : list (Z * Z * DisplayPropertiesKHR)) (infos : list DisplayInfo) : Prop := {
  listed_once : NoDup (display ∘ m_props <$> infos);
  listed_all : ∀ g d p, (g, d, p) ∈ es → ∃ info, info ∈ infos
                                                ∧ display (m_props info) = display p;
  listed_indices : ∀ info, info ∈ infos →
    ∀ d, d ∈ m_physicalDeviceIndices info
         ↔ ∃ g p, (g, d, p) ∈ es ∧ display p = display (m_props info);
  listed_first : ∀ info, info ∈ infos →
    ∃ es1 d es2, es = es1 ++ (m_deviceGroupIndex info, d, m_props info) :: es2
                 ∧ ∀ e, e ∈ es1 → display e.2 ≠ display (m_props info)
}.

Lemma listed_nil : listed [] [].
Proof.
  split.
  - constructor.
  - intros g d p Hin. by apply elem_of_nil in Hin.
  - intros info Hin. by apply elem_of_nil in Hin.
  - intros info Hin. by apply elem_of_nil in Hin.
Qed.

Lemma listed_step es infos g d p :
  listed es infos → listed (es ++ [(g, d, p)]) (add_display g d p infos).
Proof.
  intros [Honce Hall Hidx Hfirst]. unfold add_display.
  destruct (list_find _ infos) as [[pos di]|] eqn:Hfind.
  - apply list_find_Some in Hfind as (Hpos & Hdi & Hbefore).
    set (di' := mkDisplayInfo (m_props di) (m_deviceGroupIndex di)
                              ({[d]} ∪ m_physicalDeviceIndices di)).
    assert (Hhandles : display ∘ m_props <$> <[pos := di']> infos = display ∘ m_props <$> infos).
    { rewrite list_fmap_insert. apply list_insert_id. by rewrite list_lookup_fmap, Hpos. }
    assert (Hin' : ∀ info, info ∈ <[pos := di']> infos →
                           info = di' ∨ (info ∈ infos ∧ info ≠ di
                                         ∧ display (m_props info) ≠ display p)).
    { intros info Hin. apply list_elem_of_lookup in Hin as [k Hk].
      destruct (decide (k = pos)) as [->|Hne].
      - rewrite list_lookup_insert_eq in Hk by (by eapply lookup_lt_Some). left. by simplify_eq.
      - rewrite list_lookup_insert_ne in Hk by done. right.
        assert (Hd : display (m_props info) ≠ display (m_props di)).
        { intros Heq. apply Hne.
          eapply (NoDup_lookup _ k pos); [exact Honce| |].
          - by rewrite list_lookup_fmap, Hk.
          - rewrite list_lookup_fmap, Hpos. cbn. by f_equal. }
        split; [by eapply list_elem_of_lookup_2|]. split; [by intros ->|]. by rewrite <- Hdi. }
    split.
    + by rewrite Hhandles.
    + intros g0 d0 p0 Hin. apply elem_of_app in Hin as [Hin|Hin].
      * destruct (Hall _ _ _ Hin) as (info & Hi & Hh).
        apply list_elem_of_lookup in Hi as [k Hk].
        destruct (decide (k = pos)) as [->|Hne].
        -- exists di'. split; [|by simplify_eq]. eapply list_elem_of_lookup_2.
           apply list_lookup_insert_eq. by eapply lookup_lt_Some.
        -- exists info. split; [|done].
           apply (list_elem_of_lookup_2 _ k). by rewrite list_lookup_insert_ne.
      * apply list_elem_of_singleton in Hin. simplify_eq. exists di'. split; [|done].
        eapply list_elem_of_lookup_2. apply list_lookup_insert_eq. by eapply lookup_lt_Some.
    + intros info Hin d0. destruct (Hin' info Hin) as [->|(Hi & Hne & Hd)].
      * cbn [m_physicalDeviceIndices m_props di'].
        rewrite elem_of_union, elem_of_singleton,
          (Hidx di (list_elem_of_lookup_2 _ _ _ Hpos) d0). split.
        -- intros [->|(g0 & p0 & Hin0 & Hp0)].
           ++ exists g, p. split; [|done]. apply elem_of_app. right.
              by apply list_elem_of_singleton.
           ++ exists g0, p0. split; [|done]. apply elem_of_app. by left.
        -- intros (g0 & p0 & Hin0 & Hp0). apply elem_of_app in Hin0 as [Hin0|Hin0].
           ++ right. by exists g0, p0.
           ++ apply list_elem_of_singleton in Hin0. left. by simplify_eq.
      * rewrite (Hidx info Hi d0). split.
        -- intros (g0 & p0 & Hin0 & Hp0). exists g0, p0. split; [|done].
           apply elem_of_app. by left.
        -- intros (g0 & p0 & Hin0 & Hp0). apply elem_of_app in Hin0 as [Hin0|Hin0].
           ++ by exists g0, p0.
           ++ apply list_elem_of_singleton in Hin0. simplify_eq.
    + intros info Hin.
      assert (Hold : ∃ info0, info0 ∈ infos ∧ m_props info0 = m_props info
                              ∧ m_deviceGroupIndex info0 = m_deviceGroupIndex info).
      { destruct (Hin' info Hin) as [->|(Hi & _)].
        - exists di. split; [by eapply list_elem_of_lookup_2|done].
        - by exists info. }
      destruct Hold as (info0 & Hi0 & Hp0 & Hg0).
      destruct (Hfirst info0 Hi0) as (es1 & d1 & es2 & -> & Hes1).
      exists es1, d1, (es2 ++ [(g, d, p)]). rewrite <- Hp0, <- Hg0.
      split; [by rewrite <- app_assoc|done].
  - apply list_find_None in Hfind. rewrite Forall_forall in Hfind.
    split.
    + rewrite fmap_app. cbn. apply NoDup_app. split; [done|]. split; [|apply NoDup_singleton].
      intros h Hh Hh'. apply list_elem_of_singleton in Hh'. subst h.
      apply list_elem_of_fmap in Hh as (info & Heq & Hi). cbn in Heq.
      by apply (Hfind info Hi).
    + intros g0 d0 p0 Hin. apply elem_of_app in Hin as [Hin|Hin].
      * destruct (Hall _ _ _ Hin) as (info & Hi & Hh). exists info.
        split; [|done]. apply elem_of_app. by left.
      * apply list_elem_of_singleton in Hin. simplify_eq. eexists. split.
        -- apply elem_of_app. right. by apply list_elem_of_singleton.
        -- done.
    + intros info Hin d0. apply elem_of_app in Hin as [Hi|Hi].
      * rewrite (Hidx info Hi d0). split.
        -- intros (g0 & p0 & Hin0 & Hp0). exists g0, p0. split; [|done].
           apply elem_of_app. by left.
        -- intros (g0 & p0 & Hin0 & Hp0). apply elem_of_app in Hin0 as [Hin0|Hin0].
           ++ by exists g0, p0.
           ++ apply list_elem_of_singleton in Hin0. simplify_eq.
              exfalso. by apply (Hfind info Hi).
      * apply list_elem_of_singleton in Hi. subst info. cbn. rewrite elem_of_singleton. split.
        -- intros ->. exists g, p. split; [|done]. apply elem_of_app. right.
           by apply list_elem_of_singleton.
        -- intros (g0 & p0 & Hin0 & Hp0). apply elem_of_app in Hin0 as [Hin0|Hin0].
           ++ exfalso. destruct (Hall _ _ _ Hin0) as (info & Hi & Hh).
              apply (Hfind info Hi). congruence.
           ++ apply list_elem_of_singleton in Hin0. by simplify_eq.
    + intros info Hin. apply elem_of_app in Hin as [Hi|Hi].
      * destruct (Hfirst info Hi) as (es1 & d1 & es2 & -> & Hes1).
        exists es1, d1, (es2 ++ [(g, d, p)]). split; [by rewrite <- app_assoc|done].
      * apply list_elem_of_singleton in Hi. subst info. cbn.
        exists es, d, []. split; [done|]. intros [[g0 d0] p0] Hin0 Heq. cbn in Heq.
        destruct (Hall _ _ _ Hin0) as (info & Hi & Hh). apply (Hfind info Hi). congruence.
Qed.

Lemma listed_run es : listed es (foldl (λ infos '(g, d, p), add_display g d p infos) [] es).
Proof.
  induction es as [|[[g d] p] es IH] using rev_ind; [apply listed_nil|].
  rewrite foldl_app. cbn. by apply listed_step.
Qed.

Lemma events_snoc (devGroups : list PhysicalDeviceGroup) (devGroup : PhysicalDeviceGroup) :
  events (devGroups ++ [devGroup])
  = events devGroups
    ++ ('(d, displays) ← imap pair devGroup;
        p ← displays; [(Z.of_nat (length devGroups), Z.of_nat d, p)]).
Proof.
  unfold events. rewrite imap_app, bind_app. f_equal. cbn. rewrite app_nil_r.
  by rewrite Nat.add_0_r.
Qed.

(** The reports are in the order of the device groups. *)
Lemma events_ordered (devGroups : list PhysicalDeviceGroup) (i j : nat) ei ej :
  (i ≤ j)%nat → events devGroups !! i = Some ei → events devGroups !! j = Some ej →
  ei.1.1 <= ej.1.1.
Proof.
  revert i j ei ej. induction devGroups as [|devGroup devGroups IH] using rev_ind;
    intros i j ei ej Hij Hi Hj; [done|].
  rewrite events_snoc in Hi, Hj.
  set (last := '(d, displays) ← imap pair devGroup;
               p ← displays; [(Z.of_nat (length devGroups), Z.of_nat d, p)]) in *.
  assert (Hlast : ∀ e, e ∈ last → e.1.1 = Z.of_nat (length devGroups)).
  { intros e He. subst last. apply list_elem_of_bind in He as ([d displays] & He & _).
    apply list_elem_of_bind in He as (p & He & _). apply list_elem_of_singleton in He.
    by subst e. }
  assert (Hfront : ∀ e, e ∈ events devGroups → e.1.1 < Z.of_nat (length devGroups)).
  { intros [[g d] p] He. apply elem_of_events in He
      as (gi & di & grp & displays & -> & -> & Hg & _). cbn.
    apply lookup_lt_Some in Hg. lia. }
  apply lookup_app_Some in Hi as [Hi|[Hli Hi]]; apply lookup_app_Some in Hj as [Hj|[Hlj Hj]].
  - by eapply IH.
  - apply list_elem_of_lookup_2 in Hi, Hj. rewrite (Hlast _ Hj).
    pose proof (Hfront _ Hi). lia.
  - apply lookup_lt_Some in Hj. lia.
  - apply list_elem_of_lookup_2 in Hi, Hj. rewrite (Hlast _ Hi), (Hlast _ Hj). lia.
Qed.

(** X29. [queryTolopogy] lists every display that some physical device
    reports exactly once. The entry has the properties and the device
    group index of a report of the first device group that reports the
    display, and its device indices are those of all physical devices that
    report the display, of whatever device group. *)
Theorem queryTolopogy_lists_each_display_once (devGroups : list PhysicalDeviceGroup) :
  let infos := queryTolopogy devGroups in
  NoDup (display ∘ m_props <$> infos)
  ∧ (∀ g d p, reports devGroups g d p →
              ∃ info, info ∈ infos ∧ display (m_props info) = display p)
  ∧ (∀ info, info ∈ infos →
       (∃ d, reports devGroups (m_deviceGroupIndex info) d (m_props info))
       ∧ (∀ g d p, reports devGroups g d p → display p = display (m_props info) →
                   m_deviceGroupIndex info <= g)
       ∧ ∀ d, d ∈ m_physicalDeviceIndices info
              ↔ ∃ g p, reports devGroups g d p ∧ display p = display (m_props info)).
Proof.
  intros infos. subst infos. rewrite queryTolopogy_events.
  destruct (listed_run (events devGroups)) as [Honce Hall Hidx Hfirst].
  split; [exact Honce|]. split.
  - intros g d p Hr. apply elem_of_events in Hr. by eapply Hall.
  - intros info Hin. destruct (Hfirst info Hin) as (es1 & d1 & es2 & Hes & Hes1).
    split; [|split].
    + exists d1. apply elem_of_events. rewrite Hes. apply elem_of_app. right. by left.
    + intros g d p Hr Hp. apply elem_of_events in Hr.
      apply list_elem_of_lookup in Hr as [j Hj].
      assert (Hi : events devGroups !! length es1
                   = Some (m_deviceGroupIndex info, d1, m_props info)).
      { rewrite Hes. by rewrite list_lookup_middle. }
      destruct (decide (length es1 ≤ j)%nat) as [Hle|Hgt].
      * exact (events_ordered devGroups _ _ _ _ Hle Hi Hj).
      * exfalso. rewrite Hes in Hj. rewrite lookup_app_l in Hj by lia.
        apply list_elem_of_lookup_2 in Hj. by apply (Hes1 _ Hj).
    + intros d. rewrite (Hidx info Hin d). split.
      * intros (g & p & He & Hp). exists g, p. split; [|done]. by apply elem_of_events.
      * intros (g & p & Hr & Hp). exists g, p. split; [|done]. by apply elem_of_events.
Qed.
End TopologyFacts.

Module DisplayEnablingFacts.
Import LogicalDisplay LogicalDisplayFacts Topology DisplayEnabling.
Local Open Scope Z_scope.

Lemma reportsDisplay_spec (displays : PhysicalDevice) (d : nat) :
  reportsDisplay displays d = true ↔ ∃ p, p ∈ displays ∧ display p = d.
Proof.
  unfold reportsDisplay. rewrite existsb_exists. split.
  - intros (p & Hin & Hp). apply bool_decide_eq_true in Hp. exists p.
    split; [by apply list_elem_of_In|done].
  - intros (p & Hin & Hp). exists p. split; [by apply list_elem_of_In|].
    by apply bool_decide_eq_true.
Qed.

Lemma deviceIndicesOf_spec (devices : list PhysicalDevice) (d : nat) (i : Z) :
  i ∈ deviceIndicesOf devices d
  ↔ ∃ (n : nat) displays, i = Z.of_nat n ∧ devices !! n = Some displays
                          ∧ ∃ p, p ∈ displays ∧ display p = d.
Proof.
  unfold deviceIndicesOf. rewrite list_elem_of_join. split.
  - intros (l & Hi & Hl). apply list_elem_of_lookup in Hl as [n Hn].
    rewrite list_lookup_imap in Hn. destruct (devices !! n) as [displays|] eqn:E; [|done].
    cbn in Hn. simplify_eq. destruct (reportsDisplay displays d) eqn:Er.
    + apply list_elem_of_singleton in Hi. exists n, displays.
      split; [done|]. split; [done|]. by apply reportsDisplay_spec.
    + by apply elem_of_nil in Hi.
  - intros (n & displays & -> & Hn & Hp). apply reportsDisplay_spec in Hp.
    exists [Z.of_nat n]. split; [by apply list_elem_of_singleton|].
    apply list_elem_of_lookup. exists n. rewrite list_lookup_imap, Hn. cbn. by rewrite Hp.
Qed.

(** No display is enabled twice, and every logical display has the
    indices of the devices that report its display. *)
Definition enabled_inv (devices : list PhysicalDevice) (st : State) : Prop :=
  NoDup (m_logicalDisplays st).*1
  ∧ ∀ d indices, (d, indices) ∈ m_logicalDisplays st →
                 indices = deviceIndicesOf devices d ∧ indices ≠ [].

Lemma existsb_enabled (l : list LogicalDisplay) (d : nat) :
  existsb (λ logicalDisplay : LogicalDisplay, bool_decide (logicalDisplay.1 = d)) l = true
  ↔ d ∈ l.*1.
Proof.
  rewrite existsb_exists, list_elem_of_fmap. split.
  - intros (x & Hin & Hx). apply bool_decide_eq_true in Hx. exists x.
    split; [done|by apply list_elem_of_In].
  - intros (x & -> & Hin). exists x. split; [by apply list_elem_of_In|].
    by apply bool_decide_eq_true.
Qed.

(** The line a render context logs when it is pushed: the check of
    [pushRenderContext] never fails, so it is the line of the tightly
    packed case. *)
Definition contextLine (driver : Driver) (devices : list PhysicalDevice) (d : nat)
    (deviceIndex : Z) : LogLine :=
  TightlyPacked (length (getPresentRectanglesKHR driver deviceIndex)) deviceIndex
                (displayNameOf (default [] (devices !! Z.to_nat deviceIndex)) d).

Lemma tightlyPacked_true (b : Bounds) (presentRects : list Rect2D) :
  tightlyPacked b presentRects = true.
Proof.
  unfold tightlyPacked.
  generalize (Z.to_nat (maxY b - minY b)). generalize (minY b). intros y fuel. revert y.
  induction fuel as [|fuel IH]; intros y; cbn [for_while]; [done|].
  cbn [andb]. destruct (y <? maxY b); [|done].
  rewrite for_while_not_entered. apply IH.
Qed.

Lemma pushRenderContext_line driver devices d i line :
  pushRenderContext driver devices d i = Some line → line = contextLine driver devices d i.
Proof.
  unfold pushRenderContext, contextLine. intros H.
  destruct (devices !! Z.to_nat i) as [physicalDevice|]; [|done]. cbn in H.
  destruct (bounds_of _) as [b|]; [|done]. cbn in H.
  destruct (renderArea_of b); [|done]. cbn in H.
  rewrite tightlyPacked_true in H. by simplify_eq.
Qed.

Lemma pushRenderContexts_lines driver devices d indices lines :
  pushRenderContexts driver devices d indices = Some lines →
  lines = contextLine driver devices d <$> indices.
Proof.
  revert lines. induction indices as [|i indices IH]; intros lines H; cbn in H.
  - by simplify_eq.
  - destruct (pushRenderContext driver devices d i) as [line|] eqn:E; [|done]. cbn in H.
    destruct (pushRenderContexts driver devices d indices) as [lines'|]; [|done].
    cbn in H. simplify_eq. cbn. f_equal; [by apply pushRenderContext_line|by apply IH].
Qed.

(** What [init] answers and logs for device indices that are not empty. *)
Lemma init_cases driver devices d indices r :
  indices ≠ [] → init driver devices d indices = Some r →
  r = (false, [NoOpaqueAlpha]) ∨ r = (true, contextLine driver devices d <$> indices).
Proof.
  intros Hne H. unfold init in H. destruct indices as [|front rest] eqn:E; [done|].
  rewrite <- E in *. clear E.
  destruct (selectDisplayMode _) as [displayModeProps|]; [|done].
  destruct (list_find _ _) as [foundPlaneIdx|]; [|done]. cbn in H.
  destruct (supportsOpaque _ _ _ _); cbn in H.
  - destruct (pushRenderContexts driver devices d indices) as [lines|] eqn:El; [|done].
    cbn in H. simplify_eq. right. f_equal. by apply pushRenderContexts_lines.
  - simplify_eq. by left.
Qed.

(** The four ways a call of [enableDisplay] returns. *)
Lemma enableDisplay_cases driver devices d st r :
  enableDisplay driver devices d st = Some r →
  (d ∈ (m_logicalDisplays st).*1 ∧ r = (None, logged [TriedToEnableDisplayTwice] st))
  ∨ ((d ∉ (m_logicalDisplays st).*1) ∧ deviceIndicesOf devices d = []
     ∧ r = (None, logged [DisplayNotConnected] st))
  ∨ ((d ∉ (m_logicalDisplays st).*1) ∧ deviceIndicesOf devices d ≠ []
     ∧ r = (None, logged [NoOpaqueAlpha; InitializationFailed] st))
  ∨ ((d ∉ (m_logicalDisplays st).*1) ∧ deviceIndicesOf devices d ≠ []
     ∧ r = (Some (d, deviceIndicesOf devices d),
            mkState (m_logicalDisplays st ++ [(d, deviceIndicesOf devices d)])
                    (log st ++ (contextLine driver devices d <$> deviceIndicesOf devices d)))).
Proof.
  unfold enableDisplay. intros H.
  destruct (existsb _ (m_logicalDisplays st)) eqn:Ee.
  { left. apply existsb_enabled in Ee. by simplify_eq. }
  assert (Hnot : d ∉ (m_logicalDisplays st).*1).
  { intros Hin. apply existsb_enabled in Hin. congruence. }
  right. case_bool_decide as Hnil.
  { left. by simplify_eq. }
  right.
  destruct (init driver devices d (deviceIndicesOf devices d)) as [ri|] eqn:Ei; [|done].
  cbn in H. destruct (init_cases _ _ _ _ _ Hnil Ei) as [-> | ->]; cbn in H; simplify_eq.
  - left. split; [done|]. split; [done|]. unfold logged. cbn. by rewrite <- app_assoc.
  - right. done.
Qed.

Lemma enableDisplay_enabled_inv driver devices d st r :
  enableDisplay driver devices d st = Some r →
  enabled_inv devices st → enabled_inv devices r.2.
Proof.
  intros H [Hnd Hidx].
  destruct (enableDisplay_cases _ _ _ _ _ H)
    as [(_ & ->)|[(_ & _ & ->)|[(_ & _ & ->)|(Hnot & Hne & ->)]]]; [done..|].
  split; cbn [snd m_logicalDisplays].
  - rewrite fmap_app. cbn [fmap list_fmap fst]. apply NoDup_app. split; [done|].
    split; [|apply NoDup_singleton].
    intros x Hx Hx'. apply list_elem_of_singleton in Hx'. by subst x.
  - intros d' indices [Hin|Hin]%elem_of_app; [by apply Hidx|].
    apply list_elem_of_singleton in Hin. by simplify_eq.
Qed.

Lemma run_enabled_inv devices calls st r :
  run devices calls st = Some r →
  enabled_inv devices st → enabled_inv devices r.2.
Proof.
  revert st r. induction calls as [|[driver d] calls IH]; intros st r H Hinv; cbn in H.
  - by simplify_eq.
  - destruct (enableDisplay driver devices d st) as [r1|] eqn:E1; [|done]. cbn in H.
    destruct (run devices calls r1.2) as [r2|] eqn:E2; [|done]. cbn in H. simplify_eq.
    cbn. eapply IH; [done|]. by eapply enableDisplay_enabled_inv.
Qed.

(** X30. On a logical device no display is enabled twice: after any calls
    of [enableDisplay] that returned, the logical displays have pairwise
    different displays, and each was initialized with a non-empty list of
    device indices, the indices of the physical devices that report its
    display. A further call that returns does one of four things. For a
    display that is already enabled it returns a null pointer and logs
    that the display was enabled twice; for a display that no physical
    device of the group reports it returns a null pointer and logs that
    the display is not connected; when [init] fails, which it does for a
    display plane without opaque alpha, it returns a null pointer and the
    log has the line of [init] followed by the line that the
    initialization failed; in these three cases the logical displays stay
    as they are. Otherwise it returns the new logical display, appended
    to the logical displays, and the log has one line of
    [pushRenderContext] for each of its device indices, in their order,
    always the line of the tightly packed case. *)
Theorem enableDisplay_never_twice (devices : list PhysicalDevice)
    (calls : list (Driver * nat)) (results : list (option LogicalDisplay)) (st : State)
    (driver : Driver) (d : nat) :
  run devices calls (mkState [] []) = Some (results, st) →
  let enabled := (m_logicalDisplays st).*1 in
  let indices := deviceIndicesOf devices d in
  NoDup enabled
  ∧ (∀ d' indices', (d', indices') ∈ m_logicalDisplays st →
       indices' ≠ []
       ∧ ∀ i, i ∈ indices'
              ↔ ∃ (n : nat) displays, i = Z.of_nat n ∧ devices !! n = Some displays
                                      ∧ ∃ p, p ∈ displays ∧ display p = d')
  ∧ (d ∈ enabled →
     enableDisplay driver devices d st
     = Some (None, mkState (m_logicalDisplays st) (log st ++ [TriedToEnableDisplayTwice])))
  ∧ (d ∉ enabled → indices = [] →
     enableDisplay driver devices d st
     = Some (None, mkState (m_logicalDisplays st) (log st ++ [DisplayNotConnected])))
  ∧ (∀ r, enableDisplay driver devices d st = Some r →
       match r.1 with
       | None =>
         m_logicalDisplays r.2 = m_logicalDisplays st
         ∧ (d ∈ enabled ∧ log r.2 = log st ++ [TriedToEnableDisplayTwice]
            ∨ (d ∉ enabled) ∧ indices = [] ∧ log r.2 = log st ++ [DisplayNotConnected]
            ∨ (d ∉ enabled) ∧ indices ≠ []
              ∧ log r.2 = log st ++ [NoOpaqueAlpha; InitializationFailed])
       | Some logicalDisplay =>
         (d ∉ enabled) ∧ indices ≠ []
         ∧ logicalDisplay = (d, indices)
         ∧ m_logicalDisplays r.2 = m_logicalDisplays st ++ [logicalDisplay]
         ∧ log r.2
           = log st
             ++ ((λ i, TightlyPacked (length (getPresentRectanglesKHR driver i)) i
                         (displayNameOf (default [] (devices !! Z.to_nat i)) d))
                   <$> indices)
       end).
Proof.
  intros Hrun enabled indices. subst enabled indices.
  assert (Hinv : enabled_inv devices st).
  { apply (run_enabled_inv _ _ _ _ Hrun). split; [constructor|]. intros d' indices Hin.
    by apply elem_of_nil in Hin. }
  destruct Hinv as [Hnd Hidx]. split; [done|]. split.
  { intros d' indices Hin. destruct (Hidx _ _ Hin) as [-> Hne]. split; [done|].
    intros i. apply deviceIndicesOf_spec. }
  split.
  { intros Hin. apply existsb_enabled in Hin. unfold enableDisplay. by rewrite Hin. }
  split.
  { intros Hnot Hnil. unfold enableDisplay.
    destruct (existsb _ (m_logicalDisplays st)) eqn:Ee.
    - apply existsb_enabled in Ee. done.
    - by rewrite bool_decide_eq_true_2. }
  intros r Hr.
  destruct (enableDisplay_cases _ _ _ _ _ Hr)
    as [(Hin & ->)|[(Hnot & Hnil & ->)|[(Hnot & Hne & ->)|(Hnot & Hne & ->)]]]; cbn.
  - split; [done|]. by left.
  - split; [done|]. right. by left.
  - split; [done|]. right. by right.
  - done.
Qed.

Lemma enableDisplay_never_twice_witness :
  let devices := [[mkDisplayPropertiesKHR 5 "a"; mkDisplayPropertiesKHR 6 "b"];
                  [mkDisplayPropertiesKHR 5 "a"]] in
  let opaque := mkDriver (λ _, [mkDisplayModeProperties 1 1920 1080 60]) (λ _, [5%nat; 6%nat])
                         (λ _ _ _, true) (λ _, [mkRect2D 0 0 1920 1080]) in
  let blended := mkDriver (λ _, [mkDisplayModeProperties 1 1920 1080 60]) (λ _, [5%nat; 6%nat])
                          (λ _ _ _, false) (λ _, [mkRect2D 0 0 1920 1080]) in
  run devices [(opaque, 5%nat); (opaque, 5%nat); (opaque, 7%nat); (blended, 6%nat)]
      (mkState [] [])
  = Some ([Some (5%nat, [0; 1]); None; None; None],
          mkState [(5%nat, [0; 1])]
                  [TightlyPacked 1 0 "a"; TightlyPacked 1 1 "a"; TriedToEnableDisplayTwice;
                   DisplayNotConnected; NoOpaqueAlpha; InitializationFailed])
  ∧ NoDup [5%nat]
  ∧ enableDisplay opaque devices 6%nat
      (mkState [(5%nat, [0; 1])]
               [TightlyPacked 1 0 "a"; TightlyPacked 1 1 "a"; TriedToEnableDisplayTwice;
                DisplayNotConnected; NoOpaqueAlpha; InitializationFailed])
    = Some (Some (6%nat, [0]),
            mkState [(5%nat, [0; 1]); (6%nat, [0])]
                    [TightlyPacked 1 0 "a"; TightlyPacked 1 1 "a"; TriedToEnableDisplayTwice;
                     DisplayNotConnected; NoOpaqueAlpha; InitializationFailed;
                     TightlyPacked 1 0 "b"]).
Proof.
  cbn zeta.
  assert (Hrun : run [[mkDisplayPropertiesKHR 5 "a"; mkDisplayPropertiesKHR 6 "b"];
                      [mkDisplayPropertiesKHR 5 "a"]]
                     [(mkDriver (λ _, [mkDisplayModeProperties 1 1920 1080 60])
                                (λ _, [5%nat; 6%nat]) (λ _ _ _, true)
                                (λ _, [mkRect2D 0 0 1920 1080]), 5%nat);
                      (mkDriver (λ _, [mkDisplayModeProperties 1 1920 1080 60])
                                (λ _, [5%nat; 6%nat]) (λ _ _ _, true)
                                (λ _, [mkRect2D 0 0 1920 1080]), 5%nat);
                      (mkDriver (λ _, [mkDisplayModeProperties 1 1920 1080 60])
                                (λ _, [5%nat; 6%nat]) (λ _ _ _, true)
                                (λ _, [mkRect2D 0 0 1920 1080]), 7%nat);
                      (mkDriver (λ _, [mkDisplayModeProperties 1 1920 1080 60])
                                (λ _, [5%nat; 6%nat]) (λ _ _ _, false)
                                (λ _, [mkRect2D 0 0 1920 1080]), 6%nat)]
                     (mkState [] [])
                 = Some ([Some (5%nat, [0; 1]); None; None; None],
                         mkState [(5%nat, [0; 1])]
                                 [TightlyPacked 1 0 "a"; TightlyPacked 1 1 "a";
                                  TriedToEnableDisplayTwice; DisplayNotConnected;
                                  NoOpaqueAlpha; InitializationFailed]))
    by (vm_compute; reflexivity).
  split; [exact Hrun|].
  pose proof (enableDisplay_never_twice _ _ _ _
                (mkDriver (λ _, [mkDisplayModeProperties 1 1920 1080 60])
                          (λ _, [5%nat; 6%nat]) (λ _ _ _, true)
                          (λ _, [mkRect2D 0 0 1920 1080])) 6%nat Hrun) as H.
  cbn zeta in H. destruct H as (Hnd & _). split; [exact Hnd|].
  vm_compute. reflexivity.
Defined.
End DisplayEnablingFacts.
